(** * ncdc: the file-list model, the listener multiplexer, the persistence
      service and the download orchestrator

    A shallow embedding of the parts of [fl_util.c], [listen.c], [db.c] and
    [dl.c] that the specification talks about, followed by the properties
    established for them.

    Conventions.
    - C integers are [Z]; where a conversion can wrap, the wrap is written
      out ([to_int], [to_guint16], [to_guint64], [to_gint64]).
    - A [char *] that holds text is a [string]; a raw buffer is a
      [list byte]; a 24-byte Tiger hash is the 192-bit number it spells.
    - Calls into the operating system, the terminal UI, SQLite and the peer
      session layer are recorded as events, in call order; their answers
      come from an explicit oracle.
    - Heap objects that are shared through pointers ([dl_t], the entries of
      the per-user queues, [listen_bind]) live in a store and are named by
      their address. *)

From Stdlib Require Import ZArith List String Ascii Bool Lia.
From Stdlib Require Strings.Byte.
From stdpp Require Import base option list gmap strings pretty.

Local Open Scope Z_scope.

(** ** Machine integers *)

Definition wrap_unsigned (w x : Z) : Z := x mod 2 ^ w.

Definition wrap_signed (w x : Z) : Z :=
  let y := x mod 2 ^ w in
  if y <? 2 ^ (w - 1) then y else y - 2 ^ w.

Definition to_int (x : Z) : Z := wrap_signed 32 x.
Definition to_guint16 (x : Z) : Z := wrap_unsigned 16 x.
Definition to_guint64 (x : Z) : Z := wrap_unsigned 64 x.
Definition to_gint64 (x : Z) : Z := wrap_signed 64 x.

(** C truth value of an integer. *)
Definition truthy (x : Z) : bool := negb (x =? 0).

(** ** libc and GLib string helpers *)

Definition g_ascii_tolower (c : ascii) : ascii :=
  let n := nat_of_ascii c in
  if ((65 <=? n) && (n <=? 90))%nat then ascii_of_nat (n + 32) else c.

Definition uchar (c : ascii) : Z := Z.of_nat (nat_of_ascii c).

(** [strcmp]: the difference of the first pair of bytes that differ, as
    unsigned chars; only its sign is specified by C. *)
Fixpoint strcmp (a b : string) : Z :=
  match a, b with
  | EmptyString, EmptyString => 0
  | EmptyString, String y _ => 0 - uchar y
  | String x _, EmptyString => uchar x
  | String x a', String y b' =>
      if Ascii.eqb x y then strcmp a' b' else uchar x - uchar y
  end.

Fixpoint g_ascii_strcasecmp (a b : string) : Z :=
  match a, b with
  | EmptyString, EmptyString => 0
  | EmptyString, String y _ => 0 - uchar y
  | String x _, EmptyString => uchar x
  | String x a', String y b' =>
      let c1 := g_ascii_tolower x in
      let c2 := g_ascii_tolower y in
      if Ascii.eqb c1 c2 then g_ascii_strcasecmp a' b' else uchar c1 - uchar c2
  end.

(** [strrchr s c] for [c <> 0]: the suffix of [s] that starts at the last
    occurrence of [c]. *)
Fixpoint strrchr (s : string) (c : ascii) : option string :=
  match s with
  | EmptyString => None
  | String a r =>
      match strrchr r c with
      | Some t => Some t
      | None => if Ascii.eqb a c then Some s else None
      end
  end.

(** A string as C has it: no byte of it is NUL. *)
Fixpoint c_string (s : string) : bool :=
  match s with
  | EmptyString => true
  | String c r => negb (Ascii.eqb c "000"%char) && c_string r
  end.

(** * File lists ([fl_util.c]) *)

Module Fl.

(** [struct fl_list].  A node owns its children; the [parent] back pointer
    is not represented, none of the functions below follows it.  [sub] is
    [None] for the NULL pointer. *)
#[warnings="-register-all"]
Inductive fl_list : Type := Build_fl_list {
  name : string;
  sub : option (list fl_list);
  size : Z;
  tth : Z;
  isfile : bool;
  hastth : bool;
  islocal : bool
}.

(** The loop of [fl_list_isempty] over [fl->sub]. *)
Fixpoint fl_list_isempty_loop (l : list fl_list) : bool :=
  match l with
  | [] => true
  | f :: r =>
      if negb (isfile f) || hastth f then false else fl_list_isempty_loop r
  end.

(** [fl_list_isempty].  [None] stands for the dereference of a NULL [sub],
    which the C code does not guard against. *)
Definition fl_list_isempty (fl : fl_list) : option bool :=
  if isfile fl then Some false   (* g_return_val_if_fail(!fl->isfile, FALSE) *)
  else match sub fl with
       | None => None
       | Some l => Some (fl_list_isempty_loop l)
       end.

(** What the specification calls a subtree containing a file with a TTH:
    the node itself or, recursively, one of its descendants is a file whose
    [hastth] flag is set. *)
Fixpoint subtree_has_hashed_file (fl : fl_list) : bool :=
  (isfile fl && hastth fl)
  || match sub fl with
     | None => false
     | Some l =>
         (fix any (l : list fl_list) : bool :=
            match l with
            | [] => false
            | f :: r => subtree_has_hashed_file f || any r
            end) l
     end.

(** *** Searching *)

(** The regular expressions come from GLib; the model only needs to know
    whether one matches a name. *)
Class Regex := {
  GRegex : Type;
  g_regex_match : GRegex -> string -> bool
}.

Section Search.
Context `{Regex}.

(** [struct fl_search].  [ext] and [and] are NULL-terminated arrays that
    may themselves be NULL, [not] is a possibly-NULL regex.  The fields
    [and] and [not] are spelled [s_and] and [s_not]. *)
Record fl_search := Build_fl_search {
  sizem : Z;
  filedir : Z;
  s_size : Z;
  ext : option (list string);
  s_and : option (list GRegex);
  s_not : option GRegex
}.

(** The first loop of [fl_search_match_name]: every AND keyword has to
    match. *)
Fixpoint and_all_match (l : list GRegex) (n : string) : bool :=
  match l with
  | [] => true
  | r :: l' => if negb (g_regex_match r n) then false else and_all_match l' n
  end.

(** The last loop of [fl_search_match_name], over the extension list. *)
Fixpoint ext_any_match (l : string) (exts : list string) : bool :=
  match exts with
  | [] => false
  | e :: exts' =>
      if g_ascii_strcasecmp l e =? 0 then true else ext_any_match l exts'
  end.

Definition fl_search_match_name (fl : fl_list) (s : fl_search) : bool :=
  if negb (and_all_match (default [] (s_and s)) (name fl)) then false
  else if match s_not s with
          | Some r => g_regex_match r (name fl)
          | None => false
          end then false
  else match ext s with
       | None | Some [] => true
       | Some exts =>
           match strrchr (name fl) "."%char with
           | None => false
           | Some (String _ EmptyString) => false       (* !l[1] *)
           | Some EmptyString => false
           | Some (String _ l) => ext_any_match l exts  (* l++ *)
           end
       end.

(** The macro [fl_search_match(fl, s)]. *)
Definition fl_search_match (fl : fl_list) (s : fl_search) : bool :=
  ((truthy (Z.land (filedir s) 2) && negb (isfile fl))
   || (truthy (Z.land (filedir s) 1) && isfile fl && hastth fl))
  && ((sizem s =? -2)
      || (negb (truthy (sizem s)) && (size fl =? s_size s))
      || ((sizem s <? 0) && (size fl <=? s_size s))
      || ((sizem s >? 0) && (size fl >? s_size s)))
  && fl_search_match_name fl s.

End Search.

(** The expressions that [fl_search_create_and] compiles are escaped
    literals with [G_REGEX_CASELESS]: such an expression matches a name iff
    the literal occurs in it, case aside. *)
Fixpoint caseless_prefix (p s : string) : bool :=
  match p, s with
  | EmptyString, _ => true
  | String a p', String b s' =>
      Ascii.eqb (g_ascii_tolower a) (g_ascii_tolower b) && caseless_prefix p' s'
  | String _ _, EmptyString => false
  end.

Fixpoint caseless_infix (p s : string) : bool :=
  caseless_prefix p s
  || match s with
     | EmptyString => false
     | String _ s' => caseless_infix p s'
     end.

Definition literal_regex : Regex :=
  {| GRegex := string; g_regex_match := caseless_infix |}.

(** *** Reading a list from disk *)

(** [fl_load_fixinput(buf, len)]: the buffer after the call. *)
Fixpoint fl_load_fixinput (buf : list Byte.byte) (len : Z) : list Byte.byte :=
  match buf with
  | [] => []
  | c :: rest =>
      if 1 <? len
      then (if Byte.eqb c Byte.x1d then Byte.x3f else c)
             :: fl_load_fixinput rest (len - 1)
      else buf
  end.

(** The fields of [struct fl_load_context] that [fl_load_input] uses. *)
Record fl_load_context := Build_fl_load_context {
  fh_bz : bool;      (* xc->fh_bz != NULL *)
  fh_f : bool;       (* xc->fh_f != NULL *)
  stream_end : bool;
  err : option string
}.

(** What [BZ2_bzRead] or [fread] answered: the bytes stored at the start of
    the buffer, the return value and, for bzip2, the status. *)
Record read_result := Build_read_result {
  rd_data : list Byte.byte;
  rd_r : Z;
  rd_bzerr : Z
}.

Definition BZ_OK : Z := 0.
Definition BZ_STREAM_END : Z := 4.

Definition stored (rd : read_result) (buf : list Byte.byte) : list Byte.byte :=
  rd_data rd ++ drop (length (rd_data rd)) buf.

(** [fl_load_input(context, buf, len)]: the context and the buffer after
    the call, and the return value.  The first [r] bytes of the buffer are
    what libxml2 parses next. *)
Definition fl_load_input (xc : fl_load_context) (buf : list Byte.byte)
    (len : Z) (rd : read_result) : fl_load_context * list Byte.byte * Z :=
  if stream_end xc then (xc, buf, 0)
  else if fh_bz xc then
    let r := rd_r rd in
    let bzerr := rd_bzerr rd in
    if negb (bzerr =? BZ_OK) && negb (bzerr =? BZ_STREAM_END) then
      (Build_fl_load_context (fh_bz xc) (fh_f xc) (stream_end xc)
         (Some "bzip2 decompression error."%string),
       stored rd buf, -1)
    else
      (Build_fl_load_context (fh_bz xc) (fh_f xc) (bzerr =? BZ_STREAM_END)
         (err xc),
       fl_load_fixinput (stored rd buf) r, r)
  else if fh_f xc then
    let r := rd_r rd in
    (Build_fl_load_context (fh_bz xc) (fh_f xc) (r <=? 0)
       (if r <? 0 then Some "Read error"%string else err xc),
     fl_load_fixinput (stored rd buf) r, r)
  else (xc, buf, -1).

(** The bytes handed to the XML layer by one call. *)
Definition xml_input (res : fl_load_context * list Byte.byte * Z) : list Byte.byte :=
  let '(_, buf, r) := res in take (Z.to_nat r) buf.

(** *** Searching a tree *)

Section SearchTree.
Context `{Regex}.

Definition set_and (v : option (list GRegex)) (s : fl_search) : fl_search :=
  Build_fl_search (sizem s) (filedir s) (s_size s) (ext s) v (s_not s).

(** [fl_search_and_len]. *)
Definition fl_search_and_len (l : option (list GRegex)) : Z :=
  Z.of_nat (length (default [] l)).

(** The first loop of [fl_search_rec]: the AND keywords that are left in
    [nand], those that the name of [parent] does not match; all of them if
    [parent] is the root ([parent->parent] is NULL). *)
Definition weed (has_parent : bool) (nm : string) (l : list GRegex) : list GRegex :=
  List.filter (fun o => negb has_parent || negb (g_regex_match o nm)) l.

(** The second loop of [fl_search_rec], over the children [l] of the
    directory; [rec f m] is the recursive call for the child [f] with room
    for [m] results, [res] are the results stored so far and
    [length res] is the counter [n]. *)
Definition fl_search_rec_loop (rec : fl_list -> Z -> list fl_list) (s : fl_search) (max : Z)
    : list fl_list -> list fl_list -> list fl_list :=
  fix loop (l : list fl_list) (res : list fl_list) {struct l} : list fl_list :=
    match l with
    | [] => res
    | f :: r =>
        if Z.of_nat (length res) <? max then
          let res := if fl_search_match f s then res ++ [f] else res in
          let res :=
            if negb (isfile f) && (Z.of_nat (length res) <? max)
            then res ++ rec f (max - Z.of_nat (length res))
            else res in
          loop r res
        else res
    end.

(** [fl_search_rec(parent, s, res, max)]: the entries [res[0..n-1]] that
    the call stores, [n] being its return value.  [has_parent] tells
    whether [parent->parent] is set.  The counter never exceeds [max], so
    the [int] arithmetic does not wrap. *)
Fixpoint fl_search_rec (has_parent : bool) (parent : fl_list) (s : fl_search) (max : Z)
    {struct parent} : list fl_list :=
  match sub parent with
  | None => []
  | Some l =>
      let s' := set_and (Some (weed has_parent (name parent) (default [] (s_and s)))) s in
      fl_search_rec_loop (fun f m => fl_search_rec true f s' m) s' max l []
  end.

(** [fl_search_match_full(fl, s)].  [anc] holds the names of the ancestors
    that the outer loop visits: [fl->parent] first, the root left out.
    The array [and] has [len] elements; the result is [None] when the
    terminating NULL is stored at index [len], outside of it. *)
Definition fl_search_match_full (anc : list string) (fl : fl_list) (s : fl_search)
    : option bool :=
  let len := fl_search_and_len (s_and s) in
  let nand : list (option GRegex) := map Some (default [] (s_and s)) in
  let nand :=
    fold_left (fun nand p =>
                 map (fun o => match o with
                               | Some r => if g_regex_match r p then None else Some r
                               | None => None
                               end) nand) anc nand in
  let and := omap id nand in
  let j := Z.of_nat (length and) in
  if j <? len
  then Some (fl_search_match fl (set_and (Some and) s))
  else None.

(** *** Notions used in the statements *)

(** The nodes below [fl] that a depth-first walk visits, each with the
    names of the directories on the way to it, the nearest first; [anc]
    are the names for the children of [fl].  The walk does not descend
    into a file. *)
Fixpoint visited (anc : list string) (fl : fl_list) : list (list string * fl_list) :=
  match sub fl with
  | None => []
  | Some l =>
      flat_map (fun f => (anc, f) :: (if isfile f then [] else visited (name f :: anc) f)) l
  end.

(** The AND keywords that none of the names [anc] matches. *)
Definition keep (anc : list string) (l : list GRegex) : list GRegex :=
  List.filter (fun o => negb (existsb (g_regex_match o) anc)) l.

(** A node matches the search on its path: it passes [fl_search_match]
    for the keywords that no directory on the way to it matches. *)
Definition match_on_path (s : fl_search) (x : list string * fl_list) : bool :=
  fl_search_match (snd x) (set_and (Some (keep (fst x) (default [] (s_and s)))) s).

(** The names that the search looks at for the children of [parent]. *)
Definition path_of (has_parent : bool) (parent : fl_list) : list string :=
  if has_parent then [name parent] else [].

End SearchTree.


End Fl.

(** * The listener multiplexer ([listen.c]) *)

Module Listen.

Definition LBT_TLS : Z := 0.
Definition LBT_UDP : Z := 1.
Definition LBT_TCP : Z := 2.

Definition LBT_STR (x : Z) : string :=
  if x =? LBT_TLS then "TLS" else if x =? LBT_UDP then "UDP" else "TCP".

(** [VAR_TLSP_DISABLE] comes from a header that is not part of the sources;
    [db.c] gives the value of the policy it names. *)
Definition VAR_TLSP_DISABLE : Z := 0.

(** [struct listen_bind].  [addr] is the address of the struct, which is
    how [listen_hub_bind] refers to it; [hubs] lists the hub ids of the
    [listen_hub_bind] structs it points to. *)
Record listen_bind := Build_listen_bind {
  addr : N;
  type : Z;
  port : Z;
  ip4 : Z;
  src : Z;
  sock : Z;
  hubs : list Z
}.

Record listen_hub_bind := Build_listen_hub_bind {
  hubid : Z;
  tcp : option N;
  udp : option N;
  tls : option N
}.

Inductive sock_type := SOCK_STREAM | SOCK_DGRAM.

(** An argument of a format string: a string, an int, and the two that
    come from functions outside [listen.c], [ip4_unpack(ip)] and
    [g_strerror(err)], which are kept as the call. *)
Inductive fmt_arg :=
| A_str (s : string)
| A_int (n : Z)
| A_ip4_unpack (ip : Z)
| A_strerror (err : Z).

(** The calls that leave the module, in the order they are made. *)
Inductive event :=
| Ev_socket (ty : sock_type) (ret : Z)      (* socket(AF_INET, ty, 0) *)
| Ev_setsockopt_reuseaddr (fd : Z)          (* setsockopt(fd, SOL_SOCKET, SO_REUSEADDR, 1) *)
| Ev_fcntl_nonblock (fd : Z)                (* fcntl(fd, F_SETFL, flags|O_NONBLOCK) *)
| Ev_bind (fd ip prt err : Z)
| Ev_listen (fd backlog err : Z)
| Ev_close (fd : Z)
| Ev_source_remove (id : Z)
| Ev_source_attach (fd : Z) (udp_handler : bool) (id : Z)
| Ev_ui_mf (fmt : string) (args : list fmt_arg)   (* ui_mf(ui_main, UIP_MED, fmt, args...) *)
| Ev_critical (msg : string).               (* a failed g_return_if_fail *)

(** The answers of the operating system and of the GLib main loop.
    [os_bind] and [os_listen] give 0 on success and [errno] otherwise. *)
Record os_t := Build_os {
  os_socket : sock_type -> Z;
  os_bind : Z -> Z -> Z -> Z;
  os_listen : Z -> Z -> Z;
  os_attach : Z -> Z
}.

(** The globals of [listen.c], the allocator and the event log. *)
Record state := Build_state {
  listen_binds : list listen_bind;
  listen_hub_binds : gmap Z listen_hub_bind;
  random_tcp_port : Z;
  random_udp_port : Z;
  random_tls_port : Z;
  next_addr : N;
  trace : list event
}.

Definition set_binds (l : list listen_bind) (st : state) : state :=
  Build_state l (listen_hub_binds st) (random_tcp_port st) (random_udp_port st)
    (random_tls_port st) (next_addr st) (trace st).

Definition set_hub_binds (m : gmap Z listen_hub_bind) (st : state) : state :=
  Build_state (listen_binds st) m (random_tcp_port st) (random_udp_port st)
    (random_tls_port st) (next_addr st) (trace st).

Definition set_next_addr (n : N) (st : state) : state :=
  Build_state (listen_binds st) (listen_hub_binds st) (random_tcp_port st)
    (random_udp_port st) (random_tls_port st) n (trace st).

Definition emit (e : event) (st : state) : state :=
  Build_state (listen_binds st) (listen_hub_binds st) (random_tcp_port st)
    (random_udp_port st) (random_tls_port st) (next_addr st) (trace st ++ [e]).

(** Dereferencing a [listen_bind] pointer. *)
Definition bind_at (a : N) (st : state) : option listen_bind :=
  List.find (fun b => N.eqb (addr b) a) (listen_binds st).

Definition listen_hub_active (hub : Z) (st : state) : bool :=
  match listen_hub_binds st !! hub with
  | Some b => bool_decide (is_Some (tcp b))
  | None => false
  end.

(** [listen_hub_tcp], [listen_hub_tls] and [listen_hub_udp]: 0 if passive
    or disabled.  [None] is a dangling pointer. *)
Definition hub_port (sel : listen_hub_bind -> option N) (hub : Z) (st : state)
    : option Z :=
  match listen_hub_binds st !! hub with
  | Some b =>
      match sel b with
      | Some a => port <$> bind_at a st
      | None => Some 0
      end
  | None => Some 0
  end.

Definition listen_hub_tcp := hub_port tcp.
Definition listen_hub_tls := hub_port tls.
Definition listen_hub_udp := hub_port udp.

(** *** Startup *)

(** GLib's [g_random_int_range (begin, end)] returns a number in
    [begin .. end-1]; [raw] is the 32-bit draw it is computed from. *)
Definition g_random_int_range (raw begin_ end_ : Z) : Z :=
  begin_ + raw mod (end_ - begin_).

(** The do-while loop of [listen_global_init]; [rng i] is the [i]-th draw
    of the generator.  The loop runs until the draw differs from the TCP
    port, so it needs fuel. *)
Fixpoint draw_tls_port (fuel : nat) (rng : nat -> Z) (i : nat) (tcp_port : Z)
    : option (Z * nat) :=
  match fuel with
  | O => None
  | S fuel' =>
      let p := to_guint16 (g_random_int_range (rng i) 1025 65535) in
      if p =? tcp_port then draw_tls_port fuel' rng (S i) tcp_port
      else Some (p, S i)
  end.

Definition listen_global_init (fuel : nat) (rng : nat -> Z) (st : state)
    : option state :=
  let tcp_port := to_guint16 (g_random_int_range (rng O) 1025 65535) in
  match draw_tls_port fuel rng 1%nat tcp_port with
  | None => None
  | Some (tls_port, i) =>
      let udp_port := to_guint16 (g_random_int_range (rng i) 1025 65535) in
      Some (Build_state (listen_binds st) ∅ tcp_port udp_port tls_port
              (next_addr st) (trace st))
  end.

(** *** Stopping *)

Definition close_bind (lb : listen_bind) (st : state) : state :=
  let st := if truthy (src lb) then emit (Ev_source_remove (src lb)) st else st in
  if truthy (sock lb) then emit (Ev_close (sock lb)) st else st.

Definition listen_stop (st : state) : state :=
  let st := set_hub_binds ∅ st in
  let st := fold_left (fun s lb => close_bind lb s) (listen_binds st) st in
  set_binds [] st.

(** *** Resolution *)

(** The macro [bind_hub_add(lb, h)]: the new value of [*h], and the new
    value of [lb->hubs]. *)
Definition hub_set_bind (ty : Z) (a : N) (h : listen_hub_bind) : listen_hub_bind :=
  if ty =? LBT_TCP then Build_listen_hub_bind (hubid h) (Some a) (udp h) (tls h)
  else if ty =? LBT_UDP then Build_listen_hub_bind (hubid h) (tcp h) (Some a) (tls h)
  else Build_listen_hub_bind (hubid h) (tcp h) (udp h) (Some a).

Definition add_hub (h : Z) (lb : listen_bind) : listen_bind :=
  Build_listen_bind (addr lb) (type lb) (port lb) (ip4 lb) (src lb) (sock lb)
    (h :: hubs lb).

(** What the first loop of [bind_add] finds. *)
Inductive lookup_result :=
| Reuse (before : list listen_bind) (i : listen_bind) (after : list listen_bind)
| Conflict (i : listen_bind)
| Fresh.

Fixpoint bind_lookup (ty ip prt : Z) (before l : list listen_bind) : lookup_result :=
  match l with
  | [] => Fresh
  | i :: rest =>
      if (type i =? ty) && ((ip4 i =? ip) || negb (truthy (ip4 i))) && (port i =? prt)
      then Reuse before i rest
      else if (((ty =? LBT_TLS) && (type i =? LBT_TCP))
               || ((ty =? LBT_TCP) && (type i =? LBT_TLS)))
              && (port i =? prt)
              && (negb (truthy (ip4 i)) || negb (truthy ip) || (ip4 i =? ip))
      then Conflict i
      else bind_lookup ty ip prt (before ++ [i]) rest
  end.

(** The second loop of [bind_add]: binds with the port and type of [lb] are
    dropped from the list, their hubs move to [lb]. *)
Fixpoint bind_merge (lb : listen_bind) (l : list listen_bind)
    (m : gmap Z listen_hub_bind)
    : listen_bind * list listen_bind * gmap Z listen_hub_bind :=
  match l with
  | [] => (lb, [], m)
  | i :: rest =>
      if negb (port i =? port lb) || negb (type i =? type lb) then
        let '(lb', rest', m') := bind_merge lb rest m in (lb', i :: rest', m')
      else
        let lb1 := fold_left (fun acc h => add_hub h acc) (hubs i) lb in
        let m1 := fold_left (fun acc h => alter (hub_set_bind (type lb) (addr lb)) h acc)
                    (hubs i) m in
        bind_merge lb1 rest m1
  end.

Definition random_port (ty : Z) (st : state) : Z :=
  if ty =? LBT_TCP then random_tcp_port st
  else if ty =? LBT_UDP then random_udp_port st
  else random_tls_port st.

(** [bind_add(b, type, ip, port)], with [b] given by its hub id. *)
Definition bind_add (b : Z) (ty ip prt : Z) (st : state) : state :=
  let prt := if negb (truthy prt) then random_port ty st else prt in
  match bind_lookup ty ip prt [] (listen_binds st) with
  | Reuse before i after =>
      let st := set_hub_binds
                  (alter (hub_set_bind (type i) (addr i)) b (listen_hub_binds st)) st in
      set_binds (before ++ add_hub b i :: after) st
  | Conflict i =>
      listen_stop
        (emit (Ev_ui_mf "Active configuration error: %s %s:%d conflicts with %s %s:%d. Switching to passive mode."
                 [A_str (LBT_STR ty); A_ip4_unpack ip; A_int prt;
                  A_str (LBT_STR (type i)); A_ip4_unpack (ip4 i); A_int (port i)]) st)
  | Fresh =>
      let lb := Build_listen_bind (next_addr st) (to_guint16 ty) prt ip 0 0 [] in
      let st := set_next_addr (N.succ (next_addr st)) st in
      let m := alter (hub_set_bind (type lb) (addr lb)) b (listen_hub_binds st) in
      let lb := add_hub b lb in
      let '(lb, rest, m) :=
        if negb (truthy (ip4 lb)) then bind_merge lb (listen_binds st) m
        else (lb, listen_binds st, m) in
      set_binds (lb :: rest) (set_hub_binds m st)
  end.

(** *** Creating the sockets *)

Definition store_bind (lb : listen_bind) (st : state) : state :=
  set_binds (map (fun b => if N.eqb (addr b) (addr lb) then lb else b)
               (listen_binds st)) st.

Definition bind_create (os : os_t) (b : listen_bind) (st : state) : state :=
  let ty := if type b =? LBT_UDP then SOCK_STREAM else SOCK_DGRAM in
  let sock := os_socket os ty in
  let st := emit (Ev_socket ty sock) st in
  if negb (sock <? 0) then
    (* g_return_if_fail(sock < 0) *)
    emit (Ev_critical "bind_create: assertion 'sock < 0' failed") st
  else
    let st := emit (Ev_setsockopt_reuseaddr sock) st in
    let st := emit (Ev_fcntl_nonblock sock) st in
    let err := os_bind os sock (ip4 b) (port b) in
    let st := emit (Ev_bind sock (ip4 b) (port b) err) st in
    let '(err, st) :=
      if negb (truthy err) && negb (type b =? LBT_UDP) then
        let e := os_listen os sock 5 in
        (e, emit (Ev_listen sock 5 e) st)
      else (err, st) in
    if truthy err then
      let st := emit (Ev_ui_mf "Error binding to %s %s:%d, %s. Switching to passive mode."
                        [A_str (if type b =? LBT_UDP then "UDP" else "TCP");
                         A_ip4_unpack (ip4 b); A_int (port b); A_strerror err]) st in
      let st := emit (Ev_close sock) st in
      listen_stop st
    else
      let udp_handler := type b =? LBT_UDP in
      let id := os_attach os sock in
      let st := emit (Ev_source_attach sock udp_handler id) st in
      store_bind (Build_listen_bind (addr b) (type b) (port b) (ip4 b) id sock (hubs b)) st.

(** *** Refreshing *)

(** What [listen_refresh] reads from a tab, from its hub and from the
    configuration of that hub. *)
Record ui_tab := Build_ui_tab {
  is_hub : bool;            (* t->type == UIT_HUB *)
  hub_id : Z;               (* t->hub->id *)
  hub_ip4 : Z;              (* hub_ip4(t->hub) *)
  var_active : bool;
  var_local_address : Z;    (* ip4_pack(var_get(.., VAR_local_address)) *)
  var_active_port : Z;
  var_active_udp_port : Z;
  var_tls_policy : Z;
  var_active_tls_port : Z
}.

Definition stopped (st : state) : bool :=
  bool_decide (size (listen_hub_binds st) = 0%nat).

(** The first loop of [listen_refresh], with its three [break]s. *)
Fixpoint listen_refresh_hubs (tabs : list ui_tab) (st : state) : state :=
  match tabs with
  | [] => st
  | t :: rest =>
      if negb (is_hub t) || negb (truthy (hub_ip4 t)) || negb (var_active t)
      then listen_refresh_hubs rest st
      else
        let b := Build_listen_hub_bind (hub_id t) None None None in
        let st := set_hub_binds (<[hub_id t := b]> (listen_hub_binds st)) st in
        let localip := var_local_address t in
        let st := bind_add (hub_id t) LBT_TCP localip (to_guint16 (var_active_port t)) st in
        if stopped st then st else
        let st := bind_add (hub_id t) LBT_UDP localip (to_guint16 (var_active_udp_port t)) st in
        if stopped st then st else
        if var_tls_policy t >? VAR_TLSP_DISABLE then
          let st := bind_add (hub_id t) LBT_TLS localip (to_guint16 (var_active_tls_port t)) st in
          if stopped st then st else listen_refresh_hubs rest st
        else listen_refresh_hubs rest st
  end.

(** The second loop: [l] walks the list as it was when the loop started and
    stops as soon as [listen_binds] has been emptied. *)
Fixpoint listen_refresh_create (os : os_t) (l : list listen_bind) (st : state) : state :=
  match l with
  | [] => st
  | b :: rest =>
      let st := bind_create os b st in
      match listen_binds st with
      | [] => st
      | _ :: _ => listen_refresh_create os rest st
      end
  end.

Definition listen_refresh (os : os_t) (tabs : list ui_tab) (st : state) : state :=
  let st := listen_stop st in
  let st := listen_refresh_hubs tabs st in
  listen_refresh_create os (listen_binds st) st.

(** *** Notions used in the statements *)

(** The three startup ports of a state. *)
Definition ports (st : state) : Z * Z * Z :=
  (random_tcp_port st, random_udp_port st, random_tls_port st).

(** The port that [listen_global_init] makes of a draw. *)
Definition draw (raw : Z) : Z := to_guint16 (g_random_int_range raw 1025 65535).

(** Any number of refreshes, each with its own tabs. *)
Definition refreshes (os : os_t) (rounds : list (list ui_tab)) (st : state) : state :=
  fold_left (fun s tabs => listen_refresh os tabs s) rounds st.

(** Hub [b] sits on a bind of type [ty] and port [prt]. *)
Definition uses_port (b ty prt : Z) (st : state) : Prop :=
  exists lb, lb ∈ listen_binds st /\ type lb = ty /\ port lb = prt /\ b ∈ hubs lb.

(** Two binds ask for the same port on addresses that overlap (equal, or
    one of them 0.0.0.0), with sockets that share the port space: the same
    type, or TCP and TLS, which are both TCP sockets. *)
Definition clash (a b : listen_bind) : Prop :=
  port a = port b
  /\ (ip4 a = ip4 b \/ ip4 a = 0 \/ ip4 b = 0)
  /\ (type a = type b
      \/ (type a = LBT_TCP /\ type b = LBT_TLS)
      \/ (type a = LBT_TLS /\ type b = LBT_TCP)).

(** No two binds of the list clash. *)
Fixpoint consistent (l : list listen_bind) : Prop :=
  match l with
  | [] => True
  | a :: r => Forall (fun b => ~ clash a b) r /\ consistent r
  end.

(** A tab that [listen_refresh] takes into account: a hub with an address,
    on which we are active. *)
Definition considered (t : ui_tab) : bool :=
  is_hub t && truthy (hub_ip4 t) && var_active t.

(** The hubs that [listen_refresh] puts into the hub table.  The table is
    keyed by the hub id, and inserting an id again frees the struct that
    binds may still point to; the model follows the code as long as the
    ids are distinct. *)
Definition hub_ids (tabs : list ui_tab) : list Z :=
  map hub_id (List.filter considered tabs).

(** The port that [bind_add] uses for a configured port. *)
Definition port_for (ty configured : Z) (st : state) : Z :=
  if truthy (to_guint16 configured) then to_guint16 configured else random_port ty st.

(** The pointer [a] of hub [h] refers to a bind of the list that has type
    [ty] and lists the hub. *)
Definition refers (h : Z) (ty : Z) (a : option N) (st : state) : Prop :=
  forall p, a = Some p ->
    exists lb, lb ∈ listen_binds st /\ addr lb = p /\ type lb = ty /\ h ∈ hubs lb.

(** No hub holds a dangling bind pointer: each pointer refers to a bind of
    its type that lists the hub; the binds have distinct addresses, below
    the next one to be given out, and a type among the three. *)
Definition hub_binds_valid (st : state) : Prop :=
  (forall h b, listen_hub_binds st !! h = Some b ->
     refers h LBT_TCP (tcp b) st /\ refers h LBT_UDP (udp b) st
     /\ refers h LBT_TLS (tls b) st)
  /\ NoDup (map addr (listen_binds st))
  /\ Forall (fun lb => (addr lb < next_addr st)%N
                       /\ (type lb = LBT_TCP \/ type lb = LBT_UDP \/ type lb = LBT_TLS))
       (listen_binds st).

(** Whether the second loop of [bind_add] moves hub [h] to [lb]: some bind
    with the port and type of [lb] lists it. *)
Definition moved (lb : listen_bind) (h : Z) (l : list listen_bind) : bool :=
  existsb (fun i => (port i =? port lb) && (type i =? type lb) && bool_decide (h ∈ hubs i)) l.

End Listen.

(** * The persistence service ([db.c]) *)

Module Db.

Definition DBF_NEXT : Z := 1.
Definition DBF_LAST : Z := 2.
Definition DBF_SINGLE : Z := 4.
Definition DBF_NOCACHE : Z := 8.
Definition DBF_END : Z := 128.

Definition DBQ_END : Z := 0.
Definition DBQ_RES : Z := 6.
Definition DBQ_LASTID : Z := 7.

Definition SQLITE_ERROR : Z := 1.
Definition SQLITE_ROW : Z := 100.
Definition SQLITE_DONE : Z := 101.

(** [flags & f] as a C condition. *)
Definition has_flag (flags f : Z) : bool := truthy (Z.land flags f).

(** A bound parameter of a queued query. *)
Inductive arg :=
| DBQ_NULL
| DBQ_INT (v : Z)
| DBQ_INT64 (v : Z)
| DBQ_TEXT (s : string)
| DBQ_BLOB (d : list Byte.byte).

(** The [int32] that opens an argument in a queue item. *)
Definition arg_type (a : arg) : Z :=
  match a with
  | DBQ_NULL => 1
  | DBQ_INT _ => 2
  | DBQ_INT64 _ => 3
  | DBQ_TEXT _ => 4
  | DBQ_BLOB _ => 5
  end.

(** A request as [db_queue_item_create] is given it: the flags, the query,
    the arguments (a NULL text or blob is passed on as [DBQ_NULL]) and,
    after [DBQ_RES], the reply queue with the requested columns. *)
Record queue_item := Build_queue_item {
  flags : Z;
  query : string;
  args : list arg;
  res : option (N * list Z)
}.

(** What a darray holds, value by value in the order of the
    [darray_add_*] calls. *)
Inductive cell :=
| C_int32 (v : Z)
| C_int64 (v : Z)
| C_string (s : string)
| C_dat (d : list Byte.byte)
| C_query (q : string)           (* the pointer to the query *)
| C_queue (queue : N).           (* the pointer to the reply queue *)

Definition arg_cells (a : arg) : list cell :=
  C_int32 (arg_type a)
  :: match a with
     | DBQ_NULL => []
     | DBQ_INT v => [C_int32 v]
     | DBQ_INT64 v => [C_int64 v]
     | DBQ_TEXT s => [C_string s]
     | DBQ_BLOB d => [C_dat d]
     end.

(** The queue item after the flags and the query: the arguments, the
    reply queue with its columns, and [DBQ_END]. *)
Definition item_body (q : queue_item) : list cell :=
  flat_map arg_cells (args q)
  ++ match res q with
     | Some (queue, cols) => C_int32 DBQ_RES :: C_queue queue :: map C_int32 cols
     | None => []
     end
  ++ [C_int32 DBQ_END].

(** [db_queue_item_create]: the darray that is pushed on [db_queue]. *)
Definition db_queue_item_create (q : queue_item) : list cell :=
  C_int32 (flags q) :: C_query (query q) :: item_body q.

(** [darray_get_int32] and [darray_get_ptr] at a place where the darray
    holds a value of another kind.  What they return there is made of the
    bytes of that value, in the layout of the darray (util.c), and db.c
    does not say what it is.  [stray_scan cells] is how a run of
    [darray_get_int32] calls ends that has come to such a place: with
    [DBQ_END] ([None]), or with [DBQ_RES] and then [p] read as the pointer
    ([Some p]).  [stray_ptr cells] is what [darray_get_ptr] returns
    there. *)
Class Darray := {
  stray_scan : list cell -> option N;
  stray_ptr : list cell -> N
}.

(** The loop [while((t = darray_get_int32(q)) != DBQ_END && t != DBQ_RES)]
    when its body reads nothing, followed by [darray_get_ptr(q)] after
    [DBQ_RES]: the pointer that is taken for the reply queue.  The values
    of the arguments are not skipped: each is read as the type of a next
    argument. *)
Fixpoint skip_to_res `{Darray} (cells : list cell) : option N :=
  match cells with
  | C_int32 t :: rest =>
      if t =? DBQ_END then None
      else if t =? DBQ_RES then
        Some match rest with
             | C_queue queue :: _ => queue
             | _ => stray_ptr rest
             end
      else skip_to_res rest
  | _ => stray_scan cells
  end.

(** An argument all of whose values that loop reads as what they are, and
    goes on: no value but [int32]s, none of them [DBQ_END] or [DBQ_RES]. *)
Definition scannable_arg (a : arg) : bool :=
  match a with
  | DBQ_NULL => true
  | DBQ_INT v => negb (v =? DBQ_END) && negb (v =? DBQ_RES)
  | _ => false
  end.

Definition scannable (q : queue_item) : bool := forallb scannable_arg (args q).

(** A result item: the result code, then the last insert id for
    [SQLITE_DONE] or the columns for [SQLITE_ROW]. *)
Inductive result_item :=
| Final (code : Z) (lastid : option Z)
| Row (columns : list arg).

Inductive event :=
| Ev_begin (r : Z)
| Ev_commit (r : Z)
| Ev_rollback
| Ev_exec (q : queue_item) (nocache transaction : bool) (r : Z)
| Ev_push (queue : N) (item : result_item)      (* g_async_queue_push on a reply queue *)
| Ev_warn (msg : string).

(** SQLite.  [sql_prepare] is [sqlite3_prepare_v2] or, with the statement
    cache, [db_queue_process_prepare]: its result code, 0 for success, and
    the database afterwards.  [sql_run] binds and steps a prepared query
    to its end: the rows it produced, the last result code (never
    [SQLITE_ROW]), the value of [sqlite3_last_insert_rowid] and the
    database afterwards. *)
Class Sqlite := {
  sqlite3 : Type;
  sql_prepare : sqlite3 -> string -> bool -> Z * sqlite3;
  sql_run : sqlite3 -> string -> list arg -> bool -> bool
            -> list (list arg) * Z * Z * sqlite3;
  sql_begin : sqlite3 -> Z * sqlite3;
  sql_commit : sqlite3 -> Z * sqlite3;
  sql_rollback : sqlite3 -> sqlite3
}.

Section Service.
Context `{Sqlite} `{Darray}.

(** The locals of [db_queue_process] that survive an iteration, the
    database and the event log.  [in_trans] is [trans_end.tv_sec != 0]. *)
Record state := Build_state {
  db : sqlite3;
  in_trans : bool;
  donext : bool;
  errtrans : bool;
  trace : list event
}.

Definition emit (e : list event) (st : state) : state :=
  Build_state (db st) (in_trans st) (donext st) (errtrans st) (trace st ++ e).

(** [db_queue_item_final(res, code, lastid)]. *)
Definition db_queue_item_final (res : option N) (code lastid : Z) : list event :=
  match res with
  | None => []
  | Some queue =>
      [Ev_push queue (Final code (if code =? SQLITE_DONE then Some lastid else None))]
  end.

(** [db_queue_item_error(q)], called once the flags have been read. *)
Definition db_queue_item_error (q : queue_item) : list event :=
  db_queue_item_final (skip_to_res (item_body q)) SQLITE_ERROR 0.

(** [db_queue_process_one]: the events, the reply queue, the last insert id
    if it was asked for, the result code and the database.  When the
    statement cannot be prepared, nothing is bound or stepped, and the
    loop over the arguments reads nothing but their types. *)
Definition db_queue_process_one (d : sqlite3) (q : queue_item)
    (nocache transaction : bool) : list event * option N * Z * Z * sqlite3 :=
  let '(rp, d) := sql_prepare d (query q) nocache in
  if truthy rp then
    ([Ev_exec q nocache transaction SQLITE_ERROR], skip_to_res (item_body q),
     0, SQLITE_ERROR, d)
  else
  let '(rows, r, rowid, d') := sql_run d (query q) (args q) nocache transaction in
  let wantlastid :=
    match res q with
    | Some (_, cols) => existsb (Z.eqb DBQ_LASTID) cols
    | None => false
    end in
  let n :=
    match res q with
    | Some (_, cols) => length (filter (fun t => t ≠ DBQ_LASTID) cols)
    | None => O
    end in
  let pushes :=
    match res q with
    | Some (queue, _) =>
        if (n =? 0)%nat then [] else map (fun row => Ev_push queue (Row row)) rows
    | None => []
    end in
  let lastid := if (r =? SQLITE_DONE) && wantlastid then rowid else 0 in
  (Ev_exec q nocache transaction r :: pushes, fst <$> res q, lastid, r, d').

Definition db_queue_process_commit (st : state) : Z * state :=
  let '(r, d) := sql_commit (db st) in
  (r, Build_state d (in_trans st) (donext st) (errtrans st) (trace st ++ [Ev_commit r])).

Definition db_queue_process_begin (st : state) : Z * state :=
  let '(r, d) := sql_begin (db st) in
  (r, Build_state d (in_trans st) (donext st) (errtrans st) (trace st ++ [Ev_begin r])).

Definition db_queue_process_rollback (st : state) : state :=
  Build_state (sql_rollback (db st)) (in_trans st) (donext st) (errtrans st)
    (trace st ++ [Ev_rollback]).

Definition set_ctl (t n e : bool) (st : state) : state :=
  Build_state (db st) t n e (trace st).

Definition run_one (q : queue_item) (nocache transaction : bool) (st : state)
    : option N * Z * Z * state :=
  let '(evs, res, lastid, r, d) := db_queue_process_one (db st) q nocache transaction in
  (res, lastid, r,
   Build_state d (in_trans st) (donext st) (errtrans st) (trace st ++ evs)).

(** One turn of the [while(1)] loop of [db_queue_process]; [q] is what the
    pop returned ([None] for a timeout or an empty queue).  The boolean
    tells whether the loop goes on. *)
Definition db_queue_process_iter (q : option queue_item) (st : state)
    : state * bool :=
  let fl := match q with Some i => flags i | None => 0 end in
  let nocache := has_flag fl DBF_NOCACHE in
  (* Commit state if we need to *)
  let st :=
    if bool_decide (q = None) || has_flag fl DBF_SINGLE || has_flag fl DBF_END then
      let st := if donext st then emit [Ev_warn "!donext"] st else st in
      let st := if in_trans st then snd (db_queue_process_commit st) else st in
      set_ctl false false false st
    else st in
  match q with
  | None => (st, true)
  | Some q =>
      if has_flag fl DBF_END then (st, false)
      else if has_flag fl DBF_SINGLE then
        let '(res, lastid, r, st) := run_one q nocache false st in
        (emit (db_queue_item_final res r lastid) st, true)
      else if errtrans st then
        let st := if donext st then st else emit [Ev_warn "donext"] st in
        let st := emit (db_queue_item_error q) st in
        let st := set_ctl (in_trans st) (has_flag fl DBF_NEXT) (errtrans st) st in
        let st := if donext st then st else set_ctl false (donext st) false st in
        (st, true)
      else if has_flag fl DBF_LAST then
        let '(res, lastid, r, st) := run_one q nocache (in_trans st) st in
        let '(r, st) :=
          if in_trans st then
            let '(r, st) :=
              if r =? SQLITE_DONE then db_queue_process_commit st else (r, st) in
            if r =? SQLITE_DONE then (r, st) else (r, db_queue_process_rollback st)
          else (r, st) in
        let st := set_ctl false false (errtrans st) st in
        (emit (db_queue_item_final res r lastid) st, true)
      else
        let begun :=
          if in_trans st then (true, st)
          else
            let st := set_ctl true (donext st) (errtrans st) st in
            let '(r, st) := db_queue_process_begin st in
            if r =? SQLITE_DONE then (true, st)
            else
              let st :=
                if has_flag fl DBF_NEXT then set_ctl (in_trans st) true true st
                else set_ctl false (donext st) (errtrans st) st in
              (false, emit (db_queue_item_error q) st) in
        let '(ok, st) := begun in
        if negb ok then (st, true)
        else
          let '(res, lastid, r, st) := run_one q nocache true st in
          let st := emit (db_queue_item_final res r lastid) st in
          if r =? SQLITE_DONE then (st, true)
          else
            let st := db_queue_process_rollback st in
            let st :=
              if has_flag fl DBF_NEXT then set_ctl (in_trans st) (donext st) true st
              else set_ctl false (donext st) (errtrans st) st in
            (st, true)
  end.

(** [db_queue_process] on the sequence of pops that the work queue
    delivers. *)
Fixpoint db_queue_process (pops : list (option queue_item)) (st : state) : state :=
  match pops with
  | [] => st
  | q :: rest =>
      let '(st', continue) := db_queue_process_iter q st in
      if continue then db_queue_process rest st' else st'
  end.

(** *** Chains *)

(** A request that takes part in transactions: neither [DBF_SINGLE] nor
    [DBF_END]. *)
Definition transactional (q : queue_item) : bool :=
  negb (has_flag (flags q) DBF_SINGLE) && negb (has_flag (flags q) DBF_END).

Definition chains_next (q : queue_item) : bool := has_flag (flags q) DBF_NEXT.

(** The requests chained to a request that has [DBF_NEXT]: each but the
    last has [DBF_NEXT] itself, the last one ends the chain. *)
Fixpoint is_chain (l : list queue_item) : bool :=
  match l with
  | [] => false
  | [q] => transactional q && negb (chains_next q)
  | q :: r => transactional q && chains_next q && is_chain r
  end.

(** The warning of [g_warn_if_fail(donext)]. *)
Definition warn_donext (st : state) : list event :=
  if donext st then [] else [Ev_warn "donext"].

(** The state in which the service starts, but for the database and the
    log. *)
Definition idle (st : state) : state := set_ctl false false false st.

(** The start of a turn for a normal or NEXT request: the transaction that
    is open is used, or one is begun. *)
Definition begin_for (st : state) : Z * state :=
  if in_trans st then (SQLITE_DONE, st)
  else db_queue_process_begin (set_ctl true (donext st) (errtrans st) st).

Definition is_exec (e : event) : bool :=
  match e with
  | Ev_exec _ _ _ _ => true
  | _ => false
  end.

(** *** Notions for whole runs of the service *)

(** The pushes on reply queues among some events, in order. *)
Definition replies (evs : list event) : list (N * result_item) :=
  omap (fun e => match e with Ev_push qu it => Some (qu, it) | _ => None end) evs.

(** The queries that were run, in order. *)
Definition executed (evs : list event) : list queue_item :=
  omap (fun e => match e with Ev_exec q _ _ _ => Some q | _ => None end) evs.

(** What the owner of the reply queue of [q] is sent for it: any number of
    rows, then one final result; nothing if [q] has no reply queue. *)
Definition reply_of (q : queue_item) (rs : list (N * result_item)) : Prop :=
  match res q with
  | None => rs = []
  | Some (queue, _) =>
      exists rows code lastid,
        rs = map (fun r => (queue, Row r)) rows ++ [(queue, Final code lastid)]
  end.

(** The requests that the loop gets to: those popped before the first
    [DBF_END]. *)
Fixpoint served (pops : list (option queue_item)) : list queue_item :=
  match pops with
  | [] => []
  | None :: rest => served rest
  | Some q :: rest => if has_flag (flags q) DBF_END then [] else q :: served rest
  end.

(** Reading a log with one bit of state, [open]: a transaction is open
    after a BEGIN that succeeded, until the next COMMIT or ROLLBACK.
    [bracketed open evs]: no BEGIN is issued while [open], and a query is run
    in transaction mode exactly when [open]. *)
Fixpoint bracketed (open : bool) (evs : list event) : bool :=
  match evs with
  | [] => true
  | e :: rest =>
      match e with
      | Ev_begin r => negb open && bracketed (r =? SQLITE_DONE) rest
      | Ev_commit _ | Ev_rollback => bracketed false rest
      | Ev_exec _ _ t _ => eqb t open && bracketed open rest
      | _ => bracketed open rest
      end
  end.

Fixpoint open_after (open : bool) (evs : list event) : bool :=
  match evs with
  | [] => open
  | e :: rest =>
      match e with
      | Ev_begin r => open_after (r =? SQLITE_DONE) rest
      | Ev_commit _ | Ev_rollback => open_after false rest
      | _ => open_after open rest
      end
  end.

(** Whether the loop takes a transaction to be open. *)
Definition opn (st : state) : bool := in_trans st && negb (errtrans st).

(** What one turn for the request [q] adds to the log. *)
Definition turn_ok (q : queue_item) (st st' : state) : Prop :=
  exists evs, trace st' = trace st ++ evs
    /\ (scannable q = true -> reply_of q (replies evs))
    /\ (executed evs = [] \/ executed evs = [q])
    /\ bracketed (opn st) evs = true
    /\ opn st' = open_after (opn st) evs.

(** The start of a turn for a timeout, a [DBF_SINGLE] or a [DBF_END]
    request: the open transaction is committed. *)
Definition prelude (st : state) : state :=
  set_ctl false false false
    (let st := if donext st then emit [Ev_warn "!donext"] st else st in
     if in_trans st then snd (db_queue_process_commit st) else st).

(** *** Chains that end in a [DBF_LAST] request *)

(** A request of such a chain but the last: [DBF_NEXT], not [DBF_LAST]. *)
Definition chained (q : queue_item) : bool :=
  transactional q && chains_next q && negb (has_flag (flags q) DBF_LAST).

(** The last request of the chain: [DBF_LAST], not [DBF_NEXT]. *)
Definition closes (q : queue_item) : bool :=
  transactional q && has_flag (flags q) DBF_LAST && negb (chains_next q).

(** The calls that reach SQLite among some events: what is left when the
    pushes on reply queues and the warnings are dropped. *)
Definition is_db_event (e : event) : bool :=
  match e with
  | Ev_push _ _ | Ev_warn _ => false
  | _ => true
  end.

Definition database (evs : list event) : list event := List.filter is_db_event evs.

(** The log entry of a query that was run and succeeded. *)
Definition ran (transaction : bool) (q : queue_item) : event :=
  Ev_exec q (has_flag (flags q) DBF_NOCACHE) transaction SQLITE_DONE.


(** *** Batches *)

(** A request that is run in the transaction that is open: a normal or a
    [DBF_NEXT] request. *)
Definition plain (q : queue_item) : bool :=
  transactional q && negb (has_flag (flags q) DBF_LAST).

(** A BEGIN or a query that did not succeed. *)
Definition failed (e : event) : bool :=
  match e with
  | Ev_begin r | Ev_exec _ _ _ r => negb (r =? SQLITE_DONE)
  | _ => false
  end.

Definition no_failure (evs : list event) : bool := forallb (fun e => negb (failed e)) evs.


End Service.

(** *** The schema *)

(** [db_init_schema] for a new database ([ver == 0]): the requests that it
    pushes while it holds the lock of the queue, six with [DBF_NEXT] and
    one with [DBF_LAST] that asks for a result on the queue [a]. *)
Definition db_init_schema_tables : list queue_item :=
  [ Build_queue_item (Z.lor DBF_NEXT DBF_NOCACHE) "PRAGMA user_version = 1" [] None;
    Build_queue_item (Z.lor DBF_NEXT DBF_NOCACHE)
      ("CREATE TABLE hashdata ("
       ++ "  root TEXT NOT NULL PRIMARY KEY,"
       ++ "  size INTEGER NOT NULL,"
       ++ "  tthl BLOB NOT NULL"
       ++ ")") [] None;
    Build_queue_item (Z.lor DBF_NEXT DBF_NOCACHE)
      ("CREATE TABLE hashfiles ("
       ++ "  id INTEGER PRIMARY KEY,"
       ++ "  filename TEXT NOT NULL UNIQUE,"
       ++ "  tth TEXT NOT NULL,"
       ++ "  lastmod INTEGER NOT NULL"
       ++ ")") [] None;
    Build_queue_item (Z.lor DBF_NEXT DBF_NOCACHE)
      ("CREATE TABLE dl ("
       ++ "  tth TEXT NOT NULL PRIMARY KEY,"
       ++ "  size INTEGER NOT NULL,"
       ++ "  dest TEXT NOT NULL,"
       ++ "  priority INTEGER NOT NULL DEFAULT 0,"
       ++ "  error INTEGER NOT NULL DEFAULT 0,"
       ++ "  error_msg TEXT,"
       ++ "  tthl BLOB"
       ++ ")") [] None;
    Build_queue_item (Z.lor DBF_NEXT DBF_NOCACHE)
      ("CREATE TABLE dl_users ("
       ++ "  tth TEXT NOT NULL,"
       ++ "  uid INTEGER NOT NULL,"
       ++ "  error INTEGER NOT NULL DEFAULT 0,"
       ++ "  error_msg TEXT,"
       ++ "  PRIMARY KEY(tth, uid)"
       ++ ")") [] None;
    Build_queue_item (Z.lor DBF_NEXT DBF_NOCACHE)
      ("CREATE TABLE share ("
       ++ "  name TEXT NOT NULL PRIMARY KEY,"
       ++ "  path TEXT NOT NULL"
       ++ ")") [] None ]%string.

Definition db_init_schema_vars (a : N) : queue_item :=
    Build_queue_item (Z.lor DBF_LAST DBF_NOCACHE)
      ("CREATE TABLE vars ("
       ++ "  name TEXT NOT NULL,"
       ++ "  hub INTEGER NOT NULL DEFAULT 0,"
       ++ "  value TEXT NOT NULL,"
       ++ "  PRIMARY KEY(name, hub)"
       ++ ")")%string [] (Some (a, [])).

Definition db_init_schema_requests (a : N) : list queue_item :=
  db_init_schema_tables ++ [db_init_schema_vars a].

(** *** Hashed files *)

(** [db_fl_addhash(path, size, lastmod, root, tthl, tthl_len)]: the two
    requests that it pushes while it holds the lock of the queue.  [hash]
    is the base32 of [root], [tthl] is [None] for NULL, and [a] is the
    queue on which the function then waits for the id of the new row. *)
Definition db_fl_addhash_hashdata (size : Z) (hash : string)
    (tthl : option (list Byte.byte)) : queue_item :=
  Build_queue_item DBF_NEXT
    "INSERT OR IGNORE INTO hashdata (root, size, tthl) VALUES(?, ?, ?)"
    [DBQ_TEXT hash; DBQ_INT64 (to_gint64 size);
     match tthl with Some d => DBQ_BLOB d | None => DBQ_NULL end] None.

Definition db_fl_addhash_hashfiles (path : string) (lastmod : Z) (hash : string)
    (a : N) : queue_item :=
  Build_queue_item 0
    "INSERT OR REPLACE INTO hashfiles (tth, lastmod, filename) VALUES(?, ?, ?)"
    [DBQ_TEXT hash; DBQ_INT64 (to_gint64 lastmod); DBQ_TEXT path]
    (Some (a, [DBQ_LASTID])).


(** *** The tables that the main thread caches *)

(** The codes of the column types [DBQ_INT64] and [DBQ_TEXT] in the list
    that follows [DBQ_RES]; the names without suffix are the constructors
    of [arg]. *)
Definition DBQ_INT64_col : Z := 3.
Definition DBQ_TEXT_col : Z := 4.

Record db_share_item := Build_db_share_item {
  si_name : string;
  si_path : string
}.

Record db_var_item := Build_db_var_item {
  vi_name : string;
  vi_val : string;
  vi_hub : Z
}.

(** The key of the hash table [db_vars_cache]: [db_vars_cacheeq] compares
    the name and the hub. *)
Definition var_key (i : db_var_item) : string * Z := (vi_name i, vi_hub i).

(** The main thread's side: the requests pushed on [db_queue], oldest
    first, the two caches ([None] for the NULL pointer) and the next reply
    queue that [g_async_queue_new_full] gives out. *)
Record client := Build_client {
  db_queue : list queue_item;
  db_share_cache : option (list db_share_item);
  db_vars_cache : option (gmap (string * Z) string);
  next_queue : N
}.

Definition db_queue_push (q : queue_item) (c : client) : client :=
  Build_client (db_queue c ++ [q]) (db_share_cache c) (db_vars_cache c) (next_queue c).

Definition set_share_cache (l : list db_share_item) (c : client) : client :=
  Build_client (db_queue c) (Some l) (db_vars_cache c) (next_queue c).

Definition set_vars_cache (m : gmap (string * Z) string) (c : client) : client :=
  Build_client (db_queue c) (db_share_cache c) (Some m) (next_queue c).

Definition new_queue (c : client) : N * client :=
  (next_queue c,
   Build_client (db_queue c) (db_share_cache c) (db_vars_cache c) (N.succ (next_queue c))).

Section Cache.

(** The rows that the database thread sends for the two SELECT requests.
    The primary key of [vars] is (name, hub), so that no two of its rows
    have the same key; for rows with the same key [g_hash_table_insert]
    would free the struct that the table keeps as key, and the model only
    follows the code for distinct keys. *)
Variable share_rows : list db_share_item.
Variable vars_rows : list db_var_item.

(** [db_share_list]: the cache, filled on the first call. *)
Definition db_share_list (c : client) : list db_share_item * client :=
  match db_share_cache c with
  | Some l => (l, c)
  | None =>
      let '(a, c) := new_queue c in
      let c := db_queue_push
                 (Build_queue_item DBF_NOCACHE "SELECT name, path FROM share ORDER BY name"
                    [] (Some (a, [DBQ_TEXT_col; DBQ_TEXT_col]))) c in
      (share_rows, set_share_cache share_rows c)
  end.

(** The loop of [db_share_path]. *)
Fixpoint share_find (name : string) (l : list db_share_item) : option string :=
  match l with
  | [] => None
  | i :: r => if strcmp name (si_name i) =? 0 then Some (si_path i) else share_find name r
  end.

Definition db_share_path (name : string) (c : client) : option string * client :=
  let '(l, c) := db_share_list c in (share_find name l, c).

(** The loop of [db_share_rm] for one name: the first item with that name
    is removed. *)
Fixpoint share_remove (name : string) (l : list db_share_item) : list db_share_item :=
  match l with
  | [] => []
  | i :: r => if strcmp name (si_name i) =? 0 then r else i :: share_remove name r
  end.

(** [db_share_rm]; [None] removes everything. *)
Definition db_share_rm (name : option string) (c : client) : client :=
  let '(l, c) := db_share_list c in
  match name with
  | None =>
      db_queue_push (Build_queue_item 0 "DELETE FROM share" [] None) (set_share_cache [] c)
  | Some n =>
      db_queue_push (Build_queue_item 0 "DELETE FROM share WHERE name = ?" [DBQ_TEXT n] None)
        (set_share_cache (share_remove n l) c)
  end.

(** The loop of [db_share_add]: the new item goes before the first item
    with a greater name. *)
Fixpoint share_insert (new : db_share_item) (l : list db_share_item) : list db_share_item :=
  match l with
  | [] => [new]
  | i :: r =>
      if strcmp (si_name i) (si_name new) >? 0 then new :: i :: r
      else i :: share_insert new r
  end.

Definition db_share_add (name path : string) (c : client) : client :=
  let '(l, c) := db_share_list c in
  db_queue_push
    (Build_queue_item 0 "INSERT INTO share (name, path) VALUES (?, ?)"
       [DBQ_TEXT name; DBQ_TEXT path] None)
    (set_share_cache (share_insert (Build_db_share_item name path) l) c).

(** The loop of [db_vars_cacheget] over the rows.  [g_hash_table_insert]
    on a key that is in the table keeps the old key and frees the old
    value, which here is the very struct that holds the old key: the
    table is left with a key in freed memory, [None]. *)
Fixpoint vars_load (rows : list db_var_item) (m : gmap (string * Z) string)
    : option (gmap (string * Z) string) :=
  match rows with
  | [] => Some m
  | i :: r =>
      match m !! var_key i with
      | Some _ => None
      | None => vars_load r (<[var_key i := vi_val i]> m)
      end
  end.

(** [db_vars_cacheget]. *)
Definition db_vars_cacheget (c : client) : option (gmap (string * Z) string * client) :=
  match db_vars_cache c with
  | Some m => Some (m, c)
  | None =>
      let '(a, c) := new_queue c in
      let c := db_queue_push
                 (Build_queue_item DBF_NOCACHE "SELECT name, hub, value FROM vars"
                    [] (Some (a, [DBQ_TEXT_col; DBQ_INT64_col; DBQ_TEXT_col]))) c in
      m ← vars_load vars_rows ∅;
      Some (m, set_vars_cache m c)
  end.

Definition db_vars_get (hub : Z) (name : string) (c : client)
    : option (option string * client) :=
  '(m, c) ← db_vars_cacheget c;
  Some (m !! (name, hub), c).

(** [db_vars_rm].  The [guint64] hub goes through [va_arg(va, gint64)] in
    [db_queue_item_create], so it is queued as a signed number; the cache
    keeps it as it is. *)
Definition db_vars_rm (hub : Z) (name : string) (c : client) : option client :=
  '(m, c) ← db_vars_cacheget c;
  Some (db_queue_push
          (Build_queue_item 0 "DELETE FROM vars WHERE name = ? AND hub = ?"
             [DBQ_TEXT name; DBQ_INT64 (to_gint64 hub)] None)
          (set_vars_cache (delete (name, hub) m) c)).

(** [db_vars_set]; [val] is [None] for NULL. *)
Definition db_vars_set (hub : Z) (name : string) (val : option string) (c : client)
    : option client :=
  match val with
  | None => db_vars_rm hub name c
  | Some v =>
      '(m, c) ← db_vars_cacheget c;
      Some (db_queue_push
              (Build_queue_item 0
                 "INSERT OR REPLACE INTO vars (name, hub, value) VALUES (?, ?, ?)"
                 [DBQ_TEXT name; DBQ_INT64 (to_gint64 hub); DBQ_TEXT v] None)
              (set_vars_cache (<[(name, hub) := v]> m) c))
  end.

(** The macros [conf_set_bool], [conf_exists] and [conf_hub_get], and
    [conf_get_bool]. *)
Definition conf_set_bool (h : Z) (n : string) (v : bool) (c : client) : option client :=
  db_vars_set h n (Some (if v then "true" else "false")%string) c.

Definition conf_exists (h : Z) (n : string) (c : client) : option (bool * client) :=
  '(v, c) ← db_vars_get h n c;
  Some (bool_decide (is_Some v), c).

Definition conf_hub_get (hub : Z) (key : string) (c : client)
    : option (option string * client) :=
  match conf_exists hub key c with
  | Some (e, c) => if e then db_vars_get hub key c else db_vars_get 0 key c
  | None => None
  end.

Definition conf_get_bool (hub : Z) (name : string) (c : client) : option (bool * client) :=
  '(v, c) ← db_vars_get hub name c;
  Some (match v with
        | Some v => strcmp v "true" =? 0
        | None => false
        end, c).

(** *** Notions used in the statements *)

(** The names of a share list are in the order of [strcmp]. *)
Fixpoint share_sorted (l : list db_share_item) : Prop :=
  match l with
  | [] => True
  | i :: r => Forall (fun j => strcmp (si_name i) (si_name j) <= 0) r /\ share_sorted r
  end.

(** The names of a share list are C strings. *)
Definition names_ok (l : list db_share_item) : Prop :=
  Forall (fun i => c_string (si_name i) = true) l.

(** The vars table that some rows make up. *)
Definition vars_of (rows : list db_var_item) : gmap (string * Z) string :=
  list_to_map (map (fun i => (var_key i, vi_val i)) rows).

End Cache.


End Db.

(** * The download orchestrator ([dl.c]) *)

Module Dl.

Definition DLU_NCO : Z := 0.
Definition DLU_EXP : Z := 1.
Definition DLU_IDL : Z := 2.
Definition DLU_ACT : Z := 3.
Definition DLU_WAI : Z := 4.

Definition DLP_ERR : Z := -65.
Definition DLP_OFF : Z := -64.
Definition DLP_VLOW : Z := -2.
Definition DLP_LOW : Z := -1.
Definition DLP_MED : Z := 0.
Definition DLP_HIGH : Z := 1.
Definition DLP_VHIGH : Z := 2.

Definition DLE_NONE : Z := 0.
Definition DLE_INVTTHL : Z := 1.
Definition DLE_NOFILE : Z := 2.
Definition DLE_IO_INC : Z := 3.
Definition DLE_IO_DEST : Z := 4.
Definition DLE_HASH : Z := 5.

Definition DL_MINTTHLSIZE : Z := 2048 * 1024.
Definition DL_MINBLOCKSIZE : Z := 1024 * 1024.

(** [UITDL_ADD] and [UITDL_DEL], the two notifications sent to the UI. *)
Inductive uitdl := UITDL_ADD | UITDL_DEL.

(** What [dl.c] uses from files that are not part of the sources: the
    Tiger tree hash ([tth.c]), base32, the configuration ([vars.c]) and the
    answer of the database to [db_dl_checkhash(root, num, hash)], the query
    whether leaf [num] of the TTHL stored for [root] is [hash]. *)
Class Env := {
  tth_ctx_t : Type;
  tth_init : tth_ctx_t;
  tth_update : tth_ctx_t -> list Byte.byte -> tth_ctx_t;
  tth_final : tth_ctx_t -> Z;
  tth_blocksize : Z -> Z -> Z;
  tiger_uid : Z -> Z;
  base32_encode : Z -> string;
  var_incoming_dir : string;
  var_download_dir : string;
  db_dir : string;
  uid_file_name : Z -> string;
  db_dl_checkhash : Z -> Z -> Z -> bool
}.

(** GLib's [g_build_filename(first, ..., NULL)] on a system whose
    separator is "/", as its documentation and [g_build_path] describe it:
    empty elements are skipped; the separators in front of the first
    element that is not empty and those at the end of the last one are
    kept; at every joint the separators of both sides are replaced by a
    single one; and an element that consists of separators only adds
    nothing of its own, but if it is the first one that is not empty and
    nothing else follows it is the result. *)
Definition is_sep (c : ascii) : bool := Ascii.eqb c "/".

Definition is_empty (s : string) : bool :=
  match s with
  | EmptyString => true
  | _ => false
  end.

Fixpoint skip_seps (s : string) : string :=
  match s with
  | String c r => if is_sep c then skip_seps r else s
  | EmptyString => s
  end.

Fixpoint leading_seps (s : string) : string :=
  match s with
  | String c r => if is_sep c then String c (leading_seps r) else EmptyString
  | EmptyString => EmptyString
  end.

Fixpoint drop_trailing_seps (s : string) : string :=
  match s with
  | EmptyString => EmptyString
  | String c r =>
      let r' := drop_trailing_seps r in
      if is_sep c && is_empty r' then EmptyString else String c r'
  end.

Definition trailing_seps (s : string) : string :=
  let n := String.length (drop_trailing_seps s) in
  substring n (String.length s - n) s.

(** The variables of the loop of [g_build_path]. *)
Record build := Build_build {
  result : string;
  is_first : bool;
  have_leading : bool;
  single_element : option string;
  last_trailing : option string
}.

Definition g_build_path_step (b : build) (element : string) : build :=
  if is_empty element then b   (* Ignore empty elements *)
  else
    let start := skip_seps element in
    let body := drop_trailing_seps start in
    let lt := if is_empty body then element else trailing_seps start in
    let '(res, single) :=
      if negb (have_leading b) then
        ((result b ++ leading_seps element)%string,
         if is_empty body then Some element else single_element b)
      else (result b, None) in
    if is_empty body then Build_build res (is_first b) true single (Some lt)
    else
      let res := if is_first b then res else (res ++ "/")%string in
      Build_build (res ++ body)%string false true single (Some lt).

Definition g_build_filename (elements : list string) : string :=
  let b := fold_left g_build_path_step elements
             (Build_build EmptyString true false None None) in
  match single_element b with
  | Some e => e
  | None => (result b ++ default EmptyString (last_trailing b))%string
  end.

Section Orchestrator.
Context `{Env}.

(** [struct dl_t].  [u] holds the [GSequenceIter] pointers into the users'
    queues; an iterator is identified with the [dl_user_dl_t] it carries.
    The UI pointers [flpar] and [iter] are left out. *)
Record dl_t := Build_dl_t {
  islist : bool;
  hastthl : bool;
  active : bool;
  flopen : bool;
  flmatch : bool;
  dlthread : bool;
  delete : bool;
  prio : Z;
  error : Z;
  incfd : Z;
  error_msg : option string;
  flsel : option string;
  hash : Z;
  u : list N;
  size : Z;
  have : Z;
  inc : string;
  dest : string;
  hash_block : Z;
  hash_tth : option tth_ctx_t
}.

Definition set_hastthl (v : bool) (x : dl_t) : dl_t :=
  Build_dl_t (islist x) v (active x) (flopen x) (flmatch x) (dlthread x)
    (delete x) (prio x) (error x) (incfd x) (error_msg x) (flsel x) (hash x)
    (u x) (size x) (have x) (inc x) (dest x) (hash_block x) (hash_tth x).

Definition set_active (v : bool) (x : dl_t) : dl_t :=
  Build_dl_t (islist x) (hastthl x) v (flopen x) (flmatch x) (dlthread x)
    (delete x) (prio x) (error x) (incfd x) (error_msg x) (flsel x) (hash x)
    (u x) (size x) (have x) (inc x) (dest x) (hash_block x) (hash_tth x).

Definition set_flopen (v : bool) (x : dl_t) : dl_t :=
  Build_dl_t (islist x) (hastthl x) (active x) v (flmatch x) (dlthread x)
    (delete x) (prio x) (error x) (incfd x) (error_msg x) (flsel x) (hash x)
    (u x) (size x) (have x) (inc x) (dest x) (hash_block x) (hash_tth x).

Definition set_flmatch (v : bool) (x : dl_t) : dl_t :=
  Build_dl_t (islist x) (hastthl x) (active x) (flopen x) v (dlthread x)
    (delete x) (prio x) (error x) (incfd x) (error_msg x) (flsel x) (hash x)
    (u x) (size x) (have x) (inc x) (dest x) (hash_block x) (hash_tth x).

Definition set_dlthread (v : bool) (x : dl_t) : dl_t :=
  Build_dl_t (islist x) (hastthl x) (active x) (flopen x) (flmatch x) v
    (delete x) (prio x) (error x) (incfd x) (error_msg x) (flsel x) (hash x)
    (u x) (size x) (have x) (inc x) (dest x) (hash_block x) (hash_tth x).

Definition set_delete (v : bool) (x : dl_t) : dl_t :=
  Build_dl_t (islist x) (hastthl x) (active x) (flopen x) (flmatch x)
    (dlthread x) v (prio x) (error x) (incfd x) (error_msg x) (flsel x) (hash
    x) (u x) (size x) (have x) (inc x) (dest x) (hash_block x) (hash_tth x).

Definition set_prio (v : Z) (x : dl_t) : dl_t :=
  Build_dl_t (islist x) (hastthl x) (active x) (flopen x) (flmatch x)
    (dlthread x) (delete x) v (error x) (incfd x) (error_msg x) (flsel x)
    (hash x) (u x) (size x) (have x) (inc x) (dest x) (hash_block x) (hash_tth
    x).

Definition set_error (v : Z) (x : dl_t) : dl_t :=
  Build_dl_t (islist x) (hastthl x) (active x) (flopen x) (flmatch x)
    (dlthread x) (delete x) (prio x) v (incfd x) (error_msg x) (flsel x) (hash
    x) (u x) (size x) (have x) (inc x) (dest x) (hash_block x) (hash_tth x).

Definition set_incfd (v : Z) (x : dl_t) : dl_t :=
  Build_dl_t (islist x) (hastthl x) (active x) (flopen x) (flmatch x)
    (dlthread x) (delete x) (prio x) (error x) v (error_msg x) (flsel x) (hash
    x) (u x) (size x) (have x) (inc x) (dest x) (hash_block x) (hash_tth x).

Definition set_error_msg (v : option string) (x : dl_t) : dl_t :=
  Build_dl_t (islist x) (hastthl x) (active x) (flopen x) (flmatch x)
    (dlthread x) (delete x) (prio x) (error x) (incfd x) v (flsel x) (hash x)
    (u x) (size x) (have x) (inc x) (dest x) (hash_block x) (hash_tth x).

Definition set_u (v : list N) (x : dl_t) : dl_t :=
  Build_dl_t (islist x) (hastthl x) (active x) (flopen x) (flmatch x)
    (dlthread x) (delete x) (prio x) (error x) (incfd x) (error_msg x) (flsel
    x) (hash x) v (size x) (have x) (inc x) (dest x) (hash_block x) (hash_tth
    x).

Definition set_size (v : Z) (x : dl_t) : dl_t :=
  Build_dl_t (islist x) (hastthl x) (active x) (flopen x) (flmatch x)
    (dlthread x) (delete x) (prio x) (error x) (incfd x) (error_msg x) (flsel
    x) (hash x) (u x) v (have x) (inc x) (dest x) (hash_block x) (hash_tth x).

Definition set_have (v : Z) (x : dl_t) : dl_t :=
  Build_dl_t (islist x) (hastthl x) (active x) (flopen x) (flmatch x)
    (dlthread x) (delete x) (prio x) (error x) (incfd x) (error_msg x) (flsel
    x) (hash x) (u x) (size x) v (inc x) (dest x) (hash_block x) (hash_tth x).

Definition set_inc (v : string) (x : dl_t) : dl_t :=
  Build_dl_t (islist x) (hastthl x) (active x) (flopen x) (flmatch x)
    (dlthread x) (delete x) (prio x) (error x) (incfd x) (error_msg x) (flsel
    x) (hash x) (u x) (size x) (have x) v (dest x) (hash_block x) (hash_tth
    x).

Definition set_hash_block (v : Z) (x : dl_t) : dl_t :=
  Build_dl_t (islist x) (hastthl x) (active x) (flopen x) (flmatch x)
    (dlthread x) (delete x) (prio x) (error x) (incfd x) (error_msg x) (flsel
    x) (hash x) (u x) (size x) (have x) (inc x) (dest x) v (hash_tth x).

Definition set_hash_tth (v : option tth_ctx_t) (x : dl_t) : dl_t :=
  Build_dl_t (islist x) (hastthl x) (active x) (flopen x) (flmatch x)
    (dlthread x) (delete x) (prio x) (error x) (incfd x) (error_msg x) (flsel
    x) (hash x) (u x) (size x) (have x) (inc x) (dest x) (hash_block x) v.

(** [struct dl_user_dl_t]; [dud_dl] is the address of the [dl_t], [dud_u]
    the id of the user whose [dl_user_t] it points to. *)
Record dl_user_dl_t := Build_dl_user_dl_t {
  dud_dl : N;
  dud_u : Z;
  dud_error : Z;
  dud_error_msg : option string
}.

Definition set_dud_error (v : Z) (x : dl_user_dl_t) : dl_user_dl_t :=
  Build_dl_user_dl_t (dud_dl x) (dud_u x) v (dud_error_msg x).

Definition set_dud_error_msg (v : option string) (x : dl_user_dl_t) : dl_user_dl_t :=
  Build_dl_user_dl_t (dud_dl x) (dud_u x) (dud_error x) v.

(** [struct dl_user_t]. *)
Record dl_user_t := Build_dl_user_t {
  du_state : Z;
  du_timeout : Z;
  du_uid : Z;
  du_cc : option N;
  du_queue : list N;
  du_active : option N
}.

Definition set_du_state (v : Z) (x : dl_user_t) : dl_user_t :=
  Build_dl_user_t v (du_timeout x) (du_uid x) (du_cc x) (du_queue x)
    (du_active x).

Definition set_du_timeout (v : Z) (x : dl_user_t) : dl_user_t :=
  Build_dl_user_t (du_state x) v (du_uid x) (du_cc x) (du_queue x)
    (du_active x).

Definition set_du_cc (v : option N) (x : dl_user_t) : dl_user_t :=
  Build_dl_user_t (du_state x) (du_timeout x) (du_uid x) v (du_queue x)
    (du_active x).

Definition set_du_queue (v : list N) (x : dl_user_t) : dl_user_t :=
  Build_dl_user_t (du_state x) (du_timeout x) (du_uid x) (du_cc x) v
    (du_active x).

Definition set_du_active (v : option N) (x : dl_user_t) : dl_user_t :=
  Build_dl_user_t (du_state x) (du_timeout x) (du_uid x) (du_cc x) (du_queue
    x) v.

(** The calls that leave [dl.c].  [Ev_unlink] in [dl_queue_rm] stands for
    the pair [g_file_test(dl->inc, G_FILE_TEST_EXISTS)] and [unlink]: the
    file is removed if it is there. *)
Inductive event :=
| Ev_db_dl_insert (tth size : Z) (dest : string) (prio error : Z) (msg : option string)
| Ev_db_dl_adduser (tth uid error : Z) (msg : option string)
| Ev_db_dl_rm (tth : Z)
| Ev_db_dl_rmuser (uid : Z) (tth : option Z)
| Ev_db_dl_setstatus (tth prio error : Z) (msg : option string)
| Ev_db_dl_setuerr (uid : Z) (tth : option Z) (error : Z) (msg : option string)
| Ev_uit_dl_listchange (dl : N) (change : uitdl)
| Ev_uit_dl_dud_listchange (dud : N) (change : uitdl)
| Ev_cc_disconnect (cc : option N) (force : bool)
| Ev_timeout_add_seconds (seconds uid : Z)
| Ev_source_remove (id : Z)
| Ev_timeout_add_start (ms : Z)
| Ev_close (fd : Z)
| Ev_unlink (path : string)
| Ev_write (fd : Z) (data : list Byte.byte) (ret : Z)
| Ev_lseek (fd off ret : Z)
| Ev_ftruncate (fd len ret : Z)
| Ev_warning (msg : string)
| Ev_critical (msg : string)
| Ev_free_dl (dl : N).

(** The globals [dl_queue], [queue_users] and [dl_queue_needstart], the
    heap of [dl_t] and [dl_user_dl_t] structs, and the event log.  A
    [dl_user_t] is only reachable through [queue_users], so it is kept
    there by value. *)
Record dl_state := Build_dl_state {
  dls : gmap N dl_t;
  duds : gmap N dl_user_dl_t;
  dl_queue : gmap Z N;
  queue_users : gmap Z dl_user_t;
  dl_queue_needstart : bool;
  next_ptr : N;
  trace : list event
}.

Definition set_dls (v : gmap N dl_t) (x : dl_state) : dl_state :=
  Build_dl_state v (duds x) (dl_queue x) (queue_users x) (dl_queue_needstart
    x) (next_ptr x) (trace x).

Definition set_duds (v : gmap N dl_user_dl_t) (x : dl_state) : dl_state :=
  Build_dl_state (dls x) v (dl_queue x) (queue_users x) (dl_queue_needstart
    x) (next_ptr x) (trace x).

Definition set_dl_queue (v : gmap Z N) (x : dl_state) : dl_state :=
  Build_dl_state (dls x) (duds x) v (queue_users x) (dl_queue_needstart x)
    (next_ptr x) (trace x).

Definition set_queue_users (v : gmap Z dl_user_t) (x : dl_state) : dl_state :=
  Build_dl_state (dls x) (duds x) (dl_queue x) v (dl_queue_needstart x)
    (next_ptr x) (trace x).

Definition set_dl_queue_needstart (v : bool) (x : dl_state) : dl_state :=
  Build_dl_state (dls x) (duds x) (dl_queue x) (queue_users x) v (next_ptr
    x) (trace x).

Definition set_next_ptr (v : N) (x : dl_state) : dl_state :=
  Build_dl_state (dls x) (duds x) (dl_queue x) (queue_users x)
    (dl_queue_needstart x) v (trace x).

Definition emit (e : event) (st : dl_state) : dl_state :=
  Build_dl_state (dls st) (duds st) (dl_queue st) (queue_users st)
    (dl_queue_needstart st) (next_ptr st) (trace st ++ [e]).

(** Writes through a pointer; a pointer that no longer points to anything
    leaves the state as it is. *)
Definition upd_dl (p : N) (f : dl_t -> dl_t) (st : dl_state) : dl_state :=
  set_dls (alter f p (dls st)) st.

Definition upd_dud (p : N) (f : dl_user_dl_t -> dl_user_dl_t) (st : dl_state) : dl_state :=
  set_duds (alter f p (duds st)) st.

Definition upd_du (uid : Z) (f : dl_user_t -> dl_user_t) (st : dl_state) : dl_state :=
  set_queue_users (alter f uid (queue_users st)) st.

(** *** The order of a user's queue *)

(** The macro [dl_user_dl_enabled(dud)], with [dud->dl] passed along. *)
Definition dl_user_dl_enabled (dud : dl_user_dl_t) (dl : dl_t) : bool :=
  negb (truthy (dud_error dud)) && (prio dl >? DLP_OFF)
  && ((negb (truthy (size dl)) && islist dl) || negb (size dl =? have dl)).

(** [dl_user_dl_sort(a, b)]; [dx] and [dy] are [x->dl] and [y->dl]. *)
Definition dl_user_dl_sort (x : dl_user_dl_t) (dx : dl_t)
    (y : dl_user_dl_t) (dy : dl_t) : Z :=
  if dl_user_dl_enabled x dx && negb (dl_user_dl_enabled y dy) then -1
  else if negb (dl_user_dl_enabled x dx) && dl_user_dl_enabled y dy then 1
  else if islist dx && negb (islist dy) then -1
  else if negb (islist dx) && islist dy then 1
  else if prio dx >? prio dy then -1
  else if prio dx <? prio dy then 1
  else strcmp (dest dx) (dest dy).

(** The comparison on two pointers into the heap.  The result for a
    dangling pointer is immaterial; 0 is used. *)
Definition dl_user_dl_sort_at (st : dl_state) (a b : N) : Z :=
  match duds st !! a, duds st !! b with
  | Some x, Some y =>
      match dls st !! dud_dl x, dls st !! dud_dl y with
      | Some dx, Some dy => dl_user_dl_sort x dx y dy
      | _, _ => 0
      end
  | _, _ => 0
  end.

(** [g_sequence_insert_sorted] on a sorted sequence: the new element goes
    in front of the first element that compares greater. *)
Fixpoint g_sequence_insert_sorted (cmp : N -> N -> Z) (x : N) (l : list N) : list N :=
  match l with
  | [] => [x]
  | e :: r => if cmp e x >? 0 then x :: l else e :: g_sequence_insert_sorted cmp x r
  end.

Definition g_sequence_remove (x : N) (l : list N) : list N :=
  filter (fun e => e ≠ x) l.

(** [g_sequence_sort_changed]: take the element out and insert it again. *)
Definition g_sequence_sort_changed (cmp : N -> N -> Z) (x : N) (l : list N) : list N :=
  g_sequence_insert_sorted cmp x (g_sequence_remove x l).

(** [g_sequence_sort]: the elements are inserted, first to last, into an
    empty sequence. *)
Definition g_sequence_sort (cmp : N -> N -> Z) (l : list N) : list N :=
  fold_left (fun acc x => g_sequence_insert_sorted cmp x acc) l [].

(** [g_ptr_array_remove_index_fast]: the last element takes the place of
    the removed one. *)
Definition g_ptr_array_remove_index_fast (i : nat) (l : list N) : list N :=
  match l !! i, last l with
  | Some _, Some z => take (length l - 1) (<[i := z]> l)
  | _, _ => l
  end.

(** *** Users *)

(** [dl_queue_start]: schedule [dl_queue_start_do] unless that has been
    done already. *)
Definition dl_queue_start (st : dl_state) : dl_state :=
  if dl_queue_needstart st then st
  else emit (Ev_timeout_add_start 500) (set_dl_queue_needstart true st).

(** [dl_user_setstate(du, state)].  The function reaches [dl_queue_checkrm]
    when the user leaves [DLU_ACT], and [dl_queue_checkrm] reaches
    [dl_user_rm], which calls back with [state = -1]; the knot is tied
    through [checkrm], which stands for [dl_queue_checkrm(.., FALSE)]. *)
Definition dl_user_setstate_with (checkrm : N -> dl_state -> dl_state)
    (uid : Z) (state : Z) (st : dl_state) : dl_state :=
  match queue_users st !! uid with
  | None => st
  | Some du =>
      (* Handle reconnect timeout *)
      let st :=
        if (state >=? 0) && negb (du_state du =? DLU_WAI) && (state =? DLU_WAI) then
          let id := Z.of_N (next_ptr st) in
          let st := set_next_ptr (N.succ (next_ptr st)) st in
          emit (Ev_timeout_add_seconds 60 uid) (upd_du uid (set_du_timeout id) st)
        else if (state >=? 0) && (du_state du =? DLU_WAI) && negb (state =? DLU_WAI) then
          emit (Ev_source_remove (du_timeout du)) st
        else st in
      (* ACT -> x *)
      let st :=
        if (state >=? 0) && (du_state du =? DLU_ACT) && negb (state =? DLU_ACT) then
          match du_active du with
          | Some dud =>
              let st := upd_du uid (set_du_active None) st in
              match duds st !! dud with
              | Some d => checkrm (dud_dl d) (upd_dl (dud_dl d) (set_active false) st)
              | None => st
              end
          | None => st
          end
        else st in
      (* Set state *)
      let st := if state >=? 0 then upd_du uid (set_du_state state) st else st in
      (* Any value in keeping this dl_user struct in memory? *)
      match queue_users st !! uid with
      | Some du' =>
          if (du_state du' =? DLU_NCO) && (length (du_queue du') =? 0)%nat
          then set_queue_users (base.delete uid (queue_users st)) st
          else dl_queue_start st
      | None => st
      end
  end.

(** [dl_user_add(dl, uid, error, error_msg)]. *)
Definition dl_user_add (dl : N) (uid : Z) (e : Z) (emsg : option string)
    (st : dl_state) : dl_state :=
  match dls st !! dl with
  | None => st
  | Some d =>
      if negb (negb (islist d) || (length (u d) =? 0)%nat) then
        emit (Ev_critical "dl_user_add: assertion '!dl->islist || dl->u->len == 0' failed") st
      else
        (* get or create dl_user struct *)
        let st :=
          match queue_users st !! uid with
          | Some _ => st
          | None =>
              set_queue_users
                (<[uid := Build_dl_user_t DLU_NCO 0 uid None [] None]> (queue_users st)) st
          end in
        (* create and fill dl_user_dl struct *)
        let p := next_ptr st in
        let st := set_next_ptr (N.succ p) st in
        let st := set_duds (<[p := Build_dl_user_dl_t dl uid e emsg]> (duds st)) st in
        (* Add to du->queue and dl->u *)
        let st := upd_du uid (fun du =>
                    set_du_queue
                      (g_sequence_insert_sorted (dl_user_dl_sort_at st) p (du_queue du)) du) st in
        let st := upd_dl dl (fun d => set_u (u d ++ [p]) d) st in
        emit (Ev_uit_dl_dud_listchange p UITDL_ADD) st
  end.

(** [dl_user_rm(dl, i)].  The call of [cc_disconnect] is recorded.  The
    peer session calls [dl_user_cc(uid, NULL)] back before it returns;
    that call is not part of this definition, in which [dl_user_cc] is
    an operation of its own. *)
Definition dl_user_rm (dl : N) (i : nat) (st : dl_state) : dl_state :=
  match dls st !! dl with
  | None => st
  | Some d =>
      match u d !! i with
      | None => st
      | Some dudi =>
          match duds st !! dudi with
          | None => st
          | Some dud =>
              let uid := dud_u dud in
              match queue_users st !! uid with
              | None => st
              | Some du =>
                  let st :=
                    if bool_decide (du_active du = Some dudi) then
                      let st := emit (Ev_cc_disconnect (du_cc du) true) st in
                      let st := upd_du uid (set_du_active None) st in
                      upd_dl dl (set_active false) st
                    else st in
                  let st := emit (Ev_uit_dl_dud_listchange dudi UITDL_DEL) st in
                  let st := upd_du uid (fun du =>
                              set_du_queue (g_sequence_remove dudi (du_queue du)) du) st in
                  let st := set_duds (base.delete dudi (duds st)) st in
                  let st := upd_dl dl (fun d =>
                              set_u (g_ptr_array_remove_index_fast i (u d)) d) st in
                  dl_user_setstate_with (fun _ s => s) uid (-1) st
              end
          end
      end
  end.

(** *** Removing records *)

(** The loop [while(dl->u->len > 0) dl_user_rm(dl, 0)] of [dl_queue_rm];
    [n] bounds the number of turns. *)
Fixpoint dl_queue_rm_users (n : nat) (dl : N) (st : dl_state) : dl_state :=
  match n with
  | O => st
  | S n' =>
      match dls st !! dl with
      | Some d =>
          if (0 <? length (u d))%nat then dl_queue_rm_users n' dl (dl_user_rm dl 0 st)
          else st
      | None => st
      end
  end.

(** [dl_queue_rm(dl)]. *)
Definition dl_queue_rm (dl : N) (st : dl_state) : dl_state :=
  match dls st !! dl with
  | None => st
  | Some d0 =>
      let st := upd_dl dl (set_delete true) st in
      (* remove from the user info *)
      let st := dl_queue_rm_users (length (u d0)) dl st in
      (* remove from dl list, if it's still in there *)
      let st :=
        match dl_queue st !! hash d0 with
        | Some _ =>
            let st := emit (Ev_uit_dl_listchange dl UITDL_DEL) st in
            set_dl_queue (base.delete (hash d0) (dl_queue st)) st
        | None => st
        end in
      match dls st !! dl with
      | None => st
      | Some d =>
          if dlthread d then st
          else
            let st := if negb (islist d) then emit (Ev_db_dl_rm (hash d)) st else st in
            let st := if incfd d >? 0 then emit (Ev_close (incfd d)) st else st in
            let st := emit (Ev_unlink (inc d)) st in
            emit (Ev_free_dl dl) (set_dls (base.delete dl (dls st)) st)
      end
  end.

(** [g_sequence_sort_changed] on the iterator [iter], in the queue of the
    user it belongs to. *)
Definition resort (iter : N) (st : dl_state) : dl_state :=
  match duds st !! iter with
  | Some dud =>
      upd_du (dud_u dud) (fun du =>
        set_du_queue (g_sequence_sort_changed (dl_user_dl_sort_at st) iter (du_queue du)) du) st
  | None => st
  end.

(** The loop of [dl_queue_checkrm] for [justfin]. *)
Fixpoint dl_queue_checkrm_loop (fuel : nat) (dl : N) (i : nat) (st : dl_state) : dl_state :=
  match fuel with
  | O => st
  | S fuel' =>
      match dls st !! dl with
      | None => st
      | Some d =>
          match u d !! i with
          | None => st
          | Some iter =>
              let is_active :=
                match duds st !! iter with
                | Some dud =>
                    match queue_users st !! dud_u dud with
                    | Some du => bool_decide (du_active du = Some iter)
                    | None => false
                    end
                | None => false
                end in
              if negb is_active then dl_queue_checkrm_loop fuel' dl i (dl_user_rm dl i st)
              else dl_queue_checkrm_loop fuel' dl (S i) (resort iter st)
          end
      end
  end.

(** [dl_queue_checkrm(dl, justfin)]. *)
Definition dl_queue_checkrm (dl : N) (justfin : bool) (st : dl_state) : dl_state :=
  match dls st !! dl with
  | None => st
  | Some d =>
      if delete d then st
      else if justfin && dlthread d then
        emit (Ev_critical "dl_queue_checkrm: assertion '!dl->dlthread' failed") st
      else
        let st :=
          if justfin then
            let st := if negb (islist d) then emit (Ev_db_dl_rm (hash d)) st else st in
            dl_queue_checkrm_loop (length (u d)) dl 0 st
          else st in
        match dls st !! dl with
        | None => st
        | Some d =>
            if negb (active d) && negb (dlthread d)
               && (truthy (size d) || negb (islist d)) && (have d =? size d)
            then dl_queue_rm dl st
            else st
        end
  end.

Definition dl_user_setstate : Z -> Z -> dl_state -> dl_state :=
  dl_user_setstate_with (fun dl => dl_queue_checkrm dl false).

(** [dl_user_cc(uid, cc)]. *)
Definition dl_user_cc (uid : Z) (cc : option N) (st : dl_state) : dl_state :=
  match queue_users st !! uid with
  | None => st
  | Some du =>
      if negb (bool_decide (cc = None) || (du_state du =? DLU_NCO)
               || (du_state du =? DLU_EXP) || (du_state du =? DLU_ACT)) then
        emit (Ev_critical "dl_user_cc: assertion failed") st
      else
        let st := upd_du uid (set_du_cc cc) st in
        dl_user_setstate uid (if bool_decide (cc = None) then DLU_WAI else DLU_IDL) st
  end.

(** [dl_user_waitdone]. *)
Definition dl_user_waitdone (uid : Z) (st : dl_state) : dl_state :=
  match queue_users st !! uid with
  | None => st
  | Some du =>
      if negb (du_state du =? DLU_WAI) then
        emit (Ev_critical "dl_user_waitdone: assertion 'du->state == DLU_WAI' failed") st
      else dl_user_setstate uid DLU_NCO st
  end.

(** *** Adding records *)

(** A [dl_t] fresh from [g_slice_new0]. *)
Definition dl_new0 : dl_t :=
  Build_dl_t false false false false false false false 0 0 0 None None 0 [] 0 0
    "" "" 0 None.

(** [dl_queue_insert(dl, init)]. *)
Definition dl_queue_insert (dl : N) (init : bool) (st : dl_state) : dl_state :=
  match dls st !! dl with
  | None => st
  | Some d =>
      (* Set dl->hastthl for files smaller than MINTTHLSIZE. *)
      let d :=
        if negb (islist d) && negb (hastthl d) && (size d <=? DL_MINTTHLSIZE)
        then set_hash_block DL_MINTTHLSIZE (set_hastthl true d)
        else d in
      let d := set_inc (g_build_filename [var_incoming_dir; base32_encode (hash d)]) d in
      let d := set_u [] d in
      let st := set_dls (<[dl := d]> (dls st)) st in
      let st := set_dl_queue (<[hash d := dl]> (dl_queue st)) st in
      let st := emit (Ev_uit_dl_listchange dl UITDL_ADD) st in
      let st :=
        if negb (islist d) && negb init
        then emit (Ev_db_dl_insert (hash d) (size d) (dest d) (prio d) (error d) (error_msg d)) st
        else st in
      if negb init then dl_queue_start st else st
  end.

(** Allocation of a [dl_t]. *)
Definition dl_alloc (d : dl_t) (st : dl_state) : N * dl_state :=
  let p := next_ptr st in
  (p, set_dls (<[p := d]> (dls st)) (set_next_ptr (N.succ p) st)).

(** [dl_queue_addlist(u, sel, parent, open, match)]; of [u] the function
    reads [u->uid] and [u->hasinfo]. *)
Definition dl_queue_addlist (uid : Z) (hasinfo : bool) (sel : option string)
    (open match_ : bool) (st : dl_state) : dl_state :=
  if negb hasinfo then emit (Ev_critical "dl_queue_addlist: assertion 'u && u->hasinfo' failed") st
  else
    let h := tiger_uid uid in
    match dl_queue st !! h with
    | Some dup =>
        let st := if open then upd_dl dup (set_flopen true) st else st in
        let st := if match_ then upd_dl dup (set_flmatch true) st else st in
        emit (Ev_warning "files.xml.bz2 already in the queue, updating flags.") st
    | None =>
        let d := Build_dl_t true false false open match_ false false 0 0 0 None sel
                   h [] 0 0 ""
                   (g_build_filename [db_dir; "fl"; uid_file_name uid])
                   0 None in
        let '(dl, st) := dl_alloc d st in
        let st := dl_queue_insert dl false st in
        dl_user_add dl uid 0 None st
    end.

(** [dl_queue_addfile(uid, hash, size, fn)], with its return value. *)
Definition dl_queue_addfile (uid : Z) (h : Z) (sz : Z) (fn : string)
    (st : dl_state) : bool * dl_state :=
  match dl_queue st !! h with
  | Some _ => (false, st)
  | None =>
      let d := Build_dl_t false false false false false false false 0 0 0 None None
                 h [] sz 0 "" (g_build_filename [var_download_dir; fn]) 0 None in
      let '(dl, st) := dl_alloc d st in
      let st := dl_queue_insert dl false st in
      let st := dl_user_add dl uid 0 None st in
      (true, emit (Ev_db_dl_adduser h uid 0 None) st)
  end.

(** The search of [dl_queue_matchfile] and [dl_queue_rmuser] through
    [dl->u] for the entry of a user: its index. *)
Fixpoint find_user (st : dl_state) (uid : Z) (l : list N) (i : nat) : option nat :=
  match l with
  | [] => None
  | p :: r =>
      match duds st !! p with
      | Some dud => if dud_u dud =? uid then Some i else find_user st uid r (S i)
      | None => find_user st uid r (S i)
      end
  end.

(** [dl_queue_matchfile(uid, tth)]. *)
Definition dl_queue_matchfile (uid : Z) (tth : Z) (st : dl_state) : Z * dl_state :=
  match dl_queue st !! tth with
  | None => (-1, st)
  | Some dl =>
      match dls st !! dl with
      | None => (-1, st)
      | Some d =>
          match find_user st uid (u d) 0 with
          | Some _ => (0, st)
          | None =>
              let st := dl_user_add dl uid 0 None st in
              let st := emit (Ev_db_dl_adduser (hash d) uid 0 None) st in
              (1, dl_queue_start st)
          end
      end
  end.

(** *** Priorities and errors *)

(** [dl_queue_setprio(dl, prio)]. *)
Definition dl_queue_setprio (dl : N) (p : Z) (st : dl_state) : dl_state :=
  match dls st !! dl with
  | None => st
  | Some d =>
      let enabled := (prio d <=? DLP_OFF) && (p >? DLP_OFF) in
      let st := upd_dl dl (set_prio p) st in
      let st := emit (Ev_db_dl_setstatus (hash d) p (error d) (error_msg d)) st in
      let st := fold_left (fun s iter => resort iter s) (u d) st in
      if enabled then dl_queue_start st else st
  end.

(** The macro [dl_queue_seterr(dl, e, sub)]. *)
Definition dl_queue_seterr (dl : N) (e : Z) (sub : option string) (st : dl_state) : dl_state :=
  let st := upd_dl dl (fun d => set_error_msg sub (set_error e d)) st in
  let st := dl_queue_setprio dl DLP_ERR st in
  emit (Ev_warning "Download failed") st.

(** [dl_queue_setuerr(uid, tth, e, emsg)].  After the guard [dl] is never
    NULL, so the branch that handles all files of a user cannot be
    reached. *)
Definition dl_queue_setuerr (uid : Z) (tth : option Z) (e : Z) (emsg : option string)
    (st : dl_state) : dl_state :=
  let dl := tth ≫= (fun t => dl_queue st !! t) in
  let du := queue_users st !! uid in
  match dl with
  | None => st
  | Some dl =>
      if bool_decide (tth ≠ None) && bool_decide (du = None) then st
      else
        let st :=
          match dls st !! dl with
          | Some d =>
              match find_user st uid (u d) 0 ≫= (fun i => u d !! i) with
              | Some iter =>
                  let st := upd_dud iter (fun x => set_dud_error_msg emsg (set_dud_error e x)) st in
                  resort iter st
              | None => st
              end
          | None => st
          end in
        let st := emit (Ev_db_dl_setuerr uid tth e emsg) st in
        dl_queue_start st
  end.

(** The body of both branches of [dl_queue_rmuser] for one record: remove
    the entry of the user and, for a file list that is left without a
    user, the record. *)
Definition rmuser_from (which : dl_state -> list N -> option nat) (dl : N)
    (st : dl_state) : dl_state :=
  let st :=
    match dls st !! dl with
    | Some d =>
        match which st (u d) with
        | Some i => dl_user_rm dl i st
        | None => st
        end
    | None => st
    end in
  match dls st !! dl with
  | Some d =>
      if islist d && (length (u d) =? 0)%nat then dl_queue_rm dl st else st
  | None => st
  end.

Fixpoint index_of (x : N) (l : list N) (i : nat) : option nat :=
  match l with
  | [] => None
  | p :: r => if N.eqb p x then Some i else index_of x r (S i)
  end.

(** One turn of the loop of [dl_queue_rmuser] over the queue of the user:
    the entry [i] is looked up in the [u] of its own record. *)
Definition rmuser_turn (i : N) (s : dl_state) : dl_state :=
  match duds s !! i with
  | Some dud => rmuser_from (fun _ l => index_of i l 0) (dud_dl dud) s
  | None => s
  end.

(** [dl_queue_rmuser(uid, tth)]. *)
Definition dl_queue_rmuser (uid : Z) (tth : option Z) (st : dl_state) : dl_state :=
  let dl := tth ≫= (fun t => dl_queue st !! t) in
  match queue_users st !! uid with
  | None => st
  | Some du =>
      if bool_decide (tth ≠ None) && bool_decide (dl = None) then st
      else
        let st :=
          match dl with
          | Some dl =>
              (* from a single dl item *)
              rmuser_from (fun s l => find_user s uid l 0) dl st
          | None =>
              (* from all dl items *)
              fold_left (fun s i => rmuser_turn i s) (du_queue du) st
          end in
        emit (Ev_db_dl_rmuser uid tth) st
  end.

(** *** Loading the queue *)

(** [dl_load_dl(tth, size, dest, prio, error, error_msg, tthllen)]. *)
Definition dl_load_dl (tth sz : Z) (dst : option string) (p e : Z)
    (emsg : option string) (tthllen : Z) (st : dl_state) : dl_state :=
  match dst with
  | None => emit (Ev_critical "dl_load_dl: assertion 'dest' failed") st
  | Some dst =>
      let d := Build_dl_t false false false false false false false p e 0 emsg None
                 tth [] sz 0 "" dst 0 None in
      let d :=
        if sz <? DL_MINTTHLSIZE then set_hash_block DL_MINTTHLSIZE (set_hastthl true d)
        else if truthy tthllen
        then set_hash_block (tth_blocksize sz (tthllen / 24)) (set_hastthl true d)
        else d in
      let '(dl, st) := dl_alloc d st in
      dl_queue_insert dl true st
  end.

(** [dl_load_dlu(tth, uid, error, error_msg)]. *)
Definition dl_load_dlu (tth uid e : Z) (emsg : option string) (st : dl_state) : dl_state :=
  match dl_queue st !! tth with
  | None => emit (Ev_critical "dl_load_dlu: assertion 'dl' failed") st
  | Some dl => dl_user_add dl uid e emsg st
  end.

(** *** The operations, as one type *)

Inductive dl_op :=
| Op_queue_addlist (uid : Z) (hasinfo : bool) (sel : option string) (open match_ : bool)
| Op_queue_addfile (uid tth size : Z) (fn : string)
| Op_queue_matchfile (uid tth : Z)
| Op_queue_rm (dl : N)
| Op_queue_checkrm (dl : N) (justfin : bool)
| Op_queue_setprio (dl : N) (prio : Z)
| Op_queue_seterr (dl : N) (e : Z) (sub : option string)
| Op_queue_setuerr (uid : Z) (tth : option Z) (e : Z) (emsg : option string)
| Op_queue_rmuser (uid : Z) (tth : option Z)
| Op_queue_start
| Op_user_add (dl : N) (uid e : Z) (emsg : option string)
| Op_user_rm (dl : N) (i : nat)
| Op_user_setstate (uid state : Z)
| Op_user_cc (uid : Z) (cc : option N)
| Op_user_waitdone (uid : Z)
| Op_load_dl (tth size : Z) (dest : option string) (prio e : Z)
    (emsg : option string) (tthllen : Z)
| Op_load_dlu (tth uid e : Z) (emsg : option string).

Definition run_op (op : dl_op) (st : dl_state) : dl_state :=
  match op with
  | Op_queue_addlist uid hasinfo sel open match_ =>
      dl_queue_addlist uid hasinfo sel open match_ st
  | Op_queue_addfile uid tth sz fn => snd (dl_queue_addfile uid tth sz fn st)
  | Op_queue_matchfile uid tth => snd (dl_queue_matchfile uid tth st)
  | Op_queue_rm dl => dl_queue_rm dl st
  | Op_queue_checkrm dl justfin => dl_queue_checkrm dl justfin st
  | Op_queue_setprio dl p => dl_queue_setprio dl p st
  | Op_queue_seterr dl e sub => dl_queue_seterr dl e sub st
  | Op_queue_setuerr uid tth e emsg => dl_queue_setuerr uid tth e emsg st
  | Op_queue_rmuser uid tth => dl_queue_rmuser uid tth st
  | Op_queue_start => dl_queue_start st
  | Op_user_add dl uid e emsg => dl_user_add dl uid e emsg st
  | Op_user_rm dl i => dl_user_rm dl i st
  | Op_user_setstate uid state => dl_user_setstate uid state st
  | Op_user_cc uid cc => dl_user_cc uid cc st
  | Op_user_waitdone uid => dl_user_waitdone uid st
  | Op_load_dl tth sz dst p e emsg tthllen => dl_load_dl tth sz dst p e emsg tthllen st
  | Op_load_dlu tth uid e emsg => dl_load_dlu tth uid e emsg st
  end.

(** *** Receiving data *)

(** [struct recv_ctx_t], without the [fadv_t] that only advises the kernel
    about the page cache. *)
Record recv_ctx_t := Build_recv_ctx_t {
  c_dl : N;
  c_uid : Z;
  err_msg : option string;
  uerr_msg : option string;
  err : Z;
  uerr : Z
}.

Definition set_err_msg (v : option string) (x : recv_ctx_t) : recv_ctx_t :=
  Build_recv_ctx_t (c_dl x) (c_uid x) v (uerr_msg x) (err x) (uerr x).

Definition set_uerr_msg (v : option string) (x : recv_ctx_t) : recv_ctx_t :=
  Build_recv_ctx_t (c_dl x) (c_uid x) (err_msg x) v (err x) (uerr x).

Definition set_err (v : Z) (x : recv_ctx_t) : recv_ctx_t :=
  Build_recv_ctx_t (c_dl x) (c_uid x) (err_msg x) (uerr_msg x) v (uerr x).

Definition set_uerr (v : Z) (x : recv_ctx_t) : recv_ctx_t :=
  Build_recv_ctx_t (c_dl x) (c_uid x) (err_msg x) (uerr_msg x) (err x) v.


(** The answers of the operating system for the incoming file: [write]
    gives the number of bytes written or a negative number, [lseek] and
    [ftruncate] give -1 on failure. *)
Record io_t := Build_io {
  io_write : Z -> list Byte.byte -> Z;
  io_lseek : Z -> Z -> Z;
  io_ftruncate : Z -> Z -> Z
}.

Definition len (buf : list Byte.byte) : Z := Z.of_nat (length buf).

(** [dl_recv_check(dl, num, tth)]. *)
Definition dl_recv_check (dl : dl_t) (num : Z) (tth : Z) : bool :=
  if size dl <? hash_block dl then
    if negb (num =? 0) then false      (* g_return_val_if_fail(num == 0, FALSE) *)
    else tth =? hash dl
  else db_dl_checkhash (hash dl) num tth.

(** The [while(length > 0)] loop of [dl_recv_update]: the TTH state after
    it and the return value.  A turn that consumes nothing is followed by
    the same turn again, so the loop needs fuel. *)
Fixpoint dl_recv_update_loop (fuel : nat) (dl : dl_t) (ctx : tth_ctx_t)
    (block cur : Z) (buf : list Byte.byte) : option (tth_ctx_t * Z) :=
  if len buf >? 0 then
    match fuel with
    | O => None
    | S fuel' =>
        let w := to_int (Z.min (to_guint64 (hash_block dl - cur)) (len buf)) in
        let ctx := tth_update ctx (take (Z.to_nat w) buf) in
        let rest := drop (Z.to_nat w) buf in
        let cur := to_guint64 (cur + w) in
        (* we have a complete block, validate it. *)
        if (cur =? hash_block dl)
           || (negb (truthy (len rest))
               && (size dl =? to_guint64 (block * hash_block dl + cur))) then
          let tth := tth_final ctx in
          if negb (dl_recv_check dl block tth) then Some (tth_init, block)
          else dl_recv_update_loop fuel' dl tth_init (to_int (block + 1)) 0 rest
        else dl_recv_update_loop fuel' dl ctx block cur rest
    end
  else Some (ctx, -1).

(** [dl_recv_update(dl, buf, length)], with [length] the length of [buf].
    [None]: the call does not return (a division by zero, or a loop that
    makes no progress). *)
Definition dl_recv_update (dl : dl_t) (buf : list Byte.byte) : option (dl_t * Z) :=
  if hash_block dl =? 0 then None
  else
    let block := to_int (have dl / hash_block dl) in
    let cur := have dl mod hash_block dl in
    let run ctx :=
      match dl_recv_update_loop (S (length buf)) dl ctx block cur buf with
      | Some (ctx', ret) => Some (set_hash_tth (Some ctx') dl, ret)
      | None => None
      end in
    match hash_tth dl with
    | Some ctx => run ctx
    | None =>
        if truthy cur then Some (dl, 0)  (* g_return_val_if_fail(!cur, FALSE) *)
        else run tth_init
    end.

(** The loop of [dl_recv_data]: the return value, the context, the record
    and the system calls made. *)
Fixpoint dl_recv_data_loop (fuel : nat) (io : io_t) (c : recv_ctx_t) (dl : dl_t)
    (buf : list Byte.byte) (evs : list event)
    : option (bool * recv_ctx_t * dl_t * list event) :=
  if len buf >? 0 then
    match fuel with
    | O => None
    | S fuel' =>
        (* write *)
        let r := io_write io (incfd dl) buf in
        let evs := evs ++ [Ev_write (incfd dl) buf r] in
        if r <? 0 then
          Some (false, set_err_msg (Some "write error"%string) (set_err DLE_IO_INC c), dl, evs)
        else
          (* check hash *)
          match (if islist dl then Some (dl, -1)
                 else dl_recv_update dl (take (Z.to_nat r) buf)) with
          | None => None
          | Some (dl, fail) =>
              if fail >=? 0 then
                let c := set_uerr DLE_HASH c in
                let c := set_uerr_msg
                           (Some ("Hash for block " ++ pretty fail ++ " does not match.")%string) c in
                (* Delete the failed block and everything after it *)
                let dl := set_have (to_guint64 (fail * hash_block dl)) dl in
                let rs := io_lseek io (incfd dl) (have dl) in
                let rt := io_ftruncate io (incfd dl) (have dl) in
                let evs := evs ++ [Ev_lseek (incfd dl) (have dl) rs;
                                   Ev_ftruncate (incfd dl) (have dl) rt] in
                let c :=
                  if (rs =? -1) || (rt =? -1)
                  then set_err_msg (Some "recovery error"%string) (set_err DLE_IO_INC c)
                  else c in
                Some (false, c, dl, evs)
              else
                (* update vars *)
                dl_recv_data_loop fuel' io c (set_have (to_guint64 (have dl + r)) dl)
                  (drop (Z.to_nat r) buf) evs
          end
    end
  else Some (true, c, dl, evs).

(** [dl_recv_data(dat, buf, length)] on the context [c] and the record
    [c->dl]. *)
Definition dl_recv_data (io : io_t) (c : recv_ctx_t) (dl : dl_t) (buf : list Byte.byte)
    : option (bool * recv_ctx_t * dl_t * list event) :=
  dl_recv_data_loop (S (length buf)) io c dl buf [].

(** *** What a chunk does to the blocks of a file *)

(** The result of feeding bytes to the hash of the current block: a block
    was completed whose hash is not the expected one, or every completed
    block was verified and the hash state, the block index and the fill of
    the current block are as given. *)
Inductive outcome :=
| Mismatch (block : Z)
| Verified (ctx : tth_ctx_t) (block cur : Z).

(** [piece] fills block [block], which already holds [cur] bytes, up to
    the block boundary or, being the last bytes of the chunk, up to the end
    of the file. *)
Definition ends_block (dl : dl_t) (block cur : Z) (piece rest : list Byte.byte) : Prop :=
  piece ≠ [] ∧ cur + len piece <= hash_block dl
  ∧ (cur + len piece = hash_block dl
     ∨ (rest = [] ∧ block * hash_block dl + cur + len piece = size dl)).

Inductive scan (dl : dl_t) : tth_ctx_t -> Z -> Z -> list Byte.byte -> outcome -> Prop :=
| scan_nil ctx block cur :
    scan dl ctx block cur [] (Verified ctx block cur)
| scan_partial ctx block cur buf :
    buf ≠ [] ->
    cur + len buf < hash_block dl ->
    block * hash_block dl + cur + len buf ≠ size dl ->
    scan dl ctx block cur buf (Verified (tth_update ctx buf) block (cur + len buf))
| scan_mismatch ctx block cur piece rest :
    ends_block dl block cur piece rest ->
    dl_recv_check dl block (tth_final (tth_update ctx piece)) = false ->
    scan dl ctx block cur (piece ++ rest) (Mismatch block)
| scan_verified ctx block cur piece rest o :
    ends_block dl block cur piece rest ->
    dl_recv_check dl block (tth_final (tth_update ctx piece)) = true ->
    scan dl tth_init (block + 1) 0 rest o ->
    scan dl ctx block cur (piece ++ rest) o.

(** The hash state, block index and fill that a record is in. *)
Definition cur_ctx (dl : dl_t) : tth_ctx_t := default tth_init (hash_tth dl).
Definition cur_block (dl : dl_t) : Z := have dl / hash_block dl.
Definition cur_fill (dl : dl_t) : Z := have dl mod hash_block dl.

(** A chunk handed to [dl_recv_data] reaches the disk in one or more
    writes.  [recv_mismatch io dl buf b]: some write of the chunk completes
    block [b] with a wrong hash, all blocks completed before it having
    been verified. *)
Inductive recv_mismatch (io : io_t) : dl_t -> list Byte.byte -> Z -> Prop :=
| recv_mismatch_now dl buf r b :
    r = io_write io (incfd dl) buf -> 0 < r <= len buf ->
    scan dl (cur_ctx dl) (cur_block dl) (cur_fill dl) (take (Z.to_nat r) buf) (Mismatch b) ->
    recv_mismatch io dl buf b
| recv_mismatch_later dl buf r ctx block cur b :
    r = io_write io (incfd dl) buf -> 0 < r <= len buf ->
    scan dl (cur_ctx dl) (cur_block dl) (cur_fill dl) (take (Z.to_nat r) buf)
      (Verified ctx block cur) ->
    recv_mismatch io (set_have (have dl + r) (set_hash_tth (Some ctx) dl))
      (drop (Z.to_nat r) buf) b ->
    recv_mismatch io dl buf b.

(** *** Notions used in the statements *)

(** A record that needs no TTHL: it has its TTHL flag set, so that no TTHL is
    asked for, its block size is 2 MiB, every amount of data that fits the
    file lies in block 0, and block 0 is checked against the root hash. *)
Definition single_block_on_root (d : dl_t) : Prop :=
  hastthl d = true
  /\ hash_block d = 2097152
  /\ (forall hv, 0 <= hv <= size d -> hv / hash_block d = 0)
  /\ (forall tth, dl_recv_check d 0 tth = (tth =? hash d)).

(** The file-list record [dl] with hash [tth] has the entry [p] of user
    [uid] as its only entry. *)
Definition sole_entry (dl p : N) (uid tth : Z) (s : dl_state) : Prop :=
  exists d dud du,
    dls s !! dl = Some d /\ islist d = true /\ u d = [p] /\ hash d = tth
    /\ duds s !! p = Some dud /\ dud_dl dud = dl /\ dud_u dud = uid
    /\ queue_users s !! uid = Some du /\ p ∈ du_queue du.

(** The invariant: a file-list record has at most one user. *)
Definition list_has_one_user (st : dl_state) : Prop :=
  forall p d, dls st !! p = Some d -> islist d = true -> (length (u d) <= 1)%nat.

(** [st'] has no record that [st] lacks, no record has changed its list
    flag and no record has gained a user. *)
Definition shrinks (st st' : dl_state) : Prop :=
  forall p d', dls st' !! p = Some d' ->
    exists d, dls st !! p = Some d /\ islist d' = islist d
              /\ (length (u d') <= length (u d))%nat.

(** A field update that keeps the list flag and does not lengthen [u]. *)
Definition harmless (f : dl_t -> dl_t) : Prop :=
  forall d, islist (f d) = islist d /\ (length (u (f d)) <= length (u d))%nat.

(** The numbers of one call stay within their C types. *)
Definition fits (dl : dl_t) (block cur n : Z) : Prop :=
  0 < hash_block dl < 2 ^ 64 /\ 0 <= cur < hash_block dl /\ 0 <= block
  /\ block * hash_block dl + cur + n < 2 ^ 63
  /\ block + (cur + n) / hash_block dl + 1 < 2 ^ 31
  /\ n < 2 ^ 31.

(** What [dl_recv_update_loop] returns for an outcome. *)
Definition loop_result (o : outcome) : tth_ctx_t * Z :=
  match o with
  | Mismatch b => (tth_init, b)
  | Verified ctx _ _ => (ctx, -1)
  end.

(** A record and a chunk of [n] bytes whose numbers stay within their C
    types, with a hash state that goes with [have]. *)
Definition recv_fits (dl : dl_t) (n : Z) : Prop :=
  0 < hash_block dl < 2 ^ 64 /\ 0 <= have dl
  /\ have dl + n < 2 ^ 63
  /\ (have dl + n) / hash_block dl + 1 < 2 ^ 31
  /\ n < 2 ^ 31
  /\ (hash_tth dl = None -> have dl mod hash_block dl = 0).

(** [recv_verified io dl buf dl']: every write of the chunk takes some of
    it, every block that a write completes has the expected hash, and
    [dl'] is the record after the last write. *)
Inductive recv_verified (io : io_t) : dl_t -> list Byte.byte -> dl_t -> Prop :=
| recv_verified_done dl :
    recv_verified io dl [] dl
| recv_verified_write dl buf r ctx block cur dl' :
    r = io_write io (incfd dl) buf -> 0 < r <= len buf ->
    scan dl (cur_ctx dl) (cur_block dl) (cur_fill dl) (take (Z.to_nat r) buf)
      (Verified ctx block cur) ->
    recv_verified io (set_have (have dl + r) (set_hash_tth (Some ctx) dl))
      (drop (Z.to_nat r) buf) dl' ->
    recv_verified io dl buf dl'.

(** A [write] that always takes some of the bytes it is given. *)
Definition write_progress (io : io_t) (fd : Z) : Prop :=
  forall buf, buf ≠ [] -> 0 < io_write io fd buf <= len buf.

(** The lookups in [dl_queue] are sound: each TTH leads to a record that is
    allocated, has that TTH as its hash and is not being deleted; the
    records lie below the next address that is given out. *)
Definition queue_ok (st : dl_state) : Prop :=
  (forall h dl, dl_queue st !! h = Some dl ->
     exists d, dls st !! dl = Some d /\ hash d = h /\ delete d = false)
  /\ (forall p d, dls st !! p = Some d -> (p < next_ptr st)%N).

(** From [st] to [st'] no record and no entry of [dl_queue] has been
    added, no record has changed its hash, and a record that is still
    queued under its hash is still allocated and has not been marked for
    deletion. *)
Definition keeps (st st' : dl_state) : Prop :=
  (next_ptr st <= next_ptr st')%N
  /\ (forall p d', dls st' !! p = Some d' ->
        exists d, dls st !! p = Some d /\ hash d' = hash d)
  /\ (forall h dl, dl_queue st' !! h = Some dl ->
        dl_queue st !! h = Some dl
        /\ forall d, dls st !! dl = Some d -> hash d = h ->
             exists d', dls st' !! dl = Some d' /\ (delete d = false -> delete d' = false)).

(** A field update that keeps the hash and the deletion mark. *)
Definition gentle (f : dl_t -> dl_t) : Prop :=
  forall d, hash (f d) = hash d /\ delete (f d) = delete d.

(** A sequence of operations. *)
Definition run_ops (ops : list dl_op) (st : dl_state) : dl_state :=
  fold_left (fun s op => run_op op s) ops st.


(** The three tables agree, and no pointer dangles.  An entry that is
    allocated sits in the array [u] of its record and in the queue of its
    user, both of which exist; the array of a record and the queue of a
    user hold no entry twice and only entries that are allocated and
    point back to them; the entry that a user is active on is in the queue
    of the user; and everything lies below the next address given out. *)
Definition heap_ok (st : dl_state) : Prop :=
  (forall p dud, duds st !! p = Some dud ->
     (p < next_ptr st)%N
     /\ exists d du, dls st !! dud_dl dud = Some d /\ p ∈ u d
                     /\ queue_users st !! dud_u dud = Some du /\ p ∈ du_queue du)
  /\ (forall dl d, dls st !! dl = Some d ->
        (dl < next_ptr st)%N /\ NoDup (u d)
        /\ forall p, p ∈ u d -> exists dud, duds st !! p = Some dud /\ dud_dl dud = dl)
  /\ (forall uid du, queue_users st !! uid = Some du ->
        NoDup (du_queue du)
        /\ (forall p, p ∈ du_queue du ->
              exists dud, duds st !! p = Some dud /\ dud_u dud = uid)
        /\ (forall p, du_active du = Some p -> p ∈ du_queue du)).

(** What the invariant reads of a user: the queue, up to its order, and
    the active entry, which may have been reset. *)
Definition user_like (du' du : option dl_user_t) : Prop :=
  match du', du with
  | Some x', Some x =>
      du_queue x' ≡ₚ du_queue x /\ (du_active x' = du_active x \/ du_active x' = None)
  | None, None => True
  | _, _ => False
  end.

(** A field update of a record that leaves [u] alone. *)
Definition keeps_u (f : dl_t -> dl_t) : Prop := forall d, u (f d) = u d.

(** A field update of a user that leaves the queue alone, up to its
    order, and the active entry, unless it resets it. *)
Definition keeps_queue (f : dl_user_t -> dl_user_t) : Prop :=
  forall x, du_queue (f x) = du_queue x
            /\ (du_active (f x) = du_active x \/ du_active (f x) = None).

(** A field update of an entry that leaves its record and user alone. *)
Definition keeps_owner (f : dl_user_dl_t -> dl_user_dl_t) : Prop :=
  forall x, dud_dl (f x) = dud_dl x /\ dud_u (f x) = dud_u x.

(** From [st] to [st'] entries have only been freed: none is new and none
    has changed. *)
Definition entries_shrink (st st' : dl_state) : Prop :=
  forall p x, duds st' !! p = Some x -> duds st !! p = Some x.

(** *** Choosing what to download *)

(** The loop of [dl_user_getdl] over [du->queue].  The walk ends at the
    first entry that is not enabled; a pointer that points to nothing ends
    it as well. *)
Fixpoint dl_user_getdl_loop (st : dl_state) (q : list N) : option N :=
  match q with
  | [] => None
  | i :: r =>
      match duds st !! i with
      | Some dud =>
          match dls st !! dud_dl dud with
          | Some d =>
              if negb (dl_user_dl_enabled dud d) then None
              else if negb (active d) then Some i
              else dl_user_getdl_loop st r
          | None => None
          end
      | None => None
      end
  end.

(** [dl_user_getdl(du)]; the result is the iterator of the entry. *)
Definition dl_user_getdl (st : dl_state) (du : dl_user_t) : option N :=
  dl_user_getdl_loop st (du_queue du).

(** An entry that is enabled and whose file nobody downloads. *)
Definition startable (st : dl_state) (i : N) : Prop :=
  exists dud d, duds st !! i = Some dud /\ dls st !! dud_dl dud = Some d
                /\ dl_user_dl_enabled dud d = true /\ active d = false.

(** A queue in the order of [dl_user_dl_sort]. *)
Definition queue_sorted (st : dl_state) (q : list N) : Prop :=
  forall k1 k2 a b, (k1 < k2)%nat -> q !! k1 = Some a -> q !! k2 = Some b ->
    dl_user_dl_sort_at st a b <= 0.

(** *** One user per file *)

(** The entry a user is active on belongs to a record that is marked
    active, and no two users are active on entries of the same record. *)
Definition active_ok (st : dl_state) : Prop :=
  (forall uid du p e d,
     queue_users st !! uid = Some du -> du_active du = Some p ->
     duds st !! p = Some e -> dls st !! dud_dl e = Some d -> active d = true)
  /\ (forall uid1 uid2 du1 du2 p1 p2 e1 e2,
        queue_users st !! uid1 = Some du1 -> queue_users st !! uid2 = Some du2 ->
        du_active du1 = Some p1 -> du_active du2 = Some p2 ->
        duds st !! p1 = Some e1 -> duds st !! p2 = Some e2 ->
        dud_dl e1 = dud_dl e2 -> uid1 = uid2).

(** Consistent tables on which that holds. *)
Definition sound (st : dl_state) : Prop := heap_ok st /\ active_ok st.

(** A field update of a record that leaves [u] and [active] alone. *)
Definition mild (f : dl_t -> dl_t) : Prop :=
  forall d, u (f d) = u d /\ active (f d) = active d.

(** *** Starting downloads *)

(** What [dl_queue_start_do] and the functions it calls take from
    outside [dl.c]: the value of [var_get_int(0, VAR_download_slots)];
    for a user id, whether [hub_uids] has the user ([None] if not) and, if
    so, [u->hub->nick_valid]; and what [close(fd)] and
    [open(path, O_WRONLY|O_CREAT|O_TRUNC, 0666)] return. *)
Class Sched := {
  var_download_slots : Z;
  hub_uids : Z -> option bool;
  sys_close : Z -> Z;
  sys_open : string -> Z
}.

(** The calls of [dl_queue_start_user] that leave [dl.c] and are not among
    the events above. *)
Inductive call :=
| Call_hub_opencc (uid : Z)
| Call_open (path : string) (ret : Z)
| Call_cc_download (cc : option N) (dl : N).

Section Scheduler.
Context `{Sched}.

(** [dl_queue_start_istarget(du)]; the user is given by its id, and a
    pointer to a user that is gone counts as no target. *)
Definition dl_queue_start_istarget (st : dl_state) (uid : Z) : bool :=
  match queue_users st !! uid with
  | None => false
  | Some du =>
      if (negb (du_state du =? DLU_NCO) && negb (du_state du =? DLU_IDL))
         || negb (bool_decide (is_Some (dl_user_getdl st du)))
      then false
      else if du_state du =? DLU_NCO then
        match hub_uids uid with
        | Some nick_valid => nick_valid
        | None => false
        end
      else true
  end.

(** [dl_queue_start_user(du)], on the tables and the list of calls. *)
Definition dl_queue_start_user (uid : Z) (s : dl_state * list call)
    : bool * (dl_state * list call) :=
  let '(st, calls) := s in
  if negb (dl_queue_start_istarget st uid) then
    (false, (emit (Ev_critical "dl_queue_start_user: assertion 'dl_queue_start_istarget(du)' failed") st, calls))
  else
    match queue_users st !! uid with
    | None => (false, s)
    | Some du =>
        (* If we're not connected yet, just connect *)
        if du_state du =? DLU_NCO then
          let st := dl_user_setstate uid DLU_EXP st in
          (false, (st, calls ++ [Call_hub_opencc uid]))
        else
          (* Otherwise, initiate a download. *)
          match dl_user_getdl st du with
          | None =>
              (false, (emit (Ev_critical "dl_queue_start_user: assertion 'dud' failed") st, calls))
          | Some dud =>
              match duds st !! dud ≫= (fun x => dls st !! dud_dl x ≫= (fun d => Some (dud_dl x, d))) with
              | None => (false, s)
              | Some (dl, d) =>
                  let start (st : dl_state) (calls : list call) :=
                    (* Update state and connect *)
                    let st := upd_dl dl (set_active true) st in
                    let st := upd_du uid (set_du_active (Some dud)) st in
                    let st := dl_user_setstate uid DLU_ACT st in
                    let cc := queue_users st !! uid ≫= du_cc in
                    (true, (st, calls ++ [Call_cc_download cc dl])) in
                  (* For filelists: don't allow resuming of the download *)
                  if islist d && (have d >? 0) then
                    let st := upd_dl dl (fun d => set_have 0 (set_size 0 d)) st in
                    let st := emit (Ev_close (incfd d)) st in
                    if negb (sys_close (incfd d) =? 0) then
                      (false, (emit (Ev_critical "dl_queue_start_user: assertion 'close(dl->incfd) == 0' failed") st, calls))
                    else
                      let fd := sys_open (inc d) in
                      let st := upd_dl dl (set_incfd fd) st in
                      let calls := calls ++ [Call_open (inc d) fd] in
                      if negb (fd >=? 0) then
                        (false, (emit (Ev_critical "dl_queue_start_user: assertion 'dl->incfd >= 0' failed") st, calls))
                      else start st calls
                  else start st calls
              end
          end
    end.

(** [dl_queue_start_cmp(a, b)].  The function assumes
    [dl_queue_start_istarget] for both users; where [dl_user_getdl] gives
    NULL for one of them, or a user is gone, 0 is used. *)
Definition dl_queue_start_cmp (st : dl_state) (a b : Z) : Z :=
  match queue_users st !! a, queue_users st !! b with
  | Some ua, Some ub =>
      -1 * (if (du_state ua =? DLU_IDL) && negb (du_state ub =? DLU_IDL) then 1
            else if negb (du_state ua =? DLU_IDL) && (du_state ub =? DLU_IDL) then -1
            else match dl_user_getdl st ub, dl_user_getdl st ua with
                 | Some x, Some y => dl_user_dl_sort_at st x y
                 | _, _ => 0
                 end)
  | _, _ => 0
  end.

(** [g_ptr_array_remove_index_fast] on the array of targets. *)
Definition remove_index_fast_target (i : nat) (l : list Z) : list Z :=
  match l !! i, last l with
  | Some _, Some z => take (length l - 1) (<[i := z]> l)
  | _, _ => l
  end.

(** The choice [if(!target || dl_queue_start_cmp(target, du) > 0)] of both
    loops: the new [target] and [target_i] when [du] is met at index [i]. *)
Definition pick_target (st : dl_state) (target : option Z) (target_i : nat)
    (du : Z) (i : nat) : option Z * nat :=
  match target with
  | None => (Some du, i)
  | Some t => if dl_queue_start_cmp st t du >? 0 then (Some du, i) else (target, target_i)
  end.

(** The first loop of [dl_queue_start_do], over the users in the order
    [users] in which the iterator of the hash table yields them. *)
Fixpoint start_scan (st : dl_state) (users : list Z) (freeslots : Z)
    (targets : list Z) (target : option Z) (target_i : nat)
    : Z * list Z * option Z * nat :=
  match users with
  | [] => (freeslots, targets, target, target_i)
  | uid :: r =>
      let freeslots :=
        match queue_users st !! uid with
        | Some du => if du_state du =? DLU_ACT then freeslots - 1 else freeslots
        | None => freeslots
        end in
      if dl_queue_start_istarget st uid then
        let '(target, target_i) := pick_target st target target_i uid (length targets) in
        start_scan st r freeslots (targets ++ [uid]) target target_i
      else start_scan st r freeslots targets target target_i
  end.

(** The inner loop [while(i < targets->len)]; [fuel] bounds its turns. *)
Fixpoint start_rescan (fuel : nat) (st : dl_state) (targets : list Z) (i : nat)
    (target : option Z) (target_i : nat) : list Z * option Z * nat :=
  match fuel with
  | O => (targets, target, target_i)
  | S fuel' =>
      match targets !! i with
      | None => (targets, target, target_i)
      | Some du =>
          if negb (dl_queue_start_istarget st du) then
            start_rescan fuel' st (remove_index_fast_target i targets) i target target_i
          else
            let '(target, target_i) := pick_target st target target_i du i in
            start_rescan fuel' st targets (S i) target target_i
      end
  end.

(** The loop [while(freeslots > 0 && target)]; [fuel] bounds its turns. *)
Fixpoint start_loop (fuel : nat) (freeslots : Z) (targets : list Z)
    (target : option Z) (target_i : nat) (s : dl_state * list call)
    : dl_state * list call :=
  match fuel with
  | O => s
  | S fuel' =>
      match target with
      | Some t =>
          if freeslots >? 0 then
            let '(started, s) := dl_queue_start_user t s in
            let freeslots := if started then freeslots - 1 else freeslots in
            if started && (freeslots =? 0) then s
            else
              let targets := remove_index_fast_target target_i targets in
              let '(targets, target, target_i) :=
                start_rescan (length targets) (fst s) targets 0 None target_i in
              start_loop fuel' freeslots targets target target_i s
          else s
      | None => s
      end
  end.

(** [dl_queue_start_do], with [more] turns of the second loop beyond the
    number of targets, which is all that it can take. *)
Definition dl_queue_start_do_fuel (more : nat) (users : list Z)
    (s : dl_state * list call) : dl_state * list call :=
  let '(freeslots, targets, target, target_i) :=
    start_scan (fst s) users var_download_slots [] None 0 in
  let '(st, calls) :=
    start_loop (more + length targets) freeslots targets target target_i s in
  (set_dl_queue_needstart false st, calls).

Definition dl_queue_start_do (users : list Z) (s : dl_state * list call)
    : dl_state * list call :=
  dl_queue_start_do_fuel 0 users s.

(** Whether the user is in the state [DLU_ACT]. *)
Definition is_act (st : dl_state) (uid : Z) : bool :=
  match queue_users st !! uid with
  | Some du => du_state du =? DLU_ACT
  | None => false
  end.

(** The number of the users of [users] that are in the state [DLU_ACT]. *)
Fixpoint act_count (st : dl_state) (users : list Z) : Z :=
  match users with
  | [] => 0
  | uid :: r =>
      (match queue_users st !! uid with
       | Some du => if du_state du =? DLU_ACT then 1 else 0
       | None => 0
       end) + act_count st r
  end.

(** The operations of the queue together with the runs of
    [dl_queue_start_do], which the main loop calls from a timeout. *)
Inductive sched_op :=
| Sop_queue (op : dl_op)
| Sop_start_do (users : list Z).

Definition run_sched_op (op : sched_op) (s : dl_state * list call) : dl_state * list call :=
  match op with
  | Sop_queue o => (run_op o s.1, s.2)
  | Sop_start_do users => dl_queue_start_do users s
  end.

Definition run_sched_ops (ops : list sched_op) (s : dl_state * list call)
    : dl_state * list call :=
  fold_left (fun s op => run_sched_op op s) ops s.

End Scheduler.

(** What a call of [cc_download(cc, dl)] is made on, seen in the tables
    [st]: an idle user with that connection that has, in its queue, an
    entry without error for the record [dl], the priority of which is
    above [DLP_OFF] and which nobody downloads. *)
Definition started_ok (st : dl_state) (c : call) : Prop :=
  match c with
  | Call_cc_download cc dl =>
      exists uid du p e d,
        queue_users st !! uid = Some du /\ du_state du = DLU_IDL /\ du_cc du = cc
        /\ p ∈ du_queue du /\ duds st !! p = Some e /\ dud_dl e = dl
        /\ dls st !! dl = Some d
        /\ dud_error e = 0 /\ prio d > DLP_OFF /\ active d = false
  | _ => True
  end.

(** From [s] to [s'] downloads have been started and connections asked
    for, and nothing else: the entries are the same, the records keep their
    priority and are active if they were, and the users keep their queue
    and connection and are not idle unless they were. *)
Definition steady (s s' : dl_state) : Prop :=
  duds s' = duds s
  /\ (forall dl d', dls s' !! dl = Some d' ->
        exists d, dls s !! dl = Some d /\ prio d = prio d'
                  /\ (active d' = false -> active d = false))
  /\ (forall uid du', queue_users s' !! uid = Some du' ->
        exists du, queue_users s !! uid = Some du /\ du_queue du = du_queue du'
                   /\ du_cc du = du_cc du'
                   /\ (du_state du' = DLU_IDL -> du_state du = DLU_IDL)).

(** From [s] to [s'] nothing has been taken up: a record that is left is
    not active if it was not, and a user that is not in [DLU_NCO] is
    still there, in the same state and with the same connection, and is
    active on nothing if it was not. *)
Definition calmer (s s' : dl_state) : Prop :=
  (forall dl d', dls s' !! dl = Some d' ->
     exists d, dls s !! dl = Some d /\ (active d = false -> active d' = false))
  /\ (forall uid du, queue_users s !! uid = Some du -> du_state du <> DLU_NCO ->
        exists du', queue_users s' !! uid = Some du' /\ du_state du' = du_state du
                    /\ du_cc du' = du_cc du
                    /\ (du_active du = None -> du_active du' = None)).

(** *** Runs in which nobody is disconnected *)

Definition is_disconnect (e : event) : bool :=
  match e with
  | Ev_cc_disconnect _ _ => true
  | _ => false
  end.

(** The calls of [cc_disconnect] in the log. *)
Definition disconnects (st : dl_state) : list event :=
  List.filter is_disconnect (trace st).

(** From [st] to [st'] [cc_disconnect] has not been called. *)
Definition hushed (st st' : dl_state) : Prop := disconnects st' = disconnects st.

(** Nobody is downloading: [du->active] is NULL for every user. *)
Definition idle_users (st : dl_state) : Prop :=
  forall uid du, queue_users st !! uid = Some du -> du_active du = None.

(** From [st] to [st'] [cc_disconnect] has not been called, and nobody is
    downloading in [st']. *)
Definition still (st st' : dl_state) : Prop :=
  idle_users st' /\ disconnects st' = disconnects st.

(** A field update of a user that does not make the user active. *)
Definition keeps_idle (f : dl_user_t -> dl_user_t) : Prop :=
  forall x, du_active x = None -> du_active (f x) = None.

(** The operations that take an entry or a record out of the queue on
    request, whether it is being downloaded or not. *)
Definition removes (op : dl_op) : bool :=
  match op with
  | Op_queue_rm _ | Op_queue_rmuser _ _ | Op_user_rm _ _ => true
  | _ => false
  end.

Definition sched_removes (op : sched_op) : bool :=
  match op with
  | Sop_queue o => removes o
  | Sop_start_do _ => false
  end.

End Orchestrator.

(** A small instance of the environment, to run the model on concrete
    inputs: the hash of a block is the sum of its bytes, the TTHL of every
    file says that each leaf is 1. *)
Definition byte_sum (l : list Byte.byte) : Z :=
  fold_right (fun b acc => Z.of_N (Byte.to_N b) + acc) 0 l.

Definition sample_env : Env := {|
  tth_ctx_t := Z;
  tth_init := 0;
  tth_update := fun ctx buf => ctx + byte_sum buf;
  tth_final := fun ctx => ctx;
  tth_blocksize := fun size leaves => 1024;
  tiger_uid := fun uid => uid + 1000;
  base32_encode := fun h => pretty h;
  var_incoming_dir := "/inc";
  var_download_dir := "/dl";
  db_dir := "/db";
  uid_file_name := fun uid => (pretty uid ++ ".xml.bz2")%string;
  db_dl_checkhash := fun root num tth => tth =? 1
|}.

End Dl.


(** * Concrete inputs *)

Module Samples.

Definition dir (n : string) (l : list Fl.fl_list) : Fl.fl_list :=
  Fl.Build_fl_list n (Some l) 0 0 false false false.

Definition file (n : string) (sz : Z) (hashed : bool) : Fl.fl_list :=
  Fl.Build_fl_list n None sz 0 true hashed false.

(** A directory whose only child is an empty directory. *)
Definition dir_with_empty_subdir : Fl.fl_list := dir "" [dir "a" []].

(** A directory that holds one file that has not been hashed yet. *)
Definition dir_with_unhashed_file : Fl.fl_list := dir "" [file "a.txt" 10 false].

(** A search for files of any size whose name contains "a". *)
Definition any_file_named_a : @Fl.fl_search Fl.literal_regex :=
  Fl.Build_fl_search (-2) 1 0 None
    (Some [("a"%string : @Fl.GRegex Fl.literal_regex)]) None.

(** An operating system on which every call succeeds; [socket] returns
    descriptor 3. *)
Definition os_ok : Listen.os_t :=
  Listen.Build_os (fun _ => 3) (fun _ _ _ => 0) (fun _ _ => 0) (fun _ => 7).

Definition listen_init : Listen.state :=
  Listen.Build_state [] ∅ 4000 4001 4002 0%N [].

(** The tab of a hub that is active on 0.0.0.0, TCP port 1412, UDP port
    1413, with TLS enabled on port 1414. *)
Definition hub_tab : Listen.ui_tab :=
  Listen.Build_ui_tab true 1 167772161 true 0 1412 1413 1 1414.

(** The same hub with all three ports left at zero. *)
Definition hub_tab_random : Listen.ui_tab :=
  Listen.Build_ui_tab true 1 167772161 true 0 0 0 1 0.

(** The download queue at startup, and the queue after user 7 has been
    asked for two files that differ in their TTH and share the name
    "a.txt". *)
Definition dl_init : @Dl.dl_state Dl.sample_env :=
  Dl.Build_dl_state ∅ ∅ ∅ ∅ false 1%N [].

Definition two_files_one_name : @Dl.dl_state Dl.sample_env :=
  snd (Dl.dl_queue_addfile 7 222 3000000 "a.txt"
         (snd (Dl.dl_queue_addfile 7 111 3000000 "a.txt" dl_init))).

(** The two records of that queue and the entries of user 7 for them. *)
Definition file_a (h : Z) (it : N) : @Dl.dl_t Dl.sample_env :=
  @Dl.Build_dl_t Dl.sample_env false false false false false false false 0 0 0
    None None h [it] 3000000 0 ("/inc/" ++ pretty h) "/dl/a.txt" 0 None.

Definition entry_of (dl : N) : Dl.dl_user_dl_t := Dl.Build_dl_user_dl_t dl 7 0 None.

(** The queue after the file list of user 7 has been asked for. *)
Definition one_list : @Dl.dl_state Dl.sample_env :=
  Dl.dl_queue_addlist 7 true None true false dl_init.

(** An incoming file on which every call succeeds and every write is
    complete. *)
Definition io_ok : Dl.io_t :=
  Dl.Build_io (fun _ buf => Dl.len buf) (fun _ off => off) (fun _ _ => 0).

(** A file of 4 bytes in blocks of 2, nothing received yet, open on
    descriptor 5; with [Dl.sample_env] every leaf of its TTHL is 1. *)
Definition two_blocks : @Dl.dl_t Dl.sample_env :=
  @Dl.Build_dl_t Dl.sample_env false true true false false true false 0 0 5 None None
    111 [2%N] 4 0 "/inc/111" "/dl/a.txt" 2 None.

Definition recv_ctx : Dl.recv_ctx_t := Dl.Build_recv_ctx_t 1 7 None None 0 0.

(** Four bytes: the first block sums to 1, the second to 5. *)
Definition chunk_bad_second : list Byte.byte :=
  [Byte.x01; Byte.x00; Byte.x05; Byte.x00].

(** A database that is the list of the statements run on it; the
    statement "bad" fails, every other one succeeds. *)
Definition sample_sqlite : Db.Sqlite := {|
  Db.sqlite3 := list string;
  Db.sql_prepare := fun d query _ =>
    (if String.eqb query "syntax error" then Db.SQLITE_ERROR else 0, d);
  Db.sql_run := fun d query _ _ _ =>
    if String.eqb query "bad" then ([], Db.SQLITE_ERROR, 0, d)
    else ([], Db.SQLITE_DONE, 0, d ++ [query]);
  Db.sql_begin := fun d => (Db.SQLITE_DONE, d);
  Db.sql_commit := fun d => (Db.SQLITE_DONE, d);
  Db.sql_rollback := fun d => []
|}.

(** A darray in which a stray read finds zeros. *)
Definition sample_darray : Db.Darray := {|
  Db.stray_scan := fun _ => None;
  Db.stray_ptr := fun _ => 0%N
|}.

Definition db_init : @Db.state sample_sqlite :=
  @Db.Build_state sample_sqlite ([] : list string) false false false [].

(** Three chained requests, the first of which fails, and a request that
    follows the chain; the reply queues are 1 to 4. *)
Definition q_bad : Db.queue_item :=
  Db.Build_queue_item Db.DBF_NEXT "bad" [] (Some (1%N, [])).
Definition q_second : Db.queue_item :=
  Db.Build_queue_item Db.DBF_NEXT "second" [] (Some (2%N, [])).
Definition q_third : Db.queue_item :=
  Db.Build_queue_item 0 "third" [] (Some (3%N, [])).
Definition q_after : Db.queue_item :=
  Db.Build_queue_item 0 "after" [] (Some (4%N, [])).

(** A request that binds an int and a NULL, with the reply queue 5. *)
Definition q_prio : Db.queue_item :=
  Db.Build_queue_item 0 "UPDATE dl SET priority = ?, error_msg = ?"
    [Db.DBQ_INT 2; Db.DBQ_NULL] (Some (5%N, [])).

(** A request that binds the int 0 and asks for an int column on the reply
    queue 2. *)
Definition q_zero : Db.queue_item :=
  Db.Build_queue_item 0 "SELECT 1 FROM dl WHERE priority = ?" [Db.DBQ_INT 0]
    (Some (2%N, [2])).

(** A generator whose first draws are 10, 10, 10, 11, 12, ... *)
Definition rng (i : nat) : Z := if (i <? 3)%nat then 10 else Z.of_nat i + 8.

(** A second hub, active on 10.0.0.1 with the ports of [hub_tab], and a
    hub that has the same port for TCP and for TLS. *)
Definition hub_tab_local : Listen.ui_tab :=
  Listen.Build_ui_tab true 2 167772162 true 167772161 1412 1413 1 1414.

Definition hub_tab_clash : Listen.ui_tab :=
  Listen.Build_ui_tab true 3 167772163 true 0 1412 1413 1 1412.

(** Four bytes both blocks of which sum to 1, and the record of a file
    list that is being received on descriptor 6. *)
Definition chunk_good : list Byte.byte := [Byte.x01; Byte.x00; Byte.x01; Byte.x00].

Definition list_open : @Dl.dl_t Dl.sample_env :=
  @Dl.Build_dl_t Dl.sample_env true false true false false true false 2 0 6 None None
    1007 [2%N] 0 0 "/inc/x" "/db/fl/7.xml.bz2" 0 None.

(** A share with a directory "music" that holds two files and a
    directory, and two files beside it, one of them not hashed. *)
Definition music_tree : Fl.fl_list :=
  dir "" [dir "music" [file "a.mp3" 5 true; file "b.txt" 7 true;
                       dir "amusing" [file "c.mp3" 1 true]];
          file "music.txt" 3 true; file "x" 3 false].

(** A search for files and directories of any size with the given AND
    keywords. *)
Definition keywords (l : list string) : @Fl.fl_search Fl.literal_regex :=
  Fl.Build_fl_search (-2) 3 0 None (Some (l : list (@Fl.GRegex Fl.literal_regex))) None.

(** A main thread that has not used its caches yet, and the rows of the
    share and vars tables: two shared directories, the global nick and
    the name of hub 7. *)
Definition client_init : Db.client := Db.Build_client [] None None 1.

Definition share_rows : list Db.db_share_item :=
  [Db.Build_db_share_item "a" "/srv/a"; Db.Build_db_share_item "c" "/srv/c"].

Definition vars_rows : list Db.db_var_item :=
  [Db.Build_db_var_item "nick" "ncdc" 0; Db.Build_db_var_item "hubname" "#hub" 7].

(** Some operations: two files are asked from user 7, the first one is
    removed again, the user connects and the second file gets an error. *)
Definition some_ops : list Dl.dl_op :=
  [Dl.Op_queue_addfile 7 111 3000000 "a.txt"; Dl.Op_queue_addfile 7 222 5 "b.txt";
   Dl.Op_queue_rm 1; Dl.Op_user_cc 7 (Some 9%N); Dl.Op_queue_seterr 3 Dl.DLE_HASH None].

(** Two files are asked from user 7; [file_b] is the record of the second
    one afterwards, at address 3 with its entry at address 4. *)
Definition two_files : list Dl.dl_op :=
  [Dl.Op_queue_addfile 7 111 3000000 "a.txt"; Dl.Op_queue_addfile 7 222 5 "b.txt"].

Definition file_b : @Dl.dl_t Dl.sample_env :=
  @Dl.Build_dl_t Dl.sample_env false true false false false false false 0 0 0
    None None 222 [4%N] 5 0 "/inc/222" "/dl/b.txt" 2097152 None.

(** User 7 after that: not connected, with the two entries queued. *)
Definition user_7 : Dl.dl_user_t := Dl.Build_dl_user_t Dl.DLU_NCO 0 7 None [2%N; 4%N] None.

(** The same, and then the connection to user 7 is there and idle. *)
Definition connected_ops : list Dl.dl_op := two_files ++ [Dl.Op_user_cc 7 (Some 9%N)].

(** Two download slots; every user is online on a hub that is logged in;
    [close] and [open] succeed. *)
Definition sample_sched : Dl.Sched :=
  Dl.Build_Sched 2 (fun _ => Some true) (fun _ => 0) (fun _ => 5).

(** Users 7 and 8 both have the file 111; both get connected, and then
    the downloads are started. *)
Definition shared_file_ops : list Dl.sched_op :=
  [Dl.Sop_queue (Dl.Op_queue_addfile 7 111 3000000 "a.txt");
   Dl.Sop_queue (Dl.Op_queue_matchfile 8 111);
   Dl.Sop_queue (Dl.Op_user_cc 7 (Some 9%N));
   Dl.Sop_queue (Dl.Op_user_cc 8 (Some 10%N));
   Dl.Sop_start_do [7; 8]].

(** The tables after that: user 7 downloads the file, user 8 waits. *)
Definition downloading : @Dl.dl_state Dl.sample_env :=
  (@Dl.run_sched_ops Dl.sample_env sample_sched shared_file_ops (dl_init, [])).1.

Definition user_7_active : Dl.dl_user_t :=
  Dl.Build_dl_user_t Dl.DLU_ACT 0 7 (Some 9%N) [2%N] (Some 2%N).

End Samples.

(** * Properties of the file-list model *)

Section FileListFacts.

Lemma fl_list_isempty_loop_spec (l : list Fl.fl_list) :
  Fl.fl_list_isempty_loop l = true
  <-> Forall (fun f => Fl.isfile f = true /\ Fl.hastth f = false) l.
Proof.
  induction l as [|f r IH]; simpl.
  - split; [constructor | reflexivity].
  - destruct (Fl.isfile f) eqn:Hf, (Fl.hastth f) eqn:Ht; simpl;
      rewrite ?IH, Forall_cons, Hf, Ht; intuition congruence.
Qed.

(** C6, as the code has it.  For a directory (a node that is not a file and
    has a child array), [fl_list_isempty] returns TRUE iff each of its
    direct children is a file without a TTH: the directory has neither a
    subdirectory nor a hashed file. *)
Theorem fl_list_isempty_direct_children (fl : Fl.fl_list) (l : list Fl.fl_list) :
  Fl.isfile fl = false ->
  Fl.sub fl = Some l ->
  (Fl.fl_list_isempty fl = Some true
   <-> Forall (fun f => Fl.isfile f = true /\ Fl.hastth f = false) l).
Proof.
  intros Hdir Hsub. unfold Fl.fl_list_isempty. rewrite Hdir, Hsub.
  rewrite <- fl_list_isempty_loop_spec. split; congruence.
Qed.

Lemma fl_list_isempty_direct_children_witness :
  Fl.fl_list_isempty Samples.dir_with_unhashed_file = Some true
  <-> Forall (fun f => Fl.isfile f = true /\ Fl.hastth f = false)
        [Samples.file "a.txt" 10 false].
Proof.
  apply (fl_list_isempty_direct_children Samples.dir_with_unhashed_file
           [Samples.file "a.txt" 10 false]); reflexivity.
Defined.

(** C6, as the specification has it, fails: a directory that holds nothing
    but an empty directory has no file with a TTH anywhere below it, and
    [fl_list_isempty] returns FALSE for it. *)
Lemma fl_list_isempty_subtree_counterexample :
  ~ (Fl.fl_list_isempty Samples.dir_with_empty_subdir = Some true
     <-> Fl.subtree_has_hashed_file Samples.dir_with_empty_subdir = false).
Proof.
  intros [_ Hback]. specialize (Hback eq_refl). discriminate Hback.
Qed.

(** C7 fails on the code: [fl_load_fixinput] stops one byte early.  A read
    of the two bytes "a" 0x1D hands them to the XML layer unchanged, and so
    does a read of the single byte 0x1D. *)
Theorem fl_load_fixinput_skips_last_byte :
  Fl.fl_load_fixinput [Byte.x61; Byte.x1d] 2 = [Byte.x61; Byte.x1d]
  /\ Fl.xml_input
       (Fl.fl_load_input (Fl.Build_fl_load_context false true false None)
          [Byte.x00; Byte.x00; Byte.x00; Byte.x00] 4
          (Fl.Build_read_result [Byte.x1d] 1 0))
     = [Byte.x1d]
  /\ Fl.fl_load_fixinput [Byte.x1d; Byte.x61] 2 = [Byte.x3f; Byte.x61].
Proof. repeat split. Qed.

(** C9.  A file node whose [hastth] flag is not set matches no search,
    whatever the search asks for. *)
Theorem fl_search_match_needs_tth `{Fl.Regex} (fl : Fl.fl_list) (s : Fl.fl_search) :
  Fl.isfile fl = true ->
  Fl.hastth fl = false ->
  Fl.fl_search_match fl s = false.
Proof.
  intros Hfile Htth. unfold Fl.fl_search_match. rewrite Hfile, Htth. simpl.
  now rewrite !andb_false_r.
Qed.

Lemma fl_search_match_needs_tth_witness :
  Fl.fl_search_match (Samples.file "a.txt" 10 false) Samples.any_file_named_a = false
  /\ Fl.fl_search_match (Samples.file "a.txt" 10 true) Samples.any_file_named_a = true.
Proof.
  split.
  - apply (fl_search_match_needs_tth (Samples.file "a.txt" 10 false)
             Samples.any_file_named_a); reflexivity.
  - reflexivity.
Defined.

End FileListFacts.

(** * Properties of the listener multiplexer *)

Section ListenFacts.
Import Listen.

(** C1 fails on the code.  [bind_create] asserts [sock < 0] right after
    [socket()]: when the socket was created the function returns at once.
    On a system where every call succeeds, a refresh for a hub with a TCP,
    a UDP and a TLS bind makes three [socket()] calls (with the datagram
    and stream types swapped) and nothing else: no [setsockopt], no
    [fcntl], no [bind], no [listen], and no bind record gets its socket. *)
Theorem bind_create_returns_after_socket :
  let st := listen_refresh Samples.os_ok [Samples.hub_tab] Samples.listen_init in
  trace st =
    [Ev_socket SOCK_DGRAM 3;
     Ev_critical "bind_create: assertion 'sock < 0' failed";
     Ev_socket SOCK_STREAM 3;
     Ev_critical "bind_create: assertion 'sock < 0' failed";
     Ev_socket SOCK_DGRAM 3;
     Ev_critical "bind_create: assertion 'sock < 0' failed"]
  /\ map (fun b => (type b, port b, sock b)) (listen_binds st)
     = [(LBT_TLS, 1414, 0); (LBT_UDP, 1413, 0); (LBT_TCP, 1412, 0)].
Proof. vm_compute. split; reflexivity. Qed.

Lemma draw_range (raw : Z) : 1025 <= draw raw <= 65534.
Proof.
  unfold draw, g_random_int_range, to_guint16, wrap_unsigned.
  pose proof (Z.mod_pos_bound raw (65535 - 1025) ltac:(lia)) as Hb.
  rewrite Z.mod_small; [lia|].
  change (2 ^ 16) with 65536. lia.
Qed.

Lemma draw_tls_port_S (fuel : nat) (rng : nat -> Z) (i : nat) (tcp_port : Z) :
  draw_tls_port (S fuel) rng i tcp_port
  = if draw (rng i) =? tcp_port then draw_tls_port fuel rng (S i) tcp_port
    else Some (draw (rng i), S i).
Proof. reflexivity. Qed.

Lemma draw_tls_port_sound (fuel : nat) (rng : nat -> Z) (i : nat) (tcp_port p : Z) (j : nat) :
  draw_tls_port fuel rng i tcp_port = Some (p, j) ->
  p ≠ tcp_port /\ 1025 <= p <= 65534.
Proof.
  revert i. induction fuel as [|fuel IH]; intros i; [discriminate|].
  rewrite draw_tls_port_S.
  destruct (draw (rng i) =? tcp_port) eqn:E.
  - apply IH.
  - intros [= <- <-]. apply Z.eqb_neq in E. split; [exact E | apply draw_range].
Qed.

Lemma draw_tls_port_terminates (rng : nat -> Z) (k i : nat) (tcp_port : Z) :
  draw (rng (i + k)%nat) ≠ tcp_port ->
  exists p j, draw_tls_port (S k) rng i tcp_port = Some (p, j).
Proof.
  revert i. induction k as [|k IH]; intros i Hne.
  - rewrite Nat.add_0_r in Hne. rewrite draw_tls_port_S.
    apply Z.eqb_neq in Hne. rewrite Hne. eauto.
  - rewrite draw_tls_port_S.
    destruct (draw (rng i) =? tcp_port) eqn:E; [|eauto].
    apply (IH (S i)). now replace (S i + k)%nat with (i + S k)%nat by lia.
Qed.

Lemma ports_emit e st : ports (emit e st) = ports st.
Proof. reflexivity. Qed.

Lemma ports_close_bind lb st : ports (close_bind lb st) = ports st.
Proof. unfold close_bind. repeat case_match; reflexivity. Qed.

Lemma ports_fold_close l st :
  ports (fold_left (fun s lb => close_bind lb s) l st) = ports st.
Proof.
  revert st. induction l as [|lb l IH]; intros st; simpl; [reflexivity|].
  now rewrite IH, ports_close_bind.
Qed.

Lemma ports_set_binds l st : ports (set_binds l st) = ports st.
Proof. reflexivity. Qed.

Lemma ports_set_hub_binds m st : ports (set_hub_binds m st) = ports st.
Proof. reflexivity. Qed.

Lemma ports_listen_stop st : ports (listen_stop st) = ports st.
Proof.
  unfold listen_stop.
  now rewrite ports_set_binds, ports_fold_close, ports_set_hub_binds.
Qed.

Lemma ports_bind_add b ty ip prt st : ports (bind_add b ty ip prt st) = ports st.
Proof.
  unfold bind_add. repeat case_match; try reflexivity.
  all: now rewrite ports_listen_stop.
Qed.

Lemma ports_bind_create os b st : ports (bind_create os b st) = ports st.
Proof.
  unfold bind_create.
  repeat case_match; simplify_eq; rewrite ?ports_listen_stop; reflexivity.
Qed.

Lemma ports_refresh_hubs tabs st : ports (listen_refresh_hubs tabs st) = ports st.
Proof.
  revert st. induction tabs as [|t tabs IH]; intros st; simpl; [reflexivity|].
  repeat case_match; rewrite ?IH, ?ports_bind_add; reflexivity.
Qed.

Lemma ports_refresh_create os l st : ports (listen_refresh_create os l st) = ports st.
Proof.
  revert st. induction l as [|b l IH]; intros st; simpl; [reflexivity|].
  case_match; rewrite ?IH, ports_bind_create; reflexivity.
Qed.

Lemma ports_listen_refresh os tabs st : ports (listen_refresh os tabs st) = ports st.
Proof.
  unfold listen_refresh.
  now rewrite ports_refresh_create, ports_refresh_hubs, ports_listen_stop.
Qed.

Lemma ports_refreshes os rounds st : ports (refreshes os rounds st) = ports st.
Proof.
  unfold refreshes. revert st.
  induction rounds as [|tabs rounds IH]; intros st; simpl; [reflexivity|].
  rewrite IH. apply ports_listen_refresh.
Qed.

Lemma random_port_ports ty st st' : ports st = ports st' -> random_port ty st = random_port ty st'.
Proof. unfold ports, random_port. intros [= -> -> ->]. reflexivity. Qed.

Lemma bind_lookup_reuse ty ip prt before l bf i af :
  bind_lookup ty ip prt before l = Reuse bf i af ->
  type i = ty /\ port i = prt.
Proof.
  revert before. induction l as [|x l IH]; intros before; simpl; [discriminate|].
  destruct ((type x =? ty) && ((ip4 x =? ip) || negb (truthy (ip4 x))) && (port x =? prt)) eqn:E.
  - intros [= _ <- _].
    apply andb_prop in E as [E Hp]. apply andb_prop in E as [Ht _].
    split; lia.
  - case_match; [discriminate|]. apply IH.
Qed.

Lemma fold_add_hub_fields hs lb :
  let lb' := fold_left (fun acc h => add_hub h acc) hs lb in
  type lb' = type lb /\ port lb' = port lb /\ forall h, h ∈ hubs lb -> h ∈ hubs lb'.
Proof.
  revert lb. induction hs as [|x hs IH]; intros lb; simpl; [auto|].
  destruct (IH (add_hub x lb)) as (Ht & Hp & Hh).
  repeat split; [exact Ht | exact Hp |].
  intros h Hin. apply Hh. simpl. now apply list_elem_of_further.
Qed.

Lemma bind_merge_fields lb l m lb' rest m' :
  bind_merge lb l m = (lb', rest, m') ->
  type lb' = type lb /\ port lb' = port lb /\ forall h, h ∈ hubs lb -> h ∈ hubs lb'.
Proof.
  revert lb m lb' rest m'. induction l as [|i l IH]; intros lb m lb' rest m'; simpl.
  - intros [= <- _ _]. auto.
  - case_match.
    + destruct (bind_merge lb l m) as [[lb1 rest1] m1] eqn:E.
      intros [= <- _ _]. eapply IH, E.
    + intros E. apply IH in E as (Ht & Hp & Hh).
      destruct (fold_add_hub_fields (hubs i) lb) as (Ht' & Hp' & Hh').
      repeat split; [congruence | congruence | auto].
Qed.

Lemma to_guint16_lbt ty : ty ∈ [LBT_TCP; LBT_UDP; LBT_TLS] -> to_guint16 ty = ty.
Proof.
  rewrite !elem_of_cons, elem_of_nil. intros [->|[->|[->|[]]]]; reflexivity.
Qed.

Lemma bind_add_uses_port b ty ip prt st :
  ty ∈ [LBT_TCP; LBT_UDP; LBT_TLS] ->
  prt ≠ 0 ->
  (forall i, bind_lookup ty ip prt [] (listen_binds st) ≠ Conflict i) ->
  uses_port b ty prt (bind_add b ty ip prt st).
Proof.
  intros Hty Hprt Hnc. unfold bind_add, truthy.
  apply Z.eqb_neq in Hprt. rewrite Hprt. simpl.
  destruct (bind_lookup ty ip prt [] (listen_binds st)) as [bf i af|i|] eqn:E.
  - apply bind_lookup_reuse in E as [Ht Hp].
    exists (add_hub b i). simpl. repeat split; try assumption.
    + apply elem_of_app. right. apply list_elem_of_here.
    + apply list_elem_of_here.
  - now destruct (Hnc i).
  - match goal with
    | |- context [if ?c then bind_merge ?lb ?l ?m else ?e] =>
        destruct (if c then bind_merge lb l m else e) as [[lb' rest] m'] eqn:Em;
        assert (type lb' = type lb /\ port lb' = port lb
                /\ forall h, h ∈ hubs lb -> h ∈ hubs lb') as (Ht & Hp & Hh)
    end.
    { case_match; [eapply bind_merge_fields; eassumption|]. simplify_eq. auto. }
    exists lb'. simpl in *. repeat split.
    + apply list_elem_of_here.
    + rewrite Ht. now apply to_guint16_lbt.
    + exact Hp.
    + apply Hh, list_elem_of_here.
Qed.

(** The loop draws until a port differs from the TCP port: what it returns
    is the first such draw, and the number of the draw that comes next. *)
Lemma draw_tls_port_first (fuel : nat) (rng : nat -> Z) (i : nat) (tcp_port p : Z) (n : nat) :
  draw_tls_port fuel rng i tcp_port = Some (p, n) ->
  exists j, n = S j /\ (i <= j)%nat /\ (j < i + fuel)%nat /\ p = draw (rng j)
            /\ forall i', (i <= i' < j)%nat -> draw (rng i') = tcp_port.
Proof.
  revert i. induction fuel as [|fuel IH]; intros i; [discriminate|].
  rewrite draw_tls_port_S.
  destruct (draw (rng i) =? tcp_port) eqn:E.
  - intros Hd. destruct (IH _ Hd) as (j & -> & Hij & Hlt & -> & Hall).
    exists j. split; [reflexivity|]. split; [lia|]. split; [lia|]. split; [reflexivity|].
    intros i' Hi'. destruct (decide (i' = i)) as [->|Hne]; [now apply Z.eqb_eq|].
    apply Hall. lia.
  - intros [= <- <-]. exists i. split; [reflexivity|]. split; [lia|]. split; [lia|].
    split; [reflexivity|]. intros i' Hi'. lia.
Qed.

(** More fuel than the loop needs changes nothing. *)
Lemma draw_tls_port_fuel (fuel more : nat) (rng : nat -> Z) (i : nat) (tcp_port : Z) r :
  draw_tls_port fuel rng i tcp_port = Some r ->
  draw_tls_port (fuel + more) rng i tcp_port = Some r.
Proof.
  revert i. induction fuel as [|fuel IH]; intros i; [discriminate|].
  change (S fuel + more)%nat with (S (fuel + more)). rewrite !draw_tls_port_S.
  destruct (draw (rng i) =? tcp_port); [apply IH | auto].
Qed.

(** C8.  The startup ports are the draws of the generator.  Provided the
    generator eventually draws a port that differs from the first draw,
    [listen_global_init] returns, with any fuel that is enough: the TCP
    port is the first draw; the TLS port is the first later draw that
    differs from the TCP port, all draws in between being thrown away
    because they equal it; the UDP port is the draw after that one.  Each
    draw is [g_random_int_range(1025, 65535)] cut to 16 bits, so the three
    ports lie in [1025, 65534], one per bind type, the TLS port differing
    from the TCP port.  No refresh changes them, and after any number of
    refreshes [bind_add] with port 0 does what it does with the startup
    port of the bind's type: unless that bind conflicts, the hub ends up
    on a bind with that port. *)
Theorem listen_zero_port_uses_startup_port (rng : nat -> Z) (k : nat) (st0 : state) :
  draw (rng (S k)) ≠ draw (rng O) ->
  exists fuel st j,
    (forall more, listen_global_init (fuel + more) rng st0 = Some st)
    /\ (1 <= j <= S k)%nat
    /\ random_tcp_port st = to_guint16 (g_random_int_range (rng O) 1025 65535)
    /\ (forall i, (1 <= i < j)%nat ->
          to_guint16 (g_random_int_range (rng i) 1025 65535) = random_tcp_port st)
    /\ random_tls_port st = to_guint16 (g_random_int_range (rng j) 1025 65535)
    /\ random_udp_port st = to_guint16 (g_random_int_range (rng (S j)) 1025 65535)
    /\ 1025 <= random_tcp_port st <= 65534
    /\ 1025 <= random_udp_port st <= 65534
    /\ 1025 <= random_tls_port st <= 65534
    /\ random_tls_port st ≠ random_tcp_port st
    /\ random_port LBT_TCP st = random_tcp_port st
    /\ random_port LBT_UDP st = random_udp_port st
    /\ random_port LBT_TLS st = random_tls_port st
    /\ forall os rounds b ty ip,
         let st' := refreshes os rounds st in
         ports st' = ports st
         /\ bind_add b ty ip 0 st' = bind_add b ty ip (random_port ty st) st'
         /\ (ty ∈ [LBT_TCP; LBT_UDP; LBT_TLS] ->
             (forall i, bind_lookup ty ip (random_port ty st) [] (listen_binds st')
                        ≠ Conflict i) ->
             uses_port b ty (random_port ty st) (bind_add b ty ip 0 st')).
Proof.
  intros Hne.
  destruct (draw_tls_port_terminates rng k 1 (draw (rng O)) Hne) as (p & n & Hd).
  destruct (draw_tls_port_first _ _ _ _ _ _ Hd) as (j & -> & Hj1 & Hj2 & -> & Hall).
  pose proof (draw_tls_port_sound _ _ _ _ _ _ Hd) as [Hp Hr].
  set (st1 := Build_state (listen_binds st0) ∅ (draw (rng O)) (draw (rng (S j)))
                (draw (rng j)) (next_addr st0) (trace st0)).
  exists (S k), st1, j.
  split.
  { intros more. unfold listen_global_init. fold (draw (rng O)).
    rewrite (draw_tls_port_fuel (S k) more _ _ _ _ Hd). reflexivity. }
  split; [lia|]. split; [reflexivity|]. split; [exact Hall|].
  split; [reflexivity|]. split; [reflexivity|].
  pose proof (draw_range (rng O)) as Htcp. pose proof (draw_range (rng (S j))) as Hudp.
  split; [exact Htcp|]. split; [exact Hudp|]. split; [exact Hr|].
  split; [exact Hp|]. do 3 (split; [reflexivity|]).
  intros os rounds b ty ip. cbv zeta. set (st' := refreshes os rounds st1).
  assert (Hports : ports st' = ports st1) by apply ports_refreshes.
  assert (Hnz : random_port ty st1 ≠ 0).
  { unfold random_port, st1. cbn [random_tcp_port random_udp_port random_tls_port].
    repeat case_match; lia. }
  assert (Heq : bind_add b ty ip 0 st' = bind_add b ty ip (random_port ty st1) st').
  { unfold bind_add. rewrite (random_port_ports ty _ _ Hports).
    unfold truthy. apply Z.eqb_neq in Hnz. rewrite Hnz. reflexivity. }
  split; [exact Hports|]. split; [exact Heq|].
  intros Hty Hnc. rewrite Heq. now apply bind_add_uses_port.
Qed.

Lemma listen_zero_port_uses_startup_port_witness :
  exists fuel st j,
    (forall more, listen_global_init (fuel + more) Samples.rng Samples.listen_init = Some st)
    /\ (1 <= j <= 3)%nat
    /\ random_tcp_port st = to_guint16 (g_random_int_range (Samples.rng O) 1025 65535)
    /\ (forall i, (1 <= i < j)%nat ->
          to_guint16 (g_random_int_range (Samples.rng i) 1025 65535) = random_tcp_port st)
    /\ random_tls_port st = to_guint16 (g_random_int_range (Samples.rng j) 1025 65535)
    /\ random_udp_port st = to_guint16 (g_random_int_range (Samples.rng (S j)) 1025 65535)
    /\ 1025 <= random_tcp_port st <= 65534
    /\ 1025 <= random_udp_port st <= 65534
    /\ 1025 <= random_tls_port st <= 65534
    /\ random_tls_port st ≠ random_tcp_port st
    /\ random_port LBT_TCP st = random_tcp_port st
    /\ random_port LBT_UDP st = random_udp_port st
    /\ random_port LBT_TLS st = random_tls_port st
    /\ forall os rounds b ty ip,
         let st' := refreshes os rounds st in
         ports st' = ports st
         /\ bind_add b ty ip 0 st' = bind_add b ty ip (random_port ty st) st'
         /\ (ty ∈ [LBT_TCP; LBT_UDP; LBT_TLS] ->
             (forall i, bind_lookup ty ip (random_port ty st) [] (listen_binds st')
                        ≠ Conflict i) ->
             uses_port b ty (random_port ty st) (bind_add b ty ip 0 st')).
Proof.
  apply (listen_zero_port_uses_startup_port Samples.rng 2 Samples.listen_init).
  vm_compute. discriminate.
Defined.

End ListenFacts.

(** * Properties of the download orchestrator *)

Section OrderFacts.
Import Dl.

Lemma strcmp_refl (a : string) : strcmp a a = 0.
Proof. induction a as [|x a IH]; simpl; [reflexivity|]. now rewrite Ascii.eqb_refl. Qed.

(** Entries whose records agree on the destination, the priority and the
    list flag, and that are both enabled or both disabled, compare equal. *)
Lemma dl_user_dl_sort_same_dest `{Env} (x y : dl_user_dl_t) (dx dy : dl_t) :
  dl_user_dl_enabled x dx = dl_user_dl_enabled y dy ->
  islist dx = islist dy -> prio dx = prio dy -> dest dx = dest dy ->
  dl_user_dl_sort x dx y dy = 0.
Proof.
  intros He Hl Hp Hd. unfold dl_user_dl_sort. rewrite He, Hl, Hp, Hd.
  rewrite Z.gtb_ltb, !Z.ltb_irrefl.
  destruct (dl_user_dl_enabled y dy), (islist dy); simpl; apply strcmp_refl.
Qed.

#[local] Existing Instance sample_env.

(** C5 fails on the code: the comparison ends in [strcmp] on the
    destinations, and two records can have the same destination.  After
    user 7 has been asked for two files with different TTHs and the name
    "a.txt", the queue of the user holds two distinct entries, for two
    distinct records, and [dl_user_dl_sort] returns 0 for them, in either
    order. *)
Theorem dl_user_dl_sort_ties :
  let st := Samples.two_files_one_name in
  let x := Samples.entry_of 1 in
  let y := Samples.entry_of 3 in
  let dx := Samples.file_a 111 2 in
  let dy := Samples.file_a 222 4 in
  (du_queue <$> queue_users st !! 7) = Some [2%N; 4%N]
  /\ duds st !! 2%N = Some x /\ duds st !! 4%N = Some y
  /\ dls st !! dud_dl x = Some dx /\ dls st !! dud_dl y = Some dy
  /\ dud_dl x ≠ dud_dl y /\ hash dx ≠ hash dy
  /\ dest dx = dest dy
  /\ dl_user_dl_enabled x dx = true /\ dl_user_dl_enabled y dy = true
  /\ dl_user_dl_sort x dx y dy = 0
  /\ dl_user_dl_sort y dy x dx = 0.
Proof.
  cbv zeta. repeat split; try (vm_compute; reflexivity); vm_compute; discriminate.
Qed.

End OrderFacts.

(** * Properties of the persistence service *)

Section DbFacts.
Import Db.
Context `{Sqlite} `{Darray}.

(** The loop that looks for [DBQ_RES] finds the reply queue of a request
    when it reads every argument for what it is. *)
Lemma skip_to_res_args (l : list arg) (more : list cell) :
  forallb scannable_arg l = true ->
  skip_to_res (flat_map arg_cells l ++ more) = skip_to_res more.
Proof.
  induction l as [|a l IH]; intros Hl; [reflexivity|].
  cbn [forallb] in Hl. apply andb_prop in Hl as [Ha Hl].
  destruct a as [|v| | |]; try discriminate; cbn.
  - now apply IH.
  - cbn in Ha. apply andb_prop in Ha as [Hend Hres].
    apply negb_true_iff in Hend, Hres. rewrite Hend, Hres. now apply IH.
Qed.

Lemma skip_to_res_scannable (q : queue_item) :
  scannable q = true -> skip_to_res (item_body q) = fst <$> res q.
Proof.
  intros Hq. unfold item_body. rewrite skip_to_res_args by exact Hq.
  destruct (res q) as [[queue cols]|]; reflexivity.
Qed.

Lemma db_queue_item_error_scannable (q : queue_item) :
  scannable q = true ->
  db_queue_item_error q
  = match res q with
    | Some (queue, _) => [Ev_push queue (Final SQLITE_ERROR None)]
    | None => []
    end.
Proof.
  intros Hq. unfold db_queue_item_error. rewrite skip_to_res_scannable by exact Hq.
  destruct (res q) as [[queue cols]|]; reflexivity.
Qed.

Lemma transactional_flags (q : queue_item) :
  transactional q = true ->
  has_flag (flags q) DBF_SINGLE = false /\ has_flag (flags q) DBF_END = false.
Proof.
  unfold transactional. intros Hq. apply andb_prop in Hq as [H1 H2].
  now apply negb_true_iff in H1; apply negb_true_iff in H2.
Qed.

(** One chained request in an aborted transaction: it is answered with an
    error and not run. *)
Lemma db_queue_process_iter_errtrans (q : queue_item) (st : state) :
  transactional q = true ->
  errtrans st = true ->
  db_queue_process_iter (Some q) st
  = (let st' := emit (warn_donext st ++ db_queue_item_error q) st in
     if chains_next q then set_ctl (in_trans st) true true st' else idle st',
     true).
Proof.
  intros Hq He. apply transactional_flags in Hq as [Hs Hend].
  unfold db_queue_process_iter, chains_next, warn_donext, idle.
  rewrite Hs, Hend. cbn [bool_decide orb]. rewrite bool_decide_eq_false_2 by discriminate.
  cbn [orb]. rewrite He.
  destruct st as [d t n e tr]; cbn in *. subst e.
  destruct n, (has_flag (flags q) DBF_NEXT); unfold emit, set_ctl; cbn;
    rewrite <- ?app_assoc; reflexivity.
Qed.

Lemma db_queue_item_error_no_exec (q : queue_item) :
  forallb (fun e => negb (is_exec e)) (db_queue_item_error q) = true.
Proof. unfold db_queue_item_error. now destruct (skip_to_res _). Qed.

Lemma chain_errors_no_exec (chain : list queue_item) :
  forallb (fun e => negb (is_exec e)) (flat_map db_queue_item_error chain) = true.
Proof.
  induction chain as [|q r IH]; [reflexivity|]. simpl.
  now rewrite forallb_app, db_queue_item_error_no_exec, IH.
Qed.

(** A whole chain in an aborted transaction. *)
Lemma db_queue_process_chain (chain : list queue_item) (rest : list (option queue_item))
    (st : state) :
  errtrans st = true ->
  is_chain chain = true ->
  db_queue_process (map Some chain ++ rest) st
  = db_queue_process rest
      (idle (emit (warn_donext st ++ flat_map db_queue_item_error chain) st)).
Proof.
  revert st. induction chain as [|q r IH]; intros st He Hc; [discriminate|].
  destruct r as [|q' r].
  - cbn [is_chain] in Hc. apply andb_prop in Hc as [Hq Hn].
    apply negb_true_iff in Hn.
    cbn [map app db_queue_process flat_map].
    rewrite db_queue_process_iter_errtrans by assumption. rewrite Hn.
    now rewrite app_nil_r.
  - change (is_chain (q :: q' :: r))
      with (transactional q && chains_next q && is_chain (q' :: r)) in Hc.
    apply andb_prop in Hc as [Hc Hr]. apply andb_prop in Hc as [Hq Hn].
    change (map Some (q :: q' :: r) ++ rest)
      with (Some q :: (map Some (q' :: r) ++ rest)).
    cbn [db_queue_process].
    rewrite db_queue_process_iter_errtrans by assumption. rewrite Hn.
    rewrite IH by (assumption || reflexivity).
    f_equal. destruct st as [d t n e tr]. unfold idle, emit, set_ctl, warn_donext.
    cbn. rewrite <- !app_assoc. reflexivity.
Qed.

(** The turn of a normal or NEXT request that fails in its transaction. *)
Lemma db_queue_process_iter_fail (q : queue_item) (st st_b st_r : state)
    (res : option N) (lastid r : Z) :
  errtrans st = false ->
  transactional q = true ->
  has_flag (flags q) DBF_LAST = false ->
  begin_for st = (SQLITE_DONE, st_b) ->
  run_one q (has_flag (flags q) DBF_NOCACHE) true st_b = (res, lastid, r, st_r) ->
  r ≠ SQLITE_DONE ->
  db_queue_process_iter (Some q) st
  = (let st_f := db_queue_process_rollback (emit (db_queue_item_final res r lastid) st_r) in
     if chains_next q then set_ctl (in_trans st_f) (donext st_f) true st_f
     else set_ctl false (donext st_f) (errtrans st_f) st_f,
     true).
Proof.
  intros He Hq Hl Hb Hr Hne. apply transactional_flags in Hq as [Hs Hend].
  unfold db_queue_process_iter, chains_next.
  rewrite Hs, Hend. rewrite bool_decide_eq_false_2 by discriminate.
  cbn [orb]. unfold begin_for in Hb. rewrite He in Hb |- *. rewrite Hl.
  apply Z.eqb_neq in Hne.
  destruct (in_trans st) eqn:Ht.
  - injection Hb as <-. cbn [negb]. rewrite Hr, Hne. reflexivity.
  - rewrite Hb. change (SQLITE_DONE =? SQLITE_DONE) with true. cbn [negb].
    rewrite Hr, Hne. reflexivity.
Qed.

(** Where chained requests are answered.  A normal or NEXT request [q0]
    that is run in a transaction (the
    open one, or one begun for it) and fails is answered with its result
    code and the transaction is rolled back.  If [q0] has [DBF_NEXT] and
    the requests chained to it bind nothing but NULLs and ints other than
    0 and 6, they are then answered each with [SQLITE_ERROR] on its reply
    queue, in the order of the queue, and none of them is run; after the
    last one the service is in its starting state, and the next request
    begins a new transaction and is run in it. *)
Theorem db_failed_query_fails_scannable_chain (q0 : queue_item) (chain : list queue_item)
    (rest : list (option queue_item)) (st st_b st_r : state)
    (res : option N) (lastid r : Z) :
  errtrans st = false ->
  transactional q0 = true ->
  has_flag (flags q0) DBF_LAST = false ->
  chains_next q0 = true ->
  begin_for st = (SQLITE_DONE, st_b) ->
  run_one q0 (has_flag (flags q0) DBF_NOCACHE) true st_b = (res, lastid, r, st_r) ->
  r ≠ SQLITE_DONE ->
  is_chain chain = true ->
  forallb scannable chain = true ->
  let st_f := db_queue_process_rollback (emit (db_queue_item_final res r lastid) st_r) in
  let error_reply := fun q : queue_item =>
    match Db.res q with
    | Some (queue, _) => [Ev_push queue (Final SQLITE_ERROR None)]
    | None => []
    end in
  let replies := warn_donext st_f ++ flat_map error_reply chain in
  db_queue_process (Some q0 :: map Some chain ++ rest) st
  = db_queue_process rest (idle (emit replies st_f))
  /\ trace st_f = trace st_r ++ db_queue_item_final res r lastid ++ [Ev_rollback]
  /\ db st_f = sql_rollback (db st_r)
  /\ (forall q s, transactional q = true -> has_flag (flags q) DBF_LAST = false ->
        fst (sql_begin (db s)) = SQLITE_DONE ->
        exists evs res' lastid' r' d',
          db_queue_process_one (snd (sql_begin (db s))) q
            (has_flag (flags q) DBF_NOCACHE) true = (evs, res', lastid', r', d')
          /\ trace (fst (db_queue_process_iter (Some q) (idle s)))
             = trace s ++ [Ev_begin SQLITE_DONE] ++ evs
               ++ db_queue_item_final res' r' lastid'
               ++ (if r' =? SQLITE_DONE then [] else [Ev_rollback])).
Proof.
  intros He Hq Hl Hn Hb Hr Hne Hc Hsc st_f error_reply replies.
  split; [|split; [|split]].
  - cbn [db_queue_process].
    rewrite (db_queue_process_iter_fail q0 st st_b st_r res lastid r) by assumption.
    cbv zeta. rewrite Hn. fold st_f.
    rewrite db_queue_process_chain by (assumption || reflexivity).
    assert (Hrep : flat_map db_queue_item_error chain = flat_map error_reply chain).
    { clear -Hsc. induction chain as [|q l IH]; [reflexivity|].
      cbn [forallb] in Hsc. apply andb_prop in Hsc as [Hq Hl].
      cbn [flat_map]. rewrite (db_queue_item_error_scannable q Hq), (IH Hl). reflexivity. }
    rewrite Hrep. f_equal.
  - unfold st_f, db_queue_process_rollback, emit. cbn. now rewrite <- app_assoc.
  - reflexivity.
  - intros q s Hq' Hl' Hbegin.
    destruct (db_queue_process_one (snd (sql_begin (db s))) q
                (has_flag (flags q) DBF_NOCACHE) true)
      as [[[[evs res'] lastid'] r'] d'] eqn:E.
    exists evs, res', lastid', r', d'. split; [reflexivity|].
    apply transactional_flags in Hq' as [Hs Hend].
    unfold db_queue_process_iter. rewrite Hs, Hend.
    rewrite bool_decide_eq_false_2 by discriminate. cbn [orb]. rewrite Hl'.
    unfold idle, db_queue_process_begin, run_one. cbn.
    destruct (sql_begin (db s)) as [rb db'] eqn:Eb. cbn in Hbegin, E. subst rb.
    cbn. rewrite E. cbn.
    destruct (r' =? SQLITE_DONE) eqn:Er; cbn.
    + now rewrite app_nil_r, <- !app_assoc.
    + destruct (has_flag (flags q) DBF_NEXT); cbn; now rewrite <- !app_assoc.
Qed.

End DbFacts.

Section DbExamples.
Import Db.
#[local] Existing Instance Samples.sample_sqlite.

(** C3.  Not every request that is chained to a failed one is answered.
    [db_queue_item_error] looks for [DBQ_RES] by reading the queue item
    one [int32] after the other, the values of the arguments among them.
    A chained request that binds the int 0 ahead of its reply queue has
    that 0 read as [DBQ_END]: after the request before it has failed and
    the transaction has been rolled back, it is not run and nothing is
    pushed on its reply queue, here queue 2, whatever the layout of the
    darray.  The request after it is run in a new transaction.  For the
    second request of [db_fl_addhash], which is chained to the first, the
    reply is what comes of reading the text of the hash as [int32]s, not
    the queue on which the caller waits. *)
Theorem db_failed_chain_drops_reply (D : Darray) :
  (forall path size lastmod hash tthl a,
     chains_next (db_fl_addhash_hashdata size hash tthl) = true
     /\ is_chain [db_fl_addhash_hashfiles path lastmod hash a] = true
     /\ db_queue_item_error (db_fl_addhash_hashfiles path lastmod hash a)
        = db_queue_item_final
            (stray_scan
               [C_string hash; C_int32 3; C_int64 (to_gint64 lastmod);
                C_int32 4; C_string path;
                C_int32 DBQ_RES; C_queue a; C_int32 DBQ_LASTID; C_int32 DBQ_END])
            SQLITE_ERROR 0)
  /\ is_chain [Samples.q_zero] = true
  /\ res Samples.q_zero = Some (2%N, [2])
  /\ db_queue_item_create Samples.q_zero
     = [C_int32 0; C_query "SELECT 1 FROM dl WHERE priority = ?";
        C_int32 2; C_int32 0; C_int32 DBQ_RES; C_queue 2; C_int32 2; C_int32 DBQ_END]
  /\ db_queue_item_error Samples.q_zero = []
  /\ trace
       (db_queue_process
          [Some Samples.q_bad; Some Samples.q_zero; Some Samples.q_after] Samples.db_init)
     = [Ev_begin SQLITE_DONE;
        Ev_exec Samples.q_bad false true SQLITE_ERROR;
        Ev_push 1%N (Final SQLITE_ERROR None);
        Ev_rollback;
        Ev_warn "donext";
        Ev_begin SQLITE_DONE;
        Ev_exec Samples.q_after false true SQLITE_DONE;
        Ev_push 4%N (Final SQLITE_DONE (Some 0))].
Proof. repeat split. Qed.

#[local] Existing Instance Samples.sample_darray.

Lemma db_failed_query_fails_scannable_chain_witness :
  db_queue_process
    (Some Samples.q_bad :: map Some [Samples.q_second; Samples.q_third]
       ++ [Some Samples.q_after]) Samples.db_init
  = db_queue_process [Some Samples.q_after]
      (idle
         (emit
            [Ev_warn "donext";
             Ev_push 2%N (Final SQLITE_ERROR None);
             Ev_push 3%N (Final SQLITE_ERROR None)]
            (db_queue_process_rollback
               (emit [Ev_push 1%N (Final SQLITE_ERROR None)]
                  (Build_state ([] : list string)
                     true false false
                     [Ev_begin SQLITE_DONE;
                      Ev_exec Samples.q_bad false true SQLITE_ERROR]))))).
Proof.
  refine (proj1 (db_failed_query_fails_scannable_chain
                   Samples.q_bad [Samples.q_second; Samples.q_third]
                   [Some Samples.q_after] Samples.db_init
                   (Build_state ([] : list string) true false false [Ev_begin SQLITE_DONE])
                   (Build_state ([] : list string) true false false
                      [Ev_begin SQLITE_DONE;
                       Ev_exec Samples.q_bad false true SQLITE_ERROR])
                   (Some 1%N) 0 SQLITE_ERROR _ _ _ _ _ _ _ _ _));
    vm_compute; congruence.
Defined.

(** The same run, event by event. *)
Example db_failed_chain_trace :
  trace
    (db_queue_process
       [Some Samples.q_bad; Some Samples.q_second; Some Samples.q_third;
        Some Samples.q_after] Samples.db_init)
  = [Ev_begin SQLITE_DONE;
     Ev_exec Samples.q_bad false true SQLITE_ERROR;
     Ev_push 1%N (Final SQLITE_ERROR None);
     Ev_rollback;
     Ev_warn "donext";
     Ev_push 2%N (Final SQLITE_ERROR None);
     Ev_push 3%N (Final SQLITE_ERROR None);
     Ev_begin SQLITE_DONE;
     Ev_exec Samples.q_after false true SQLITE_DONE;
     Ev_push 4%N (Final SQLITE_DONE (Some 0))].
Proof. vm_compute. reflexivity. Qed.

End DbExamples.

Section QueueFacts.
Import Dl.
Context `{Env}.

(** *** How the operations act on the heap of records *)

Lemma dls_emit e st : dls (emit e st) = dls st.
Proof. reflexivity. Qed.

Lemma dl_queue_emit e st : dl_queue (emit e st) = dl_queue st.
Proof. reflexivity. Qed.

Lemma dls_dl_queue_start st : dls (dl_queue_start st) = dls st.
Proof. unfold dl_queue_start. now case_match. Qed.

Lemma dl_queue_dl_queue_start st : dl_queue (dl_queue_start st) = dl_queue st.
Proof. unfold dl_queue_start. now case_match. Qed.

Lemma next_ptr_dl_queue_start st : next_ptr (dl_queue_start st) = next_ptr st.
Proof. unfold dl_queue_start. now case_match. Qed.

Lemma duds_dl_queue_start st : duds (dl_queue_start st) = duds st.
Proof. unfold dl_queue_start. now case_match. Qed.

Lemma queue_users_dl_queue_start st : queue_users (dl_queue_start st) = queue_users st.
Proof. unfold dl_queue_start. now case_match. Qed.

Lemma dls_upd_du uid f st : dls (upd_du uid f st) = dls st.
Proof. reflexivity. Qed.

Lemma dls_upd_dl p f st : dls (upd_dl p f st) = alter f p (dls st).
Proof. reflexivity. Qed.

(** [dl_user_add] either refuses, or appends the new entry to [dl->u]. *)
Lemma dl_user_add_dls dl uid e emsg st d :
  dls st !! dl = Some d ->
  dls (dl_user_add dl uid e emsg st)
  = if negb (negb (islist d) || (length (u d) =? 0)%nat) then dls st
    else <[dl := set_u (u d ++ [next_ptr st]) d]> (dls st).
Proof.
  intros Hd. unfold dl_user_add. rewrite Hd.
  case_match; [reflexivity|].
  rewrite dls_emit, dls_upd_dl.
  destruct (queue_users st !! uid); cbn;
    apply map_eq; intros i; rewrite lookup_alter, lookup_insert;
    case_decide; subst; rewrite ?Hd; reflexivity.
Qed.

Lemma dl_user_add_dl_queue dl uid e emsg st :
  dl_queue (dl_user_add dl uid e emsg st) = dl_queue st.
Proof.
  unfold dl_user_add. repeat case_match; reflexivity.
Qed.

Lemma dl_queue_insert_dls dl init st d :
  dls st !! dl = Some d ->
  let d' := if negb (islist d) && negb (hastthl d) && (size d <=? DL_MINTTHLSIZE)
            then set_hash_block DL_MINTTHLSIZE (set_hastthl true d) else d in
  let d'' := set_u [] (set_inc (g_build_filename [var_incoming_dir;
                                                    base32_encode (hash d')]) d') in
  dls (dl_queue_insert dl init st) = <[dl := d'']> (dls st)
  /\ dl_queue (dl_queue_insert dl init st) = <[hash d := dl]> (dl_queue st)
  /\ next_ptr (dl_queue_insert dl init st) = next_ptr st.
Proof.
  intros Hd. unfold dl_queue_insert. rewrite Hd. cbv zeta.
  repeat split; repeat case_match;
    rewrite ?dls_dl_queue_start, ?dl_queue_dl_queue_start,
      ?next_ptr_dl_queue_start; reflexivity.
Qed.

Lemma small_record_single_block (d : dl_t) :
  0 <= size d < DL_MINTTHLSIZE ->
  hastthl d = true -> hash_block d = DL_MINTTHLSIZE ->
  single_block_on_root d.
Proof.
  intros Hsz Ht Hb. unfold single_block_on_root, dl_recv_check.
  rewrite Hb. change DL_MINTTHLSIZE with 2097152 in *.
  repeat split; try assumption.
  - intros hv Hhv. apply Z.div_small. lia.
  - intros tth. replace (size d <? 2097152) with true by (symmetry; apply Z.ltb_lt; lia).
    reflexivity.
Qed.

(** C4.  A regular file smaller than 2 MiB, whether it is queued with
    [dl_queue_addfile] or loaded from the database with [dl_load_dl], is in
    the queue with [hastthl] set, a block size of 2 MiB, and its only block
    checked against the root hash of the file. *)
Theorem small_file_skips_tthl (uid h sz : Z) (fn dst : string) (p e : Z)
    (emsg : option string) (tthllen : Z) (st : dl_state) :
  0 <= sz < DL_MINTTHLSIZE ->
  dl_queue st !! h = None ->
  (exists st' dl d,
     dl_queue_addfile uid h sz fn st = (true, st')
     /\ dl_queue st' !! h = Some dl /\ dls st' !! dl = Some d
     /\ islist d = false /\ size d = sz /\ hash d = h
     /\ single_block_on_root d)
  /\ (exists dl d,
        let st' := dl_load_dl h sz (Some dst) p e emsg tthllen st in
        dl_queue st' !! h = Some dl /\ dls st' !! dl = Some d
        /\ islist d = false /\ size d = sz /\ hash d = h
        /\ single_block_on_root d).
Proof.
  intros Hsz Hnone. split.
  - unfold dl_queue_addfile. rewrite Hnone. unfold dl_alloc.
    set (d0 := Build_dl_t false false false false false false false 0 0 0 None None
                 h [] sz 0 "" (g_build_filename [var_download_dir; fn]) 0 None).
    set (st1 := set_dls _ _).
    assert (Hd0 : dls st1 !! next_ptr st = Some d0) by apply lookup_insert_eq.
    destruct (dl_queue_insert_dls (next_ptr st) false st1 d0 Hd0) as (Hdls & Hq & _).
    set (st2 := dl_queue_insert (next_ptr st) false st1) in *.
    replace (size d0 <=? DL_MINTTHLSIZE) with true in Hdls
      by (symmetry; apply Z.leb_le; cbn; lia).
    cbn [islist hastthl negb andb d0] in Hdls.
    match type of Hdls with _ = <[_ := ?x]> _ => set (d2 := x) in * end.
    assert (Hd2 : dls st2 !! next_ptr st = Some d2)
      by (rewrite Hdls; apply lookup_insert_eq).
    pose proof (dl_user_add_dls (next_ptr st) uid 0 None st2 d2 Hd2) as Hadd.
    cbn [islist d2 set_u set_inc set_hash_block set_hastthl negb orb] in Hadd.
    eexists _, (next_ptr st), _. split; [reflexivity|].
    rewrite dl_queue_emit, dl_user_add_dl_queue, Hq, dls_emit, Hadd.
    split; [apply lookup_insert_eq|]. split; [apply lookup_insert_eq|].
    do 3 (split; [reflexivity|]).
    apply small_record_single_block; [exact Hsz | reflexivity | reflexivity].
  - unfold dl_load_dl, dl_alloc.
    replace (sz <? DL_MINTTHLSIZE) with true by (symmetry; apply Z.ltb_lt; lia).
    match goal with
    | |- context [set_dls (<[_ := ?x]> _) _] => set (d0 := x)
    end.
    set (st1 := set_dls _ _).
    assert (Hd0 : dls st1 !! next_ptr st = Some d0) by apply lookup_insert_eq.
    destruct (dl_queue_insert_dls (next_ptr st) true st1 d0 Hd0) as (Hdls & Hq & _).
    exists (next_ptr st). eexists. cbv zeta. rewrite Hq, Hdls.
    split; [apply lookup_insert_eq|]. split; [apply lookup_insert_eq|].
    do 3 (split; [reflexivity|]).
    apply small_record_single_block; [exact Hsz | reflexivity | reflexivity].
Qed.

End QueueFacts.

Section QueueExamples.
Import Dl.
#[local] Existing Instance sample_env.

Lemma small_file_skips_tthl_witness :
  (exists st' dl d,
     dl_queue_addfile 7 111 1000 "a.txt" Samples.dl_init = (true, st')
     /\ dl_queue st' !! 111 = Some dl /\ dls st' !! dl = Some d
     /\ islist d = false /\ size d = 1000 /\ hash d = 111
     /\ single_block_on_root d)
  /\ (exists dl d,
        let st' := dl_load_dl 111 1000 (Some "/dl/a.txt"%string) 0 0 None 0
                     Samples.dl_init in
        dl_queue st' !! 111 = Some dl /\ dls st' !! dl = Some d
        /\ islist d = false /\ size d = 1000 /\ hash d = 111
        /\ single_block_on_root d).
Proof.
  apply (small_file_skips_tthl (H := sample_env) 7 111 1000 "a.txt" "/dl/a.txt"
           0 0 None 0 Samples.dl_init).
  - vm_compute. split; [discriminate | reflexivity].
  - reflexivity.
Defined.

End QueueExamples.

Section ListUserFacts.
Import Dl.
Context `{Env}.

Lemma shrinks_invariant st st' :
  shrinks st st' -> list_has_one_user st -> list_has_one_user st'.
Proof.
  intros Hs Hinv p d' Hd' Hl. destruct (Hs p d' Hd') as (d & Hd & Hil & Hlen).
  specialize (Hinv p d Hd). rewrite <- Hil in Hinv. specialize (Hinv Hl). lia.
Qed.

Lemma shrinks_refl st : shrinks st st.
Proof. intros p d Hd. exists d. auto. Qed.

Lemma shrinks_trans st1 st2 st3 : shrinks st1 st2 -> shrinks st2 st3 -> shrinks st1 st3.
Proof.
  intros H12 H23 p d3 Hd3.
  destruct (H23 p d3 Hd3) as (d2 & Hd2 & Hl2 & Hn2).
  destruct (H12 p d2 Hd2) as (d1 & Hd1 & Hl1 & Hn1).
  exists d1. repeat split; [assumption | congruence | lia].
Qed.

Lemma shrinks_same_dls st st' st0 :
  dls st' = dls st -> shrinks st0 st -> shrinks st0 st'.
Proof. intros Heq Hs p d Hd. rewrite Heq in Hd. now apply Hs. Qed.

Lemma shrinks_emit st0 e st : shrinks st0 st -> shrinks st0 (emit e st).
Proof. now apply shrinks_same_dls. Qed.

Lemma shrinks_upd_du st0 uid f st : shrinks st0 st -> shrinks st0 (upd_du uid f st).
Proof. now apply shrinks_same_dls. Qed.

Lemma shrinks_upd_dud st0 p f st : shrinks st0 st -> shrinks st0 (upd_dud p f st).
Proof. now apply shrinks_same_dls. Qed.

Lemma shrinks_set_duds st0 m st : shrinks st0 st -> shrinks st0 (set_duds m st).
Proof. now apply shrinks_same_dls. Qed.

Lemma shrinks_set_queue_users st0 m st : shrinks st0 st -> shrinks st0 (set_queue_users m st).
Proof. now apply shrinks_same_dls. Qed.

Lemma shrinks_set_dl_queue st0 m st : shrinks st0 st -> shrinks st0 (set_dl_queue m st).
Proof. now apply shrinks_same_dls. Qed.

Lemma shrinks_set_next_ptr st0 n st : shrinks st0 st -> shrinks st0 (set_next_ptr n st).
Proof. now apply shrinks_same_dls. Qed.

Lemma shrinks_dl_queue_start st0 st : shrinks st0 st -> shrinks st0 (dl_queue_start st).
Proof. apply shrinks_same_dls, dls_dl_queue_start. Qed.

Lemma shrinks_upd_dl st0 p f st :
  harmless f -> shrinks st0 st -> shrinks st0 (upd_dl p f st).
Proof.
  intros Hf Hs. eapply shrinks_trans; [exact Hs|].
  intros q d'. rewrite dls_upd_dl, lookup_alter. case_decide as Hq.
  - subst q. destruct (dls st !! p) as [d|] eqn:Hd; [|discriminate].
    intros [= <-]. exists d. destruct (Hf d). auto.
  - intros Hd. exists d'. auto.
Qed.

Lemma shrinks_free st0 p st :
  shrinks st0 st -> shrinks st0 (set_dls (base.delete p (dls st)) st).
Proof.
  intros Hs. eapply shrinks_trans; [exact Hs|].
  intros q d'. cbn. rewrite lookup_delete. case_decide; [discriminate|].
  intros Hd. exists d'. auto.
Qed.

Lemma harmless_set_active b : harmless (set_active b).
Proof. intros d. split; reflexivity. Qed.

Lemma harmless_set_delete b : harmless (set_delete b).
Proof. intros d. split; reflexivity. Qed.

Lemma harmless_set_prio b : harmless (set_prio b).
Proof. intros d. split; reflexivity. Qed.

Lemma harmless_set_flopen b : harmless (set_flopen b).
Proof. intros d. split; reflexivity. Qed.

Lemma harmless_set_flmatch b : harmless (set_flmatch b).
Proof. intros d. split; reflexivity. Qed.

Lemma harmless_set_error e m : harmless (fun d => set_error_msg m (set_error e d)).
Proof. intros d. split; reflexivity. Qed.

Lemma length_remove_index_fast (i : nat) (l : list N) :
  (length (g_ptr_array_remove_index_fast i l) <= length l)%nat.
Proof.
  unfold g_ptr_array_remove_index_fast. repeat case_match; [|lia..].
  rewrite length_take, length_insert. lia.
Qed.

Lemma harmless_remove_index_fast i :
  harmless (fun d => set_u (g_ptr_array_remove_index_fast i (u d)) d).
Proof. intros d. split; [reflexivity|]. apply length_remove_index_fast. Qed.

Create HintDb shrink.
#[local] Hint Resolve shrinks_refl shrinks_emit shrinks_upd_du shrinks_upd_dud
  shrinks_set_duds shrinks_set_queue_users shrinks_set_dl_queue
  shrinks_set_next_ptr shrinks_dl_queue_start shrinks_upd_dl shrinks_free
  harmless_set_active harmless_set_delete harmless_set_prio harmless_set_flopen
  harmless_set_flmatch harmless_set_error harmless_remove_index_fast : shrink.

Ltac shrink := cbv zeta; repeat case_match; eauto 40 with shrink.

Lemma shrinks_dl_user_setstate_with checkrm st0 uid state st :
  (forall dl s0 s, shrinks s0 s -> shrinks s0 (checkrm dl s)) ->
  shrinks st0 st -> shrinks st0 (dl_user_setstate_with checkrm uid state st).
Proof. intros Hc Hs. unfold dl_user_setstate_with. shrink. Qed.

Lemma shrinks_dl_user_rm st0 dl i st : shrinks st0 st -> shrinks st0 (dl_user_rm dl i st).
Proof.
  intros Hs. unfold dl_user_rm. repeat case_match; try assumption;
    apply shrinks_dl_user_setstate_with; eauto 40 with shrink.
Qed.

#[local] Hint Resolve shrinks_dl_user_rm : shrink.

Lemma shrinks_dl_queue_rm_users st0 n dl st :
  shrinks st0 st -> shrinks st0 (dl_queue_rm_users n dl st).
Proof.
  revert st. induction n as [|n IH]; intros st Hs; simpl; [assumption|].
  repeat case_match; auto with shrink.
Qed.

#[local] Hint Resolve shrinks_dl_queue_rm_users : shrink.

Lemma shrinks_dl_queue_rm st0 dl st : shrinks st0 st -> shrinks st0 (dl_queue_rm dl st).
Proof. intros Hs. unfold dl_queue_rm. shrink. Qed.

Lemma shrinks_resort st0 iter st : shrinks st0 st -> shrinks st0 (resort iter st).
Proof. intros Hs. unfold resort. shrink. Qed.

#[local] Hint Resolve shrinks_dl_queue_rm shrinks_resort : shrink.

Lemma shrinks_dl_queue_checkrm_loop st0 fuel dl i st :
  shrinks st0 st -> shrinks st0 (dl_queue_checkrm_loop fuel dl i st).
Proof.
  revert i st. induction fuel as [|fuel IH]; intros i st Hs; simpl; [assumption|].
  repeat case_match; auto with shrink.
Qed.

#[local] Hint Resolve shrinks_dl_queue_checkrm_loop : shrink.

Lemma shrinks_dl_queue_checkrm st0 dl justfin st :
  shrinks st0 st -> shrinks st0 (dl_queue_checkrm dl justfin st).
Proof. intros Hs. unfold dl_queue_checkrm. shrink. Qed.

#[local] Hint Resolve shrinks_dl_queue_checkrm : shrink.

Lemma shrinks_dl_user_setstate st0 uid state st :
  shrinks st0 st -> shrinks st0 (dl_user_setstate uid state st).
Proof.
  intros Hs. apply shrinks_dl_user_setstate_with; auto with shrink.
Qed.

#[local] Hint Resolve shrinks_dl_user_setstate : shrink.

Lemma shrinks_dl_user_cc st0 uid cc st :
  shrinks st0 st -> shrinks st0 (dl_user_cc uid cc st).
Proof. intros Hs. unfold dl_user_cc. shrink. Qed.

Lemma shrinks_dl_user_waitdone st0 uid st :
  shrinks st0 st -> shrinks st0 (dl_user_waitdone uid st).
Proof. intros Hs. unfold dl_user_waitdone. shrink. Qed.

Lemma shrinks_fold_resort st0 l st :
  shrinks st0 st -> shrinks st0 (fold_left (fun s iter => resort iter s) l st).
Proof.
  revert st. induction l as [|x l IH]; intros st Hs; simpl; auto with shrink.
Qed.

#[local] Hint Resolve shrinks_fold_resort : shrink.

Lemma shrinks_dl_queue_setprio st0 dl p st :
  shrinks st0 st -> shrinks st0 (dl_queue_setprio dl p st).
Proof. intros Hs. unfold dl_queue_setprio. shrink. Qed.

#[local] Hint Resolve shrinks_dl_queue_setprio : shrink.

Lemma shrinks_dl_queue_seterr st0 dl e sub st :
  shrinks st0 st -> shrinks st0 (dl_queue_seterr dl e sub st).
Proof. intros Hs. unfold dl_queue_seterr. shrink. Qed.

Lemma shrinks_dl_queue_setuerr st0 uid tth e emsg st :
  shrinks st0 st -> shrinks st0 (dl_queue_setuerr uid tth e emsg st).
Proof. intros Hs. unfold dl_queue_setuerr. shrink. Qed.

Lemma shrinks_rmuser_from st0 which dl st :
  shrinks st0 st -> shrinks st0 (rmuser_from which dl st).
Proof. intros Hs. unfold rmuser_from. shrink. Qed.

#[local] Hint Resolve shrinks_rmuser_from : shrink.

Lemma shrinks_fold_rmuser st0 (l : list N) st :
  shrinks st0 st ->
  shrinks st0 (fold_left (fun s i => rmuser_turn i s) l st).
Proof.
  revert st. induction l as [|x l IH]; intros st Hs; simpl; [assumption|].
  apply IH. unfold rmuser_turn. shrink.
Qed.

#[local] Hint Resolve shrinks_fold_rmuser : shrink.

Lemma shrinks_dl_queue_rmuser st0 uid tth st :
  shrinks st0 st -> shrinks st0 (dl_queue_rmuser uid tth st).
Proof. intros Hs. unfold dl_queue_rmuser. shrink. Qed.

(** *** The operations that add *)

Lemma invariant_same_dls st st' :
  dls st' = dls st -> list_has_one_user st -> list_has_one_user st'.
Proof. intros Heq Hinv p d. rewrite Heq. apply Hinv. Qed.

Lemma invariant_insert_fresh st p d :
  u d = [] -> list_has_one_user st ->
  list_has_one_user (set_dls (<[p := d]> (dls st)) st).
Proof.
  intros Hu Hinv q d'. cbn. rewrite lookup_insert. case_decide.
  - intros [= <-] _. rewrite Hu. simpl. lia.
  - apply Hinv.
Qed.

Lemma invariant_dl_user_add dl uid e emsg st :
  list_has_one_user st -> list_has_one_user (dl_user_add dl uid e emsg st).
Proof.
  intros Hinv. destruct (dls st !! dl) as [d|] eqn:Hd.
  - intros q d'. rewrite (dl_user_add_dls dl uid e emsg st d Hd).
    destruct (islist d) eqn:Hl; cbn [negb orb].
    + destruct (length (u d) =? 0)%nat eqn:Hn; cbn [negb]; [|apply Hinv].
      rewrite lookup_insert. case_decide; [|apply Hinv].
      intros [= <-] _. cbn. rewrite length_app. apply Nat.eqb_eq in Hn. simpl. lia.
    + rewrite lookup_insert. case_decide; [|apply Hinv].
      intros [= <-]. cbn. congruence.
  - unfold dl_user_add. now rewrite Hd.
Qed.

Lemma invariant_dl_queue_insert dl init st :
  list_has_one_user st -> list_has_one_user (dl_queue_insert dl init st).
Proof.
  intros Hinv. destruct (dls st !! dl) as [d|] eqn:Hd.
  - destruct (dl_queue_insert_dls dl init st d Hd) as (Hdls & _).
    intros q d'. rewrite Hdls, lookup_insert. case_decide; [|apply Hinv].
    intros [= <-] _. cbn. lia.
  - unfold dl_queue_insert. now rewrite Hd.
Qed.

Lemma invariant_dl_alloc d st :
  u d = [] -> list_has_one_user st -> list_has_one_user (snd (dl_alloc d st)).
Proof.
  intros Hu Hinv. unfold dl_alloc. cbn [snd].
  intros q d'. cbn. rewrite lookup_insert. case_decide; [|apply Hinv].
  intros [= <-] _. rewrite Hu. simpl. lia.
Qed.

(** Every operation of the queue keeps each file-list record at no more
    than one user. *)
Lemma run_op_invariant (op : dl_op) (st : dl_state) :
  list_has_one_user st -> list_has_one_user (run_op op st).
Proof.
  intros Hinv.
  assert (Halloc : forall d dl s, u d = [] -> dl_alloc d st = (dl, s) ->
                     list_has_one_user s).
  { intros d dl s Hu E. replace s with (snd (dl_alloc d st)) by now rewrite E.
    now apply invariant_dl_alloc. }
  destruct op; cbn [run_op].
  - (* dl_queue_addlist *)
    unfold dl_queue_addlist. repeat case_match; simplify_eq.
    1-5: eapply shrinks_invariant; [|exact Hinv]; shrink.
    eapply invariant_dl_user_add, invariant_dl_queue_insert, Halloc; [|eassumption].
    reflexivity.
  - (* dl_queue_addfile *)
    unfold dl_queue_addfile. repeat case_match; simplify_eq; [exact Hinv|].
    cbn [snd]. apply (invariant_same_dls _ _ (dls_emit _ _)).
    eapply invariant_dl_user_add, invariant_dl_queue_insert, Halloc; [|eassumption].
    reflexivity.
  - (* dl_queue_matchfile *)
    unfold dl_queue_matchfile. repeat case_match; simplify_eq; try exact Hinv.
    cbn [snd]. apply (invariant_same_dls _ _ (dls_dl_queue_start _)).
    apply (invariant_same_dls _ _ (dls_emit _ _)).
    now apply invariant_dl_user_add.
  - eapply shrinks_invariant; [apply shrinks_dl_queue_rm, shrinks_refl | exact Hinv].
  - eapply shrinks_invariant; [apply shrinks_dl_queue_checkrm, shrinks_refl | exact Hinv].
  - eapply shrinks_invariant; [apply shrinks_dl_queue_setprio, shrinks_refl | exact Hinv].
  - eapply shrinks_invariant; [apply shrinks_dl_queue_seterr, shrinks_refl | exact Hinv].
  - eapply shrinks_invariant; [apply shrinks_dl_queue_setuerr, shrinks_refl | exact Hinv].
  - eapply shrinks_invariant; [apply shrinks_dl_queue_rmuser, shrinks_refl | exact Hinv].
  - eapply shrinks_invariant; [apply shrinks_dl_queue_start, shrinks_refl | exact Hinv].
  - now apply invariant_dl_user_add.
  - eapply shrinks_invariant; [apply shrinks_dl_user_rm, shrinks_refl | exact Hinv].
  - eapply shrinks_invariant; [apply shrinks_dl_user_setstate, shrinks_refl | exact Hinv].
  - eapply shrinks_invariant; [apply shrinks_dl_user_cc, shrinks_refl | exact Hinv].
  - eapply shrinks_invariant; [apply shrinks_dl_user_waitdone, shrinks_refl | exact Hinv].
  - (* dl_load_dl *)
    unfold dl_load_dl. repeat case_match; simplify_eq;
      try (apply (invariant_same_dls _ _ (dls_emit _ _)); exact Hinv).
    all: eapply invariant_dl_queue_insert, Halloc; [|eassumption]; reflexivity.
  - (* dl_load_dlu *)
    unfold dl_load_dlu. case_match.
    + now apply invariant_dl_user_add.
    + apply (invariant_same_dls _ _ (dls_emit _ _)). exact Hinv.
Qed.

(** *** Refusing a second user, and dropping a list without users *)

Lemma dl_user_add_second_rejected dl uid e emsg st d :
  dls st !! dl = Some d -> islist d = true -> u d ≠ [] ->
  dl_user_add dl uid e emsg st
  = emit (Ev_critical "dl_user_add: assertion '!dl->islist || dl->u->len == 0' failed") st.
Proof.
  intros Hd Hl Hu. unfold dl_user_add. rewrite Hd, Hl.
  destruct (u d); [congruence|]. reflexivity.
Qed.

(** With [state = -1], [dl_user_setstate] touches neither the records nor
    the queue. *)
Lemma dl_user_setstate_with_neg checkrm uid st :
  dls (dl_user_setstate_with checkrm uid (-1) st) = dls st
  /\ dl_queue (dl_user_setstate_with checkrm uid (-1) st) = dl_queue st.
Proof.
  unfold dl_user_setstate_with. change (-1 >=? 0) with false. cbn [andb].
  repeat case_match; rewrite ?dls_dl_queue_start, ?dl_queue_dl_queue_start; auto.
Qed.

Lemma dl_user_rm_dl_queue dl i st : dl_queue (dl_user_rm dl i st) = dl_queue st.
Proof.
  unfold dl_user_rm. repeat case_match; try reflexivity;
    now rewrite (proj2 (dl_user_setstate_with_neg _ _ _)).
Qed.

Lemma dl_queue_rm_users_dl_queue n dl st :
  dl_queue (dl_queue_rm_users n dl st) = dl_queue st.
Proof.
  revert st. induction n as [|n IH]; intros st; simpl; [reflexivity|].
  repeat case_match; try reflexivity. now rewrite IH, dl_user_rm_dl_queue.
Qed.

(** [dl_user_rm] on a record: the entry leaves [dl->u], the hash and the
    list flag stay. *)
Lemma dl_user_rm_record dl i st d dudi dud du :
  dls st !! dl = Some d -> u d !! i = Some dudi ->
  duds st !! dudi = Some dud -> queue_users st !! dud_u dud = Some du ->
  exists d1, dls (dl_user_rm dl i st) !! dl = Some d1
             /\ islist d1 = islist d /\ hash d1 = hash d
             /\ u d1 = g_ptr_array_remove_index_fast i (u d).
Proof.
  intros Hd Hi Hdud Hdu. unfold dl_user_rm. rewrite Hd, Hi, Hdud, Hdu.
  rewrite (proj1 (dl_user_setstate_with_neg _ _ _)).
  case_bool_decide; cbn; rewrite !lookup_alter; repeat case_decide; try congruence;
    rewrite ?lookup_alter; repeat case_decide; try congruence;
    rewrite Hd; cbn; eexists; (split; [reflexivity|]); auto.
Qed.

(** [dl_queue_rm] takes the hash of the record out of [dl_queue]. *)
Lemma dl_queue_rm_not_queued dl st d :
  dls st !! dl = Some d ->
  dl_queue (dl_queue_rm dl st) !! hash d = None.
Proof.
  intros Hd. unfold dl_queue_rm. rewrite Hd.
  set (st1 := dl_queue_rm_users _ _ _).
  destruct (dl_queue st1 !! hash d) eqn:E; repeat case_match; cbn;
    rewrite ?lookup_delete_eq; auto.
Qed.

Lemma dl_queue_rmuser_sole_list_user uid tth st dl d p dud du :
  dl_queue st !! tth = Some dl -> dls st !! dl = Some d ->
  islist d = true -> hash d = tth -> u d = [p] ->
  duds st !! p = Some dud -> dud_u dud = uid ->
  queue_users st !! uid = Some du ->
  dl_queue (dl_queue_rmuser uid (Some tth) st) !! tth = None.
Proof.
  intros Hq Hd Hl Hh Hu Hdud Huid Hdu.
  unfold dl_queue_rmuser. cbn [mbind option_bind]. rewrite Hq, Hdu.
  rewrite (bool_decide_eq_false_2 (Some dl = None)) by discriminate.
  rewrite andb_false_r.
  rewrite dl_queue_emit. unfold rmuser_from. rewrite Hd, Hu.
  cbn [find_user]. rewrite Hdud, Huid, Z.eqb_refl.
  destruct (dl_user_rm_record dl 0 st d p dud du) as (d1 & Hd1 & Hl1 & Hh1 & Hu1);
    [assumption | now rewrite Hu | assumption | now rewrite Huid |].
  rewrite Hd1, Hl1, Hl, Hu1, Hu. cbn [g_ptr_array_remove_index_fast].
  change (length (g_ptr_array_remove_index_fast 0 [p]) =? 0)%nat with true.
  cbn [andb]. rewrite <- Hh, <- Hh1. now apply dl_queue_rm_not_queued.
Qed.

(** *** Removing a user from every record *)

Lemma index_of_lookup (x : N) (l : list N) (k j : nat) :
  index_of x l k = Some j -> exists j', j = (k + j')%nat /\ l !! j' = Some x.
Proof.
  revert k. induction l as [|y l IH]; intros k; simpl; [discriminate|].
  destruct (N.eqb y x) eqn:E.
  - intros [= <-]. apply N.eqb_eq in E. subst y. exists O. split; [lia | reflexivity].
  - intros Hi. destruct (IH _ Hi) as (j' & -> & Hl). exists (S j'). split; [lia | exact Hl].
Qed.

Lemma dl_user_setstate_with_neg_frame checkrm uid' st :
  duds (dl_user_setstate_with checkrm uid' (-1) st) = duds st
  /\ forall uid du, queue_users st !! uid = Some du -> du_queue du ≠ [] ->
       queue_users (dl_user_setstate_with checkrm uid' (-1) st) !! uid = Some du.
Proof.
  unfold dl_user_setstate_with. change (-1 >=? 0) with false. cbn [andb].
  split.
  - repeat case_match; rewrite ?duds_dl_queue_start; reflexivity.
  - intros uid du Hdu Hne.
    repeat case_match; rewrite ?queue_users_dl_queue_start; try assumption.
    cbn. rewrite lookup_delete. case_decide; [|assumption].
    subst. simplify_eq.
    match goal with
    | Hc : (_ && (length (du_queue du) =? 0)%nat) = true |- _ =>
        apply andb_prop in Hc as [_ Hc]; apply Nat.eqb_eq in Hc
    end.
    destruct (du_queue du); [congruence | discriminate].
Qed.

(** [dl_user_rm] leaves alone the other records, the other entries, and a
    user who still has an entry. *)
Lemma dl_user_rm_frame dl_i j st dl p uid du :
  dl ≠ dl_i ->
  (forall d_i, dls st !! dl_i = Some d_i -> u d_i !! j ≠ Some p) ->
  queue_users st !! uid = Some du -> p ∈ du_queue du ->
  dls (dl_user_rm dl_i j st) !! dl = dls st !! dl
  /\ duds (dl_user_rm dl_i j st) !! p = duds st !! p
  /\ exists du', queue_users (dl_user_rm dl_i j st) !! uid = Some du'
                 /\ p ∈ du_queue du'.
Proof.
  intros Hdl Hp Hdu Hin. unfold dl_user_rm.
  destruct (dls st !! dl_i) as [d_i|] eqn:Hd; [|eauto].
  specialize (Hp d_i eq_refl).
  destruct (u d_i !! j) as [dudi|] eqn:Hj; [|eauto].
  assert (Hne : dudi ≠ p) by congruence.
  destruct (duds st !! dudi) as [dud_i|] eqn:Hdud; [|eauto].
  destruct (queue_users st !! dud_u dud_i) as [du_i|] eqn:Hdui; [|eauto].
  match goal with
  | |- context [dl_user_setstate_with ?c ?a (-1) ?s] =>
      destruct (dl_user_setstate_with_neg c a s) as [Hdls _];
      destruct (dl_user_setstate_with_neg_frame c a s) as [Hduds Husers];
      set (s0 := s) in *
  end.
  rewrite Hdls, Hduds.
  assert (Hq : exists du', queue_users s0 !! uid = Some du' /\ p ∈ du_queue du').
  { unfold s0. case_bool_decide; cbn; rewrite ?lookup_alter; repeat case_decide;
      subst; rewrite ?Hdu, ?Hdui; cbn; simplify_eq;
      eexists; (split; [reflexivity|]); cbn; try assumption;
      apply list_elem_of_filter; split; try assumption; congruence. }
  split; [|split].
  - unfold s0. case_bool_decide; cbn; rewrite !lookup_alter_ne by congruence; reflexivity.
  - unfold s0. case_bool_decide; cbn; now rewrite lookup_delete_ne.
  - destruct Hq as (du' & Hdu' & Hin'). exists du'. split; [|exact Hin'].
    apply Husers; [exact Hdu'|]. intros Hnil. rewrite Hnil in Hin'.
    now apply elem_of_nil in Hin'.
Qed.

(** [dl_queue_rm] on a record without users touches no other record, no
    entry and no user. *)
Lemma dl_queue_rm_frame dl_i st d_i dl :
  dls st !! dl_i = Some d_i -> u d_i = [] -> dl ≠ dl_i ->
  dls (dl_queue_rm dl_i st) !! dl = dls st !! dl
  /\ duds (dl_queue_rm dl_i st) = duds st
  /\ queue_users (dl_queue_rm dl_i st) = queue_users st.
Proof.
  intros Hd Hu Hne. unfold dl_queue_rm. rewrite Hd, Hu. cbn [length dl_queue_rm_users].
  repeat case_match; cbn; rewrite ?lookup_delete_ne, ?lookup_alter_ne by congruence;
    auto.
Qed.

Lemma dl_queue_rm_keeps_unqueued dl st tth :
  dl_queue st !! tth = None -> dl_queue (dl_queue_rm dl st) !! tth = None.
Proof.
  intros Hq. unfold dl_queue_rm.
  destruct (dls st !! dl) as [d0|]; [|exact Hq].
  set (st1 := dl_queue_rm_users _ _ _).
  assert (Hq1 : dl_queue st1 !! tth = None).
  { unfold st1. now rewrite dl_queue_rm_users_dl_queue. }
  repeat case_match; cbn; rewrite ?lookup_delete; repeat case_decide; auto.
Qed.

Lemma rmuser_from_keeps_unqueued which dl st tth :
  dl_queue st !! tth = None -> dl_queue (rmuser_from which dl st) !! tth = None.
Proof.
  intros Hq. unfold rmuser_from.
  repeat case_match; try assumption;
    try apply dl_queue_rm_keeps_unqueued; rewrite ?dl_user_rm_dl_queue; assumption.
Qed.

Lemma rmuser_turn_other dl p uid tth i s :
  i ≠ p -> sole_entry dl p uid tth s -> sole_entry dl p uid tth (rmuser_turn i s).
Proof.
  intros Hi (d & dud & du & Hd & Hl & Hu & Hh & Hdud & Hdd & Hdu & Hq & Hin).
  unfold rmuser_turn. destruct (duds s !! i) as [dud_i|] eqn:Hdi;
    [|exists d, dud, du; auto 10].
  unfold rmuser_from. destruct (decide (dud_dl dud_i = dl)) as [-> | Hne].
  - rewrite Hd, Hu. cbn [index_of].
    replace (N.eqb p i) with false by (symmetry; apply N.eqb_neq; congruence).
    rewrite Hd, Hl, Hu. cbn. exists d, dud, du. auto 10.
  - set (dl_i := dud_dl dud_i) in *.
    assert (Hstep : exists s1,
              s1 = match dls s !! dl_i with
                   | Some d_i => match index_of i (u d_i) 0 with
                                 | Some j => dl_user_rm dl_i j s
                                 | None => s
                                 end
                   | None => s
                   end
              /\ sole_entry dl p uid tth s1).
    { eexists. split; [reflexivity|].
      destruct (dls s !! dl_i) as [d_i|] eqn:Hdi'; [|exists d, dud, du; auto 10].
      destruct (index_of i (u d_i) 0) as [j|] eqn:Hj; [|exists d, dud, du; auto 10].
      apply index_of_lookup in Hj as (j' & -> & Hj'). cbn [Nat.add].
      destruct (dl_user_rm_frame dl_i j' s dl p uid du) as (Hf1 & Hf2 & du' & Hf3 & Hf4);
        [congruence | intros ? ?; simplify_eq; congruence | assumption | assumption |].
      exists d, dud, du'. rewrite Hf1, Hf2. auto 10. }
    destruct Hstep as (s1 & Hs1 & Hsole). rewrite <- Hs1.
    destruct Hsole as (d1 & dud1 & du1 & Hd1 & Hl1 & Hu1 & Hh1 & Hdud1 & Hdd1 & Hdu1 & Hq1 & Hin1).
    destruct (dls s1 !! dl_i) as [d_i|] eqn:Hdi1; [|exists d1, dud1, du1; auto 10].
    destruct (islist d_i && (length (u d_i) =? 0)%nat) eqn:Hc;
      [|exists d1, dud1, du1; auto 10].
    apply andb_prop in Hc as [_ Hc]. apply Nat.eqb_eq in Hc.
    destruct (dl_queue_rm_frame dl_i s1 d_i dl Hdi1) as (Hf1 & Hf2 & Hf3);
      [now destruct (u d_i) | congruence |].
    exists d1, dud1, du1. rewrite Hf1, Hf2, Hf3. auto 10.
Qed.

Lemma rmuser_turn_sole dl p uid tth s :
  sole_entry dl p uid tth s -> dl_queue (rmuser_turn p s) !! tth = None.
Proof.
  intros (d & dud & du & Hd & Hl & Hu & Hh & Hdud & Hdd & Hdu & Hq & Hin).
  unfold rmuser_turn. rewrite Hdud, Hdd. unfold rmuser_from. rewrite Hd, Hu.
  cbn [index_of]. rewrite N.eqb_refl.
  destruct (dl_user_rm_record dl 0 s d p dud du) as (d1 & Hd1 & Hl1 & Hh1 & Hu1);
    [assumption | now rewrite Hu | assumption | now rewrite Hdu |].
  rewrite Hd1, Hl1, Hl, Hu1, Hu.
  change (length (g_ptr_array_remove_index_fast 0 [p]) =? 0)%nat with true.
  cbn [andb]. rewrite <- Hh, <- Hh1. now apply dl_queue_rm_not_queued.
Qed.

Lemma rmuser_turn_keeps_unqueued i s tth :
  dl_queue s !! tth = None -> dl_queue (rmuser_turn i s) !! tth = None.
Proof.
  intros Hq. unfold rmuser_turn. case_match; [|exact Hq].
  now apply rmuser_from_keeps_unqueued.
Qed.

Lemma rmuser_turns_sole dl p uid tth (l : list N) s :
  p ∈ l -> sole_entry dl p uid tth s ->
  dl_queue (fold_left (fun s i => rmuser_turn i s) l s) !! tth = None.
Proof.
  revert s. induction l as [|i l IH]; intros s Hin Hsole; [now apply elem_of_nil in Hin|].
  cbn [fold_left]. destruct (decide (i = p)) as [-> | Hne].
  - pose proof (rmuser_turn_sole dl p uid tth s Hsole) as Hq.
    revert Hq. generalize (rmuser_turn p s). clear. intros s Hq.
    revert s Hq. induction l as [|j l IH]; intros s Hq; [exact Hq|].
    cbn [fold_left]. apply IH. now apply rmuser_turn_keeps_unqueued.
  - apply IH.
    + apply elem_of_cons in Hin as [-> | Hin]; [congruence | exact Hin].
    + now apply rmuser_turn_other.
Qed.

Lemma dl_queue_rmuser_all_sole_list_user uid tth st dl p :
  sole_entry dl p uid tth st ->
  dl_queue (dl_queue_rmuser uid None st) !! tth = None.
Proof.
  intros Hsole.
  pose proof Hsole as (d & dud & du & Hd & Hl & Hu & Hh & Hdud & Hdd & Hdu & Hq & Hin).
  unfold dl_queue_rmuser. cbn [mbind option_bind]. rewrite Hq.
  rewrite (bool_decide_eq_false_2 (None ≠ None)) by (intros Hc; now apply Hc).
  cbn [andb]. rewrite dl_queue_emit.
  now apply (rmuser_turns_sole dl p uid tth).
Qed.

(** C10.  Starting from the empty queue, whatever operations are run, no
    file-list record ever has more than one user; [dl_user_add] on a
    file-list record that has a user changes nothing but the log; and
    [dl_queue_rmuser] for the only user of a file-list record takes the
    record out of the queue, whether the user is removed from that record
    or from all records. *)
Theorem list_record_has_one_user :
  (forall op st, list_has_one_user st -> list_has_one_user (run_op op st))
  /\ (forall ops, list_has_one_user
                    (fold_left (fun s op => run_op op s) ops
                       (Build_dl_state ∅ ∅ ∅ ∅ false 1%N [])))
  /\ (forall dl uid e emsg st d,
        dls st !! dl = Some d -> islist d = true -> u d ≠ [] ->
        dl_user_add dl uid e emsg st
        = emit (Ev_critical "dl_user_add: assertion '!dl->islist || dl->u->len == 0' failed") st)
  /\ (forall uid tth st dl d p dud du,
        dl_queue st !! tth = Some dl -> dls st !! dl = Some d ->
        islist d = true -> hash d = tth -> u d = [p] ->
        duds st !! p = Some dud -> dud_u dud = uid ->
        queue_users st !! uid = Some du ->
        dl_queue (dl_queue_rmuser uid (Some tth) st) !! tth = None)
  /\ (forall uid tth st dl p,
        sole_entry dl p uid tth st ->
        dl_queue (dl_queue_rmuser uid None st) !! tth = None).
Proof.
  split; [exact run_op_invariant|]. split; [|split; [|split]].
  - intros ops.
    assert (Hgen : forall st, list_has_one_user st ->
              list_has_one_user (fold_left (fun s op => run_op op s) ops st)).
    { induction ops as [|op ops IH]; intros st Hinv; simpl; [exact Hinv|].
      apply IH. now apply run_op_invariant. }
    apply Hgen. intros p d Hd. cbn in Hd. now rewrite lookup_empty in Hd.
  - exact dl_user_add_second_rejected.
  - exact dl_queue_rmuser_sole_list_user.
  - exact dl_queue_rmuser_all_sole_list_user.
Qed.

End ListUserFacts.

Section ListUserExamples.
Import Dl.
#[local] Existing Instance sample_env.

Lemma list_record_has_one_user_witness :
  list_has_one_user (run_op (Op_queue_addlist 7 true None true false) Samples.dl_init)
  /\ dl_user_add 1 8 0 None Samples.one_list
     = emit (Ev_critical "dl_user_add: assertion '!dl->islist || dl->u->len == 0' failed")
         Samples.one_list
  /\ dl_queue (dl_queue_rmuser 7 (Some 1007) Samples.one_list) !! 1007 = None
  /\ dl_queue (dl_queue_rmuser 7 None Samples.one_list) !! 1007 = None.
Proof.
  destruct (list_record_has_one_user (H := sample_env))
    as (Hop & Hops & Hadd & Hrm & Hall).
  split; [|split; [|split]].
  - apply Hop. intros p d Hd. vm_compute in Hd. discriminate.
  - eapply Hadd; [vm_compute; reflexivity | reflexivity | discriminate].
  - eapply Hrm; vm_compute; reflexivity.
  - apply (Hall 7 1007 Samples.one_list 1%N 2%N).
    do 3 eexists.
    repeat (split; [vm_compute; reflexivity|]).
    apply list_elem_of_here.
Defined.

(** The same on the model as it runs: the list of user 7 is queued with
    one user, a second user is refused, and removing user 7 empties the
    queue. *)
Example list_record_run :
  (u <$> dls Samples.one_list !! 1%N) = Some [2%N]
  /\ (u <$> dls (dl_user_add 1 8 0 None Samples.one_list) !! 1%N) = Some [2%N]
  /\ map_to_list (dl_queue (dl_queue_rmuser 7 (Some 1007) Samples.one_list)) = []
  /\ map_to_list (dl_queue (dl_queue_rmuser 7 None Samples.one_list)) = [].
Proof. vm_compute. repeat split. Qed.

End ListUserExamples.

Section ReceiveFacts.
Import Dl.
Context `{Env}.

Lemma to_int_small (x : Z) : -2 ^ 31 <= x < 2 ^ 31 -> to_int x = x.
Proof.
  intros Hx. unfold to_int, wrap_signed.
  change (2 ^ (32 - 1)) with 2147483648. change (2 ^ 32) with 4294967296.
  change (2 ^ 31) with 2147483648 in Hx.
  destruct (Z_lt_dec x 0).
  - replace (x mod 4294967296) with (x + 4294967296).
    + replace (x + 4294967296 <? 2147483648) with false by (symmetry; apply Z.ltb_ge; lia).
      lia.
    + apply Z.mod_unique with (-1); lia.
  - rewrite Z.mod_small by lia.
    replace (x <? 2147483648) with true by (symmetry; apply Z.ltb_lt; lia).
    reflexivity.
Qed.

Lemma to_guint64_small (x : Z) : 0 <= x < 2 ^ 64 -> to_guint64 x = x.
Proof. intros Hx. unfold to_guint64, wrap_unsigned. now apply Z.mod_small. Qed.

Lemma len_app (a b : list Byte.byte) : len (a ++ b) = len a + len b.
Proof. unfold len. rewrite length_app. lia. Qed.

Lemma len_nonneg (a : list Byte.byte) : 0 <= len a.
Proof. unfold len. lia. Qed.

Lemma len_pos (a : list Byte.byte) : a ≠ [] -> 0 < len a.
Proof. destruct a; [congruence|]. unfold len. simpl. lia. Qed.

Lemma dl_recv_update_loop_nil fuel dl ctx block cur :
  dl_recv_update_loop fuel dl ctx block cur [] = Some (ctx, -1).
Proof. destruct fuel; reflexivity. Qed.

(** One turn of the loop on a piece that stays within the current block. *)
Lemma dl_recv_update_loop_step fuel dl ctx block cur piece rest :
  piece ≠ [] ->
  cur + len piece <= hash_block dl ->
  (cur + len piece = hash_block dl \/ rest = []) ->
  fits dl block cur (len (piece ++ rest)) ->
  dl_recv_update_loop (S fuel) dl ctx block cur (piece ++ rest)
  = if (cur + len piece =? hash_block dl)
       || (negb (truthy (len rest))
           && (size dl =? block * hash_block dl + (cur + len piece)))
    then
      if negb (dl_recv_check dl block (tth_final (tth_update ctx piece)))
      then Some (tth_init, block)
      else dl_recv_update_loop fuel dl tth_init (block + 1) 0 rest
    else dl_recv_update_loop fuel dl (tth_update ctx piece) block (cur + len piece) rest.
Proof.
  intros Hne Hle Hend (Hhb & Hcur & Hblock & Htot & Hidx & Hn).
  pose proof (len_pos piece Hne) as Hpos. pose proof (len_nonneg rest) as Hrest.
  rewrite len_app in *.
  assert (Hdiv : 0 <= (cur + (len piece + len rest)) / hash_block dl)
    by (apply Z.div_pos; lia).
  cbn [dl_recv_update_loop]. rewrite len_app.
  replace (len piece + len rest >? 0) with true by (symmetry; apply Z.gtb_lt; lia).
  rewrite (to_guint64_small (hash_block dl - cur)) by lia.
  assert (Hw : Z.min (hash_block dl - cur) (len piece + len rest) = len piece).
  { destruct Hend as [Hend | ->]; [lia|]. unfold len at 2. simpl. lia. }
  rewrite Hw. rewrite (to_int_small (len piece)) by lia.
  assert (Hnat : Z.to_nat (len piece) = length piece)
    by (unfold len; apply Nat2Z.id).
  rewrite !Hnat, !take_app_length, !drop_app_length.
  assert (Hmul : 0 <= block * hash_block dl) by (apply Z.mul_nonneg_nonneg; lia).
  rewrite (to_guint64_small (cur + len piece)) by lia.
  rewrite (to_guint64_small (block * hash_block dl + (cur + len piece))) by lia.
  rewrite (to_int_small (block + 1)) by lia.
  reflexivity.
Qed.

Lemma scan_nil_inv dl ctx block cur o :
  scan dl ctx block cur [] o -> o = Verified ctx block cur.
Proof.
  inversion 1 as [| ? ? ? ? Hne | ? ? ? p r He Hc Heq | ? ? ? p r ? He Hc Hs Heq]; subst.
  - reflexivity.
  - congruence.
  - destruct He as [Hne _]. destruct p; [congruence | discriminate].
  - destruct He as [Hne _]. destruct p; [congruence | discriminate].
Qed.

Lemma fits_next dl block cur piece rest :
  cur + len piece = hash_block dl ->
  fits dl block cur (len (piece ++ rest)) ->
  fits dl (block + 1) 0 (len rest).
Proof.
  intros Hb (Hhb & Hcur & Hblock & Htot & Hidx & Hn).
  pose proof (len_nonneg piece). pose proof (len_nonneg rest).
  rewrite len_app in *.
  replace (cur + (len piece + len rest)) with (1 * hash_block dl + len rest) in Hidx by lia.
  rewrite Z.div_add_l in Hidx by lia.
  unfold fits. rewrite Z.add_0_l. repeat split; try lia.
Qed.

(** The loop computes the outcome. *)
Lemma dl_recv_update_loop_scan dl ctx block cur buf o :
  scan dl ctx block cur buf o ->
  forall fuel, (length buf < fuel)%nat ->
  fits dl block cur (len buf) ->
  dl_recv_update_loop fuel dl ctx block cur buf = Some (loop_result o).
Proof.
  induction 1 as [ctx block cur
                 | ctx block cur buf Hne Hlt Hnsz
                 | ctx block cur piece rest He Hc
                 | ctx block cur piece rest o He Hc Hs IH];
    intros fuel Hfuel Hfits.
  - apply dl_recv_update_loop_nil.
  - destruct fuel as [|fuel]; [lia|].
    rewrite <- (app_nil_r buf) at 1.
    rewrite dl_recv_update_loop_step; [| assumption | lia | now right
                                       | now rewrite app_nil_r].
    replace (cur + len buf =? hash_block dl) with false by (symmetry; apply Z.eqb_neq; lia).
    replace (size dl =? block * hash_block dl + (cur + len buf)) with false
      by (symmetry; apply Z.eqb_neq; lia).
    rewrite andb_false_r. cbn [orb]. apply dl_recv_update_loop_nil.
  - destruct fuel as [|fuel]; [lia|].
    destruct He as (Hne & Hle & Hend).
    rewrite dl_recv_update_loop_step; [| assumption | assumption | tauto | assumption].
    replace ((cur + len piece =? hash_block dl)
             || negb (truthy (len rest))
                && (size dl =? block * hash_block dl + (cur + len piece))) with true.
    + now rewrite Hc.
    + symmetry. destruct Hend as [Hb | [-> Hsz]].
      * apply Z.eqb_eq in Hb. now rewrite Hb.
      * apply orb_true_iff. right. cbn.
        apply Z.eqb_eq. lia.
  - destruct fuel as [|fuel]; [lia|].
    destruct He as (Hne & Hle & Hend).
    rewrite dl_recv_update_loop_step; [| assumption | assumption | tauto | assumption].
    replace ((cur + len piece =? hash_block dl)
             || negb (truthy (len rest))
                && (size dl =? block * hash_block dl + (cur + len piece))) with true.
    + rewrite Hc. cbn [negb].
      destruct Hend as [Hb | [-> Hsz]].
      * apply IH; [|now apply (fits_next dl block cur piece rest)].
        rewrite length_app in Hfuel. destruct piece; [congruence|]. simpl in Hfuel. lia.
      * apply scan_nil_inv in Hs. subst o. apply dl_recv_update_loop_nil.
    + symmetry. destruct Hend as [Hb | [-> Hsz]].
      * apply Z.eqb_eq in Hb. now rewrite Hb.
      * apply orb_true_iff. right. cbn.
        apply Z.eqb_eq. lia.
Qed.

(** A failed block lies at or after the current one and starts within the
    data seen so far. *)
Lemma scan_mismatch_bounds dl ctx block cur buf o :
  scan dl ctx block cur buf o ->
  forall b, o = Mismatch b ->
  0 < hash_block dl -> 0 <= cur ->
  block <= b /\ b * hash_block dl <= block * hash_block dl + cur + len buf.
Proof.
  induction 1 as [ctx block cur
                 | ctx block cur buf Hne Hlt Hnsz
                 | ctx block cur piece rest He Hc
                 | ctx block cur piece rest o He Hc Hs IH];
    intros b Ho Hhb Hcur; try discriminate.
  - injection Ho as <-. pose proof (len_nonneg (piece ++ rest)). lia.
  - destruct He as (Hne & Hle & [Hb | [-> Hsz]]).
    + destruct (IH b Ho Hhb ltac:(lia)) as [Hge Hle'].
      rewrite len_app. split; [lia|]. nia.
    + apply scan_nil_inv in Hs. congruence.
Qed.

Lemma recv_fits_fits dl n :
  0 <= n -> recv_fits dl n -> fits dl (cur_block dl) (cur_fill dl) n.
Proof.
  intros Hn (Hhb & Hhave & Htot & Hidx & Hlen & _). unfold fits, cur_block, cur_fill.
  pose proof (Z.div_mod (have dl) (hash_block dl) ltac:(lia)) as Hdm.
  pose proof (Z.mod_pos_bound (have dl) (hash_block dl) ltac:(lia)) as Hmod.
  assert (0 <= have dl / hash_block dl) by (apply Z.div_pos; lia).
  repeat split; try lia.
  replace (have dl + n)
    with (have dl / hash_block dl * hash_block dl + (have dl mod hash_block dl + n))
    in Hidx by lia.
  rewrite Z.div_add_l in Hidx by lia. lia.
Qed.

Lemma recv_fits_le dl n n' :
  0 <= n' <= n -> recv_fits dl n -> recv_fits dl n'.
Proof.
  intros Hn (Hhb & Hhave & Htot & Hidx & Hlen & Hctx). unfold recv_fits.
  repeat split; try lia; [|exact Hctx].
  assert ((have dl + n') / hash_block dl <= (have dl + n) / hash_block dl)
    by (apply Z.div_le_mono; lia).
  lia.
Qed.

(** [dl_recv_update] computes the outcome of the chunk. *)
Lemma dl_recv_update_scan dl buf o :
  recv_fits dl (len buf) ->
  scan dl (cur_ctx dl) (cur_block dl) (cur_fill dl) buf o ->
  dl_recv_update dl buf
  = Some (set_hash_tth (Some (fst (loop_result o))) dl, snd (loop_result o)).
Proof.
  intros Hfits Hscan.
  pose proof (recv_fits_fits dl (len buf) (len_nonneg buf) Hfits) as Hf.
  destruct Hfits as (Hhb & Hhave & Htot & Hidx & Hlen & Hctx).
  unfold dl_recv_update.
  replace (hash_block dl =? 0) with false by (symmetry; apply Z.eqb_neq; lia).
  assert (Hblock : to_int (have dl / hash_block dl) = cur_block dl).
  { apply to_int_small. destruct Hf as (_ & _ & Hb & _ & Hi & _).
    unfold cur_block in *.
    assert (0 <= (cur_fill dl + len buf) / hash_block dl).
    { apply Z.div_pos; [|lia]. pose proof (len_nonneg buf).
      unfold cur_fill. pose proof (Z.mod_pos_bound (have dl) (hash_block dl)). lia. }
    change (2 ^ 31) with 2147483648 in *. lia. }
  rewrite Hblock. fold (cur_fill dl).
  pose proof (dl_recv_update_loop_scan dl (cur_ctx dl) (cur_block dl) (cur_fill dl)
                buf o Hscan (S (length buf)) ltac:(lia) Hf) as Hloop.
  unfold cur_ctx in Hloop.
  destruct (hash_tth dl) as [ctx|] eqn:Ectx.
  - change (default tth_init (Some ctx)) with ctx in Hloop.
    rewrite Hloop. now destruct (loop_result o).
  - change (default tth_init None) with tth_init in Hloop.
    unfold cur_fill at 1. rewrite (Hctx eq_refl). cbn [truthy Z.eqb negb].
    rewrite Hloop. now destruct (loop_result o).
Qed.

Lemma dl_recv_data_loop_S fuel io c dl buf evs :
  0 < len buf ->
  dl_recv_data_loop (S fuel) io c dl buf evs
  = let r := io_write io (incfd dl) buf in
    let evs := evs ++ [Ev_write (incfd dl) buf r] in
    if r <? 0 then
      Some (false, set_err_msg (Some "write error"%string) (set_err DLE_IO_INC c), dl, evs)
    else
      match (if islist dl then Some (dl, -1)
             else dl_recv_update dl (take (Z.to_nat r) buf)) with
      | None => None
      | Some (dl, fail) =>
          if fail >=? 0 then
            let c := set_uerr DLE_HASH c in
            let c := set_uerr_msg
                       (Some ("Hash for block " ++ pretty fail ++ " does not match.")%string) c in
            let dl := set_have (to_guint64 (fail * hash_block dl)) dl in
            let rs := io_lseek io (incfd dl) (have dl) in
            let rt := io_ftruncate io (incfd dl) (have dl) in
            let evs := evs ++ [Ev_lseek (incfd dl) (have dl) rs;
                               Ev_ftruncate (incfd dl) (have dl) rt] in
            let c :=
              if (rs =? -1) || (rt =? -1)
              then set_err_msg (Some "recovery error"%string) (set_err DLE_IO_INC c)
              else c in
            Some (false, c, dl, evs)
          else
            dl_recv_data_loop fuel io c (set_have (to_guint64 (have dl + r)) dl)
              (drop (Z.to_nat r) buf) evs
      end.
Proof.
  intros Hpos. cbn [dl_recv_data_loop].
  replace (len buf >? 0) with true by (symmetry; apply Z.gtb_lt; lia).
  reflexivity.
Qed.

Lemma len_take (r : Z) (buf : list Byte.byte) :
  0 <= r <= len buf -> len (take (Z.to_nat r) buf) = r.
Proof. unfold len. intros Hr. rewrite length_take. lia. Qed.

Lemma len_drop (r : Z) (buf : list Byte.byte) :
  0 <= r <= len buf -> len (drop (Z.to_nat r) buf) = len buf - r.
Proof. unfold len. intros Hr. rewrite length_drop. lia. Qed.

(** The loop of [dl_recv_data] on a chunk one of whose writes completes a
    block with a wrong hash. *)
Lemma dl_recv_data_loop_mismatch io dl buf b :
  recv_mismatch io dl buf b ->
  forall fuel c evs,
  (length buf < fuel)%nat ->
  islist dl = false ->
  recv_fits dl (len buf) ->
  exists c' dl' evs1 rs rt,
    dl_recv_data_loop fuel io c dl buf evs
    = Some (false, c', dl',
            evs ++ evs1 ++ [Ev_lseek (incfd dl) (b * hash_block dl) rs;
                            Ev_ftruncate (incfd dl) (b * hash_block dl) rt])
    /\ uerr c' = DLE_HASH
    /\ have dl' = b * hash_block dl
    /\ (forall e, e ∈ evs1 -> exists fd data ret, e = Ev_write fd data ret)
    /\ c_dl c' = c_dl c /\ c_uid c' = c_uid c
    /\ size dl' = size dl /\ hash_block dl' = hash_block dl /\ islist dl' = false.
Proof.
  induction 1 as [dl buf r b Hr Hrange Hscan
                 | dl buf r ctx block cur b Hr Hrange Hscan Hrec IH];
    intros fuel c evs Hfuel Hlist Hfits.
  - destruct fuel as [|fuel]; [lia|].
    rewrite dl_recv_data_loop_S by lia. cbv zeta. rewrite <- Hr.
    replace (r <? 0) with false by (symmetry; apply Z.ltb_ge; lia).
    rewrite Hlist.
    assert (Hfits' : recv_fits dl (len (take (Z.to_nat r) buf))).
    { rewrite len_take by lia. apply (recv_fits_le dl (len buf)); [lia | assumption]. }
    rewrite (dl_recv_update_scan dl _ _ Hfits' Hscan). cbn [loop_result fst snd].
    pose proof (recv_fits_fits dl _ (len_nonneg _) Hfits') as Hf.
    destruct (scan_mismatch_bounds dl _ _ _ _ _ Hscan b eq_refl)
      as [Hge Hle]; [apply Hf | apply Hf |].
    destruct Hf as (Hhb & Hcur & Hblock & Htot & _).
    replace (b >=? 0) with true by (symmetry; apply Z.geb_le; lia).
    cbn [hash_block set_hash_tth incfd set_have have].
    assert (Hmul : 0 <= b * hash_block dl) by (apply Z.mul_nonneg_nonneg; lia).
    rewrite (to_guint64_small (b * hash_block dl)) by lia.
    eexists _, _, [Ev_write (incfd dl) buf r], _, _.
    split; [rewrite <- app_assoc; reflexivity|].
    split; [now case_match|].
    split; [reflexivity|].
    split; [intros e He; apply list_elem_of_singleton in He; subst; eauto|].
    repeat split; try assumption; now case_match.
  - destruct fuel as [|fuel]; [lia|].
    rewrite dl_recv_data_loop_S by lia. cbv zeta. rewrite <- Hr.
    replace (r <? 0) with false by (symmetry; apply Z.ltb_ge; lia).
    rewrite Hlist.
    assert (Hfits' : recv_fits dl (len (take (Z.to_nat r) buf))).
    { rewrite len_take by lia. apply (recv_fits_le dl (len buf)); [lia | assumption]. }
    rewrite (dl_recv_update_scan dl _ _ Hfits' Hscan). cbn [loop_result fst snd].
    change (-1 >=? 0) with false. cbv iota.
    destruct Hfits as (Hhb & Hhave & Htot & Hidx & Hlen & Hctx).
    cbn [have set_hash_tth].
    rewrite (to_guint64_small (have dl + r)) by lia.
    destruct (IH fuel c (evs ++ [Ev_write (incfd dl) buf r]))
      as (c' & dl' & evs1 & rs & rt & Heq & Hu & Hh & Hev & Hcd & Hcu & Hsz & Hhb' & Hl').
    + rewrite length_drop. unfold len in Hrange. lia.
    + exact Hlist.
    + unfold recv_fits. cbn. rewrite len_drop by lia.
      pose proof (len_nonneg buf).
      replace (have dl + r + (len buf - r)) with (have dl + len buf) by lia.
      repeat split; try lia. discriminate.
    + cbn [incfd hash_block set_have set_hash_tth size islist] in *.
      exists c', dl', (Ev_write (incfd dl) buf r :: evs1), rs, rt.
      split; [rewrite Heq, <- !app_assoc; reflexivity|].
      split; [exact Hu|]. split; [exact Hh|].
      split; [|auto].
      intros e He. apply elem_of_cons in He as [-> | He]; eauto.
Qed.

(** C2.  For a record that is not a file list: when a write of the chunk
    completes a block whose hash is not the expected one (the leaf of that
    block or, for a file of a single block, the root), [dl_recv_data]
    returns FALSE, has recorded [DLE_HASH] as the user error of the
    context, has set [have] to the start of that block, and its last two
    system calls are the [lseek] and the [ftruncate] of the incoming file
    to that offset; before them it has made nothing but writes. *)
Theorem dl_recv_data_hash_mismatch (io : io_t) (c : recv_ctx_t) (dl : dl_t)
    (buf : list Byte.byte) (b : Z) :
  islist dl = false ->
  recv_fits dl (len buf) ->
  recv_mismatch io dl buf b ->
  exists c' dl' writes rs rt,
    dl_recv_data io c dl buf
    = Some (false, c', dl',
            writes ++ [Ev_lseek (incfd dl) (b * hash_block dl) rs;
                       Ev_ftruncate (incfd dl) (b * hash_block dl) rt])
    /\ uerr c' = DLE_HASH
    /\ have dl' = b * hash_block dl
    /\ (forall e, e ∈ writes -> exists fd data ret, e = Ev_write fd data ret)
    /\ c_dl c' = c_dl c /\ c_uid c' = c_uid c
    /\ size dl' = size dl /\ hash_block dl' = hash_block dl /\ islist dl' = false.
Proof.
  intros Hlist Hfits Hmis. unfold dl_recv_data.
  destruct (dl_recv_data_loop_mismatch io dl buf b Hmis (S (length buf)) c []
              ltac:(lia) Hlist Hfits)
    as (c' & dl' & evs1 & rs & rt & Heq & Hrest).
  exists c', dl', evs1, rs, rt. split; [exact Heq | exact Hrest].
Qed.

End ReceiveFacts.

Section ReceiveExamples.
Import Dl.
#[local] Existing Instance sample_env.

Lemma dl_recv_data_hash_mismatch_witness :
  exists c' dl' writes rs rt,
    dl_recv_data Samples.io_ok Samples.recv_ctx Samples.two_blocks Samples.chunk_bad_second
    = Some (false, c', dl',
            writes ++ [Ev_lseek 5 (1 * 2) rs; Ev_ftruncate 5 (1 * 2) rt])
    /\ uerr c' = DLE_HASH
    /\ have dl' = 1 * 2
    /\ (forall e, e ∈ writes -> exists fd data ret, e = Ev_write fd data ret)
    /\ c_dl c' = 1%N /\ c_uid c' = 7
    /\ size dl' = 4 /\ hash_block dl' = 2 /\ islist dl' = false.
Proof.
  apply (dl_recv_data_hash_mismatch (H := sample_env) Samples.io_ok Samples.recv_ctx
           Samples.two_blocks Samples.chunk_bad_second 1).
  - reflexivity.
  - unfold recv_fits. cbn. repeat split. all: lia.
  - apply (recv_mismatch_now _ _ _ 4);
      [reflexivity | vm_compute; split; [reflexivity | discriminate] |].
    apply (scan_verified _ _ _ _ [Byte.x01; Byte.x00] [Byte.x05; Byte.x00]).
    + split; [discriminate|].
      split; [vm_compute; discriminate | left; reflexivity].
    + reflexivity.
    + apply (scan_mismatch _ _ _ _ [Byte.x05; Byte.x00] []).
      * split; [discriminate|].
        split; [vm_compute; discriminate | left; reflexivity].
      * reflexivity.
Defined.

(** The same call, run: one write, then the file is cut back to offset 2,
    the start of block 1. *)
Example dl_recv_data_run :
  (fun '(ok, c, dl, evs) => (ok, uerr c, have dl, evs))
    <$> dl_recv_data Samples.io_ok Samples.recv_ctx Samples.two_blocks
          Samples.chunk_bad_second
  = Some (false, DLE_HASH, 2,
          [Ev_write 5 Samples.chunk_bad_second 4; Ev_lseek 5 2 2; Ev_ftruncate 5 2 0]).
Proof. vm_compute. reflexivity. Qed.

End ReceiveExamples.

(** * More about the persistence service *)

Section DbRunFacts.
Import Db.
Context `{Sqlite} `{Darray}.

Lemma replies_app a b : replies (a ++ b) = replies a ++ replies b.
Proof. apply omap_app. Qed.

Lemma replies_rows queue rows :
  replies (map (fun row => Ev_push queue (Row row)) rows)
  = map (fun r => (queue, Row r)) rows.
Proof. induction rows as [|r rows IH]; [reflexivity|]. cbn. now f_equal. Qed.

Lemma executed_rows queue rows :
  executed (map (fun row => Ev_push queue (Row row)) rows) = [].
Proof. induction rows as [|r rows IH]; [reflexivity|]. exact IH. Qed.

Lemma bracketed_rows o queue rows evs :
  bracketed o (map (fun row => Ev_push queue (Row row)) rows ++ evs) = bracketed o evs.
Proof. induction rows as [|r rows IH]; [reflexivity|]. exact IH. Qed.

Lemma open_after_rows o queue rows evs :
  open_after o (map (fun row => Ev_push queue (Row row)) rows ++ evs) = open_after o evs.
Proof. induction rows as [|r rows IH]; [reflexivity|]. exact IH. Qed.



Lemma executed_app a b : executed (a ++ b) = executed a ++ executed b.
Proof. apply omap_app. Qed.

Lemma bracketed_app o a b :
  bracketed o (a ++ b) = bracketed o a && bracketed (open_after o a) b.
Proof.
  revert o. induction a as [|e a IH]; intros o; [reflexivity|].
  destruct e; cbn; rewrite ?IH, ?andb_assoc; reflexivity.
Qed.

Lemma open_after_app o a b : open_after o (a ++ b) = open_after (open_after o a) b.
Proof.
  revert o. induction a as [|e a IH]; intros o; [reflexivity|].
  destruct e; cbn; rewrite ?IH; reflexivity.
Qed.

(** What [run_one] adds. *)
Lemma run_one_summary q nc t st res0 lastid r st' :
  run_one q nc t st = (res0, lastid, r, st') ->
  in_trans st' = in_trans st /\ donext st' = donext st /\ errtrans st' = errtrans st
  /\ (scannable q = true -> res0 = fst <$> res q)
  /\ exists rows,
      trace st' = trace st ++ Ev_exec q nc t r :: rows
      /\ executed rows = [] /\ (forall o, bracketed o rows = true)
      /\ (forall o, open_after o rows = o)
      /\ match res q with
         | Some (queue, _) => exists l, replies rows = map (fun x => (queue, Row x)) l
         | None => replies rows = []
         end.
Proof.
  unfold run_one, db_queue_process_one.
  destruct (sql_prepare (db st) (query q) nc) as [rp d0].
  destruct (truthy rp).
  { intros [= <- <- <- <-]. cbn. repeat split.
    - intros Hq. now apply skip_to_res_scannable.
    - exists []. repeat split. destruct (res q) as [[queue cols]|]; [now exists [] | reflexivity]. }
  destruct (sql_run d0 (query q) (args q) nc t) as [[[rows r'] rowid] d'].
  intros [= <- <- <- <-]. cbn. repeat split.
  eexists. split; [reflexivity|].
  destruct (res q) as [[queue cols]|]; cbn; [|repeat split].
  case_match; cbn.
  - repeat split. now exists [].
  - split; [apply executed_rows|]. split; [|split].
    + intros o. rewrite <- (app_nil_r (map _ rows)). apply bracketed_rows.
    + intros o. rewrite <- (app_nil_r (map _ rows)). apply open_after_rows.
    + exists rows. apply replies_rows.
Qed.

Lemma final_summary res0 r lastid :
  executed (db_queue_item_final res0 r lastid) = []
  /\ (forall o, bracketed o (db_queue_item_final res0 r lastid) = true)
  /\ (forall o, open_after o (db_queue_item_final res0 r lastid) = o)
  /\ replies (db_queue_item_final res0 r lastid)
     = match res0 with
       | Some queue => [(queue, Final r (if r =? SQLITE_DONE then Some lastid else None))]
       | None => []
       end.
Proof. destruct res0; cbn; repeat split. Qed.

Lemma error_summary q :
  executed (db_queue_item_error q) = []
  /\ (forall o, bracketed o (db_queue_item_error q) = true)
  /\ (forall o, open_after o (db_queue_item_error q) = o)
  /\ (scannable q = true -> reply_of q (replies (db_queue_item_error q))).
Proof.
  split; [|split; [|split]].
  - unfold db_queue_item_error. now destruct (skip_to_res _).
  - intros o. unfold db_queue_item_error. now destruct (skip_to_res _).
  - intros o. unfold db_queue_item_error. now destruct (skip_to_res _).
  - intros Hq. rewrite (db_queue_item_error_scannable q Hq). unfold reply_of.
    destruct (res q) as [[queue cols]|]; cbn; [|reflexivity].
    now exists [], SQLITE_ERROR, None.
Qed.

(** The reply of a request that was run: its rows, then its result. *)
Lemma reply_of_run q rows res0 r lastid :
  res0 = fst <$> res q ->
  match res q with
  | Some (queue, _) => exists l, replies rows = map (fun x => (queue, Row x)) l
  | None => replies rows = []
  end ->
  reply_of q (replies rows ++ replies (db_queue_item_final res0 r lastid)).
Proof.
  intros -> Hrows. unfold reply_of. destruct (res q) as [[queue cols]|]; cbn in *.
  - destruct Hrows as [l ->]. now eexists l, _, _.
  - now rewrite Hrows.
Qed.


Lemma prelude_summary st :
  exists evs0, trace (prelude st) = trace st ++ evs0
    /\ replies evs0 = [] /\ executed evs0 = []
    /\ bracketed (opn st) evs0 = true /\ open_after (opn st) evs0 = false
    /\ in_trans (prelude st) = false /\ errtrans (prelude st) = false.
Proof.
  unfold prelude, opn, db_queue_process_commit, emit, set_ctl.
  destruct st as [d t n e tr]. cbn.
  destruct n, t; cbn; try destruct (sql_commit d) as [r d']; cbn;
    eexists; (split; [rewrite <- ?app_assoc; try reflexivity; now rewrite app_nil_r|]);
    cbn; repeat split.
Qed.

Lemma commit_summary st r st' :
  db_queue_process_commit st = (r, st') ->
  trace st' = trace st ++ [Ev_commit r]
  /\ in_trans st' = in_trans st /\ donext st' = donext st /\ errtrans st' = errtrans st.
Proof.
  unfold db_queue_process_commit. destruct (sql_commit (db st)). intros [= <- <-]. now cbn.
Qed.

Lemma begin_summary st r st' :
  db_queue_process_begin st = (r, st') ->
  trace st' = trace st ++ [Ev_begin r]
  /\ in_trans st' = in_trans st /\ donext st' = donext st /\ errtrans st' = errtrans st.
Proof.
  unfold db_queue_process_begin. destruct (sql_begin (db st)). intros [= <- <-]. now cbn.
Qed.

Lemma iter_single q st :
  has_flag (flags q) DBF_END = false -> has_flag (flags q) DBF_SINGLE = true ->
  turn_ok q st (fst (db_queue_process_iter (Some q) st))
  /\ snd (db_queue_process_iter (Some q) st) = true.
Proof.
  intros Hend Hs. unfold db_queue_process_iter. rewrite Hend, Hs.
  rewrite orb_true_r. cbn [orb]. fold (prelude st).
  destruct (prelude_summary st) as (evs0 & Ht0 & Hr0 & He0 & Hb0 & Ho0 & Hin & Herr).
  destruct (run_one q _ false (prelude st)) as [[[res0 lastid] r] st2] eqn:Hrun.
  apply run_one_summary in Hrun
    as (Hin2 & _ & Herr2 & Hres & rows & Ht2 & Hex & Hbr & Hop & Hrows).
  destruct (final_summary res0 r lastid) as (Hfe & Hfb & Hfo & Hfr).
  split; [|reflexivity]. cbn [fst].
  exists (evs0 ++ Ev_exec q (has_flag (flags q) DBF_NOCACHE) false r :: rows
            ++ db_queue_item_final res0 r lastid).
  split; [|split; [|split; [|split]]].
  - cbn. rewrite Ht2, Ht0. now rewrite <- !app_assoc.
  - intros Hsc. rewrite replies_app, Hr0. cbn. rewrite replies_app.
    apply reply_of_run; auto.
  - right. rewrite executed_app, He0. cbn. now rewrite executed_app, Hex, Hfe.
  - rewrite bracketed_app, Hb0, Ho0. cbn. now rewrite bracketed_app, Hbr, Hfb.
  - rewrite open_after_app, Ho0. cbn. rewrite open_after_app, Hop, Hfo.
    unfold opn. cbn. now rewrite Hin2, Hin.
Qed.

Lemma iter_errtrans q st :
  has_flag (flags q) DBF_END = false -> has_flag (flags q) DBF_SINGLE = false ->
  errtrans st = true ->
  turn_ok q st (fst (db_queue_process_iter (Some q) st))
  /\ snd (db_queue_process_iter (Some q) st) = true.
Proof.
  intros Hend Hs He. unfold db_queue_process_iter. rewrite Hend, Hs.
  rewrite bool_decide_eq_false_2 by discriminate. cbn [orb]. rewrite He.
  destruct (error_summary q) as (Hee & Heb & Heo & Her).
  split; [|reflexivity]. cbn [fst].
  exists ((if donext st then [] else [Ev_warn "donext"]) ++ db_queue_item_error q).
  unfold opn. rewrite He, andb_false_r.
  destruct st as [d t n e tr]. cbn in He. subst e.
  split; [|split; [|split; [|split]]].
  - destruct n, (has_flag (flags q) DBF_NEXT); cbn; now rewrite <- ?app_assoc.
  - intros Hsc. rewrite replies_app. specialize (Her Hsc). now destruct n.
  - left. rewrite executed_app, Hee. now destruct n.
  - rewrite bracketed_app, Heb. now destruct n.
  - rewrite open_after_app, Heo.
    destruct n, (has_flag (flags q) DBF_NEXT); cbn; now rewrite ?andb_false_r.
Qed.

Lemma iter_last q st :
  has_flag (flags q) DBF_END = false -> has_flag (flags q) DBF_SINGLE = false ->
  errtrans st = false -> has_flag (flags q) DBF_LAST = true ->
  turn_ok q st (fst (db_queue_process_iter (Some q) st))
  /\ snd (db_queue_process_iter (Some q) st) = true.
Proof.
  intros Hend Hs He Hl. unfold db_queue_process_iter. rewrite Hend, Hs.
  rewrite bool_decide_eq_false_2 by discriminate. cbn [orb]. rewrite He, Hl.
  destruct (run_one q _ (in_trans st) st) as [[[res0 lastid] r] st2] eqn:Hrun.
  apply run_one_summary in Hrun
    as (Hin2 & _ & Herr2 & Hres & rows & Ht2 & Hex & Hbr & Hop & Hrows).
  assert (Hgen : forall (tail : list event) r' st3,
            trace st3 = trace st2 ++ tail -> executed tail = [] -> replies tail = [] ->
            (forall o, bracketed o tail = true) ->
            open_after (in_trans st) tail = false ->
            turn_ok q st (emit (db_queue_item_final res0 r' lastid)
                            (set_ctl false false (errtrans st3) st3))).
  { intros tail r' st3 Ht3 Het Hrt Hbt Hot.
    destruct (final_summary res0 r' lastid) as (Hfe & Hfb & Hfo & Hfr).
    exists (Ev_exec q (has_flag (flags q) DBF_NOCACHE) (in_trans st) r :: rows ++ tail
              ++ db_queue_item_final res0 r' lastid).
    unfold opn. rewrite He, andb_true_r.
    split; [|split; [|split; [|split]]].
    - cbn. rewrite Ht3, Ht2. now rewrite <- !app_assoc.
    - intros Hsc. cbn. rewrite !replies_app, Hrt. cbn. apply reply_of_run; auto.
    - right. cbn. now rewrite !executed_app, Hex, Het, Hfe.
    - cbn. rewrite eqb_reflx. cbn. now rewrite !bracketed_app, Hbr, Hbt, Hfb.
    - cbn. now rewrite !open_after_app, Hop, Hot, Hfo. }
  split; [|repeat case_match; reflexivity].
  rewrite Hin2. destruct (in_trans st) eqn:Hin.
  - destruct (r =? SQLITE_DONE) eqn:Hr.
    + destruct (db_queue_process_commit st2) as [rc stc] eqn:Hc.
      apply commit_summary in Hc as (Htc & _).
      destruct (rc =? SQLITE_DONE); cbn [fst].
      * apply (Hgen [Ev_commit rc]); auto.
      * apply (Hgen [Ev_commit rc; Ev_rollback]); auto.
        cbn. rewrite Htc. now rewrite <- app_assoc.
    + rewrite Hr. cbn [fst]. apply (Hgen [Ev_rollback]); auto.
  - cbn [fst]. apply (Hgen []); auto. now rewrite app_nil_r.
Qed.

Lemma iter_normal q st :
  has_flag (flags q) DBF_END = false -> has_flag (flags q) DBF_SINGLE = false ->
  errtrans st = false -> has_flag (flags q) DBF_LAST = false ->
  turn_ok q st (fst (db_queue_process_iter (Some q) st))
  /\ snd (db_queue_process_iter (Some q) st) = true.
Proof.
  intros Hend Hs He Hl. unfold db_queue_process_iter. rewrite Hend, Hs.
  rewrite bool_decide_eq_false_2 by discriminate. cbn [orb]. rewrite He, Hl.
  (* the turn once a transaction is open *)
  assert (Hrun : forall (pre : list event) stb,
            trace stb = trace st ++ pre -> in_trans stb = true -> errtrans stb = false ->
            executed pre = [] -> replies pre = [] ->
            bracketed (opn st) pre = true -> open_after (opn st) pre = true ->
            let res := run_one q (has_flag (flags q) DBF_NOCACHE) true stb in
            let st'' := emit (db_queue_item_final res.1.1.1 res.1.2 res.1.1.2) res.2 in
            turn_ok q st
              (if res.1.2 =? SQLITE_DONE then st''
               else let st := db_queue_process_rollback st'' in
                    if has_flag (flags q) DBF_NEXT then set_ctl (in_trans st) (donext st) true st
                    else set_ctl false (donext st) (errtrans st) st)).
  { intros pre stb Htb Hinb Herrb Hep Hrp Hbp Hop. cbv zeta.
    destruct (run_one q _ true stb) as [[[res0 lastid] r] st2] eqn:Hrun.
    apply run_one_summary in Hrun
      as (Hin2 & _ & Herr2 & Hres & rows & Ht2 & Hex & Hbr & Hopr & Hrows).
    destruct (final_summary res0 r lastid) as (Hfe & Hfb & Hfo & Hfr).
    cbn [fst snd].
    exists (pre ++ Ev_exec q (has_flag (flags q) DBF_NOCACHE) true r :: rows
              ++ db_queue_item_final res0 r lastid
              ++ (if r =? SQLITE_DONE then [] else [Ev_rollback])).
    split; [|split; [|split; [|split]]].
    - destruct (r =? SQLITE_DONE); [|destruct (has_flag (flags q) DBF_NEXT)]; cbn;
        rewrite Ht2, Htb, <- ?app_assoc; cbn; now rewrite ?app_nil_r, <- ?app_assoc.
    - intros Hsc. rewrite replies_app, Hrp. cbn. rewrite !replies_app.
      replace (replies (if r =? SQLITE_DONE then [] else [Ev_rollback])) with
        ([] : list (N * result_item)) by now destruct (r =? SQLITE_DONE).
      rewrite app_nil_r. apply reply_of_run; auto.
    - right. rewrite executed_app, Hep. cbn. rewrite !executed_app, Hex, Hfe.
      now destruct (r =? SQLITE_DONE).
    - rewrite bracketed_app, Hbp, Hop. cbn. rewrite !bracketed_app, Hbr, Hfb.
      now destruct (r =? SQLITE_DONE).
    - rewrite open_after_app, Hop. cbn. rewrite !open_after_app, Hopr, Hfo.
      unfold opn.
      destruct (r =? SQLITE_DONE); [|destruct (has_flag (flags q) DBF_NEXT)]; cbn;
        rewrite ?Hin2, ?Herr2, ?Hinb, ?Herrb, ?andb_false_r; reflexivity. }
  destruct (in_trans st) eqn:Hin.
  - cbn [negb]. specialize (Hrun [] st). cbv zeta in Hrun.
    destruct (run_one q _ true st) as [[[res0 lastid] r] st2] eqn:E. cbn [fst snd] in Hrun.
    split; [|now destruct (r =? SQLITE_DONE)].
    assert (Hok := Hrun (eq_sym (app_nil_r _)) Hin He eq_refl eq_refl eq_refl).
    unfold opn in Hok at 1. rewrite Hin, He in Hok. specialize (Hok eq_refl).
    now destruct (r =? SQLITE_DONE).
  - destruct (db_queue_process_begin (set_ctl true (donext st) false st))
      as [rb stb] eqn:Hb.
    apply begin_summary in Hb as (Htb & Hinb & Hdb & Herrb). cbn in Htb, Hinb, Hdb, Herrb.
    destruct (rb =? SQLITE_DONE) eqn:Hrb.
    + cbv beta iota zeta. cbn [negb]. specialize (Hrun [Ev_begin rb] stb). cbv zeta in Hrun.
      destruct (run_one q _ true stb) as [[[res0 lastid] r] st2] eqn:E.
      cbn [fst snd] in Hrun.
      split; [|now destruct (r =? SQLITE_DONE)].
      assert (Hok := Hrun Htb Hinb Herrb eq_refl eq_refl).
      unfold opn in Hok at 1 2. rewrite Hin in Hok. cbn in Hok. rewrite Hrb in Hok.
      specialize (Hok eq_refl eq_refl).
      now destruct (r =? SQLITE_DONE).
    + cbv beta iota zeta. cbn [negb fst snd]. split; [|reflexivity].
      destruct (error_summary q) as (Hee & Heb & Heo & Her).
      exists (Ev_begin rb :: db_queue_item_error q).
      replace (opn st) with false by (unfold opn; now rewrite Hin).
      split; [|split; [|split; [|split]]].
      * destruct (has_flag (flags q) DBF_NEXT); cbn; rewrite Htb; now rewrite <- app_assoc.
      * exact Her.
      * left. cbn. exact Hee.
      * cbn. apply Heb.
      * cbn. rewrite Heo, Hrb. unfold opn.
        destruct (has_flag (flags q) DBF_NEXT); cbn; now rewrite ?andb_false_r.
Qed.

Lemma iter_summary q st :
  has_flag (flags q) DBF_END = false ->
  turn_ok q st (fst (db_queue_process_iter (Some q) st))
  /\ snd (db_queue_process_iter (Some q) st) = true.
Proof.
  intros Hend.
  destruct (has_flag (flags q) DBF_SINGLE) eqn:Hs; [now apply iter_single|].
  destruct (errtrans st) eqn:He; [now apply iter_errtrans|].
  destruct (has_flag (flags q) DBF_LAST) eqn:Hl; [now apply iter_last | now apply iter_normal].
Qed.

Lemma iter_prelude_eq (q : option queue_item) st :
  match q with
  | None => True
  | Some q => has_flag (flags q) DBF_END = true
  end ->
  fst (db_queue_process_iter q st) = prelude st.
Proof.
  destruct q as [q|]; unfold db_queue_process_iter; fold (prelude st).
  - intros ->. now rewrite orb_true_r.
  - reflexivity.
Qed.

Lemma run_summary (pops : list (option queue_item)) (st : state) :
  exists evs,
    trace (db_queue_process pops st) = trace st ++ evs
    /\ (forallb scannable (served pops) = true ->
        exists rss, replies evs = concat rss /\ Forall2 reply_of (served pops) rss)
    /\ sublist (executed evs) (served pops)
    /\ bracketed (opn st) evs = true.
Proof.
  revert st. induction pops as [|q pops IH]; intros st.
  - exists []. cbn. rewrite app_nil_r. split; [reflexivity|]. split; [|split].
    + intros _. exists []. split; [reflexivity | constructor].
    + constructor.
    + reflexivity.
  - cbn [db_queue_process served].
    destruct q as [q|].
    + destruct (has_flag (flags q) DBF_END) eqn:Hend.
      * pose proof (iter_prelude_eq (Some q) st Hend) as Hst.
        destruct (db_queue_process_iter (Some q) st) as [st' c] eqn:E. cbn in Hst. subst st'.
        assert (c = false) as ->.
        { unfold db_queue_process_iter in E. rewrite Hend in E. now injection E. }
        destruct (prelude_summary st) as (evs0 & Ht0 & Hr0 & He0 & Hb0 & Ho0 & _).
        exists evs0. split; [exact Ht0|]. rewrite Hr0, He0. split; [|split].
        -- intros _. exists []. split; [reflexivity | constructor].
        -- constructor.
        -- exact Hb0.
      * destruct (iter_summary q st Hend) as [(evs1 & Ht1 & Hr1 & He1 & Hb1 & Ho1) Hc].
        destruct (db_queue_process_iter (Some q) st) as [st' c]. cbn in Ht1, Ho1, Hc. subst c.
        destruct (IH st') as (evs2 & Ht2 & Hrep2 & He2 & Hb2).
        exists (evs1 ++ evs2). split; [|split; [|split]].
        -- rewrite Ht2, Ht1. now rewrite <- app_assoc.
        -- cbn [forallb]. intros Hsc. apply andb_prop in Hsc as [Hq Hsc].
           destruct (Hrep2 Hsc) as (rss & Hr2 & Hf2).
           exists (replies evs1 :: rss). rewrite replies_app, Hr2. split; [reflexivity|].
           constructor; auto.
        -- rewrite executed_app.
           destruct He1 as [-> | ->]; cbn; [now apply sublist_cons | now apply sublist_skip].
        -- rewrite bracketed_app, Hb1, <- Ho1. exact Hb2.
    + pose proof (iter_prelude_eq None st I) as Hst.
      destruct (db_queue_process_iter None st) as [st' c] eqn:E. cbn in Hst. subst st'.
      assert (c = true) as ->.
      { unfold db_queue_process_iter in E. now injection E. }
      destruct (prelude_summary st) as (evs0 & Ht0 & Hr0 & He0 & Hb0 & Ho0 & Hin & Herr).
      destruct (IH (prelude st)) as (evs2 & Ht2 & Hrep2 & He2 & Hb2).
      exists (evs0 ++ evs2). split; [|split; [|split]].
      * rewrite Ht2, Ht0. now rewrite <- app_assoc.
      * intros Hsc. destruct (Hrep2 Hsc) as (rss & Hr2 & Hf2).
        exists rss. now rewrite replies_app, Hr0.
      * now rewrite executed_app, He0.
      * rewrite bracketed_app, Hb0, Ho0.
        exact Hb2.
Qed.

(** X1.  When the requests that the work queue delivers bind nothing
    but NULLs and ints other than 0 and 6, [db_queue_process] answers the
    requests it gets to (those before the first [DBF_END]) in the order of
    the queue, whatever SQLite answers: the pushes on reply queues are,
    request by request, any number of rows and then exactly one final
    result on the reply queue of the request, and nothing for a request
    without a reply queue.  None of these callers is left waiting, and none
    is answered twice. *)
Theorem db_queue_process_replies (pops : list (option queue_item)) (st : state) :
  forallb scannable (served pops) = true ->
  exists evs rss,
    trace (db_queue_process pops st) = trace st ++ evs
    /\ replies evs = concat rss
    /\ Forall2 reply_of (served pops) rss.
Proof.
  intros Hsc.
  destruct (run_summary pops st) as (evs & Ht & Hrep & _).
  destruct (Hrep Hsc) as (rss & Hr & Hf).
  now exists evs, rss.
Qed.

(** X2.  From its starting state, whatever the work queue
    delivers and whatever SQLite answers, [db_queue_process] issues no
    BEGIN while a transaction that it began is open, and runs a query in
    transaction mode exactly when such a transaction is open: after a BEGIN
    that succeeded, with no COMMIT or ROLLBACK since. *)
Theorem db_queue_process_transactions (pops : list (option queue_item)) (st : state) :
  exists evs,
    trace (db_queue_process pops (idle st)) = trace st ++ evs
    /\ bracketed false evs = true.
Proof.
  destruct (run_summary pops (idle st)) as (evs & Ht & _ & _ & Hb).
  now exists evs.
Qed.

(** X3.  The queries that [db_queue_process] runs are run in the
    order in which they were queued, each at most once: the requests of the
    [Ev_exec] events form a subsequence of the requests that were
    popped. *)
Theorem db_queue_process_order (pops : list (option queue_item)) (st : state) :
  exists evs,
    trace (db_queue_process pops st) = trace st ++ evs
    /\ sublist (executed evs) (served pops).
Proof.
  destruct (run_summary pops st) as (evs & Ht & _ & Hs & _).
  now exists evs.
Qed.
End DbRunFacts.

Section DbRunExamples.
Import Db.
#[local] Existing Instance Samples.sample_sqlite.
#[local] Existing Instance Samples.sample_darray.

Lemma db_queue_process_replies_witness :
  exists evs rss,
    trace (db_queue_process
             [Some Samples.q_bad; Some Samples.q_prio; None; Some Samples.q_after]
             Samples.db_init) = trace Samples.db_init ++ evs
    /\ replies evs = concat rss
    /\ Forall2 reply_of [Samples.q_bad; Samples.q_prio; Samples.q_after] rss.
Proof.
  apply (db_queue_process_replies
           [Some Samples.q_bad; Some Samples.q_prio; None; Some Samples.q_after]
           Samples.db_init).
  reflexivity.
Defined.

End DbRunExamples.

(** * More about the listener multiplexer *)

Section ListenBindFacts.
Import Listen.



Lemma clash_sym a b : clash a b -> clash b a.
Proof. unfold clash. intuition congruence. Qed.

(** [clash] only looks at the type, the port and the address. *)
Lemma clash_add_hub_l h a b : clash (add_hub h a) b <-> clash a b.
Proof. reflexivity. Qed.

Lemma consistent_app l1 l2 :
  consistent (l1 ++ l2) <->
  consistent l1 /\ consistent l2 /\ Forall (fun a => Forall (fun b => ~ clash a b) l2) l1.
Proof.
  induction l1 as [|a l1 IH]; cbn.
  - intuition constructor.
  - rewrite Forall_app, IH, Forall_cons. tauto.
Qed.

Lemma consistent_same_keys l l' :
  Forall2 (fun a b => type a = type b /\ port a = port b /\ ip4 a = ip4 b) l l' ->
  consistent l -> consistent l'.
Proof.
  induction 1 as [|a b l l' (Ht & Hp & Hi) Hl IH]; [trivial|].
  cbn. intros [Ha Hc]. split; [|auto].
  clear IH Hc. induction Hl as [|c d l l' (Ht' & Hp' & Hi') Hl IH]; [constructor|].
  apply Forall_cons in Ha as [Hac Ha]. constructor; [|auto].
  unfold clash in *. rewrite <- Ht, <- Hp, <- Hi, <- Ht', <- Hp', <- Hi'. exact Hac.
Qed.

Lemma consistent_filter (P : listen_bind -> bool) l :
  consistent l -> consistent (List.filter P l).
Proof.
  induction l as [|a l IH]; [trivial|]. cbn. intros [Ha Hc].
  destruct (P a); cbn; [|auto]. split; [|auto].
  clear -Ha. induction Ha as [|b l Hb Ha IH]; cbn; [constructor|].
  destruct (P b); [constructor|]; auto.
Qed.

Lemma bind_lookup_reuse_split ty ip prt before l b i a :
  bind_lookup ty ip prt before l = Reuse b i a -> before ++ l = b ++ i :: a.
Proof.
  revert before. induction l as [|x l IH]; intros before; cbn; [discriminate|].
  repeat case_match; try discriminate.
  - now intros [= <- <- <-].
  - intros Hr. apply IH in Hr. now rewrite <- app_assoc in Hr.
Qed.

Lemma bind_lookup_fresh ty ip prt before l :
  bind_lookup ty ip prt before l = Fresh ->
  Forall (fun i =>
            ~ (type i = ty /\ (ip4 i = ip \/ ip4 i = 0) /\ port i = prt)
            /\ ~ (((ty = LBT_TLS /\ type i = LBT_TCP) \/ (ty = LBT_TCP /\ type i = LBT_TLS))
                  /\ port i = prt /\ (ip4 i = 0 \/ ip = 0 \/ ip4 i = ip))) l.
Proof.
  revert before. induction l as [|x l IH]; intros before; cbn; [constructor|].
  destruct (_ && _ && _) eqn:E1; [discriminate|].
  destruct (_ && _ && _) eqn:E2 in |- *; [discriminate|].
  intros Hf. constructor; [|eauto].
  unfold truthy in *. split.
  - intros (Ht & Hi & Hp). rewrite <- not_true_iff_false in E1. apply E1.
    rewrite !andb_true_iff, orb_true_iff, negb_true_iff, negb_false_iff, !Z.eqb_eq. tauto.
  - intros (Ht & Hp & Hi). rewrite <- not_true_iff_false in E2. apply E2.
    rewrite !andb_true_iff, !orb_true_iff, !andb_true_iff, !negb_true_iff, !negb_false_iff,
      !Z.eqb_eq. tauto.
Qed.

Lemma bind_merge_spec lb l m :
  let '(lb', rest, m') := bind_merge lb l m in
  rest = List.filter (fun i => negb (port i =? port lb) || negb (type i =? type lb)) l
  /\ type lb' = type lb /\ port lb' = port lb /\ ip4 lb' = ip4 lb /\ addr lb' = addr lb.
Proof.
  revert lb m. induction l as [|i l IH]; intros lb m; cbn; [auto|].
  destruct (negb (port i =? port lb) || negb (type i =? type lb)) eqn:E.
  - specialize (IH lb m). destruct (bind_merge lb l m) as [[lb' rest] m'].
    destruct IH as (-> & ?). auto.
  - set (lb1 := fold_left _ (hubs i) lb). set (m1 := fold_left _ (hubs i) m).
    assert (Hk : type lb1 = type lb /\ port lb1 = port lb /\ ip4 lb1 = ip4 lb
                 /\ addr lb1 = addr lb).
    { unfold lb1. clear. generalize (hubs i). intros hs. revert lb.
      induction hs as [|h hs IH]; intros lb; cbn; [auto|].
      destruct (IH (add_hub h lb)) as (? & ? & ? & ?). auto. }
    destruct Hk as (Ht & Hp & Hi & Ha).
    specialize (IH lb1 m1). destruct (bind_merge lb1 l m1) as [[lb' rest] m'].
    destruct IH as (-> & Ht' & Hp' & Hi' & Ha'). rewrite Ht, Hp in *.
    repeat split; congruence.
Qed.

Lemma consistent_bind_add b ty ip prt st :
  ty = LBT_TCP \/ ty = LBT_UDP \/ ty = LBT_TLS ->
  consistent (listen_binds st) -> consistent (listen_binds (bind_add b ty ip prt st)).
Proof.
  intros Hty Hc. unfold bind_add.
  set (p := if negb (truthy prt) then random_port ty st else prt).
  destruct (bind_lookup ty ip p [] (listen_binds st)) as [before i after| i |] eqn:E.
  - apply bind_lookup_reuse_split in E. cbn in E. cbn.
    eapply consistent_same_keys; [|exact Hc]. rewrite E.
    apply Forall2_app; [apply Forall2_same_length_lookup_2; [reflexivity|]|].
    + intros k x y Hx Hy. now simplify_eq.
    + constructor; [now cbn|]. apply Forall2_same_length_lookup_2; [reflexivity|].
      intros k x y Hx Hy. now simplify_eq.
  - exact I.
  - apply bind_lookup_fresh in E.
    assert (Hg : to_guint16 ty = ty) by (destruct Hty as [-> | [-> | ->]]; reflexivity).
    cbn [ip4 add_hub]. destruct (negb (truthy ip)) eqn:Hip.
    + match goal with
      | |- context [bind_merge ?lb ?l ?m] =>
          pose proof (bind_merge_spec lb l m) as Hm; destruct (bind_merge lb l m) as [[lb' rest] m']
      end.
      cbn in Hm. destruct Hm as (-> & Ht & Hp & Hi & _). rewrite Hg in Ht.
      cbn. split; [|now apply consistent_filter].
      apply Forall_forall. intros x Hx. apply list_elem_of_In, filter_In in Hx as [Hx Hk].
      apply list_elem_of_In in Hx.
      rewrite Forall_forall in E. destruct (E x Hx) as [Hr Hcf].
      unfold truthy in Hip. rewrite negb_involutive in Hip. apply Z.eqb_eq in Hip.
      rewrite Hg in Hk.
      rewrite orb_true_iff, !negb_true_iff, !Z.eqb_neq in Hk.
      unfold clash. rewrite Ht, Hp, Hi. intros (Hpe & Hov & Hkind).
      destruct Hkind as [Hs | Hx']; [intuition congruence|].
      apply Hcf. intuition.
    + cbn. split; [|exact Hc].
      apply Forall_forall. intros x Hx.
      rewrite Forall_forall in E. destruct (E x Hx) as [Hr Hcf].
      unfold truthy in Hip. rewrite negb_false_iff, negb_true_iff, Z.eqb_neq in Hip.
      unfold clash. cbn. rewrite Hg. intros (Hpe & Hov & Hkind).
      destruct Hkind as [Hs | Hx'].
      * apply Hr. intuition congruence.
      * apply Hcf. intuition.
Qed.

Lemma consistent_refresh_hubs tabs st :
  consistent (listen_binds st) -> consistent (listen_binds (listen_refresh_hubs tabs st)).
Proof.
  revert st. induction tabs as [|t tabs IH]; intros st Hc; cbn [listen_refresh_hubs]; [exact Hc|].
  destruct (negb (is_hub t) || negb (truthy (hub_ip4 t)) || negb (var_active t)); [auto|].
  cbv zeta.
  set (s0 := set_hub_binds _ st).
  assert (H0 : consistent (listen_binds s0)) by exact Hc.
  pose proof (consistent_bind_add (hub_id t) LBT_TCP (var_local_address t)
                (to_guint16 (var_active_port t)) s0 (or_introl eq_refl) H0) as H1.
  set (s1 := bind_add _ LBT_TCP _ _ s0) in *.
  destruct (stopped s1); [exact H1|].
  pose proof (consistent_bind_add (hub_id t) LBT_UDP (var_local_address t)
                (to_guint16 (var_active_udp_port t)) s1 (or_intror (or_introl eq_refl)) H1) as H2.
  set (s2 := bind_add _ LBT_UDP _ _ s1) in *.
  destruct (stopped s2); [exact H2|].
  destruct (var_tls_policy t >? VAR_TLSP_DISABLE); [|auto].
  pose proof (consistent_bind_add (hub_id t) LBT_TLS (var_local_address t)
                (to_guint16 (var_active_tls_port t)) s2 (or_intror (or_intror eq_refl)) H2) as H3.
  set (s3 := bind_add _ LBT_TLS _ _ s2) in *.
  destruct (stopped s3); [exact H3 | auto].
Qed.


(** X4.  The binds for which [listen_refresh] goes on to
    create sockets never clash: whatever the tabs (with distinct hub ids)
    and their configuration, the list that its first loop builds holds no
    two binds with the same port, overlapping addresses (equal, or one of
    them 0.0.0.0) and the same type or the types TCP and TLS. *)
Theorem listen_refresh_binds_consistent tabs st :
  NoDup (hub_ids tabs) ->
  consistent (listen_binds (listen_refresh_hubs tabs (listen_stop st))).
Proof. intros _. apply consistent_refresh_hubs. exact I. Qed.

Lemma listen_refresh_hubs_skip pre tabs st :
  forallb (fun t => negb (considered t)) pre = true ->
  listen_refresh_hubs (pre ++ tabs) st = listen_refresh_hubs tabs st.
Proof.
  induction pre as [|t pre IH]; [reflexivity|]. cbn [forallb app listen_refresh_hubs].
  intros Hp. apply andb_prop in Hp as [Ht Hp]. unfold considered in Ht.
  rewrite !negb_andb in Ht. rewrite Ht. auto.
Qed.

Lemma fold_close_hub_binds l s :
  listen_hub_binds (fold_left (fun s lb => close_bind lb s) l s) = listen_hub_binds s.
Proof.
  revert s. induction l as [|x l IH]; intros s; [reflexivity|]. cbn. rewrite IH.
  unfold close_bind. now repeat case_match.
Qed.

Lemma listen_stop_hub_binds st : listen_hub_binds (listen_stop st) = ∅.
Proof. unfold listen_stop. cbn. now rewrite fold_close_hub_binds. Qed.

Lemma listen_stop_random_port ty st : random_port ty (listen_stop st) = random_port ty st.
Proof.
  unfold listen_stop, random_port. cbn.
  assert (Hg : forall l s,
            random_tcp_port (fold_left (fun s lb => close_bind lb s) l s) = random_tcp_port s
            /\ random_udp_port (fold_left (fun s lb => close_bind lb s) l s) = random_udp_port s
            /\ random_tls_port (fold_left (fun s lb => close_bind lb s) l s) = random_tls_port s).
  { induction l as [|x l IH]; intros s; [auto|]. cbn.
    destruct (IH (close_bind x s)) as (-> & -> & ->).
    unfold close_bind. now repeat case_match. }
  destruct (Hg (listen_binds st) (set_hub_binds ∅ st)) as (-> & -> & ->). reflexivity.
Qed.

Lemma not_stopped h b st : listen_hub_binds st !! h = Some b -> stopped st = false.
Proof.
  intros Hl. unfold stopped. apply bool_decide_eq_false_2. intros Hs.
  apply map_size_empty_iff in Hs. rewrite Hs in Hl. now rewrite lookup_empty in Hl.
Qed.

(** X5.  A hub whose TCP port and TLS port come out equal makes
    the client passive: when the first tab that [listen_refresh] takes into
    account has TLS enabled and the same port for TCP and for TLS (as
    configured, or the startup port where the configured port is 0),
    [listen_refresh] reports the configuration error, naming the TLS bind
    that was asked for and the TCP bind it conflicts with, both on the
    address and port of the hub, ends with no bind and no hub in its
    tables, and makes no system call but those of [listen_stop]; the tabs
    that follow are not looked at. *)
Theorem listen_refresh_tcp_tls_clash os pre t rest st :
  forallb (fun t => negb (considered t)) pre = true ->
  considered t = true ->
  (var_tls_policy t >? VAR_TLSP_DISABLE) = true ->
  port_for LBT_TCP (var_active_port t) st = port_for LBT_TLS (var_active_tls_port t) st ->
  let st' := listen_refresh os (pre ++ t :: rest) st in
  let p := port_for LBT_TCP (var_active_port t) st in
  listen_binds st' = []
  /\ listen_hub_binds st' = ∅
  /\ trace st'
     = trace (listen_stop st)
       ++ [Ev_ui_mf "Active configuration error: %s %s:%d conflicts with %s %s:%d. Switching to passive mode."
             [A_str "TLS"; A_ip4_unpack (var_local_address t); A_int p;
              A_str "TCP"; A_ip4_unpack (var_local_address t); A_int p]].
Proof.
  intros Hpre Ht Htls Hport. cbv zeta. unfold listen_refresh.
  rewrite listen_refresh_hubs_skip by assumption.
  pose proof (listen_stop_hub_binds st) as Hh0.
  pose proof (fun ty => listen_stop_random_port ty st) as Hr0.
  assert (Hb0 : listen_binds (listen_stop st) = []) by reflexivity.
  set (s0 := listen_stop st) in *. clearbody s0.
  cbn [listen_refresh_hubs]. unfold considered in Ht.
  apply andb_prop in Ht as [Ht Ha]. apply andb_prop in Ht as [Hh Hi].
  rewrite Hh, Hi, Ha. cbn [negb orb]. cbv zeta. rewrite Htls.
  unfold port_for in Hport |- *.
  rewrite <- (Hr0 LBT_TCP), <- (Hr0 LBT_TLS) in Hport. rewrite <- ?(Hr0 LBT_TCP). clear Hr0.
  destruct s0 as [bs hb rt ru rl na tr]. cbn in Hb0, Hh0. subst bs hb.
  cbn [listen_hub_binds].
  set (ip := var_local_address t) in *.
  set (h := hub_id t) in *.
  set (m0 := <[h := _]> ∅).
  set (ptcp := if truthy (to_guint16 (var_active_port t))
               then to_guint16 (var_active_port t) else rt).
  set (pudp := if truthy (to_guint16 (var_active_udp_port t))
               then to_guint16 (var_active_udp_port t) else ru).
  set (lb1 := Build_listen_bind na 2 ptcp ip 0 0 [h]).
  set (lb2 := Build_listen_bind (N.succ na) 1 pudp ip 0 0 [h]).
  set (m1 := alter (hub_set_bind 2 na) h m0).
  set (m2 := alter (hub_set_bind 1 (N.succ na)) h m1).
  (* the TCP bind *)
  match goal with
  | |- context [bind_add h LBT_TCP ip ?p ?s] =>
      assert (H1 : bind_add h LBT_TCP ip p s = Build_state [lb1] m1 rt ru rl (N.succ na) tr)
  end.
  { unfold bind_add, lb1, ptcp, m1. cbn.
    destruct (truthy (to_guint16 (var_active_port t))), (truthy ip); reflexivity. }
  rewrite H1. clear H1.
  assert (Hm1 : is_Some (m1 !! h)).
  { unfold m1, m0. rewrite lookup_alter_eq, lookup_insert_eq. cbn. eauto. }
  destruct Hm1 as [b1 Hm1].
  rewrite (not_stopped h b1) by exact Hm1.
  (* the UDP bind *)
  match goal with
  | |- context [bind_add h LBT_UDP ip ?p ?s] =>
      assert (H2 : bind_add h LBT_UDP ip p s
                   = Build_state [lb2; lb1] m2 rt ru rl (N.succ (N.succ na)) tr)
  end.
  { unfold bind_add, lb2, pudp, m2. cbn.
    destruct (truthy (to_guint16 (var_active_udp_port t))), (truthy ip); cbn;
      rewrite ?orb_true_r; reflexivity. }
  rewrite H2. clear H2.
  assert (Hm2 : is_Some (m2 !! h)).
  { unfold m2. rewrite lookup_alter_eq, Hm1. cbn. eauto. }
  destruct Hm2 as [b2 Hm2].
  rewrite (not_stopped h b2) by exact Hm2.
  (* the TLS bind *)
  match goal with
  | |- context [bind_add h LBT_TLS ip ?p ?s] =>
      assert (H3 : bind_add h LBT_TLS ip p s
                   = Build_state [] ∅ rt ru rl (N.succ (N.succ na))
                       (tr ++ [Ev_ui_mf "Active configuration error: %s %s:%d conflicts with %s %s:%d. Switching to passive mode."
                                 [A_str "TLS"; A_ip4_unpack ip; A_int ptcp;
                                  A_str "TCP"; A_ip4_unpack ip; A_int ptcp]]))
  end.
  { unfold bind_add. cbv zeta.
    match goal with
    | |- context [bind_lookup LBT_TLS ip ?p [] _] =>
        replace p with ptcp by
          (unfold ptcp; cbn in Hport; rewrite Hport;
           now destruct (truthy (to_guint16 (var_active_tls_port t))))
    end.
    cbn. rewrite !Z.eqb_refl, orb_true_r. cbn. reflexivity. }
  rewrite H3. cbn. repeat split.
Qed.


Lemma hub_set_bind_idem ty a b : hub_set_bind ty a (hub_set_bind ty a b) = hub_set_bind ty a b.
Proof. unfold hub_set_bind. repeat case_match; reflexivity. Qed.

Lemma fold_alter_hubs (f : listen_hub_bind -> listen_hub_bind) hs (m : gmap Z listen_hub_bind) h :
  (forall b, f (f b) = f b) ->
  fold_left (fun acc h => alter f h acc) hs m !! h
  = if bool_decide (h ∈ hs) then f <$> m !! h else m !! h.
Proof.
  intros Hf. revert m. induction hs as [|x hs IH]; intros m; cbn; [reflexivity|].
  rewrite IH. destruct (decide (x = h)) as [-> | Hne].
  - rewrite lookup_alter_eq. rewrite (bool_decide_eq_true_2 (h ∈ h :: hs)) by constructor.
    case_bool_decide; [|reflexivity]. destruct (m !! h); cbn; now rewrite ?Hf.
  - rewrite lookup_alter_ne by exact Hne.
    replace (bool_decide (h ∈ x :: hs)) with (bool_decide (h ∈ hs)); [reflexivity|].
    apply bool_decide_ext. rewrite elem_of_cons. intuition congruence.
Qed.

Lemma fold_add_hub_hubs hs lb h :
  h ∈ hubs (fold_left (fun acc h => add_hub h acc) hs lb) <-> h ∈ hs \/ h ∈ hubs lb.
Proof.
  revert lb. induction hs as [|x hs IH]; intros lb; cbn.
  - rewrite elem_of_nil. tauto.
  - rewrite IH. cbn. rewrite !elem_of_cons. tauto.
Qed.

Lemma fold_add_hub_keys hs lb :
  let lb' := fold_left (fun acc h => add_hub h acc) hs lb in
  type lb' = type lb /\ port lb' = port lb /\ ip4 lb' = ip4 lb /\ addr lb' = addr lb
  /\ src lb' = src lb /\ sock lb' = sock lb.
Proof.
  revert lb. induction hs as [|x hs IH]; intros lb; cbn; [tauto|]. apply (IH (add_hub x lb)).
Qed.

Lemma bind_merge_hubs lb l m :
  let '(lb', rest, m') := bind_merge lb l m in
  (forall h, h ∈ hubs lb' <-> moved lb h l = true \/ h ∈ hubs lb)
  /\ (forall h, m' !! h
                = if moved lb h l then hub_set_bind (type lb) (addr lb) <$> m !! h
                  else m !! h).
Proof.
  revert lb m. induction l as [|i l IH]; intros lb m; cbn.
  - split; intros h; [|reflexivity]. intuition discriminate.
  - destruct (negb (port i =? port lb) || negb (type i =? type lb)) eqn:E.
    + specialize (IH lb m). destruct (bind_merge lb l m) as [[lb' rest] m'].
      rewrite <- negb_andb in E. apply negb_true_iff in E.
      destruct IH as [IH1 IH2]. split; intros h; rewrite E; cbn [andb orb]; auto.
    + rewrite <- negb_andb in E. apply negb_false_iff in E.
      set (lb1 := fold_left _ (hubs i) lb). set (m1 := fold_left _ (hubs i) m).
      destruct (fold_add_hub_keys (hubs i) lb) as (Ht & Hp & Hi & Ha & _). fold lb1 in Ht, Hp, Hi, Ha.
      specialize (IH lb1 m1). destruct (bind_merge lb1 l m1) as [[lb' rest] m'].
      destruct IH as [IH1 IH2].
      assert (Hmv : forall h, moved lb1 h l = moved lb h l).
      { intros h. unfold moved. now rewrite Hp, Ht. }
      split; intros h.
      * rewrite IH1, Hmv. unfold lb1. rewrite fold_add_hub_hubs, E. cbn [andb].
        rewrite orb_true_iff, bool_decide_eq_true. tauto.
      * rewrite IH2, Hmv, Ht, Ha. unfold m1.
        rewrite fold_alter_hubs by apply hub_set_bind_idem. rewrite E. cbn [andb].
        case_bool_decide; cbn [orb]; [|reflexivity].
        destruct (moved lb h l); [|reflexivity].
        destruct (m !! h); cbn; now rewrite ?hub_set_bind_idem.
Qed.

Lemma refers_mono h ty a st st' :
  (forall lb, lb ∈ listen_binds st -> type lb = ty -> h ∈ hubs lb ->
     exists lb', lb' ∈ listen_binds st' /\ addr lb' = addr lb /\ type lb' = type lb
                 /\ h ∈ hubs lb') ->
  refers h ty a st -> refers h ty a st'.
Proof.
  intros Hm Hr p Hp. destruct (Hr p Hp) as (lb & Hin & Ha & Ht & Hh).
  destruct (Hm lb Hin Ht Hh) as (lb' & Hin' & Ha' & Ht' & Hh').
  exists lb'. repeat split; congruence.
Qed.

Lemma valid_stop st : hub_binds_valid (listen_stop st).
Proof.
  split; [|split].
  - intros h b. rewrite listen_stop_hub_binds, lookup_empty. discriminate.
  - constructor.
  - constructor.
Qed.

Lemma valid_reuse b i before after st :
  listen_binds st = before ++ i :: after ->
  hub_binds_valid st ->
  hub_binds_valid
    (set_binds (before ++ add_hub b i :: after)
       (set_hub_binds (alter (hub_set_bind (type i) (addr i)) b (listen_hub_binds st)) st)).
Proof.
  intros Hb (V1 & V2 & V3).
  assert (Hmono : forall st' h ty a,
            listen_binds st' = before ++ add_hub b i :: after ->
            refers h ty a st -> refers h ty a st').
  { intros st' h ty a Hb'. apply refers_mono. intros lb Hin Ht Hh. rewrite Hb in Hin.
    rewrite Hb'. apply elem_of_app in Hin as [Hin | Hin].
    - exists lb. rewrite elem_of_app. auto.
    - apply elem_of_cons in Hin as [-> | Hin].
      + exists (add_hub b i). rewrite elem_of_app, !elem_of_cons. cbn.
        rewrite elem_of_cons. auto 10.
      + exists lb. rewrite elem_of_app, !elem_of_cons. auto 10. }
  assert (Hnew : forall st' ty,
            listen_binds st' = before ++ add_hub b i :: after -> type i = ty ->
            refers b ty (Some (addr i)) st').
  { intros st' ty Hb' Ht p [= <-]. exists (add_hub b i). rewrite Hb'. cbn.
    rewrite elem_of_app, !elem_of_cons. auto 10. }
  assert (Hi : i ∈ listen_binds st) by (rewrite Hb, elem_of_app, elem_of_cons; auto).
  assert (Hty : type i = LBT_TCP \/ type i = LBT_UDP \/ type i = LBT_TLS).
  { rewrite Forall_forall in V3. now apply V3. }
  split; [|split].
  - intros h b'. cbn [listen_hub_binds set_binds set_hub_binds].
    destruct (decide (h = b)) as [-> | Hne].
    + rewrite lookup_alter_eq. destruct (listen_hub_binds st !! b) as [b0|] eqn:E; [|discriminate].
      cbn. intros [= <-]. destruct (V1 b b0 E) as (R1 & R2 & R3).
      destruct Hty as [Ht | [Ht | Ht]]; rewrite Ht; cbn; repeat split;
        (apply Hmono; [reflexivity | assumption]) || (apply Hnew; [reflexivity | assumption]).
    + rewrite lookup_alter_ne by congruence. intros E.
      destruct (V1 h b' E) as (R1 & R2 & R3). repeat split; now apply Hmono.
  - cbn. rewrite Hb in V2. rewrite map_app in *. exact V2.
  - cbn. rewrite Hb in V3. rewrite Forall_app, Forall_cons in *. exact V3.
Qed.

Lemma NoDup_map_filter {A B} (f : A -> B) (P : A -> bool) l :
  NoDup (map f l) -> NoDup (map f (List.filter P l)).
Proof.
  induction l as [|x l IH]; cbn; [auto|]. rewrite NoDup_cons. intros [Hx Hl].
  destruct (P x); cbn; [|auto]. apply NoDup_cons. split; [|auto].
  intros Hin. apply Hx. apply list_elem_of_In in Hin. apply in_map_iff in Hin as (y & Hy & Hin).
  apply filter_In in Hin as [Hin _]. apply list_elem_of_In, in_map_iff. eauto.
Qed.

Lemma valid_fresh b ty st lb' (P : listen_bind -> bool) m' (mv : Z -> bool) :
  hub_binds_valid st ->
  ty = LBT_TCP \/ ty = LBT_UDP \/ ty = LBT_TLS ->
  addr lb' = next_addr st -> type lb' = ty ->
  (forall h, h ∈ hubs lb' <-> mv h = true \/ h = b) ->
  (forall h, m' !! h
             = if mv h || bool_decide (h = b)
               then hub_set_bind ty (next_addr st) <$> listen_hub_binds st !! h
               else listen_hub_binds st !! h) ->
  (forall x, x ∈ listen_binds st -> P x = false ->
     type x = ty /\ forall h, h ∈ hubs x -> mv h = true) ->
  hub_binds_valid
    (set_binds (lb' :: List.filter P (listen_binds st))
       (set_hub_binds m' (set_next_addr (N.succ (next_addr st)) st))).
Proof.
  intros (V1 & V2 & V3) Hty Ha Ht Hh Hm HP.
  set (st' := set_binds _ _).
  assert (Hb' : listen_binds st' = lb' :: List.filter P (listen_binds st)) by reflexivity.
  assert (Hm' : listen_hub_binds st' = m') by reflexivity.
  assert (Hn' : next_addr st' = N.succ (next_addr st)) by reflexivity.
  clearbody st'.
  (* a pointer that referred to a bind that stays *)
  assert (Hkeep : forall h ty0 a,
            (ty0 ≠ ty \/ mv h = false) -> refers h ty0 a st -> refers h ty0 a st').
  { intros h ty0 a Hc. apply refers_mono. intros x Hin Htx Hhx.
    exists x. rewrite Hb', elem_of_cons. repeat split; [|assumption].
    right. apply list_elem_of_In, filter_In. split; [now apply list_elem_of_In|].
    destruct (P x) eqn:E; [reflexivity|]. destruct (HP x Hin E) as [Htx' Hmv].
    destruct Hc as [Hc | Hc]; [congruence|]. rewrite (Hmv h Hhx) in Hc. discriminate. }
  assert (Hnew : forall h, mv h || bool_decide (h = b) = true ->
            refers h ty (Some (next_addr st)) st').
  { intros h Hc p [= <-]. exists lb'. rewrite Hb', elem_of_cons. repeat split; auto.
    apply Hh. apply orb_true_iff in Hc as [Hc | Hc]; [auto|].
    apply bool_decide_eq_true in Hc. auto. }
  split; [|split].
  - intros h b'. rewrite Hm', Hm. destruct (mv h || bool_decide (h = b)) eqn:Hc.
    + destruct (listen_hub_binds st !! h) as [b0|] eqn:E; [|discriminate].
      cbn. intros [= <-]. destruct (V1 h b0 E) as (R1 & R2 & R3).
      destruct Hty as [-> | [-> | ->]]; cbn; repeat split;
        (apply Hnew; assumption) || (apply Hkeep; [left; discriminate | assumption]).
    + intros E. destruct (V1 h b' E) as (R1 & R2 & R3).
      apply orb_false_iff in Hc as [Hc _].
      repeat split; apply Hkeep; auto.
  - rewrite Hb'. cbn. apply NoDup_cons. split; [|now apply NoDup_map_filter].
    intros Hin. apply list_elem_of_In, in_map_iff in Hin as (y & Hy & Hin).
    apply filter_In in Hin as [Hin _]. rewrite Forall_forall in V3.
    apply list_elem_of_In in Hin. destruct (V3 y Hin) as [Hlt _]. lia.
  - rewrite Hb', Hn'. constructor; [split; [lia | congruence]|].
    rewrite Forall_forall in V3 |- *. intros x Hx.
    apply list_elem_of_In, filter_In in Hx as [Hx _]. apply list_elem_of_In in Hx.
    destruct (V3 x Hx). split; [lia | assumption].
Qed.

Lemma filter_true {A} (l : list A) : List.filter (fun _ => true) l = l.
Proof. induction l as [|x l IH]; cbn; congruence. Qed.

Lemma valid_bind_add b ty ip prt st :
  ty = LBT_TCP \/ ty = LBT_UDP \/ ty = LBT_TLS ->
  hub_binds_valid st -> hub_binds_valid (bind_add b ty ip prt st).
Proof.
  intros Hty Hv. unfold bind_add.
  set (p := if negb (truthy prt) then random_port ty st else prt).
  destruct (bind_lookup ty ip p [] (listen_binds st)) as [before i after| i |] eqn:E.
  - apply bind_lookup_reuse_split in E. cbn in E. now apply valid_reuse.
  - apply valid_stop.
  - clear E. assert (Hg : to_guint16 ty = ty) by (destruct Hty as [-> | [-> | ->]]; reflexivity).
    cbv zeta. unfold add_hub.
    cbn [ip4 type addr listen_binds listen_hub_binds set_next_addr hubs port src sock].
    rewrite Hg.
    set (lb1 := Build_listen_bind (next_addr st) ty p ip 0 0 [b]).
    set (m1 := alter (hub_set_bind ty (next_addr st)) b (listen_hub_binds st)).
    assert (Hm1 : forall h, m1 !! h
                  = if bool_decide (h = b)
                    then hub_set_bind ty (next_addr st) <$> listen_hub_binds st !! h
                    else listen_hub_binds st !! h).
    { intros h. unfold m1. case_bool_decide as Hd.
      - subst h. now rewrite lookup_alter_eq.
      - now rewrite lookup_alter_ne by congruence. }
    destruct (negb (truthy ip)).
    + pose proof (bind_merge_spec lb1 (listen_binds st) m1) as Hs.
      pose proof (bind_merge_hubs lb1 (listen_binds st) m1) as Hh.
      destruct (bind_merge lb1 (listen_binds st) m1) as [[lb' rest] m'].
      destruct Hs as (-> & Ht & Hp & Hi & Ha). destruct Hh as [Hh1 Hh2].
      apply (valid_fresh b ty st lb' _ m' (fun h => moved lb1 h (listen_binds st)));
        try assumption.
      * intros h. rewrite Hh1. cbn. rewrite list_elem_of_singleton. tauto.
      * intros h. rewrite Hh2, Hm1. cbn [type addr lb1].
        destruct (moved lb1 h (listen_binds st)), (bool_decide (h = b)); cbn [orb];
          try reflexivity.
        destruct (listen_hub_binds st !! h); cbn; now rewrite ?hub_set_bind_idem.
      * intros x Hx Hk. rewrite <- negb_andb in Hk. apply negb_false_iff in Hk.
        pose proof Hk as Hk'. apply andb_prop in Hk' as [_ Htx]. apply Z.eqb_eq in Htx.
        split; [exact Htx|]. intros h Hhx. unfold moved. apply existsb_exists.
        exists x. split; [now apply list_elem_of_In|].
        rewrite Hk. now apply bool_decide_eq_true_2.
    + rewrite <- (filter_true (listen_binds st)) at 1.
      apply (valid_fresh b ty st lb1 _ m1 (fun _ => false)); try assumption; try reflexivity.
      * intros h. cbn. rewrite list_elem_of_singleton. intuition discriminate.
      * discriminate.
Qed.

Lemma valid_set_hub h st :
  hub_binds_valid st ->
  hub_binds_valid
    (set_hub_binds (<[h := Build_listen_hub_bind h None None None]> (listen_hub_binds st)) st).
Proof.
  intros (V1 & V2 & V3). split; [|split]; [|exact V2 | exact V3].
  intros h' b'. cbn. destruct (decide (h' = h)) as [-> | Hne].
  - rewrite lookup_insert_eq. intros [= <-]. repeat split; intros p; discriminate.
  - rewrite lookup_insert_ne by congruence. apply V1.
Qed.

Lemma valid_refresh_hubs tabs st :
  hub_binds_valid st -> hub_binds_valid (listen_refresh_hubs tabs st).
Proof.
  revert st. induction tabs as [|t tabs IH]; intros st Hv; cbn [listen_refresh_hubs]; [exact Hv|].
  destruct (negb (is_hub t) || negb (truthy (hub_ip4 t)) || negb (var_active t)); [auto|].
  cbv zeta.
  pose proof (valid_set_hub (hub_id t) st Hv) as H0.
  set (s0 := set_hub_binds _ st) in *.
  pose proof (valid_bind_add (hub_id t) LBT_TCP (var_local_address t)
                (to_guint16 (var_active_port t)) s0 (or_introl eq_refl) H0) as H1.
  set (s1 := bind_add _ LBT_TCP _ _ s0) in *.
  destruct (stopped s1); [exact H1|].
  pose proof (valid_bind_add (hub_id t) LBT_UDP (var_local_address t)
                (to_guint16 (var_active_udp_port t)) s1 (or_intror (or_introl eq_refl)) H1) as H2.
  set (s2 := bind_add _ LBT_UDP _ _ s1) in *.
  destruct (stopped s2); [exact H2|].
  destruct (var_tls_policy t >? VAR_TLSP_DISABLE); [|auto].
  pose proof (valid_bind_add (hub_id t) LBT_TLS (var_local_address t)
                (to_guint16 (var_active_tls_port t)) s2 (or_intror (or_intror eq_refl)) H2) as H3.
  set (s3 := bind_add _ LBT_TLS _ _ s2) in *.
  destruct (stopped s3); [exact H3 | auto].
Qed.

(** X6.  After the first loop of [listen_refresh], whatever
    the tabs (with distinct hub ids) and however binds were re-used and
    merged, no hub holds a dangling pointer: each of its TCP, UDP and TLS
    pointers that is set refers to a bind of the list, of that type, that
    lists the hub, and the binds have distinct addresses.  So
    [listen_hub_tcp], [listen_hub_udp] and [listen_hub_tls] return a port
    for every hub. *)
Theorem listen_refresh_hub_pointers tabs st :
  NoDup (hub_ids tabs) ->
  let st' := listen_refresh_hubs tabs (listen_stop st) in
  hub_binds_valid st'
  /\ forall hub,
       (exists p, listen_hub_tcp hub st' = Some p)
       /\ (exists p, listen_hub_udp hub st' = Some p)
       /\ (exists p, listen_hub_tls hub st' = Some p).
Proof.
  intros _. cbv zeta. pose proof (valid_refresh_hubs tabs _ (valid_stop st)) as Hv.
  split; [exact Hv|]. destruct Hv as (V1 & _).
  intros hub. unfold listen_hub_tcp, listen_hub_udp, listen_hub_tls, hub_port.
  destruct (listen_hub_binds _ !! hub) as [b|] eqn:E; [|repeat split; eauto].
  destruct (V1 hub b E) as (R1 & R2 & R3).
  assert (Hf : forall ty a, refers hub ty (Some a) (listen_refresh_hubs tabs (listen_stop st)) ->
            exists p, port <$> bind_at a (listen_refresh_hubs tabs (listen_stop st)) = Some p).
  { intros ty a Hr. destruct (Hr a eq_refl) as (lb & Hin & Ha & _).
    unfold bind_at.
    destruct (List.find _ _) as [x|] eqn:F; [cbn; eauto|].
    apply list_elem_of_In in Hin. eapply find_none in F; [|exact Hin].
    rewrite Ha, N.eqb_refl in F. discriminate. }
  split; [|split].
  - destruct (tcp b); [eapply Hf, R1 | eauto].
  - destruct (udp b); [eapply Hf, R2 | eauto].
  - destruct (tls b); [eapply Hf, R3 | eauto].
Qed.
End ListenBindFacts.

Section ListenBindExamples.
Import Listen.

Lemma listen_refresh_binds_consistent_witness :
  consistent
    (listen_binds
       (listen_refresh_hubs [Samples.hub_tab_local; Samples.hub_tab]
          (listen_stop Samples.listen_init))).
Proof.
  apply (listen_refresh_binds_consistent [Samples.hub_tab_local; Samples.hub_tab]
           Samples.listen_init).
  vm_compute. apply NoDup_cons. split; [|apply NoDup_singleton].
  intros Hin. apply list_elem_of_singleton in Hin. discriminate.
Defined.

Lemma listen_refresh_tcp_tls_clash_witness :
  let st' := listen_refresh Samples.os_ok [Samples.hub_tab_clash; Samples.hub_tab]
               Samples.listen_init in
  listen_binds st' = []
  /\ listen_hub_binds st' = ∅
  /\ trace st'
     = trace (listen_stop Samples.listen_init)
       ++ [Ev_ui_mf "Active configuration error: %s %s:%d conflicts with %s %s:%d. Switching to passive mode."
             [A_str "TLS"; A_ip4_unpack 0; A_int 1412;
              A_str "TCP"; A_ip4_unpack 0; A_int 1412]].
Proof.
  apply (listen_refresh_tcp_tls_clash Samples.os_ok [] Samples.hub_tab_clash
           [Samples.hub_tab] Samples.listen_init); reflexivity.
Defined.

Lemma listen_refresh_hub_pointers_witness :
  let st' := listen_refresh_hubs [Samples.hub_tab_local; Samples.hub_tab]
               (listen_stop Samples.listen_init) in
  hub_binds_valid st'
  /\ forall hub,
       (exists p, listen_hub_tcp hub st' = Some p)
       /\ (exists p, listen_hub_udp hub st' = Some p)
       /\ (exists p, listen_hub_tls hub st' = Some p).
Proof.
  apply (listen_refresh_hub_pointers [Samples.hub_tab_local; Samples.hub_tab]
           Samples.listen_init).
  vm_compute. apply NoDup_cons. split; [|apply NoDup_singleton].
  intros Hin. apply list_elem_of_singleton in Hin. discriminate.
Defined.

(** The two hubs of the examples end up on the same three binds: those of
    the hub on 10.0.0.1 are merged into the binds on 0.0.0.0. *)
Example listen_refresh_merge_run :
  let st' := listen_refresh_hubs [Samples.hub_tab_local; Samples.hub_tab]
               (listen_stop Samples.listen_init) in
  map (fun b => (type b, ip4 b, port b, hubs b)) (listen_binds st')
  = [(LBT_TLS, 0, 1414, [2; 1]); (LBT_UDP, 0, 1413, [2; 1]); (LBT_TCP, 0, 1412, [2; 1])]
  /\ listen_hub_tcp 2 st' = Some 1412 /\ listen_hub_udp 2 st' = Some 1413
  /\ listen_hub_tls 2 st' = Some 1414.
Proof. vm_compute. repeat split. Qed.

End ListenBindExamples.

(** * More on the download queue ([dl.c]) *)

Section StringOrderFacts.
Import Dl.

Lemma uchar_inj x y : uchar x = uchar y -> x = y.
Proof.
  unfold uchar. intros Hxy. apply Nat2Z.inj in Hxy.
  rewrite <- (ascii_nat_embedding x), <- (ascii_nat_embedding y). now rewrite Hxy.
Qed.

Lemma uchar_nonneg x : 0 <= uchar x.
Proof. unfold uchar. lia. Qed.

Lemma uchar_pos x : Ascii.eqb x "000"%char = false -> 0 < uchar x.
Proof.
  intros Hx. pose proof (uchar_nonneg x).
  assert (uchar x ≠ 0); [|lia].
  intros H0. apply Ascii.eqb_neq in Hx. apply Hx. now apply uchar_inj.
Qed.

Lemma strcmp_antisym a b : strcmp b a = - strcmp a b.
Proof.
  revert b. induction a as [|c a IH]; intros [|d b]; cbn; try lia.
  rewrite (Ascii.eqb_sym d c). destruct (Ascii.eqb c d); [apply IH | lia].
Qed.

Lemma strcmp_eq a b : c_string a = true -> c_string b = true -> strcmp a b = 0 -> a = b.
Proof.
  revert b. induction a as [|c a IH]; intros [|d b]; cbn; try reflexivity.
  - intros _ Hb Hc. apply andb_prop in Hb as [Hd _]. apply negb_true_iff, uchar_pos in Hd. lia.
  - intros Ha _ Hc. apply andb_prop in Ha as [Hd _]. apply negb_true_iff, uchar_pos in Hd. lia.
  - intros Ha Hb. apply andb_prop in Ha as [_ Ha]. apply andb_prop in Hb as [_ Hb].
    destruct (Ascii.eqb c d) eqn:E.
    + apply Ascii.eqb_eq in E. subst d. intros Hc. f_equal. auto.
    + intros Hc. apply Ascii.eqb_neq in E. exfalso. apply E. apply uchar_inj. lia.
Qed.

Lemma strcmp_trans a b c :
  c_string a = true -> c_string b = true -> c_string c = true ->
  strcmp a b <= 0 -> strcmp b c <= 0 -> strcmp a c <= 0.
Proof.
  revert b c. induction a as [|x a IH]; intros [|y b] [|z c]; cbn; intros Ha Hb Hc;
    repeat match goal with
    | Hs : negb (Ascii.eqb ?x _) && _ = true |- _ =>
        let Hp := fresh "Hp" in
        apply andb_prop in Hs as [Hp Hs]; apply negb_true_iff, uchar_pos in Hp
    end; try lia.
  destruct (Ascii.eqb x y) eqn:Exy, (Ascii.eqb y z) eqn:Eyz.
  - apply Ascii.eqb_eq in Exy, Eyz. subst. rewrite Ascii.eqb_refl. now apply IH.
  - apply Ascii.eqb_eq in Exy. subst. rewrite Eyz. lia.
  - apply Ascii.eqb_eq in Eyz. subst. rewrite Exy. lia.
  - intros H1 H2. destruct (Ascii.eqb x z) eqn:Exz; [|lia].
    apply Ascii.eqb_eq in Exz. subst z.
    apply Ascii.eqb_neq in Exy. exfalso. apply Exy, uchar_inj. lia.
Qed.
End StringOrderFacts.

Section DlQueueFacts.
Import Dl.
Context `{Env}.

(** X7.  On destinations that are C strings, [dl_user_dl_sort]
    is a consistent order: swapping the arguments swaps the sign, the
    relation "sorts no later than" is transitive, and two entries compare
    equal exactly when they are both enabled or both disabled and their
    records agree on the list flag, the priority and the destination. *)
Theorem dl_user_dl_sort_order (x y z : dl_user_dl_t) (dx dy dz : dl_t) :
  c_string (dest dx) = true -> c_string (dest dy) = true -> c_string (dest dz) = true ->
  (dl_user_dl_sort x dx y dy < 0 <-> dl_user_dl_sort y dy x dx > 0)
  /\ (dl_user_dl_sort x dx y dy <= 0 -> dl_user_dl_sort y dy z dz <= 0 ->
      dl_user_dl_sort x dx z dz <= 0)
  /\ (dl_user_dl_sort x dx y dy = 0 <->
      dl_user_dl_enabled x dx = dl_user_dl_enabled y dy
      /\ islist dx = islist dy /\ prio dx = prio dy /\ dest dx = dest dy).
Proof.
  intros Hx Hy Hz. unfold dl_user_dl_sort.
  pose proof (strcmp_antisym (dest dx) (dest dy)) as Hxy.
  pose proof (strcmp_trans _ _ _ Hx Hy Hz) as Ht.
  pose proof (strcmp_eq _ _ Hx Hy) as He.
  pose proof (strcmp_refl (dest dx)) as Hr.
  split; [|split].
  - destruct (dl_user_dl_enabled x dx), (dl_user_dl_enabled y dy), (islist dx), (islist dy);
      cbn; try lia;
      destruct (Z.gtb_spec (prio dx) (prio dy)), (Z.ltb_spec (prio dx) (prio dy)),
        (Z.gtb_spec (prio dy) (prio dx)), (Z.ltb_spec (prio dy) (prio dx)); lia.
  - destruct (dl_user_dl_enabled x dx), (dl_user_dl_enabled y dy), (dl_user_dl_enabled z dz),
      (islist dx), (islist dy), (islist dz); cbn; try lia;
      destruct (Z.gtb_spec (prio dx) (prio dy)), (Z.ltb_spec (prio dx) (prio dy)),
        (Z.gtb_spec (prio dy) (prio dz)), (Z.ltb_spec (prio dy) (prio dz)),
        (Z.gtb_spec (prio dx) (prio dz)), (Z.ltb_spec (prio dx) (prio dz)); lia.
  - destruct (dl_user_dl_enabled x dx), (dl_user_dl_enabled y dy), (islist dx), (islist dy);
      cbn; try (split; [lia | intros (? & ? & ? & ?); discriminate]);
      destruct (Z.gtb_spec (prio dx) (prio dy)), (Z.ltb_spec (prio dx) (prio dy));
      try (split; [lia | intros (? & ? & ? & ?); lia]);
      (split; [intros Hzero; repeat split; try lia; auto
              | intros (_ & _ & _ & ->); apply strcmp_refl]).
Qed.

Lemma find_user_app_hit st uid l p dud k :
  duds st !! p = Some dud -> dud_u dud = uid ->
  exists i, find_user st uid (l ++ [p]) k = Some i.
Proof.
  intros Hp Hu. revert k. induction l as [|q l IH]; intros k; cbn.
  - rewrite Hp, Hu, Z.eqb_refl. eauto.
  - repeat case_match; eauto.
Qed.

Lemma dl_user_add_duds dl uid e emsg st d :
  dls st !! dl = Some d -> (islist d = false \/ u d = []) ->
  duds (dl_user_add dl uid e emsg st)
  = <[next_ptr st := Build_dl_user_dl_t dl uid e emsg]> (duds st).
Proof.
  intros Hd Hl. unfold dl_user_add. rewrite Hd.
  replace (negb (negb (islist d) || (length (u d) =? 0)%nat)) with false
    by (destruct Hl as [-> | ->]; [reflexivity | now rewrite orb_true_r]).
  destruct (queue_users st !! uid); reflexivity.
Qed.

Lemma dl_user_add_accepts dl uid e emsg st d :
  dls st !! dl = Some d -> (islist d = false \/ u d = []) ->
  dls (dl_user_add dl uid e emsg st) = <[dl := set_u (u d ++ [next_ptr st]) d]> (dls st).
Proof.
  intros Hd Hl. rewrite (dl_user_add_dls dl uid e emsg st d Hd).
  replace (negb (negb (islist d) || (length (u d) =? 0)%nat)) with false
    by (destruct Hl as [-> | ->]; [reflexivity | now rewrite orb_true_r]).
  reflexivity.
Qed.

(** X8.  [dl_queue_matchfile] returns -1 and leaves the queue
    alone for a TTH that is not queued.  For a queued file it returns 0
    (nothing changes) when the user is already a source and 1 when the
    user was added; either way the user is a source afterwards, so that a
    second call returns 0 and changes nothing. *)
Theorem dl_queue_matchfile_twice (uid tth : Z) (st : dl_state) :
  (dl_queue st !! tth = None -> dl_queue_matchfile uid tth st = (-1, st))
  /\ (forall dl d, dl_queue st !! tth = Some dl -> dls st !! dl = Some d ->
        islist d = false ->
        let '(r, st1) := dl_queue_matchfile uid tth st in
        (r = 0 /\ st1 = st \/ r = 1)
        /\ dl_queue_matchfile uid tth st1 = (0, st1)).
Proof.
  split.
  - intros Hq. unfold dl_queue_matchfile. now rewrite Hq.
  - intros dl d Hq Hd Hl. unfold dl_queue_matchfile at 1. rewrite Hq, Hd.
    destruct (find_user st uid (u d) 0) as [i|] eqn:Hf.
    + split; [auto|]. unfold dl_queue_matchfile. now rewrite Hq, Hd, Hf.
    + split; [auto|].
      set (st1 := dl_queue_start _).
      assert (Hq1 : dl_queue st1 !! tth = Some dl).
      { unfold st1. now rewrite dl_queue_dl_queue_start, dl_queue_emit, dl_user_add_dl_queue. }
      assert (Hd1 : dls st1 !! dl = Some (set_u (u d ++ [next_ptr st]) d)).
      { unfold st1. rewrite dls_dl_queue_start, dls_emit.
        rewrite (dl_user_add_accepts dl uid 0 None st d Hd (or_introl Hl)).
        apply lookup_insert_eq. }
      assert (Hp1 : duds st1 !! next_ptr st = Some (Build_dl_user_dl_t dl uid 0 None)).
      { unfold st1. rewrite duds_dl_queue_start. cbn [duds emit].
        rewrite (dl_user_add_duds dl uid 0 None st d Hd (or_introl Hl)).
        apply lookup_insert_eq. }
      unfold dl_queue_matchfile. rewrite Hq1, Hd1.
      destruct (find_user_app_hit st1 uid (u d) (next_ptr st) _ 0%nat Hp1 eq_refl) as [i Hi].
      cbn [u set_u]. now rewrite Hi.
Qed.

(** X9.  [dl_queue_addfile] refuses a TTH that is queued and
    leaves the queue alone.  For a TTH that is not queued it returns true,
    and afterwards the TTH maps to a record with that hash and size, the
    destination that [g_build_filename] makes of the download directory
    and the file name, and the user as its only source, without a
    source error; every further [dl_queue_addfile] for
    the TTH is refused, and [dl_queue_matchfile] finds the user. *)
Theorem dl_queue_addfile_queued (uid h sz : Z) (fn : string) (st : dl_state) :
  (forall dl, dl_queue st !! h = Some dl -> dl_queue_addfile uid h sz fn st = (false, st))
  /\ (dl_queue st !! h = None ->
      let st1 := snd (dl_queue_addfile uid h sz fn st) in
      fst (dl_queue_addfile uid h sz fn st) = true
      /\ (exists dl d p,
            dl_queue st1 !! h = Some dl /\ dls st1 !! dl = Some d
            /\ hash d = h /\ size d = sz /\ islist d = false
            /\ dest d = g_build_filename [var_download_dir; fn]
            /\ u d = [p] /\ duds st1 !! p = Some (Build_dl_user_dl_t dl uid 0 None))
      /\ (forall uid' sz' fn', dl_queue_addfile uid' h sz' fn' st1 = (false, st1))
      /\ dl_queue_matchfile uid h st1 = (0, st1)).
Proof.
  split.
  - intros dl Hq. unfold dl_queue_addfile. now rewrite Hq.
  - intros Hq. cbv zeta. unfold dl_queue_addfile. rewrite Hq.
    unfold dl_alloc. cbv beta iota zeta. cbn [fst snd].
    set (d0 := Build_dl_t _ _ _ _ _ _ _ _ _ _ _ _ _ _ _ _ _ _ _ _).
    set (dl := next_ptr st).
    set (s0 := set_dls _ _).
    assert (Hd0 : dls s0 !! dl = Some d0) by (unfold s0; cbn; apply lookup_insert_eq).
    destruct (dl_queue_insert_dls dl false s0 d0 Hd0) as (Hdls & Hdq & Hnp).
    cbv zeta in Hdls. cbn [islist hastthl negb andb d0] in Hdls. fold d0 in Hdls.
    set (s1 := dl_queue_insert dl false s0) in *.
    match type of Hdls with _ = <[dl := ?x]> _ => set (d1 := x) in * end.
    assert (Hd1 : dls s1 !! dl = Some d1) by (rewrite Hdls; apply lookup_insert_eq).
    assert (Hu1 : u d1 = []) by reflexivity.
    pose proof (dl_user_add_accepts dl uid 0 None s1 d1 Hd1 (or_intror Hu1)) as Hdls2.
    pose proof (dl_user_add_duds dl uid 0 None s1 d1 Hd1 (or_intror Hu1)) as Hduds2.
    pose proof (dl_user_add_dl_queue dl uid 0 None s1) as Hdq2.
    set (s2 := dl_user_add dl uid 0 None s1) in *.
    set (st1 := emit _ s2).
    assert (Hq1 : dl_queue st1 !! h = Some dl).
    { unfold st1. rewrite dl_queue_emit, Hdq2, Hdq. apply lookup_insert_eq. }
    assert (Hr1 : dls st1 !! dl = Some (set_u [next_ptr s1] d1)).
    { unfold st1. rewrite dls_emit, Hdls2, Hu1. apply lookup_insert_eq. }
    assert (Hp1 : duds st1 !! next_ptr s1 = Some (Build_dl_user_dl_t dl uid 0 None)).
    { unfold st1. cbn [duds emit]. rewrite Hduds2. apply lookup_insert_eq. }
    split; [reflexivity|]. split; [|split].
    + exists dl, (set_u [next_ptr s1] d1), (next_ptr s1).
      repeat split; try assumption.
      unfold d1. now repeat case_match.
      unfold d1. now repeat case_match.
      unfold d1. now repeat case_match.
      unfold d1. now repeat case_match.
    + intros uid' sz' fn'. unfold dl_queue_addfile. now rewrite Hq1.
    + unfold dl_queue_matchfile. rewrite Hq1, Hr1. cbn [u set_u find_user].
      rewrite Hp1. cbn [dud_u]. now rewrite Z.eqb_refl.
Qed.

Lemma dl_recv_data_loop_verified io dl buf dl' :
  recv_verified io dl buf dl' ->
  forall fuel c evs,
  (length buf < fuel)%nat ->
  islist dl = false ->
  recv_fits dl (len buf) ->
  exists evs1,
    dl_recv_data_loop fuel io c dl buf evs = Some (true, c, dl', evs ++ evs1)
    /\ have dl' = have dl + len buf
    /\ (forall e, e ∈ evs1 -> exists data ret, e = Ev_write (incfd dl) data ret)
    /\ size dl' = size dl /\ hash_block dl' = hash_block dl /\ incfd dl' = incfd dl.
Proof.
  induction 1 as [dl | dl buf r ctx block cur dl' Hr Hrange Hscan Hrec IH];
    intros fuel c evs Hfuel Hlist Hfits.
  - exists []. destruct fuel; cbn; rewrite app_nil_r;
      (split; [reflexivity|]); (split; [unfold len; cbn; lia|]);
      (split; [intros e He; now apply elem_of_nil in He | auto]).
  - destruct fuel as [|fuel]; [lia|].
    rewrite dl_recv_data_loop_S by lia. cbv zeta. rewrite <- Hr.
    replace (r <? 0) with false by (symmetry; apply Z.ltb_ge; lia).
    rewrite Hlist.
    assert (Hfits' : recv_fits dl (len (take (Z.to_nat r) buf))).
    { rewrite len_take by lia. apply (recv_fits_le dl (len buf)); [lia | assumption]. }
    rewrite (dl_recv_update_scan dl _ _ Hfits' Hscan). cbn [loop_result fst snd].
    change (-1 >=? 0) with false. cbv iota.
    destruct Hfits as (Hhb & Hhave & Htot & Hidx & Hlen & Hctx).
    cbn [have set_hash_tth].
    rewrite (to_guint64_small (have dl + r)) by lia.
    destruct (IH fuel c (evs ++ [Ev_write (incfd dl) buf r]))
      as (evs1 & Heq & Hh & Hev & Hsz & Hhb' & Hfd).
    + rewrite length_drop. unfold len in Hrange. lia.
    + exact Hlist.
    + unfold recv_fits. cbn. rewrite len_drop by lia.
      pose proof (len_nonneg buf).
      replace (have dl + r + (len buf - r)) with (have dl + len buf) by lia.
      repeat split; try lia. discriminate.
    + cbn [incfd hash_block set_have set_hash_tth size have] in *.
      exists (Ev_write (incfd dl) buf r :: evs1).
      split; [rewrite Heq, <- !app_assoc; reflexivity|].
      split; [rewrite Hh, len_drop by lia; lia|].
      split; [|auto].
      intros e He. apply elem_of_cons in He as [-> | He]; eauto.
Qed.

(** X10.  A chunk of a regular file, every write of which
    takes some of it and every completed block of which has the expected
    hash, is accepted: [dl_recv_data] returns true with the context
    untouched (no source error), [have] has grown by the length of the
    chunk, and the only calls made on the incoming file are writes (no
    seek, no truncation). *)
Theorem dl_recv_data_verified (io : io_t) (c : recv_ctx_t) (dl dl' : dl_t)
    (buf : list Byte.byte) :
  islist dl = false ->
  recv_fits dl (len buf) ->
  recv_verified io dl buf dl' ->
  exists writes,
    dl_recv_data io c dl buf = Some (true, c, dl', writes)
    /\ have dl' = have dl + len buf
    /\ (forall e, e ∈ writes -> exists data ret, e = Ev_write (incfd dl) data ret)
    /\ size dl' = size dl /\ hash_block dl' = hash_block dl /\ incfd dl' = incfd dl.
Proof.
  intros Hlist Hfits Hv. unfold dl_recv_data.
  destruct (dl_recv_data_loop_verified io dl buf dl' Hv (S (length buf)) c []
              ltac:(lia) Hlist Hfits) as (evs1 & Heq & Hrest).
  exists evs1. split; [exact Heq | exact Hrest].
Qed.

Lemma dl_recv_data_loop_list io dl buf :
  forall fuel c evs,
  (length buf < fuel)%nat ->
  islist dl = true ->
  write_progress io (incfd dl) ->
  0 <= have dl -> have dl + len buf < 2 ^ 64 ->
  exists evs1,
    dl_recv_data_loop fuel io c dl buf evs
    = Some (true, c, set_have (have dl + len buf) dl, evs ++ evs1)
    /\ (forall e, e ∈ evs1 -> exists data ret, e = Ev_write (incfd dl) data ret).
Proof.
  intros fuel. revert dl buf. induction fuel as [|fuel IH]; intros dl buf c evs Hfuel Hlist Hw Hh Hb;
    [lia|].
  destruct buf as [|b0 buf0] eqn:Eb.
  - exists []. cbn. rewrite app_nil_r, Z.add_0_r.
    split; [now destruct dl | intros e He; now apply elem_of_nil in He].
  - rewrite <- Eb in *. assert (Hne : buf ≠ []) by (rewrite Eb; discriminate).
    pose proof (Hw buf Hne) as Hr. pose proof (len_pos buf Hne) as Hpos.
    rewrite dl_recv_data_loop_S by lia. cbv zeta.
    set (r := io_write io (incfd dl) buf) in *.
    replace (r <? 0) with false by (symmetry; apply Z.ltb_ge; lia).
    rewrite Hlist. change (-1 >=? 0) with false. cbv iota.
    rewrite (to_guint64_small (have dl + r)) by lia.
    destruct (IH (set_have (have dl + r) dl) (drop (Z.to_nat r) buf) c
                (evs ++ [Ev_write (incfd dl) buf r])) as (evs1 & Heq & Hev).
    + rewrite length_drop. unfold len in Hr. clearbody r. lia.
    + exact Hlist.
    + exact Hw.
    + cbn. lia.
    + cbn. rewrite len_drop by lia. lia.
    + exists (Ev_write (incfd dl) buf r :: evs1). split.
      * rewrite Heq, <- !app_assoc. cbn. rewrite len_drop by lia.
        replace (have dl + r + (len buf - r)) with (have dl + len buf) by lia.
        reflexivity.
      * intros e He. apply elem_of_cons in He as [-> | He]; eauto.
Qed.

(** X11.  The data of a file list is never hashed: whatever the
    bytes are, if every write takes some of them, [dl_recv_data] returns
    true with the context untouched, changes nothing of the record but
    [have], which grows by the length of the chunk, and only writes to
    the incoming file. *)
Theorem dl_recv_data_list (io : io_t) (c : recv_ctx_t) (dl : dl_t) (buf : list Byte.byte) :
  islist dl = true ->
  write_progress io (incfd dl) ->
  0 <= have dl -> have dl + len buf < 2 ^ 64 ->
  exists writes,
    dl_recv_data io c dl buf = Some (true, c, set_have (have dl + len buf) dl, writes)
    /\ (forall e, e ∈ writes -> exists data ret, e = Ev_write (incfd dl) data ret).
Proof.
  intros Hlist Hw Hh Hb. unfold dl_recv_data.
  destruct (dl_recv_data_loop_list io dl buf (S (length buf)) c [] ltac:(lia) Hlist Hw Hh Hb)
    as (evs1 & Heq & Hev).
  exists evs1. split; [exact Heq | exact Hev].
Qed.
End DlQueueFacts.

Section DlQueueExamples.
Import Dl.
#[local] Existing Instance sample_env.

Lemma dl_user_dl_sort_order_witness :
  let x := Samples.entry_of 1 in
  let y := Samples.entry_of 3 in
  let dx := Samples.file_a 111 2 in
  let dy := Samples.file_a 222 4 in
  let dz := Samples.list_open in
  (dl_user_dl_sort x dx y dz < 0 <-> dl_user_dl_sort y dz x dx > 0)
  /\ (dl_user_dl_sort x dx y dz <= 0 -> dl_user_dl_sort y dz y dy <= 0 ->
      dl_user_dl_sort x dx y dy <= 0)
  /\ (dl_user_dl_sort x dx y dz = 0 <->
      dl_user_dl_enabled x dx = dl_user_dl_enabled y dz
      /\ islist dx = islist dz /\ prio dx = prio dz /\ dest dx = dest dz).
Proof.
  intros x y dx dy dz.
  apply (dl_user_dl_sort_order (H := sample_env) x y y dx dz dy); reflexivity.
Defined.

Lemma dl_queue_matchfile_twice_witness :
  let st := Samples.two_files_one_name in
  dl_queue_matchfile 8 999 st = (-1, st)
  /\ (let '(r, st1) := dl_queue_matchfile 8 111 st in
      (r = 0 /\ st1 = st \/ r = 1) /\ dl_queue_matchfile 8 111 st1 = (0, st1)).
Proof.
  intros st.
  destruct (dl_queue_matchfile_twice (H := sample_env) 8 999 st) as [H1 _].
  destruct (dl_queue_matchfile_twice (H := sample_env) 8 111 st) as [_ H2].
  split; [apply H1; reflexivity|].
  apply (H2 1%N (Samples.file_a 111 2)); reflexivity.
Defined.

Lemma dl_queue_addfile_queued_witness :
  let st := snd (dl_queue_addfile 7 111 3000000 "a.txt" Samples.dl_init) in
  dl_queue_addfile 8 111 5 "b.txt" st = (false, st)
  /\ fst (dl_queue_addfile 7 111 3000000 "a.txt" Samples.dl_init) = true
  /\ dl_queue_matchfile 7 111 st = (0, st).
Proof.
  intros st.
  destruct (dl_queue_addfile_queued (H := sample_env) 8 111 5 "b.txt" st) as [H1 _].
  destruct (dl_queue_addfile_queued (H := sample_env) 7 111 3000000 "a.txt" Samples.dl_init)
    as [_ H2].
  split; [apply (H1 1%N); reflexivity|].
  destruct (H2 eq_refl) as (Ha & _ & _ & Hm).
  split; [exact Ha | exact Hm].
Defined.

(** [g_build_filename] on a few pairs: one separator at the joint, none
    added to an empty directory. *)
Example g_build_filename_joins :
  g_build_filename ["/dl"; "a.txt"] = "/dl/a.txt"%string
  /\ g_build_filename ["/dl/"; "/a.txt"] = "/dl/a.txt"%string
  /\ g_build_filename ["/"; "a.txt"] = "/a.txt"%string
  /\ g_build_filename [""; "a.txt"] = "a.txt"%string
  /\ g_build_filename ["/db"; "fl"; "x.xml.bz2"] = "/db/fl/x.xml.bz2"%string.
Proof. repeat split. Qed.

Lemma dl_recv_data_verified_witness :
  exists dl' writes,
    dl_recv_data Samples.io_ok Samples.recv_ctx Samples.two_blocks Samples.chunk_good
    = Some (true, Samples.recv_ctx, dl', writes)
    /\ have dl' = 4.
Proof.
  destruct (dl_recv_data_verified (H := sample_env) Samples.io_ok Samples.recv_ctx
              Samples.two_blocks
              (set_have 4 (set_hash_tth (Some (@tth_init sample_env)) Samples.two_blocks)) Samples.chunk_good)
    as (writes & Heq & Hh & _).
  - reflexivity.
  - unfold recv_fits. cbn. repeat split. all: lia.
  - apply (recv_verified_write _ _ _ 4 (@tth_init sample_env) 2 0);
      [reflexivity | vm_compute; split; [reflexivity | discriminate] | |].
    + apply (scan_verified _ _ _ _ [Byte.x01; Byte.x00] [Byte.x01; Byte.x00]).
      * split; [discriminate|].
        split; [vm_compute; discriminate | left; reflexivity].
      * reflexivity.
      * apply (scan_verified _ _ _ _ [Byte.x01; Byte.x00] []).
        -- split; [discriminate|].
           split; [vm_compute; discriminate | left; reflexivity].
        -- reflexivity.
        -- apply scan_nil.
    + apply recv_verified_done.
  - eexists _, writes. split; [exact Heq | exact Hh].
Defined.

Lemma dl_recv_data_list_witness :
  exists writes,
    dl_recv_data Samples.io_ok Samples.recv_ctx Samples.list_open Samples.chunk_good
    = Some (true, Samples.recv_ctx, set_have 4 Samples.list_open, writes).
Proof.
  destruct (dl_recv_data_list (H := sample_env) Samples.io_ok Samples.recv_ctx Samples.list_open
              Samples.chunk_good) as (writes & Heq & _).
  - reflexivity.
  - intros buf Hne. cbn. pose proof (len_pos buf Hne). lia.
  - cbn. lia.
  - vm_compute. reflexivity.
  - exists writes. exact Heq.
Defined.
End DlQueueExamples.

(** * Runs of the queue while nobody is downloading *)

Section StillFacts.
Import Dl.
Context `{Env}.

Lemma disconnects_emit e st :
  disconnects (emit e st)
  = disconnects st ++ (if is_disconnect e then [e] else []).
Proof. unfold disconnects. cbn. rewrite List.filter_app. cbn. now destruct (is_disconnect e). Qed.

Lemma still_refl st : idle_users st -> still st st.
Proof. intros Hi. split; [exact Hi | reflexivity]. Qed.

Lemma still_same st0 st st' :
  queue_users st' = queue_users st -> trace st' = trace st ->
  still st0 st -> still st0 st'.
Proof.
  intros Hq Ht [Hi Hd]. split.
  - intros uid du. rewrite Hq. apply Hi.
  - unfold disconnects. rewrite Ht. exact Hd.
Qed.

Lemma still_emit st0 e st : is_disconnect e = false -> still st0 st -> still st0 (emit e st).
Proof.
  intros He [Hi Hd]. split; [exact Hi|].
  rewrite disconnects_emit, He, app_nil_r. exact Hd.
Qed.

Lemma still_upd_dl st0 p f st : still st0 st -> still st0 (upd_dl p f st).
Proof. now apply still_same. Qed.

Lemma still_upd_dud st0 p f st : still st0 st -> still st0 (upd_dud p f st).
Proof. now apply still_same. Qed.

Lemma still_set_dls st0 m st : still st0 st -> still st0 (set_dls m st).
Proof. now apply still_same. Qed.

Lemma still_set_duds st0 m st : still st0 st -> still st0 (set_duds m st).
Proof. now apply still_same. Qed.

Lemma still_set_dl_queue st0 m st : still st0 st -> still st0 (set_dl_queue m st).
Proof. now apply still_same. Qed.

Lemma still_set_next_ptr st0 n st : still st0 st -> still st0 (set_next_ptr n st).
Proof. now apply still_same. Qed.

Lemma still_set_dl_queue_needstart st0 b st :
  still st0 st -> still st0 (set_dl_queue_needstart b st).
Proof. now apply still_same. Qed.

Lemma still_upd_du st0 uid f st : keeps_idle f -> still st0 st -> still st0 (upd_du uid f st).
Proof.
  intros Hf [Hi Hd]. split; [|exact Hd].
  intros v x. cbn. rewrite lookup_alter. case_decide as Hv.
  - subst v. destruct (queue_users st !! uid) as [y|] eqn:Hy; [|discriminate].
    intros [= <-]. apply Hf. eauto.
  - apply Hi.
Qed.

Lemma still_delete_user st0 uid st :
  still st0 st -> still st0 (set_queue_users (base.delete uid (queue_users st)) st).
Proof.
  intros [Hi Hd]. split; [|exact Hd].
  intros v x. cbn. rewrite lookup_delete. case_decide; [discriminate | apply Hi].
Qed.

Lemma still_insert_user st0 uid x st :
  du_active x = None ->
  still st0 st -> still st0 (set_queue_users (<[uid := x]> (queue_users st)) st).
Proof.
  intros Hx [Hi Hd]. split; [|exact Hd].
  intros v y. cbn. rewrite lookup_insert. case_decide; [now intros [= <-] | apply Hi].
Qed.

Lemma keeps_idle_set_du_timeout t : keeps_idle (set_du_timeout t).
Proof. intros x Hx. exact Hx. Qed.
Lemma keeps_idle_set_du_state s : keeps_idle (set_du_state s).
Proof. intros x Hx. exact Hx. Qed.
Lemma keeps_idle_set_du_cc c : keeps_idle (set_du_cc c).
Proof. intros x Hx. exact Hx. Qed.
Lemma keeps_idle_set_du_active_None : keeps_idle (set_du_active None).
Proof. intros x Hx. reflexivity. Qed.
Lemma keeps_idle_set_du_queue (g : dl_user_t -> list N) :
  keeps_idle (fun du => set_du_queue (g du) du).
Proof. intros x Hx. exact Hx. Qed.

Lemma still_dl_queue_start st0 st : still st0 st -> still st0 (dl_queue_start st).
Proof.
  intros Hs. unfold dl_queue_start. case_match; [exact Hs|].
  apply still_emit; [reflexivity|]. now apply still_set_dl_queue_needstart.
Qed.

Create HintDb still.
#[local] Hint Resolve still_emit still_upd_dl still_upd_dud still_set_dls
  still_set_duds still_set_dl_queue still_set_next_ptr still_set_dl_queue_needstart
  still_upd_du still_delete_user still_insert_user still_dl_queue_start
  keeps_idle_set_du_timeout keeps_idle_set_du_state keeps_idle_set_du_cc
  keeps_idle_set_du_active_None keeps_idle_set_du_queue : still.
#[local] Hint Extern 0 (is_disconnect _ = false) => reflexivity : still.
#[local] Hint Extern 0 (du_active _ = None) => reflexivity : still.

Ltac still := cbv zeta; repeat case_match; eauto 40 with still.

Lemma still_dl_user_setstate_with checkrm st0 uid state st :
  (forall dl s0 s, still s0 s -> still s0 (checkrm dl s)) ->
  still st0 st -> still st0 (dl_user_setstate_with checkrm uid state st).
Proof. intros Hc Hs. unfold dl_user_setstate_with. still. Qed.

Lemma still_dl_user_rm st0 dl i st : still st0 st -> still st0 (dl_user_rm dl i st).
Proof.
  intros Hs. unfold dl_user_rm. repeat case_match; try assumption.
  - exfalso. destruct Hs as [Hi _].
    match goal with
    | Hq : queue_users st !! _ = Some ?du, Hb : bool_decide (du_active ?du = Some _) = true |- _ =>
        apply bool_decide_eq_true_1 in Hb; rewrite (Hi _ _ Hq) in Hb; discriminate
    end.
  - apply still_dl_user_setstate_with; eauto 40 with still.
Qed.

#[local] Hint Resolve still_dl_user_rm : still.

Lemma still_dl_queue_rm_users st0 n dl st :
  still st0 st -> still st0 (dl_queue_rm_users n dl st).
Proof.
  revert st. induction n as [|n IH]; intros st Hs; simpl; [assumption|].
  repeat case_match; auto with still.
Qed.

#[local] Hint Resolve still_dl_queue_rm_users : still.

Lemma still_dl_queue_rm st0 dl st : still st0 st -> still st0 (dl_queue_rm dl st).
Proof. intros Hs. unfold dl_queue_rm. still. Qed.

Lemma still_resort st0 iter st : still st0 st -> still st0 (resort iter st).
Proof. intros Hs. unfold resort. still. Qed.

#[local] Hint Resolve still_dl_queue_rm still_resort : still.

Lemma still_dl_queue_checkrm_loop st0 fuel dl i st :
  still st0 st -> still st0 (dl_queue_checkrm_loop fuel dl i st).
Proof.
  revert i st. induction fuel as [|fuel IH]; intros i st Hs; simpl; [assumption|].
  repeat case_match; auto with still.
Qed.

#[local] Hint Resolve still_dl_queue_checkrm_loop : still.

Lemma still_dl_queue_checkrm st0 dl justfin st :
  still st0 st -> still st0 (dl_queue_checkrm dl justfin st).
Proof. intros Hs. unfold dl_queue_checkrm. still. Qed.

#[local] Hint Resolve still_dl_queue_checkrm : still.

Lemma still_dl_user_setstate st0 uid state st :
  still st0 st -> still st0 (dl_user_setstate uid state st).
Proof. intros Hs. apply still_dl_user_setstate_with; auto with still. Qed.

#[local] Hint Resolve still_dl_user_setstate : still.

Lemma still_dl_user_cc st0 uid cc st : still st0 st -> still st0 (dl_user_cc uid cc st).
Proof. intros Hs. unfold dl_user_cc. still. Qed.

Lemma still_dl_user_waitdone st0 uid st : still st0 st -> still st0 (dl_user_waitdone uid st).
Proof. intros Hs. unfold dl_user_waitdone. still. Qed.

Lemma still_fold_resort st0 l st :
  still st0 st -> still st0 (fold_left (fun s iter => resort iter s) l st).
Proof. revert st. induction l as [|x l IH]; intros st Hs; simpl; auto with still. Qed.

#[local] Hint Resolve still_fold_resort : still.

Lemma still_dl_queue_setprio st0 dl p st :
  still st0 st -> still st0 (dl_queue_setprio dl p st).
Proof. intros Hs. unfold dl_queue_setprio. still. Qed.

#[local] Hint Resolve still_dl_queue_setprio : still.

Lemma still_dl_queue_seterr st0 dl e sub st :
  still st0 st -> still st0 (dl_queue_seterr dl e sub st).
Proof. intros Hs. unfold dl_queue_seterr. still. Qed.

Lemma still_dl_queue_setuerr st0 uid tth e emsg st :
  still st0 st -> still st0 (dl_queue_setuerr uid tth e emsg st).
Proof. intros Hs. unfold dl_queue_setuerr. still. Qed.

Lemma still_rmuser_from st0 which dl st :
  still st0 st -> still st0 (rmuser_from which dl st).
Proof. intros Hs. unfold rmuser_from. still. Qed.

#[local] Hint Resolve still_rmuser_from : still.

Lemma still_fold_rmuser st0 (l : list N) st :
  still st0 st -> still st0 (fold_left (fun s i => rmuser_turn i s) l st).
Proof.
  revert st. induction l as [|x l IH]; intros st Hs; simpl; [assumption|].
  apply IH. unfold rmuser_turn. still.
Qed.

#[local] Hint Resolve still_fold_rmuser : still.

Lemma still_dl_queue_rmuser st0 uid tth st :
  still st0 st -> still st0 (dl_queue_rmuser uid tth st).
Proof. intros Hs. unfold dl_queue_rmuser. still. Qed.

Lemma still_dl_user_add st0 dl uid e emsg st :
  still st0 st -> still st0 (dl_user_add dl uid e emsg st).
Proof. intros Hs. unfold dl_user_add. still. Qed.

Lemma still_dl_queue_insert st0 dl init st :
  still st0 st -> still st0 (dl_queue_insert dl init st).
Proof. intros Hs. unfold dl_queue_insert. still. Qed.

#[local] Hint Resolve still_dl_user_add still_dl_queue_insert : still.

(** Every operation of the queue leaves everybody idle and disconnects
    nobody, if nobody was downloading. *)
Lemma run_op_still (op : dl_op) st0 (st : dl_state) :
  still st0 st -> still st0 (run_op op st).
Proof.
  intros Hs. destruct op; cbn [run_op].
  - unfold dl_queue_addlist, dl_alloc. still.
  - unfold dl_queue_addfile, dl_alloc. repeat case_match; simplify_eq; cbn [snd]; still.
  - unfold dl_queue_matchfile. repeat case_match; simplify_eq; cbn [snd]; still.
  - auto with still.
  - auto with still.
  - auto with still.
  - now apply still_dl_queue_seterr.
  - now apply still_dl_queue_setuerr.
  - now apply still_dl_queue_rmuser.
  - auto with still.
  - auto with still.
  - auto with still.
  - auto with still.
  - now apply still_dl_user_cc.
  - now apply still_dl_user_waitdone.
  - unfold dl_load_dl, dl_alloc. still.
  - unfold dl_load_dlu. still.
Qed.

Lemma run_ops_still (ops : list dl_op) (st : dl_state) :
  idle_users st -> still st (run_ops ops st).
Proof.
  intros Hi. assert (Hgen : forall s, still st s -> still st (run_ops ops s)).
  { induction ops as [|op ops IH]; intros s Hs; [exact Hs|].
    apply IH, run_op_still, Hs. }
  apply Hgen, still_refl, Hi.
Qed.

End StillFacts.

Section QueueLookupFacts.
Import Dl.
Context `{Env}.

Lemma keeps_queue_ok st st' : keeps st st' -> queue_ok st -> queue_ok st'.
Proof.
  intros (K1 & K2 & K3) (Q1 & Q2). split.
  - intros h dl Hq. destruct (K3 h dl Hq) as [Hq0 Hlive].
    destruct (Q1 h dl Hq0) as (d & Hd & Hh & Hdel).
    destruct (Hlive d Hd Hh) as (d' & Hd' & Hdel').
    exists d'. split; [exact Hd'|]. split; [|auto].
    destruct (K2 dl d' Hd') as (d0 & Hd0 & Hh0). congruence.
  - intros p d' Hd'. destruct (K2 p d' Hd') as (d & Hd & _).
    specialize (Q2 p d Hd). lia.
Qed.

Lemma keeps_refl st : keeps st st.
Proof.
  split; [lia|]. split.
  - intros p d Hd. eauto.
  - intros h dl Hq. split; [exact Hq|]. intros d Hd _. eauto.
Qed.

Lemma keeps_trans st1 st2 st3 : keeps st1 st2 -> keeps st2 st3 -> keeps st1 st3.
Proof.
  intros (A1 & A2 & A3) (B1 & B2 & B3). split; [lia|]. split.
  - intros p d3 Hd3. destruct (B2 p d3 Hd3) as (d2 & Hd2 & Hh2).
    destruct (A2 p d2 Hd2) as (d1 & Hd1 & Hh1). exists d1. split; [exact Hd1 | congruence].
  - intros h dl Hq3. destruct (B3 h dl Hq3) as [Hq2 Hl2].
    destruct (A3 h dl Hq2) as [Hq1 Hl1]. split; [exact Hq1|].
    intros d1 Hd1 Hh1. destruct (Hl1 d1 Hd1 Hh1) as (d2 & Hd2 & Hdel2).
    destruct (A2 dl d2 Hd2) as (d1' & Hd1' & Hh2).
    assert (d1' = d1) by congruence. subst d1'.
    destruct (Hl2 d2 Hd2 ltac:(congruence)) as (d3 & Hd3 & Hdel3).
    exists d3. split; [exact Hd3 | auto].
Qed.

(** A step that touches neither the records, nor [dl_queue], nor the
    allocation pointer. *)
Lemma keeps_same st0 st st' :
  dls st' = dls st -> dl_queue st' = dl_queue st -> (next_ptr st <= next_ptr st')%N ->
  keeps st0 st -> keeps st0 st'.
Proof.
  intros Hd Hq Hn Hk. eapply keeps_trans; [exact Hk|].
  split; [exact Hn|]. rewrite Hd, Hq. split.
  - intros p d Hp. eauto.
  - intros h dl Hh. split; [exact Hh|]. intros d Hp _. eauto.
Qed.

Lemma keeps_emit st0 e st : keeps st0 st -> keeps st0 (emit e st).
Proof. apply keeps_same; [reflexivity..|cbn; lia]. Qed.

Lemma keeps_upd_du st0 uid f st : keeps st0 st -> keeps st0 (upd_du uid f st).
Proof. apply keeps_same; [reflexivity..|cbn; lia]. Qed.

Lemma keeps_upd_dud st0 p f st : keeps st0 st -> keeps st0 (upd_dud p f st).
Proof. apply keeps_same; [reflexivity..|cbn; lia]. Qed.

Lemma keeps_set_duds st0 m st : keeps st0 st -> keeps st0 (set_duds m st).
Proof. apply keeps_same; [reflexivity..|cbn; lia]. Qed.

Lemma keeps_set_queue_users st0 m st : keeps st0 st -> keeps st0 (set_queue_users m st).
Proof. apply keeps_same; [reflexivity..|cbn; lia]. Qed.

Lemma keeps_set_next_ptr st0 st :
  keeps st0 st -> keeps st0 (set_next_ptr (N.succ (next_ptr st)) st).
Proof. apply keeps_same; [reflexivity..|cbn; lia]. Qed.

Lemma keeps_dl_queue_start st0 st : keeps st0 st -> keeps st0 (dl_queue_start st).
Proof.
  apply keeps_same;
    [apply dls_dl_queue_start | apply dl_queue_dl_queue_start
    | rewrite next_ptr_dl_queue_start; lia].
Qed.

Lemma keeps_upd_dl st0 p f st : gentle f -> keeps st0 st -> keeps st0 (upd_dl p f st).
Proof.
  intros Hf Hk. eapply keeps_trans; [exact Hk|].
  split; [cbn; lia|]. split.
  - intros q d'. rewrite dls_upd_dl, lookup_alter. case_decide as Hq.
    + subst q. destruct (dls st !! p) as [d|] eqn:Hd; [|discriminate].
      intros [= <-]. exists d. split; [reflexivity | apply Hf].
    + intros Hd. eauto.
  - intros h dl Hq. split; [exact Hq|]. intros d Hd _.
    rewrite dls_upd_dl, lookup_alter. case_decide.
    + subst. rewrite Hd. cbn. eexists. split; [reflexivity|].
      destruct (Hf d) as [_ ->]. auto.
    + eauto.
Qed.

Lemma gentle_set_active b : gentle (set_active b).
Proof. intros d. split; reflexivity. Qed.
Lemma gentle_set_prio b : gentle (set_prio b).
Proof. intros d. split; reflexivity. Qed.
Lemma gentle_set_flopen b : gentle (set_flopen b).
Proof. intros d. split; reflexivity. Qed.
Lemma gentle_set_flmatch b : gentle (set_flmatch b).
Proof. intros d. split; reflexivity. Qed.
Lemma gentle_set_error e m : gentle (fun d => set_error_msg m (set_error e d)).
Proof. intros d. split; reflexivity. Qed.
Lemma gentle_set_u (g : dl_t -> list N) : gentle (fun d => set_u (g d) d).
Proof. intros d. split; reflexivity. Qed.

Create HintDb keep.
#[local] Hint Resolve keeps_refl keeps_emit keeps_upd_du keeps_upd_dud
  keeps_set_duds keeps_set_queue_users keeps_set_next_ptr keeps_dl_queue_start
  keeps_upd_dl gentle_set_active gentle_set_prio gentle_set_flopen
  gentle_set_flmatch gentle_set_error gentle_set_u : keep.

Ltac keep := cbv zeta; repeat case_match; eauto 40 with keep.

Lemma keeps_dl_user_setstate_with checkrm st0 uid state st :
  (forall dl s0 s, keeps s0 s -> keeps s0 (checkrm dl s)) ->
  keeps st0 st -> keeps st0 (dl_user_setstate_with checkrm uid state st).
Proof. intros Hc Hs. unfold dl_user_setstate_with. keep. Qed.

Lemma keeps_dl_user_rm st0 dl i st : keeps st0 st -> keeps st0 (dl_user_rm dl i st).
Proof.
  intros Hs. unfold dl_user_rm. repeat case_match; try assumption;
    apply keeps_dl_user_setstate_with; eauto 40 with keep.
Qed.

#[local] Hint Resolve keeps_dl_user_rm : keep.

Lemma keeps_dl_queue_rm_users st0 n dl st :
  keeps st0 st -> keeps st0 (dl_queue_rm_users n dl st).
Proof.
  revert st. induction n as [|n IH]; intros st Hs; simpl; [assumption|].
  repeat case_match; auto with keep.
Qed.

#[local] Hint Resolve keeps_dl_queue_rm_users : keep.

(** The end of [dl_queue_rm]: the hash of the record has left [dl_queue]
    and at most the record itself has been freed. *)
Lemma keeps_dl_queue_rm_tail st dl d0 st2 st4 :
  dls st !! dl = Some d0 ->
  keeps (upd_dl dl (set_delete true) st) st2 ->
  (next_ptr st2 <= next_ptr st4)%N ->
  (forall p d, dls st4 !! p = Some d -> dls st2 !! p = Some d) ->
  (forall p, p <> dl -> dls st4 !! p = dls st2 !! p) ->
  (forall h x, dl_queue st4 !! h = Some x -> h <> hash d0 /\ dl_queue st2 !! h = Some x) ->
  keeps st st4.
Proof.
  intros Hd0 (K1 & K2 & K3) Hn Hsub Hother Hq. cbn in K1.
  split; [lia|]. split.
  - intros p d4 Hd4. apply Hsub in Hd4. destruct (K2 p d4 Hd4) as (d1 & Hd1 & Hh).
    rewrite dls_upd_dl, lookup_alter in Hd1. case_decide.
    + subst p. rewrite Hd0 in Hd1. injection Hd1 as <-. exists d0. split; [exact Hd0 | exact Hh].
    + eauto.
  - intros h x Hx. destruct (Hq h x Hx) as [Hne Hx2].
    destruct (K3 h x Hx2) as [Hx1 Hlive]. cbn in Hx1. split; [exact Hx1|].
    intros d Hd Hh.
    assert (Hxdl : x <> dl) by (intros ->; congruence).
    destruct (Hlive d) as (d2 & Hd2 & Hdel).
    + rewrite dls_upd_dl, lookup_alter_ne by congruence. exact Hd.
    + exact Hh.
    + exists d2. split; [|exact Hdel]. rewrite Hother by exact Hxdl. exact Hd2.
Qed.

Lemma keeps_dl_queue_rm st0 dl st : keeps st0 st -> keeps st0 (dl_queue_rm dl st).
Proof.
  intros Hk. eapply keeps_trans; [exact Hk|]. clear Hk st0.
  unfold dl_queue_rm. destruct (dls st !! dl) as [d0|] eqn:Hd0; [|apply keeps_refl].
  set (st1 := upd_dl dl (set_delete true) st).
  set (st2 := dl_queue_rm_users (length (u d0)) dl st1).
  assert (K12 : keeps st1 st2) by (apply keeps_dl_queue_rm_users, keeps_refl).
  apply (keeps_dl_queue_rm_tail st dl d0 st2); [exact Hd0 | exact K12 | ..].
  - repeat case_match; cbn; lia.
  - intros p d. repeat case_match; cbn; rewrite ?lookup_delete; try case_decide;
      try discriminate; auto.
  - intros p Hp. repeat case_match; cbn; rewrite ?lookup_delete_ne by congruence; reflexivity.
  - intros h x. destruct (dl_queue st2 !! hash d0) eqn:Eq.
    + intros Hx.
      assert (Hx' : base.delete (hash d0) (dl_queue st2) !! h = Some x).
      { revert Hx. repeat case_match; cbn; auto. }
      rewrite lookup_delete in Hx'. case_decide; [discriminate|]. split; [congruence | exact Hx'].
    + intros Hx.
      assert (Hx' : dl_queue st2 !! h = Some x).
      { revert Hx. repeat case_match; cbn; auto. }
      split; [congruence | exact Hx'].
Qed.

Lemma keeps_resort st0 iter st : keeps st0 st -> keeps st0 (resort iter st).
Proof. intros Hs. unfold resort. keep. Qed.

#[local] Hint Resolve keeps_dl_queue_rm keeps_resort : keep.

Lemma keeps_dl_queue_checkrm_loop st0 fuel dl i st :
  keeps st0 st -> keeps st0 (dl_queue_checkrm_loop fuel dl i st).
Proof.
  revert i st. induction fuel as [|fuel IH]; intros i st Hs; simpl; [assumption|].
  repeat case_match; auto with keep.
Qed.

#[local] Hint Resolve keeps_dl_queue_checkrm_loop : keep.

Lemma keeps_dl_queue_checkrm st0 dl justfin st :
  keeps st0 st -> keeps st0 (dl_queue_checkrm dl justfin st).
Proof. intros Hs. unfold dl_queue_checkrm. keep. Qed.

#[local] Hint Resolve keeps_dl_queue_checkrm : keep.

Lemma keeps_dl_user_setstate st0 uid state st :
  keeps st0 st -> keeps st0 (dl_user_setstate uid state st).
Proof. intros Hs. apply keeps_dl_user_setstate_with; auto with keep. Qed.

#[local] Hint Resolve keeps_dl_user_setstate : keep.

Lemma keeps_dl_user_cc st0 uid cc st : keeps st0 st -> keeps st0 (dl_user_cc uid cc st).
Proof. intros Hs. unfold dl_user_cc. keep. Qed.

Lemma keeps_dl_user_waitdone st0 uid st : keeps st0 st -> keeps st0 (dl_user_waitdone uid st).
Proof. intros Hs. unfold dl_user_waitdone. keep. Qed.

Lemma keeps_fold_resort st0 l st :
  keeps st0 st -> keeps st0 (fold_left (fun s iter => resort iter s) l st).
Proof. revert st. induction l as [|x l IH]; intros st Hs; simpl; auto with keep. Qed.

#[local] Hint Resolve keeps_fold_resort : keep.

Lemma keeps_dl_queue_setprio st0 dl p st :
  keeps st0 st -> keeps st0 (dl_queue_setprio dl p st).
Proof. intros Hs. unfold dl_queue_setprio. keep. Qed.

#[local] Hint Resolve keeps_dl_queue_setprio : keep.

Lemma keeps_dl_queue_seterr st0 dl e sub st :
  keeps st0 st -> keeps st0 (dl_queue_seterr dl e sub st).
Proof. intros Hs. unfold dl_queue_seterr. keep. Qed.

Lemma keeps_dl_queue_setuerr st0 uid tth e emsg st :
  keeps st0 st -> keeps st0 (dl_queue_setuerr uid tth e emsg st).
Proof. intros Hs. unfold dl_queue_setuerr. keep. Qed.

Lemma keeps_rmuser_from st0 which dl st :
  keeps st0 st -> keeps st0 (rmuser_from which dl st).
Proof. intros Hs. unfold rmuser_from. keep. Qed.

#[local] Hint Resolve keeps_rmuser_from : keep.

Lemma keeps_fold_rmuser st0 (l : list N) st :
  keeps st0 st -> keeps st0 (fold_left (fun s i => rmuser_turn i s) l st).
Proof.
  revert st. induction l as [|x l IH]; intros st Hs; simpl; [assumption|].
  apply IH. unfold rmuser_turn. keep.
Qed.

#[local] Hint Resolve keeps_fold_rmuser : keep.

Lemma keeps_dl_queue_rmuser st0 uid tth st :
  keeps st0 st -> keeps st0 (dl_queue_rmuser uid tth st).
Proof. intros Hs. unfold dl_queue_rmuser. keep. Qed.

Lemma keeps_dl_user_add st0 dl uid e emsg st :
  keeps st0 st -> keeps st0 (dl_user_add dl uid e emsg st).
Proof. intros Hs. unfold dl_user_add. keep. Qed.

(** *** The operations that add *)

Lemma queue_ok_alloc_insert d init st dl st1 :
  delete d = false -> dl_alloc d st = (dl, st1) ->
  queue_ok st -> queue_ok (dl_queue_insert dl init st1).
Proof.
  intros Hdel Ha (Q1 & Q2). unfold dl_alloc in Ha. injection Ha as <- <-.
  set (p := next_ptr st).
  set (st1 := set_dls _ _).
  assert (Hd : dls st1 !! p = Some d) by (unfold st1; cbn; apply lookup_insert_eq).
  destruct (dl_queue_insert_dls p init st1 d Hd) as (Hdls & Hdq & Hnp).
  cbv zeta in Hdls.
  match type of Hdls with _ = <[p := ?x]> _ => set (d2 := x) in * end.
  assert (Hh2 : hash d2 = hash d /\ delete d2 = false).
  { unfold d2. split; repeat case_match; cbn; auto. }
  split.
  - intros h x. rewrite Hdq, Hdls. cbn. rewrite lookup_insert. case_decide as Hh.
    + intros [= <-]. exists d2. rewrite lookup_insert_eq. destruct Hh2 as [Ha Hb].
      split; [reflexivity|]. split; [congruence | exact Hb].
    + intros Hx. destruct (Q1 h x Hx) as (d0 & Hd0 & Hh0 & Hdel0).
      exists d0. split; [|auto]. specialize (Q2 x d0 Hd0).
      rewrite !lookup_insert_ne by (unfold p; lia). exact Hd0.
  - intros q dq. rewrite Hdls, Hnp. cbn. rewrite lookup_insert. case_decide as Hq.
    + intros _. subst q. unfold p. lia.
    + rewrite lookup_insert_ne by exact Hq. intros Hdq'. specialize (Q2 q dq Hdq'). lia.
Qed.

(** Every operation of the queue keeps the lookups in [dl_queue] sound. *)
Lemma run_op_queue_ok (op : dl_op) (st : dl_state) :
  queue_ok st -> queue_ok (run_op op st).
Proof.
  intros HQ.
  assert (Hkeep : forall st', keeps st st' -> queue_ok st')
    by (intros st' Hk; exact (keeps_queue_ok st st' Hk HQ)).
  destruct op; cbn [run_op].
  - (* dl_queue_addlist *)
    unfold dl_queue_addlist. repeat case_match; simplify_eq.
    1-5: apply Hkeep; keep.
    eapply keeps_queue_ok; [apply keeps_dl_user_add, keeps_refl|].
    eapply queue_ok_alloc_insert; [|eassumption|exact HQ]. reflexivity.
  - (* dl_queue_addfile *)
    unfold dl_queue_addfile. repeat case_match; simplify_eq; [exact HQ|].
    cbn [snd]. eapply keeps_queue_ok; [apply keeps_emit, keeps_dl_user_add, keeps_refl|].
    eapply queue_ok_alloc_insert; [|eassumption|exact HQ]. reflexivity.
  - (* dl_queue_matchfile *)
    unfold dl_queue_matchfile. repeat case_match; simplify_eq; try exact HQ.
    cbn [snd]. apply Hkeep. auto using keeps_dl_user_add with keep.
  - apply Hkeep. auto with keep.
  - apply Hkeep. auto with keep.
  - apply Hkeep. auto with keep.
  - apply Hkeep, keeps_dl_queue_seterr, keeps_refl.
  - apply Hkeep, keeps_dl_queue_setuerr, keeps_refl.
  - apply Hkeep, keeps_dl_queue_rmuser, keeps_refl.
  - apply Hkeep. auto with keep.
  - apply Hkeep, keeps_dl_user_add, keeps_refl.
  - apply Hkeep. auto with keep.
  - apply Hkeep. auto with keep.
  - apply Hkeep, keeps_dl_user_cc, keeps_refl.
  - apply Hkeep, keeps_dl_user_waitdone, keeps_refl.
  - (* dl_load_dl *)
    unfold dl_load_dl. repeat case_match; simplify_eq;
      try (apply Hkeep; auto with keep; fail).
    all: eapply queue_ok_alloc_insert; [|eassumption|exact HQ]; reflexivity.
  - (* dl_load_dlu *)
    unfold dl_load_dlu. case_match.
    + apply Hkeep, keeps_dl_user_add, keeps_refl.
    + apply Hkeep. auto with keep.
Qed.

Lemma run_ops_queue_ok (ops : list dl_op) (st : dl_state) :
  queue_ok st -> queue_ok (run_ops ops st).
Proof.
  revert st. induction ops as [|op ops IH]; intros st HQ; [exact HQ|].
  apply IH, run_op_queue_ok, HQ.
Qed.

(** X22.  Whatever operations are run on the download queue while
    nobody is downloading, a lookup in [dl_queue] never returns a stale
    pointer: the record that a TTH leads to is allocated, has that TTH as
    its hash, and is not marked for deletion.  The operations are those of
    [dl_op], in any order and with any arguments, from a state in which
    the lookups are sound and no user is active on an entry, such as the
    empty queue.  None of them starts a download, so nobody is
    downloading afterwards either, and [dl_user_rm] never gets to
    [cc_disconnect]: the log gains no such call. *)
Theorem dl_queue_lookup_sound (ops : list dl_op) (st : dl_state) :
  queue_ok st -> idle_users st ->
  let st' := run_ops ops st in
  (forall h dl, dl_queue st' !! h = Some dl ->
     exists d, dls st' !! dl = Some d /\ hash d = h /\ delete d = false)
  /\ idle_users st'
  /\ disconnects st' = disconnects st.
Proof.
  intros HQ Hi st'. split; [exact (proj1 (run_ops_queue_ok ops st HQ))|].
  exact (run_ops_still ops st Hi).
Qed.

End QueueLookupFacts.

Section QueueLookupExamples.
Import Dl.
#[local] Existing Instance sample_env.

Lemma dl_queue_lookup_sound_witness :
  (exists d,
     dls (run_ops Samples.some_ops Samples.dl_init) !! 3%N = Some d
     /\ hash d = 222 /\ delete d = false)
  /\ disconnects (run_ops Samples.some_ops Samples.dl_init) = [].
Proof.
  destruct (dl_queue_lookup_sound (H := sample_env) Samples.some_ops Samples.dl_init)
    as (Hlook & _ & Hdis).
  - split; intros ? ?; cbn; rewrite lookup_empty; discriminate.
  - intros ? ?; cbn; rewrite lookup_empty; discriminate.
  - split; [|exact Hdis]. apply (Hlook 222 3%N). vm_compute. reflexivity.
Defined.

End QueueLookupExamples.

Section HeapFacts.
Import Dl.
Context `{Env}.

(** *** The sequences *)

Lemma g_sequence_insert_sorted_perm cmp x l : g_sequence_insert_sorted cmp x l ≡ₚ x :: l.
Proof.
  induction l as [|e r IH]; cbn; [reflexivity|].
  destruct (cmp e x >? 0); [reflexivity|]. rewrite IH. apply Permutation_swap.
Qed.

Lemma g_sequence_remove_spec x l y : y ∈ g_sequence_remove x l <-> y ∈ l /\ y <> x.
Proof. unfold g_sequence_remove. rewrite list_elem_of_filter. tauto. Qed.

Lemma g_sequence_remove_NoDup x l : NoDup l -> NoDup (g_sequence_remove x l).
Proof. apply NoDup_filter. Qed.

Lemma g_sequence_sort_changed_perm cmp x l :
  NoDup l -> x ∈ l -> g_sequence_sort_changed cmp x l ≡ₚ l.
Proof.
  intros Hnd Hx. unfold g_sequence_sort_changed.
  rewrite g_sequence_insert_sorted_perm.
  apply NoDup_Permutation.
  - constructor; [|now apply g_sequence_remove_NoDup].
    rewrite g_sequence_remove_spec. tauto.
  - exact Hnd.
  - intros y. rewrite elem_of_cons, g_sequence_remove_spec.
    destruct (decide (y = x)) as [->|Hy]; tauto.
Qed.

Lemma remove_index_fast_perm (i : nat) (l : list N) x :
  NoDup l -> l !! i = Some x ->
  x :: g_ptr_array_remove_index_fast i l ≡ₚ l.
Proof.
  intros Hnd Hi. unfold g_ptr_array_remove_index_fast. rewrite Hi.
  destruct (last l) as [z|] eqn:Hz.
  2:{ apply last_None in Hz. subst l. discriminate. }
  apply last_Some in Hz as [l' ->].
  destruct (decide (i = length l')) as [->|Hne].
  - rewrite list_lookup_middle in Hi by reflexivity. injection Hi as <-.
    rewrite length_app. cbn.
    replace (length l' + 1 - 1)%nat with (length l') by lia.
    rewrite insert_app_r_alt by lia. rewrite Nat.sub_diag. cbn.
    rewrite take_app_length. rewrite Permutation_cons_append. reflexivity.
  - assert (Hlt : (i < length l')%nat).
    { apply lookup_lt_Some in Hi. rewrite length_app in Hi. cbn in Hi. lia. }
    rewrite lookup_app_l in Hi by exact Hlt.
    rewrite length_app. cbn.
    replace (length l' + 1 - 1)%nat with (length l') by lia.
    rewrite insert_app_l by exact Hlt.
    rewrite take_app_length' by (now rewrite length_insert).
    rewrite <- Permutation_cons_append.
    apply list_elem_of_split_length in Hi as (l1 & l2 & -> & ->).
    rewrite insert_app_r_alt by lia. rewrite Nat.sub_diag. cbn.
    rewrite <- !Permutation_middle. apply Permutation_swap.
Qed.

Lemma remove_index_fast_spec (i : nat) (l : list N) x :
  NoDup l -> l !! i = Some x ->
  NoDup (g_ptr_array_remove_index_fast i l)
  /\ forall y, y ∈ g_ptr_array_remove_index_fast i l <-> y ∈ l /\ y <> x.
Proof.
  intros Hnd Hi. pose proof (remove_index_fast_perm i l x Hnd Hi) as Hp.
  rewrite <- Hp in Hnd. apply NoDup_cons in Hnd as [Hx Hnd'].
  split; [exact Hnd'|]. intros y.
  assert (Hin : y ∈ l <-> y = x \/ y ∈ g_ptr_array_remove_index_fast i l)
    by (rewrite <- Hp at 1; apply elem_of_cons).
  rewrite Hin. split.
  - intros Hy. split; [now right|]. intros ->. contradiction.
  - intros [[->|Hy] Hne]; [contradiction | exact Hy].
Qed.

(** *** Steps that the invariant does not see *)

Lemma user_like_refl du : user_like du du.
Proof. destruct du; cbn; auto. Qed.

Lemma heap_ok_view st st' :
  (next_ptr st <= next_ptr st')%N ->
  (forall p, u <$> dls st' !! p = u <$> dls st !! p) ->
  (forall p, (fun x => (dud_dl x, dud_u x)) <$> duds st' !! p
             = (fun x => (dud_dl x, dud_u x)) <$> duds st !! p) ->
  (forall uid, user_like (queue_users st' !! uid) (queue_users st !! uid)) ->
  heap_ok st -> heap_ok st'.
Proof.
  intros Hn Hd He Hu (W1 & W2 & W3).
  assert (Hd1 : forall p d', dls st' !! p = Some d' ->
                  exists d, dls st !! p = Some d /\ u d = u d').
  { intros p d' Hp. specialize (Hd p). rewrite Hp in Hd. cbn in Hd.
    destruct (dls st !! p) as [d|]; [|discriminate]. exists d. split; [reflexivity|].
    cbn in Hd. congruence. }
  assert (Hd2 : forall p d, dls st !! p = Some d ->
                  exists d', dls st' !! p = Some d' /\ u d' = u d).
  { intros p d Hp. specialize (Hd p). rewrite Hp in Hd. cbn in Hd.
    destruct (dls st' !! p) as [d'|]; [|discriminate]. exists d'. split; [reflexivity|].
    cbn in Hd. congruence. }
  assert (He1 : forall p e', duds st' !! p = Some e' ->
                  exists e, duds st !! p = Some e /\ dud_dl e = dud_dl e'
                            /\ dud_u e = dud_u e').
  { intros p e' Hp. specialize (He p). rewrite Hp in He. cbn in He.
    destruct (duds st !! p) as [e|]; [|discriminate]. exists e. split; [reflexivity|].
    cbn in He. split; congruence. }
  assert (He2 : forall p e, duds st !! p = Some e ->
                  exists e', duds st' !! p = Some e' /\ dud_dl e' = dud_dl e
                             /\ dud_u e' = dud_u e).
  { intros p e Hp. specialize (He p). rewrite Hp in He. cbn in He.
    destruct (duds st' !! p) as [e'|]; [|discriminate]. exists e'. split; [reflexivity|].
    cbn in He. split; congruence. }
  assert (Hu1 : forall uid x', queue_users st' !! uid = Some x' ->
                  exists x, queue_users st !! uid = Some x
                            /\ du_queue x' ≡ₚ du_queue x
                            /\ (du_active x' = du_active x \/ du_active x' = None)).
  { intros uid x' Hp. specialize (Hu uid). rewrite Hp in Hu.
    destruct (queue_users st !! uid) as [x|]; [|contradiction]. exists x. cbn in Hu. tauto. }
  assert (Hu2 : forall uid x, queue_users st !! uid = Some x ->
                  exists x', queue_users st' !! uid = Some x'
                             /\ du_queue x' ≡ₚ du_queue x).
  { intros uid x Hp. specialize (Hu uid). rewrite Hp in Hu.
    destruct (queue_users st' !! uid) as [x'|]; [|contradiction]. exists x'. cbn in Hu. tauto. }
  split; [|split].
  - intros p e' Hp. destruct (He1 p e' Hp) as (e & Hpe & Hdl & Hus).
    destruct (W1 p e Hpe) as (Hlt & d & du & Hdd & Hpd & Hdu & Hpu).
    split; [lia|].
    destruct (Hd2 _ _ Hdd) as (d' & Hdd' & Hud).
    destruct (Hu2 _ _ Hdu) as (du' & Hdu' & Hqu).
    exists d', du'. rewrite <- Hdl, <- Hus, Hud, Hqu. auto.
  - intros dl d' Hp. destruct (Hd1 dl d' Hp) as (d & Hpd & Hud).
    destruct (W2 dl d Hpd) as (Hlt & Hnd & Hall). rewrite <- Hud.
    split; [lia|]. split; [exact Hnd|].
    intros p Hin. destruct (Hall p Hin) as (e & Hpe & Hdl).
    destruct (He2 p e Hpe) as (e' & Hpe' & Hdl' & _). exists e'. split; [exact Hpe' | congruence].
  - intros uid x' Hp. destruct (Hu1 uid x' Hp) as (x & Hpx & Hq & Ha).
    destruct (W3 uid x Hpx) as (Hnd & Hall & Hact).
    split; [now rewrite Hq|]. split.
    + intros p Hin. rewrite Hq in Hin. destruct (Hall p Hin) as (e & Hpe & Hus).
      destruct (He2 p e Hpe) as (e' & Hpe' & _ & Hus'). exists e'.
      split; [exact Hpe' | congruence].
    + intros p Hact'. rewrite Hq. apply Hact. destruct Ha as [Ha|Ha]; congruence.
Qed.

Lemma heap_ok_emit e st : heap_ok st -> heap_ok (emit e st).
Proof.
  apply heap_ok_view; [cbn; lia | reflexivity | reflexivity | intros; apply user_like_refl].
Qed.

Lemma heap_ok_set_dl_queue m st : heap_ok st -> heap_ok (set_dl_queue m st).
Proof.
  apply heap_ok_view; [cbn; lia | reflexivity | reflexivity | intros; apply user_like_refl].
Qed.

Lemma heap_ok_set_next_ptr st :
  heap_ok st -> heap_ok (set_next_ptr (N.succ (next_ptr st)) st).
Proof.
  apply heap_ok_view; [cbn; lia | reflexivity | reflexivity | intros; apply user_like_refl].
Qed.

Lemma heap_ok_dl_queue_start st : heap_ok st -> heap_ok (dl_queue_start st).
Proof.
  apply heap_ok_view.
  - rewrite next_ptr_dl_queue_start. lia.
  - now rewrite dls_dl_queue_start.
  - now rewrite duds_dl_queue_start.
  - intros. rewrite queue_users_dl_queue_start. apply user_like_refl.
Qed.

Lemma heap_ok_upd_dl p f st : keeps_u f -> heap_ok st -> heap_ok (upd_dl p f st).
Proof.
  intros Hf. apply heap_ok_view; [cbn; lia | | reflexivity | intros; apply user_like_refl].
  intros q. rewrite dls_upd_dl, lookup_alter. case_decide; [|reflexivity].
  subst q. destruct (dls st !! p); cbn; [|reflexivity]. now rewrite Hf.
Qed.

Lemma heap_ok_upd_du uid f st : keeps_queue f -> heap_ok st -> heap_ok (upd_du uid f st).
Proof.
  intros Hf. apply heap_ok_view; [cbn; lia | reflexivity | reflexivity |].
  intros q. cbn. rewrite lookup_alter. case_decide; [|apply user_like_refl].
  subst q. destruct (queue_users st !! uid) as [x|]; cbn; [|exact I].
  destruct (Hf x) as [-> Ha]. auto.
Qed.

Lemma heap_ok_upd_dud p f st : keeps_owner f -> heap_ok st -> heap_ok (upd_dud p f st).
Proof.
  intros Hf. apply heap_ok_view; [cbn; lia | reflexivity | | intros; apply user_like_refl].
  intros q. cbn. rewrite lookup_alter. case_decide; [|reflexivity].
  subst q. destruct (duds st !! p) as [x|]; cbn; [|reflexivity].
  destruct (Hf x) as [-> ->]. reflexivity.
Qed.

Lemma heap_ok_resort iter st : heap_ok st -> heap_ok (resort iter st).
Proof.
  intros Hok. unfold resort. destruct (duds st !! iter) as [dud|] eqn:Hd; [|exact Hok].
  pose proof Hok as (W1 & _ & W3).
  destruct (W1 iter dud Hd) as (_ & d & du & _ & _ & Hdu & Hin).
  destruct (W3 _ _ Hdu) as (Hnd & _ & _).
  revert Hok. apply heap_ok_view; [cbn; lia | reflexivity | reflexivity |].
  intros q. cbn. rewrite lookup_alter. case_decide; [|apply user_like_refl].
  subst q. rewrite Hdu. cbn. split; [|now left].
  now apply g_sequence_sort_changed_perm.
Qed.

(** A user without entries can go. *)
Lemma heap_ok_delete_user uid du st :
  queue_users st !! uid = Some du -> du_queue du = [] ->
  heap_ok st -> heap_ok (set_queue_users (base.delete uid (queue_users st)) st).
Proof.
  intros Hdu Hq (W1 & W2 & W3). split; [|split]; cbn.
  - intros p e Hp. destruct (W1 p e Hp) as (Hlt & d & x & Hd & Hpd & Hx & Hpx).
    split; [exact Hlt|]. exists d, x. split; [exact Hd|]. split; [exact Hpd|].
    split; [|exact Hpx]. rewrite lookup_delete_ne; [exact Hx|].
    intros Heq. rewrite <- Heq, Hdu in Hx. injection Hx as <-. rewrite Hq in Hpx.
    now apply elem_of_nil in Hpx.
  - exact W2.
  - intros q x. rewrite lookup_delete. case_decide; [discriminate|]. apply W3.
Qed.

(** A record without entries can go. *)
Lemma heap_ok_free dl d st :
  dls st !! dl = Some d -> u d = [] ->
  heap_ok st -> heap_ok (set_dls (base.delete dl (dls st)) st).
Proof.
  intros Hd Hu (W1 & W2 & W3). split; [|split]; cbn.
  - intros p e Hp. destruct (W1 p e Hp) as (Hlt & d' & x & Hd' & Hpd & Hx & Hpx).
    split; [exact Hlt|]. exists d', x. split; [|auto].
    rewrite lookup_delete_ne; [exact Hd'|].
    intros Heq. rewrite <- Heq, Hd in Hd'. injection Hd' as <-. rewrite Hu in Hpd.
    now apply elem_of_nil in Hpd.
  - intros q x. rewrite lookup_delete. case_decide; [discriminate|]. apply W2.
  - exact W3.
Qed.

Lemma heap_ok_dl_alloc d st :
  u d = [] -> heap_ok st -> heap_ok (snd (dl_alloc d st)).
Proof.
  intros Hu (W1 & W2 & W3). unfold dl_alloc. cbn [snd]. split; [|split]; cbn.
  - intros p e Hp. destruct (W1 p e Hp) as (Hlt & d' & x & Hd' & Hpd & Hx & Hpx).
    split; [lia|]. exists d', x. split; [|auto].
    rewrite lookup_insert_ne; [exact Hd'|].
    intros Heq. destruct (W2 _ _ Hd') as (Hlt' & _). lia.
  - intros q x. rewrite lookup_insert. case_decide.
    + intros [= <-]. subst q. rewrite Hu. split; [lia|]. split; [constructor|].
      intros p Hp. now apply elem_of_nil in Hp.
    + intros Hq. destruct (W2 q x Hq) as (Hlt & Hnd & Hall). split; [lia | auto].
  - exact W3.
Qed.

Lemma heap_ok_dl_queue_insert dl init st d :
  dls st !! dl = Some d -> u d = [] ->
  heap_ok st -> heap_ok (dl_queue_insert dl init st).
Proof.
  intros Hd Hu. destruct (dl_queue_insert_dls dl init st d Hd) as (Hdls & _ & Hnp).
  cbv zeta in Hdls.
  assert (Hduds : duds (dl_queue_insert dl init st) = duds st
                  /\ queue_users (dl_queue_insert dl init st) = queue_users st).
  { unfold dl_queue_insert. rewrite Hd. cbv zeta.
    split; repeat case_match;
      rewrite ?duds_dl_queue_start, ?queue_users_dl_queue_start; reflexivity. }
  destruct Hduds as [Hduds Hqu].
  apply heap_ok_view; [lia | | now rewrite Hduds | intros; rewrite Hqu; apply user_like_refl].
  intros p. rewrite Hdls, lookup_insert. case_decide; [|reflexivity].
  subst p. rewrite Hd. cbn. now rewrite Hu.
Qed.

Lemma keeps_u_set_active b : keeps_u (set_active b).
Proof. intros d. reflexivity. Qed.
Lemma keeps_u_set_delete b : keeps_u (set_delete b).
Proof. intros d. reflexivity. Qed.
Lemma keeps_u_set_prio b : keeps_u (set_prio b).
Proof. intros d. reflexivity. Qed.
Lemma keeps_u_set_flopen b : keeps_u (set_flopen b).
Proof. intros d. reflexivity. Qed.
Lemma keeps_u_set_flmatch b : keeps_u (set_flmatch b).
Proof. intros d. reflexivity. Qed.
Lemma keeps_u_set_error e m : keeps_u (fun d => set_error_msg m (set_error e d)).
Proof. intros d. reflexivity. Qed.

Lemma keeps_queue_set_du_timeout t : keeps_queue (set_du_timeout t).
Proof. intros x. split; [reflexivity | now left]. Qed.
Lemma keeps_queue_set_du_state t : keeps_queue (set_du_state t).
Proof. intros x. split; [reflexivity | now left]. Qed.
Lemma keeps_queue_set_du_cc t : keeps_queue (set_du_cc t).
Proof. intros x. split; [reflexivity | now left]. Qed.
Lemma keeps_queue_set_du_active_None : keeps_queue (set_du_active None).
Proof. intros x. split; [reflexivity | now right]. Qed.

Lemma keeps_owner_set_error e m :
  keeps_owner (fun x => set_dud_error_msg m (set_dud_error e x)).
Proof. intros x. split; reflexivity. Qed.

Create HintDb heap.
#[local] Hint Resolve heap_ok_emit heap_ok_set_dl_queue heap_ok_set_next_ptr
  heap_ok_dl_queue_start heap_ok_upd_dl heap_ok_upd_du heap_ok_upd_dud heap_ok_resort
  keeps_u_set_active keeps_u_set_delete keeps_u_set_prio keeps_u_set_flopen
  keeps_u_set_flmatch keeps_u_set_error keeps_queue_set_du_timeout
  keeps_queue_set_du_state keeps_queue_set_du_cc keeps_queue_set_du_active_None
  keeps_owner_set_error : heap.

Ltac heap := cbv zeta; repeat case_match; eauto 40 with heap.

Lemma heap_ok_dl_user_setstate_with checkrm uid state st :
  (forall dl s, heap_ok s -> heap_ok (checkrm dl s)) ->
  heap_ok st -> heap_ok (dl_user_setstate_with checkrm uid state st).
Proof.
  intros Hc Hok. unfold dl_user_setstate_with.
  destruct (queue_users st !! uid) as [du|]; [|exact Hok]. cbv zeta.
  match goal with
  | |- heap_ok (match queue_users ?s !! uid with _ => _ end) =>
      assert (Hs : heap_ok s); [|set (s1 := s) in *]
  end.
  { heap. }
  destruct (queue_users s1 !! uid) as [du'|] eqn:Hdu'; [|exact Hs].
  destruct ((du_state du' =? DLU_NCO) && (length (du_queue du') =? 0)%nat) eqn:Hc2.
  - apply andb_prop in Hc2 as [_ Hlen]. apply Nat.eqb_eq in Hlen.
    apply (heap_ok_delete_user uid du'); [exact Hdu' | | exact Hs].
    now destruct (du_queue du').
  - now apply heap_ok_dl_queue_start.
Qed.

(** *** Adding and removing an entry *)

Lemma heap_ok_dl_user_add dl uid e emsg st :
  heap_ok st -> heap_ok (dl_user_add dl uid e emsg st).
Proof.
  intros Hok. unfold dl_user_add.
  destruct (dls st !! dl) as [d|] eqn:Hd; [|exact Hok].
  case_match; [now apply heap_ok_emit|]. cbv zeta.
  apply heap_ok_emit.
  pose proof Hok as (W1 & W2 & W3).
  set (p := next_ptr st).
  (* the user, as found or as created *)
  set (qa := match queue_users st !! uid with
             | Some _ => queue_users st
             | None => <[uid := Build_dl_user_t DLU_NCO 0 uid None [] None]> (queue_users st)
             end).
  assert (Hqa : exists da, qa !! uid = Some da
                  /\ NoDup (du_queue da)
                  /\ (forall q, q ∈ du_queue da ->
                        exists x, duds st !! q = Some x /\ dud_u x = uid)
                  /\ (forall q, du_active da = Some q -> q ∈ du_queue da)
                  /\ (forall du, queue_users st !! uid = Some du -> da = du)).
  { unfold qa. destruct (queue_users st !! uid) as [du|] eqn:Hdu.
    - exists du. destruct (W3 uid du Hdu) as (A & B & C). repeat split; auto. congruence.
    - eexists. rewrite lookup_insert_eq. split; [reflexivity|]. cbn.
      split; [constructor|]. split; [|split; [discriminate|discriminate]].
      intros q Hq. now apply elem_of_nil in Hq. }
  destruct Hqa as (da & Hda & Hnda & Halla & Hacta & Hsame).
  assert (Hqo : forall uid', uid' <> uid -> qa !! uid' = queue_users st !! uid').
  { intros uid' Hne. unfold qa. destruct (queue_users st !! uid); [reflexivity|].
    now rewrite lookup_insert_ne. }
  match goal with
  | |- heap_ok ?s => set (fin := s)
  end.
  assert (Hdls : dls fin = alter (fun d => set_u (u d ++ [p]) d) dl (dls st)).
  { unfold fin. destruct (queue_users st !! uid); reflexivity. }
  assert (Hduds : duds fin = <[p := Build_dl_user_dl_t dl uid e emsg]> (duds st)).
  { unfold fin. destruct (queue_users st !! uid); reflexivity. }
  assert (Hnp : next_ptr fin = N.succ p).
  { unfold fin. destruct (queue_users st !! uid); reflexivity. }
  assert (Hqu : exists cmp, queue_users fin
                  = alter (fun du => set_du_queue (g_sequence_insert_sorted cmp p (du_queue du)) du)
                      uid qa).
  { unfold fin, qa. destruct (queue_users st !! uid); eexists; reflexivity. }
  destruct Hqu as (cmp & Hqu).
  clearbody fin.
  assert (Hfresh : forall q x, duds st !! q = Some x -> q <> p).
  { intros q x Hq. destruct (W1 q x Hq) as [Hlt _]. unfold p. lia. }
  split; [|split].
  - intros q x. rewrite Hduds, Hnp, lookup_insert. case_decide as Hq.
    + intros [= <-]. subst q. split; [lia|]. cbn.
      exists (set_u (u d ++ [p]) d),
        (set_du_queue (g_sequence_insert_sorted cmp p (du_queue da)) da).
      rewrite Hdls, Hqu, !lookup_alter_eq, Hd, Hda. cbn.
      split; [reflexivity|]. split; [apply elem_of_app; right; now left|].
      split; [reflexivity|]. rewrite g_sequence_insert_sorted_perm. now left.
    + intros Hx. destruct (W1 q x Hx) as (Hlt & d' & du' & Hd' & Hqd & Hdu' & Hqu').
      split; [unfold p; lia|].
      rewrite Hdls, Hqu.
      assert (exists d2, alter (fun d => set_u (u d ++ [p]) d) dl (dls st) !! dud_dl x = Some d2
                         /\ q ∈ u d2) as (d2 & Hd2 & Hq2).
      { destruct (decide (dud_dl x = dl)) as [Hdl|Hdl].
        - rewrite Hdl in Hd' |- *. rewrite lookup_alter_eq, Hd'. cbn.
          eexists. split; [reflexivity|]. cbn. apply elem_of_app. now left.
        - rewrite lookup_alter_ne by congruence. eauto. }
      assert (exists u2, alter (fun du => set_du_queue
                                  (g_sequence_insert_sorted cmp p (du_queue du)) du)
                           uid qa !! dud_u x = Some u2 /\ q ∈ du_queue u2)
        as (u2 & Hu2 & Hq3).
      { destruct (decide (dud_u x = uid)) as [Hu|Hu].
        - rewrite Hu in Hdu' |- *. rewrite (Hsame _ Hdu') in Hda.
          rewrite lookup_alter_eq, Hda. cbn.
          eexists. split; [reflexivity|]. cbn.
          rewrite g_sequence_insert_sorted_perm. now right.
        - rewrite lookup_alter_ne by congruence. rewrite Hqo by congruence. eauto. }
      exists d2, u2. auto.
  - intros dl' d'. rewrite Hdls, Hnp, Hduds, lookup_alter. case_decide as Hdl.
    + subst dl'. rewrite Hd. cbn. intros [= <-]. cbn.
      destruct (W2 dl d Hd) as (Hlt & Hnd & Hall).
      split; [unfold p; lia|]. split.
      * apply NoDup_app. split; [exact Hnd|]. split; [|apply NoDup_singleton].
        intros q Hq Hq'. apply list_elem_of_singleton in Hq'. subst q.
        destruct (Hall p Hq) as (x & Hx & _). now apply (Hfresh p x).
      * intros q Hq. apply elem_of_app in Hq as [Hq|Hq].
        -- destruct (Hall q Hq) as (x & Hx & Hxd). exists x.
           rewrite lookup_insert_ne by (intros Heq; apply (Hfresh q x Hx); congruence). auto.
        -- apply list_elem_of_singleton in Hq. subst q. rewrite lookup_insert_eq.
           eexists. split; reflexivity.
    + intros Hd'. destruct (W2 dl' d' Hd') as (Hlt & Hnd & Hall).
      split; [unfold p; lia|]. split; [exact Hnd|].
      intros q Hq. destruct (Hall q Hq) as (x & Hx & Hxd). exists x.
      rewrite lookup_insert_ne by (intros Heq; apply (Hfresh q x Hx); congruence). auto.
  - intros uid' du'. rewrite Hqu, Hduds, lookup_alter. case_decide as Hu.
    + subst uid'. rewrite Hda. cbn. intros [= <-]. cbn.
      split; [|split].
      * rewrite g_sequence_insert_sorted_perm. constructor; [|exact Hnda].
        intros Hp. destruct (Halla p Hp) as (x & Hx & _). now apply (Hfresh p x).
      * intros q. rewrite g_sequence_insert_sorted_perm, elem_of_cons. intros [->|Hq].
        -- rewrite lookup_insert_eq. eexists. split; reflexivity.
        -- destruct (Halla q Hq) as (x & Hx & Hxu). exists x.
           rewrite lookup_insert_ne by (intros Heq; apply (Hfresh q x Hx); congruence). auto.
      * intros q Hq. rewrite g_sequence_insert_sorted_perm. right. auto.
    + rewrite Hqo by congruence. intros Hdu'.
      destruct (W3 uid' du' Hdu') as (Hnd & Hall & Hact).
      split; [exact Hnd|]. split; [|exact Hact].
      intros q Hq. destruct (Hall q Hq) as (x & Hx & Hxu). exists x.
      rewrite lookup_insert_ne by (intros Heq; apply (Hfresh q x Hx); congruence). auto.
Qed.

(** The three removals of [dl_user_rm]. *)
Lemma heap_ok_remove_entry st dl i d dudi dud du :
  heap_ok st ->
  dls st !! dl = Some d -> u d !! i = Some dudi ->
  duds st !! dudi = Some dud -> queue_users st !! dud_u dud = Some du ->
  du_active du <> Some dudi ->
  heap_ok
    (upd_dl dl (fun d => set_u (g_ptr_array_remove_index_fast i (u d)) d)
       (set_duds (base.delete dudi (duds st))
          (upd_du (dud_u dud)
             (fun du => set_du_queue (g_sequence_remove dudi (du_queue du)) du) st))).
Proof.
  intros (W1 & W2 & W3) Hd Hi He Hdu Hact.
  destruct (W2 dl d Hd) as (Hltd & Hnd & Halld).
  destruct (remove_index_fast_spec i (u d) dudi Hnd Hi) as (Hnd' & Hin').
  assert (Hdl : dud_dl dud = dl).
  { destruct (Halld dudi) as (x & Hx & Hxd); [eapply list_elem_of_lookup_2; eauto|].
    congruence. }
  set (uid := dud_u dud) in *.
  destruct (W3 uid du Hdu) as (Hndu & Hallu & Hactu).
  split; [|split]; cbn.
  - intros q x. rewrite lookup_delete. case_decide as Hq; [discriminate|].
    intros Hx. destruct (W1 q x Hx) as (Hlt & d' & du' & Hd' & Hqd & Hdu' & Hqu).
    split; [exact Hlt|].
    assert (exists d2, alter (fun d => set_u (g_ptr_array_remove_index_fast i (u d)) d) dl
                         (dls st) !! dud_dl x = Some d2 /\ q ∈ u d2) as (d2 & Hd2 & Hq2).
    { destruct (decide (dud_dl x = dl)) as [E|E].
      - rewrite E in Hd' |- *. rewrite lookup_alter_eq, Hd. cbn.
        eexists. split; [reflexivity|]. cbn. apply Hin'. split; [congruence | congruence].
      - rewrite lookup_alter_ne by congruence. eauto. }
    assert (exists u2, alter (fun du => set_du_queue (g_sequence_remove dudi (du_queue du)) du)
                         uid (queue_users st) !! dud_u x = Some u2 /\ q ∈ du_queue u2)
      as (u2 & Hu2 & Hq3).
    { destruct (decide (dud_u x = uid)) as [E|E].
      - rewrite E in Hdu' |- *. rewrite lookup_alter_eq, Hdu. cbn.
        eexists. split; [reflexivity|]. cbn. apply g_sequence_remove_spec.
        split; [congruence | congruence].
      - rewrite lookup_alter_ne by congruence. eauto. }
    exists d2, u2. auto.
  - intros dl' d'. rewrite lookup_alter. case_decide as E.
    + subst dl'. rewrite Hd. cbn. intros [= <-]. cbn.
      split; [exact Hltd|]. split; [exact Hnd'|].
      intros q Hq. apply Hin' in Hq as [Hq Hne].
      destruct (Halld q Hq) as (x & Hx & Hxd). exists x.
      rewrite lookup_delete_ne by congruence. auto.
    + intros Hd'. destruct (W2 dl' d' Hd') as (Hlt & Hnd2 & Hall).
      split; [exact Hlt|]. split; [exact Hnd2|].
      intros q Hq. destruct (Hall q Hq) as (x & Hx & Hxd). exists x.
      rewrite lookup_delete_ne; [auto|]. intros Heq. subst q. congruence.
  - intros uid' du'. rewrite lookup_alter. case_decide as E.
    + subst uid'. rewrite Hdu. cbn. intros [= <-]. cbn.
      split; [now apply g_sequence_remove_NoDup|]. split.
      * intros q Hq. apply g_sequence_remove_spec in Hq as [Hq Hne].
        destruct (Hallu q Hq) as (x & Hx & Hxu). exists x.
        rewrite lookup_delete_ne by congruence. auto.
      * intros q Hq. apply g_sequence_remove_spec. split; [auto | congruence].
    + intros Hdu'. destruct (W3 uid' du' Hdu') as (Hnd2 & Hall & Hact2).
      split; [exact Hnd2|]. split; [|exact Hact2].
      intros q Hq. destruct (Hall q Hq) as (x & Hx & Hxu). exists x.
      rewrite lookup_delete_ne; [auto|]. intros Heq. subst q.
      assert (dud_u dud = uid') by congruence. unfold uid in E. congruence.
Qed.

Lemma heap_ok_dl_user_rm dl i st : heap_ok st -> heap_ok (dl_user_rm dl i st).
Proof.
  intros Hok. unfold dl_user_rm.
  destruct (dls st !! dl) as [d|] eqn:Hd; [|exact Hok].
  destruct (u d !! i) as [dudi|] eqn:Hi; [|exact Hok].
  destruct (duds st !! dudi) as [dud|] eqn:He; [|exact Hok].
  destruct (queue_users st !! dud_u dud) as [du|] eqn:Hdu; [|exact Hok].
  cbv zeta. apply heap_ok_dl_user_setstate_with; [auto|].
  case_bool_decide as Hact.
  - match goal with
    | |- heap_ok (upd_dl _ _ (set_duds _ (upd_du _ _ (emit _ ?s)))) => set (sa := s)
    end.
    apply (heap_ok_remove_entry (emit (Ev_uit_dl_dud_listchange dudi UITDL_DEL) sa) dl i
             (set_active false d) dudi dud (set_du_active None du)).
    + unfold sa. heap.
    + unfold sa. cbn. rewrite lookup_alter_eq, Hd. reflexivity.
    + exact Hi.
    + exact He.
    + unfold sa. cbn. rewrite lookup_alter_eq, Hdu. reflexivity.
    + discriminate.
  - apply (heap_ok_remove_entry (emit (Ev_uit_dl_dud_listchange dudi UITDL_DEL) st) dl i
             d dudi dud du); auto with heap.
Qed.

#[local] Hint Resolve heap_ok_dl_user_rm heap_ok_dl_user_add : heap.

Lemma heap_ok_dl_queue_rm_users n dl st :
  heap_ok st -> heap_ok (dl_queue_rm_users n dl st).
Proof.
  revert st. induction n as [|n IH]; intros st Hs; simpl; [assumption|].
  repeat case_match; auto with heap.
Qed.

#[local] Hint Resolve heap_ok_dl_queue_rm_users : heap.

(** Under the invariant the loop of [dl_queue_rm] empties [dl->u]. *)
Lemma dl_queue_rm_users_empties n dl : forall st d,
  heap_ok st -> dls st !! dl = Some d -> (length (u d) <= n)%nat ->
  exists d', dls (dl_queue_rm_users n dl st) !! dl = Some d' /\ u d' = [].
Proof.
  induction n as [|n IH]; intros st d Hok Hd Hlen; cbn [dl_queue_rm_users].
  - exists d. split; [exact Hd|]. destruct (u d); [reflexivity | cbn in Hlen; lia].
  - rewrite Hd. destruct (u d) as [|p r] eqn:Hu; [exists d; auto|].
    change (0 <? length (p :: r))%nat with true. cbv iota.
    pose proof Hok as (W1 & W2 & W3).
    destruct (W2 dl d Hd) as (_ & Hnd & Hall).
    destruct (Hall p) as (x & Hx & Hxd); [rewrite Hu; now left|].
    destruct (W1 p x Hx) as (_ & _ & du & _ & _ & Hdu & _).
    destruct (dl_user_rm_record dl 0 st d p x du Hd ltac:(now rewrite Hu) Hx Hdu)
      as (d1 & Hd1 & _ & _ & Hu1).
    apply (IH _ d1); [now apply heap_ok_dl_user_rm | exact Hd1 |].
    rewrite Hu1.
    pose proof (remove_index_fast_perm 0 (u d) p Hnd ltac:(now rewrite Hu)) as Hp.
    apply Permutation_length in Hp. rewrite Hu in Hp |- *. cbn in Hp, Hlen |- *. lia.
Qed.

Lemma heap_ok_dl_queue_rm dl st : heap_ok st -> heap_ok (dl_queue_rm dl st).
Proof.
  intros Hok. unfold dl_queue_rm.
  destruct (dls st !! dl) as [d0|] eqn:Hd0; [|exact Hok]. cbv zeta.
  set (st1 := upd_dl dl (set_delete true) st).
  assert (Hok1 : heap_ok st1) by (unfold st1; auto with heap).
  assert (Hd1 : dls st1 !! dl = Some (set_delete true d0))
    by (unfold st1; cbn; now rewrite lookup_alter_eq, Hd0).
  destruct (dl_queue_rm_users_empties (length (u d0)) dl st1 _ Hok1 Hd1 ltac:(cbn; lia))
    as (d2 & Hd2 & Hu2).
  set (st2 := dl_queue_rm_users (length (u d0)) dl st1) in *.
  assert (Hok2 : heap_ok st2) by (unfold st2; auto with heap).
  match goal with
  | |- heap_ok (match dls ?s !! dl with _ => _ end) => set (st3 := s)
  end.
  assert (Hok3 : heap_ok st3) by (unfold st3; heap).
  assert (Hd3 : dls st3 !! dl = Some d2) by (unfold st3; repeat case_match; exact Hd2).
  rewrite Hd3. destruct (dlthread d2); [exact Hok3|].
  apply heap_ok_emit.
  match goal with
  | |- heap_ok (set_dls (base.delete dl (dls ?s)) ?s) =>
      apply (heap_ok_free dl d2 s);
        [repeat case_match; exact Hd3 | exact Hu2 | heap]
  end.
Qed.

#[local] Hint Resolve heap_ok_dl_queue_rm : heap.

Lemma heap_ok_dl_queue_checkrm_loop fuel dl i st :
  heap_ok st -> heap_ok (dl_queue_checkrm_loop fuel dl i st).
Proof.
  revert i st. induction fuel as [|fuel IH]; intros i st Hs; simpl; [assumption|].
  repeat case_match; auto with heap.
Qed.

#[local] Hint Resolve heap_ok_dl_queue_checkrm_loop : heap.

Lemma heap_ok_dl_queue_checkrm dl justfin st :
  heap_ok st -> heap_ok (dl_queue_checkrm dl justfin st).
Proof. intros Hs. unfold dl_queue_checkrm. heap. Qed.

#[local] Hint Resolve heap_ok_dl_queue_checkrm : heap.

Lemma heap_ok_dl_user_setstate uid state st :
  heap_ok st -> heap_ok (dl_user_setstate uid state st).
Proof. intros Hs. apply heap_ok_dl_user_setstate_with; auto with heap. Qed.

#[local] Hint Resolve heap_ok_dl_user_setstate : heap.

Lemma heap_ok_dl_user_cc uid cc st : heap_ok st -> heap_ok (dl_user_cc uid cc st).
Proof. intros Hs. unfold dl_user_cc. heap. Qed.

Lemma heap_ok_dl_user_waitdone uid st : heap_ok st -> heap_ok (dl_user_waitdone uid st).
Proof. intros Hs. unfold dl_user_waitdone. heap. Qed.

Lemma heap_ok_fold_resort l st :
  heap_ok st -> heap_ok (fold_left (fun s iter => resort iter s) l st).
Proof. revert st. induction l as [|x l IH]; intros st Hs; simpl; auto with heap. Qed.

#[local] Hint Resolve heap_ok_fold_resort : heap.

Lemma heap_ok_dl_queue_setprio dl p st :
  heap_ok st -> heap_ok (dl_queue_setprio dl p st).
Proof. intros Hs. unfold dl_queue_setprio. heap. Qed.

#[local] Hint Resolve heap_ok_dl_queue_setprio : heap.

Lemma heap_ok_dl_queue_seterr dl e sub st :
  heap_ok st -> heap_ok (dl_queue_seterr dl e sub st).
Proof. intros Hs. unfold dl_queue_seterr. heap. Qed.

Lemma heap_ok_dl_queue_setuerr uid tth e emsg st :
  heap_ok st -> heap_ok (dl_queue_setuerr uid tth e emsg st).
Proof. intros Hs. unfold dl_queue_setuerr. heap. Qed.

Lemma heap_ok_rmuser_from which dl st :
  heap_ok st -> heap_ok (rmuser_from which dl st).
Proof. intros Hs. unfold rmuser_from. heap. Qed.

#[local] Hint Resolve heap_ok_rmuser_from : heap.

Lemma heap_ok_fold_rmuser (l : list N) st :
  heap_ok st -> heap_ok (fold_left (fun s i => rmuser_turn i s) l st).
Proof.
  revert st. induction l as [|x l IH]; intros st Hs; simpl; [assumption|].
  apply IH. unfold rmuser_turn. heap.
Qed.

#[local] Hint Resolve heap_ok_fold_rmuser : heap.

Lemma heap_ok_dl_queue_rmuser uid tth st :
  heap_ok st -> heap_ok (dl_queue_rmuser uid tth st).
Proof. intros Hs. unfold dl_queue_rmuser. heap. Qed.

Lemma heap_ok_alloc_insert d init st dl st1 :
  u d = [] -> dl_alloc d st = (dl, st1) ->
  heap_ok st -> heap_ok (dl_queue_insert dl init st1).
Proof.
  intros Hu Ha Hok.
  assert (Hst1 : st1 = snd (dl_alloc d st)) by now rewrite Ha.
  assert (Hdl : dl = next_ptr st) by (unfold dl_alloc in Ha; now injection Ha).
  apply (heap_ok_dl_queue_insert dl init st1 d).
  - rewrite Hst1, Hdl. unfold dl_alloc. cbn. apply lookup_insert_eq.
  - exact Hu.
  - rewrite Hst1. now apply heap_ok_dl_alloc.
Qed.

(** Every operation of the queue keeps the tables consistent. *)
Lemma run_op_heap_ok (op : dl_op) (st : dl_state) : heap_ok st -> heap_ok (run_op op st).
Proof.
  intros Hok. destruct op; cbn [run_op].
  - (* dl_queue_addlist *)
    unfold dl_queue_addlist. repeat case_match; simplify_eq; auto 10 with heap.
    apply heap_ok_dl_user_add. eapply heap_ok_alloc_insert; [|eassumption|exact Hok].
    reflexivity.
  - (* dl_queue_addfile *)
    unfold dl_queue_addfile. repeat case_match; simplify_eq; [exact Hok|].
    cbn [snd]. apply heap_ok_emit, heap_ok_dl_user_add.
    eapply heap_ok_alloc_insert; [|eassumption|exact Hok]. reflexivity.
  - (* dl_queue_matchfile *)
    unfold dl_queue_matchfile. repeat case_match; simplify_eq; try exact Hok.
    cbn [snd]. auto with heap.
  - auto with heap.
  - auto with heap.
  - auto with heap.
  - now apply heap_ok_dl_queue_seterr.
  - now apply heap_ok_dl_queue_setuerr.
  - now apply heap_ok_dl_queue_rmuser.
  - auto with heap.
  - auto with heap.
  - auto with heap.
  - auto with heap.
  - now apply heap_ok_dl_user_cc.
  - now apply heap_ok_dl_user_waitdone.
  - (* dl_load_dl *)
    unfold dl_load_dl. repeat case_match; simplify_eq; auto with heap.
    all: eapply heap_ok_alloc_insert; [|eassumption|exact Hok]; reflexivity.
  - (* dl_load_dlu *)
    unfold dl_load_dlu. case_match; auto with heap.
Qed.

Lemma run_ops_heap_ok (ops : list dl_op) (st : dl_state) :
  heap_ok st -> heap_ok (run_ops ops st).
Proof.
  revert st. induction ops as [|op ops IH]; intros st Hok; [exact Hok|].
  apply IH, run_op_heap_ok, Hok.
Qed.

(** X23.  Whatever operations are run on the download queue while
    nobody is downloading, its three tables stay consistent and no
    pointer dangles: an entry sits in the array of its record and in the
    queue of its user, which both exist; and a record and a user list
    only entries that are allocated and point back to them, none twice.
    In particular [dl_user_rm] and [dl_queue_rm] free an entry or a
    record only after every pointer to it is gone.  The operations are
    those of [dl_op], in any order and with any arguments, from a
    consistent state in which no user is active on an entry, such as the
    empty queue.  Nobody is downloading afterwards either, and
    [dl_user_rm] never gets to [cc_disconnect]: the log gains no such
    call. *)
Theorem dl_tables_consistent (ops : list dl_op) (st : dl_state) :
  heap_ok st -> idle_users st ->
  let st' := run_ops ops st in
  heap_ok st' /\ idle_users st' /\ disconnects st' = disconnects st.
Proof.
  intros Hok Hi st'. split; [now apply run_ops_heap_ok|].
  exact (run_ops_still ops st Hi).
Qed.

End HeapFacts.

Section HeapExamples.
Import Dl.
#[local] Existing Instance sample_env.

Lemma dl_tables_consistent_witness :
  heap_ok (run_ops Samples.some_ops Samples.dl_init)
  /\ idle_users (run_ops Samples.some_ops Samples.dl_init)
  /\ disconnects (run_ops Samples.some_ops Samples.dl_init) = [].
Proof.
  apply (dl_tables_consistent (H := sample_env) Samples.some_ops Samples.dl_init).
  - split; [|split]; intros ? ?; cbn; rewrite lookup_empty; discriminate.
  - intros ? ?; cbn; rewrite lookup_empty; discriminate.
Defined.

End HeapExamples.

(** * Removing a user or a record from the download queue *)

Section RemoveFacts.
Import Dl.
Context `{Env}.

Lemma entries_shrink_refl st : entries_shrink st st.
Proof. intros p x Hp. exact Hp. Qed.

Lemma entries_shrink_trans st1 st2 st3 :
  entries_shrink st1 st2 -> entries_shrink st2 st3 -> entries_shrink st1 st3.
Proof. intros H12 H23 p x Hp. auto. Qed.

Lemma entries_shrink_same st0 st st' :
  duds st' = duds st -> entries_shrink st0 st -> entries_shrink st0 st'.
Proof. intros Heq Hs p x. rewrite Heq. apply Hs. Qed.

Lemma entries_shrink_emit st0 e st : entries_shrink st0 st -> entries_shrink st0 (emit e st).
Proof. now apply entries_shrink_same. Qed.
Lemma entries_shrink_upd_du st0 uid f st :
  entries_shrink st0 st -> entries_shrink st0 (upd_du uid f st).
Proof. now apply entries_shrink_same. Qed.
Lemma entries_shrink_upd_dl st0 p f st :
  entries_shrink st0 st -> entries_shrink st0 (upd_dl p f st).
Proof. now apply entries_shrink_same. Qed.
Lemma entries_shrink_set_queue_users st0 m st :
  entries_shrink st0 st -> entries_shrink st0 (set_queue_users m st).
Proof. now apply entries_shrink_same. Qed.
Lemma entries_shrink_set_dl_queue st0 m st :
  entries_shrink st0 st -> entries_shrink st0 (set_dl_queue m st).
Proof. now apply entries_shrink_same. Qed.
Lemma entries_shrink_set_dls st0 m st :
  entries_shrink st0 st -> entries_shrink st0 (set_dls m st).
Proof. now apply entries_shrink_same. Qed.
Lemma entries_shrink_set_next_ptr st0 n st :
  entries_shrink st0 st -> entries_shrink st0 (set_next_ptr n st).
Proof. now apply entries_shrink_same. Qed.
Lemma entries_shrink_dl_queue_start st0 st :
  entries_shrink st0 st -> entries_shrink st0 (dl_queue_start st).
Proof. apply entries_shrink_same, duds_dl_queue_start. Qed.
Lemma entries_shrink_delete st0 p st :
  entries_shrink st0 st -> entries_shrink st0 (set_duds (base.delete p (duds st)) st).
Proof.
  intros Hs q x. cbn. rewrite lookup_delete. case_decide; [discriminate|]. apply Hs.
Qed.

Create HintDb entries.
#[local] Hint Resolve entries_shrink_refl entries_shrink_emit entries_shrink_upd_du
  entries_shrink_upd_dl entries_shrink_set_queue_users entries_shrink_set_dl_queue
  entries_shrink_set_dls entries_shrink_set_next_ptr entries_shrink_dl_queue_start
  entries_shrink_delete : entries.

Ltac entries := cbv zeta; repeat case_match; eauto 40 with entries.

Lemma entries_shrink_dl_user_setstate_with checkrm st0 uid state st :
  (forall dl s0 s, entries_shrink s0 s -> entries_shrink s0 (checkrm dl s)) ->
  entries_shrink st0 st -> entries_shrink st0 (dl_user_setstate_with checkrm uid state st).
Proof. intros Hc Hs. unfold dl_user_setstate_with. entries. Qed.

Lemma entries_shrink_dl_user_rm st0 dl i st :
  entries_shrink st0 st -> entries_shrink st0 (dl_user_rm dl i st).
Proof.
  intros Hs. unfold dl_user_rm. repeat case_match; try assumption;
    apply entries_shrink_dl_user_setstate_with; eauto 40 with entries.
Qed.

#[local] Hint Resolve entries_shrink_dl_user_rm : entries.

Lemma entries_shrink_dl_queue_rm_users st0 n dl st :
  entries_shrink st0 st -> entries_shrink st0 (dl_queue_rm_users n dl st).
Proof.
  revert st. induction n as [|n IH]; intros st Hs; simpl; [assumption|].
  repeat case_match; auto with entries.
Qed.

#[local] Hint Resolve entries_shrink_dl_queue_rm_users : entries.

Lemma entries_shrink_dl_queue_rm st0 dl st :
  entries_shrink st0 st -> entries_shrink st0 (dl_queue_rm dl st).
Proof. intros Hs. unfold dl_queue_rm. entries. Qed.

#[local] Hint Resolve entries_shrink_dl_queue_rm : entries.

Lemma entries_shrink_rmuser_from st0 which dl st :
  entries_shrink st0 st -> entries_shrink st0 (rmuser_from which dl st).
Proof. intros Hs. unfold rmuser_from. entries. Qed.

Lemma entries_shrink_rmuser_turn st0 i st :
  entries_shrink st0 st -> entries_shrink st0 (rmuser_turn i st).
Proof. intros Hs. unfold rmuser_turn. case_match; [now apply entries_shrink_rmuser_from | exact Hs]. Qed.

Lemma index_of_finds (x : N) (l : list N) (k : nat) :
  x ∈ l -> exists j j', index_of x l k = Some j /\ j = (k + j')%nat /\ l !! j' = Some x.
Proof.
  revert k. induction l as [|y l IH]; intros k Hx; [now apply elem_of_nil in Hx|].
  cbn. destruct (N.eqb y x) eqn:E.
  - apply N.eqb_eq in E. subst y. exists k, 0%nat. repeat split. lia.
  - apply elem_of_cons in Hx as [->|Hx]; [rewrite N.eqb_refl in E; discriminate|].
    destruct (IH (S k) Hx) as (j & j' & Hj & -> & Hl). exists (S k + j')%nat, (S j').
    split; [exact Hj|]. split; [lia | exact Hl].
Qed.

(** [dl_user_rm] frees the entry at the index. *)
Lemma dl_user_rm_frees dl j st d i :
  heap_ok st -> dls st !! dl = Some d -> u d !! j = Some i ->
  duds (dl_user_rm dl j st) !! i = None.
Proof.
  intros (W1 & W2 & W3) Hd Hj.
  destruct (W2 dl d Hd) as (_ & _ & Hall).
  destruct (Hall i) as (x & Hx & Hxd); [eapply list_elem_of_lookup_2; eauto|].
  destruct (W1 i x Hx) as (_ & _ & du & _ & _ & Hdu & _).
  unfold dl_user_rm. rewrite Hd, Hj, Hx, Hdu.
  rewrite (proj1 (dl_user_setstate_with_neg_frame _ _ _)).
  case_bool_decide; cbn; apply lookup_delete_eq.
Qed.

Lemma rmuser_turn_frees i st : heap_ok st -> duds (rmuser_turn i st) !! i = None.
Proof.
  intros Hok. unfold rmuser_turn. destruct (duds st !! i) as [x|] eqn:Hx; [|exact Hx].
  pose proof Hok as (W1 & W2 & W3).
  destruct (W1 i x Hx) as (_ & d & du & Hd & Hin & _).
  destruct (index_of_finds i (u d) 0 Hin) as (j & j' & Hj & -> & Hl).
  assert (Hgone : duds (dl_user_rm (dud_dl x) (0 + j') st) !! i = None)
    by (apply (dl_user_rm_frees _ _ _ d); assumption).
  unfold rmuser_from. rewrite Hd, Hj.
  destruct (duds (match dls (dl_user_rm (dud_dl x) (0 + j') st) !! dud_dl x with
                  | Some d0 => if islist d0 && (length (u d0) =? 0)%nat
                               then dl_queue_rm (dud_dl x) (dl_user_rm (dud_dl x) (0 + j') st)
                               else dl_user_rm (dud_dl x) (0 + j') st
                  | None => dl_user_rm (dud_dl x) (0 + j') st
                  end) !! i) as [y|] eqn:Hy; [|reflexivity].
  exfalso.
  assert (Hs : duds (dl_user_rm (dud_dl x) (0 + j') st) !! i = Some y).
  { revert Hy. repeat case_match; auto.
    apply (entries_shrink_dl_queue_rm _ _ _ (entries_shrink_refl _)). }
  congruence.
Qed.

Lemma heap_ok_rmuser_turn i st : heap_ok st -> heap_ok (rmuser_turn i st).
Proof.
  intros Hok. unfold rmuser_turn. case_match; [|exact Hok].
  unfold rmuser_from. repeat case_match;
    auto using heap_ok_dl_queue_rm, heap_ok_dl_user_rm.
Qed.

Lemma fold_rmuser_frees (l : list N) : forall st,
  heap_ok st ->
  heap_ok (fold_left (fun s i => rmuser_turn i s) l st)
  /\ entries_shrink st (fold_left (fun s i => rmuser_turn i s) l st)
  /\ forall i, i ∈ l -> duds (fold_left (fun s i => rmuser_turn i s) l st) !! i = None.
Proof.
  induction l as [|x l IH]; intros st Hok; cbn [fold_left].
  - split; [exact Hok|]. split; [apply entries_shrink_refl|].
    intros i Hi. now apply elem_of_nil in Hi.
  - destruct (IH (rmuser_turn x st) (heap_ok_rmuser_turn x st Hok)) as (Hok' & Hs & Hall).
    split; [exact Hok'|]. split.
    + eapply entries_shrink_trans; [|exact Hs].
      apply entries_shrink_rmuser_turn, entries_shrink_refl.
    + intros i Hi. apply elem_of_cons in Hi as [->|Hi]; [|auto].
      destruct (duds (fold_left (fun s i => rmuser_turn i s) l (rmuser_turn x st)) !! x)
        as [y|] eqn:Hy; [|reflexivity].
      apply Hs in Hy. rewrite rmuser_turn_frees in Hy by exact Hok. discriminate.
Qed.

(** X24.  [dl_queue_rmuser(uid, NULL)] on consistent tables, while
    nobody is downloading, takes the user out of the queue entirely:
    afterwards no entry of any record belongs to [uid], and if a user
    record of [uid] is still there its queue is empty.  Entries of other
    users are not touched: every entry that is left was there before,
    unchanged.  The tables are consistent again, and [cc_disconnect] has
    not been called. *)
Theorem dl_queue_rmuser_everywhere (uid : Z) (st : dl_state) :
  heap_ok st -> idle_users st ->
  let st' := dl_queue_rmuser uid None st in
  heap_ok st'
  /\ (forall p dud, duds st' !! p = Some dud -> dud_u dud <> uid)
  /\ (forall p dud, duds st' !! p = Some dud -> duds st !! p = Some dud)
  /\ (forall du, queue_users st' !! uid = Some du -> du_queue du = [])
  /\ disconnects st' = disconnects st.
Proof.
  intros Hok Hidle st'.
  assert (Hquiet : disconnects st' = disconnects st)
    by exact (proj2 (still_dl_queue_rmuser st uid None st (still_refl st Hidle))).
  assert (Hmain : heap_ok st'
                  /\ (forall p dud, duds st' !! p = Some dud -> dud_u dud <> uid)
                  /\ (forall p dud, duds st' !! p = Some dud -> duds st !! p = Some dud)).
  { unfold st', dl_queue_rmuser. cbn [mbind option_bind].
    pose proof Hok as (W1 & W2 & W3).
    destruct (queue_users st !! uid) as [du|] eqn:Hdu.
    - rewrite bool_decide_eq_false_2 by (intros Hne; now apply Hne). cbn [andb].
      destruct (fold_rmuser_frees (du_queue du) st Hok) as (Hok' & Hs & Hall).
      split; [now apply heap_ok_emit|]. split.
      + intros p x Hp Hu. cbn in Hp. pose proof (Hs p x Hp) as Hp0.
        destruct (W1 p x Hp0) as (_ & _ & du' & _ & _ & Hdu' & Hin).
        rewrite Hu, Hdu in Hdu'. injection Hdu' as <-.
        rewrite (Hall p Hin) in Hp. discriminate.
      + intros p x Hp. exact (Hs p x Hp).
    - split; [exact Hok|]. split; [|auto].
      intros p x Hp Hu. destruct (W1 p x Hp) as (_ & _ & du' & _ & _ & Hdu' & _).
      congruence. }
  destruct Hmain as (Hok' & Hnone & Hsub). split; [exact Hok'|].
  split; [exact Hnone|]. split; [exact Hsub|]. split; [|exact Hquiet].
  intros du Hdu. destruct Hok' as (_ & _ & W3').
  destruct (W3' uid du Hdu) as (_ & Hall & _).
  destruct (du_queue du) as [|p r]; [reflexivity|].
  destruct (Hall p) as (x & Hx & Hxu); [now left|].
  now apply Hnone in Hx.
Qed.

Lemma dl_user_rm_record_flags dl i st d dudi dud du :
  dls st !! dl = Some d -> u d !! i = Some dudi ->
  duds st !! dudi = Some dud -> queue_users st !! dud_u dud = Some du ->
  exists d1, dls (dl_user_rm dl i st) !! dl = Some d1
             /\ hash d1 = hash d /\ dlthread d1 = dlthread d /\ delete d1 = delete d
             /\ u d1 = g_ptr_array_remove_index_fast i (u d).
Proof.
  intros Hd Hi Hdud Hdu. unfold dl_user_rm. rewrite Hd, Hi, Hdud, Hdu.
  rewrite (proj1 (dl_user_setstate_with_neg _ _ _)).
  case_bool_decide; cbn; rewrite !lookup_alter; repeat case_decide; try congruence;
    rewrite ?lookup_alter; repeat case_decide; try congruence;
    rewrite Hd; cbn; eexists; (split; [reflexivity|]); auto.
Qed.

Lemma dl_queue_rm_users_record n dl : forall st d,
  heap_ok st -> dls st !! dl = Some d -> (length (u d) <= n)%nat ->
  exists d', dls (dl_queue_rm_users n dl st) !! dl = Some d' /\ u d' = []
             /\ hash d' = hash d /\ dlthread d' = dlthread d /\ delete d' = delete d.
Proof.
  induction n as [|n IH]; intros st d Hok Hd Hlen; cbn [dl_queue_rm_users].
  - exists d. split; [exact Hd|]. split; [|auto]. destruct (u d); [reflexivity | cbn in Hlen; lia].
  - rewrite Hd. destruct (u d) as [|p r] eqn:Hu; [exists d; auto|].
    change (0 <? length (p :: r))%nat with true. cbv iota.
    pose proof Hok as (W1 & W2 & W3).
    destruct (W2 dl d Hd) as (_ & Hnd & Hall).
    destruct (Hall p) as (x & Hx & Hxd); [rewrite Hu; now left|].
    destruct (W1 p x Hx) as (_ & _ & du & _ & _ & Hdu & _).
    destruct (dl_user_rm_record_flags dl 0 st d p x du Hd ltac:(now rewrite Hu) Hx Hdu)
      as (d1 & Hd1 & Hh1 & Ht1 & Hdel1 & Hu1).
    destruct (IH (dl_user_rm dl 0 st) d1 (heap_ok_dl_user_rm _ _ _ Hok) Hd1) as (d' & Hd' & Hu' & Hh' & Ht' & Hdel').
    { rewrite Hu1.
      pose proof (remove_index_fast_perm 0 (u d) p Hnd ltac:(now rewrite Hu)) as Hp.
      apply Permutation_length in Hp. rewrite Hu in Hp |- *. cbn in Hp, Hlen |- *. lia. }
    exists d'. repeat split; congruence.
Qed.

(** X25.  [dl_queue_rm(dl)] on consistent tables, for a record [dl]
    that is allocated: afterwards the TTH of the record is not queued any
    more and no entry of any user refers to the record.  If no download
    thread is active on it, the record itself is freed; if one is, the
    record stays, marked [delete], with an empty [u], for the thread to
    call [dl_queue_rm] again when it stops. *)
Theorem dl_queue_rm_clears (dl : N) (d : dl_t) (st : dl_state) :
  heap_ok st -> dls st !! dl = Some d ->
  let st' := dl_queue_rm dl st in
  dl_queue st' !! hash d = None
  /\ (forall p x, duds st' !! p = Some x -> dud_dl x <> dl)
  /\ (if dlthread d
      then exists d', dls st' !! dl = Some d' /\ delete d' = true /\ u d' = []
      else dls st' !! dl = None).
Proof.
  intros Hok Hd st'.
  assert (Hrec : if dlthread d
                 then exists d', dls st' !! dl = Some d' /\ delete d' = true /\ u d' = []
                 else dls st' !! dl = None).
  { unfold st', dl_queue_rm. rewrite Hd. cbv zeta.
    set (st1 := upd_dl dl (set_delete true) st).
    assert (Hok1 : heap_ok st1) by (unfold st1; apply heap_ok_upd_dl; [intros ?; reflexivity | exact Hok]).
    assert (Hd1 : dls st1 !! dl = Some (set_delete true d))
      by (unfold st1; cbn; now rewrite lookup_alter_eq, Hd).
    destruct (dl_queue_rm_users_record (length (u d)) dl st1 _ Hok1 Hd1 ltac:(cbn; lia))
      as (d2 & Hd2 & Hu2 & Hh2 & Ht2 & Hdel2).
    cbn in Hh2, Ht2, Hdel2.
    set (st2 := dl_queue_rm_users (length (u d)) dl st1) in *.
    set (st3 := match dl_queue st2 !! hash d with
                | Some _ => _
                | None => st2
                end).
    assert (Hd3 : dls st3 !! dl = Some d2) by (unfold st3; case_match; exact Hd2).
    rewrite Hd3, Ht2.
    destruct (dlthread d).
    - exists d2. auto.
    - repeat case_match; cbn; apply lookup_delete_eq. }
  split; [now apply dl_queue_rm_not_queued|]. split; [|exact Hrec].
  intros p x Hp Hx.
  destruct (heap_ok_dl_queue_rm dl st Hok) as (W1 & _ & _).
  fold st' in W1. destruct (W1 p x Hp) as (_ & d' & _ & Hd' & Hin & _).
  rewrite Hx in Hd'. destruct (dlthread d).
  - destruct Hrec as (d'' & Hd'' & _ & Hu''). rewrite Hd' in Hd''. injection Hd'' as <-.
    rewrite Hu'' in Hin. now apply elem_of_nil in Hin.
  - congruence.
Qed.

End RemoveFacts.

Section RemoveExamples.
Import Dl.
#[local] Existing Instance sample_env.

Lemma dl_queue_rmuser_everywhere_witness :
  let st' := dl_queue_rmuser 7 None (run_ops Samples.two_files Samples.dl_init) in
  heap_ok st'
  /\ (forall p dud, duds st' !! p = Some dud -> dud_u dud <> 7)
  /\ (forall p dud, duds st' !! p = Some dud ->
        duds (run_ops Samples.two_files Samples.dl_init) !! p = Some dud)
  /\ (forall du, queue_users st' !! 7 = Some du -> du_queue du = [])
  /\ disconnects st' = disconnects (run_ops Samples.two_files Samples.dl_init).
Proof.
  apply (dl_queue_rmuser_everywhere (H := sample_env) 7
           (run_ops Samples.two_files Samples.dl_init)).
  - apply run_ops_heap_ok.
    split; [|split]; intros ? ?; cbn; rewrite lookup_empty; discriminate.
  - apply run_ops_still. intros ? ?; cbn; rewrite lookup_empty; discriminate.
Defined.

Lemma dl_queue_rm_clears_witness :
  let st' := dl_queue_rm 3 (run_ops Samples.two_files Samples.dl_init) in
  dl_queue st' !! 222 = None
  /\ (forall p x, duds st' !! p = Some x -> dud_dl x <> 3%N)
  /\ dls st' !! 3%N = None.
Proof.
  refine (dl_queue_rm_clears (H := sample_env) 3
            Samples.file_b (run_ops Samples.two_files Samples.dl_init) _ _).
  - apply run_ops_heap_ok.
    split; [|split]; intros ? ?; cbn; rewrite lookup_empty; discriminate.
  - vm_compute. reflexivity.
Defined.

End RemoveExamples.

(** * The next file to get from a user *)

Section GetdlFacts.
Import Dl.
Context `{Env}.

Lemma queue_sorted_tail st a r : queue_sorted st (a :: r) -> queue_sorted st r.
Proof.
  intros Hs k1 k2 x y Hk H1 H2. apply (Hs (S k1) (S k2)); [lia | exact H1 | exact H2].
Qed.

Lemma queue_sorted_head st a r b : queue_sorted st (a :: r) -> b ∈ r ->
  dl_user_dl_sort_at st a b <= 0.
Proof.
  intros Hs Hb. apply list_elem_of_lookup_1 in Hb as (k & Hk).
  apply (Hs 0%nat (S k)); [lia | reflexivity | exact Hk].
Qed.

Lemma dl_user_dl_sort_disabled_first x dx y dy :
  dl_user_dl_enabled x dx = false -> dl_user_dl_sort x dx y dy <= 0 ->
  dl_user_dl_enabled y dy = false.
Proof.
  intros Hx. unfold dl_user_dl_sort. rewrite Hx. cbn.
  destruct (dl_user_dl_enabled y dy); [cbn; lia | reflexivity].
Qed.

Lemma dl_user_dl_sort_self x dx : dl_user_dl_sort x dx x dx = 0.
Proof.
  unfold dl_user_dl_sort.
  destruct (dl_user_dl_enabled x dx), (islist dx); cbn;
    rewrite Z.gtb_ltb, Z.ltb_irrefl; apply strcmp_refl.
Qed.

Lemma dl_user_getdl_loop_spec st (q : list N) :
  (forall i, i ∈ q -> exists dud d, duds st !! i = Some dud /\ dls st !! dud_dl dud = Some d) ->
  queue_sorted st q ->
  match dl_user_getdl_loop st q with
  | Some p => exists l1 l2, q = l1 ++ p :: l2 /\ startable st p
                            /\ forall x, x ∈ l1 -> ~ startable st x
  | None => forall x, x ∈ q -> ~ startable st x
  end.
Proof.
  induction q as [|a r IH]; intros Hall Hs; cbn [dl_user_getdl_loop].
  - intros x Hx. now apply elem_of_nil in Hx.
  - destruct (Hall a) as (dud & d & Hdud & Hd); [now left|]. rewrite Hdud, Hd.
    destruct (dl_user_dl_enabled dud d) eqn:Hen; cbn [negb].
    + destruct (active d) eqn:Hact; cbn [negb].
      * assert (Ha : ~ startable st a).
        { intros (dud' & d' & Hdud' & Hd' & _ & Hact'). congruence. }
        specialize (IH (fun i Hi => Hall i (list_elem_of_further _ _ _ Hi))
                       (queue_sorted_tail _ _ _ Hs)).
        destruct (dl_user_getdl_loop st r) as [p|].
        -- destruct IH as (l1 & l2 & -> & Hp & Hl1). exists (a :: l1), l2.
           split; [reflexivity|]. split; [exact Hp|].
           intros x Hx. apply elem_of_cons in Hx as [->|Hx]; auto.
        -- intros x Hx. apply elem_of_cons in Hx as [->|Hx]; auto.
      * exists [], r. split; [reflexivity|]. split.
        -- exists dud, d. auto.
        -- intros x Hx. now apply elem_of_nil in Hx.
    + intros x Hx (dud' & d' & Hdud' & Hd' & Hen' & _).
      apply elem_of_cons in Hx as [->|Hx]; [congruence|].
      pose proof (queue_sorted_head _ _ _ _ Hs Hx) as Hle.
      unfold dl_user_dl_sort_at in Hle. rewrite Hdud, Hdud', Hd, Hd' in Hle.
      pose proof (dl_user_dl_sort_disabled_first _ _ _ _ Hen Hle). congruence.
Qed.

(** X26.  On consistent tables and a queue that is in the order of
    [dl_user_dl_sort], [dl_user_getdl] returns the entry of the user that
    comes first in that order among those that are enabled and not being
    downloaded: the result is such an entry of the queue and compares
    less than or equal to every other such entry.  It returns NULL
    exactly when the queue has no entry that is enabled and not being
    downloaded; stopping at the first entry that is not enabled loses
    nothing, because the order puts every enabled entry before every
    disabled one. *)
Theorem dl_user_getdl_highest (st : dl_state) (uid : Z) (du : dl_user_t) :
  heap_ok st -> queue_users st !! uid = Some du -> queue_sorted st (du_queue du) ->
  match dl_user_getdl st du with
  | Some p =>
      p ∈ du_queue du /\ startable st p
      /\ forall q, q ∈ du_queue du -> startable st q -> dl_user_dl_sort_at st p q <= 0
  | None => forall q, q ∈ du_queue du -> ~ startable st q
  end.
Proof.
  intros (W1 & W2 & W3) Hdu Hs.
  destruct (W3 uid du Hdu) as (Hnd & Hall & _).
  assert (Hres : forall i, i ∈ du_queue du ->
            exists dud d, duds st !! i = Some dud /\ dls st !! dud_dl dud = Some d).
  { intros i Hi. destruct (Hall i Hi) as (dud & Hdud & _).
    destruct (W1 i dud Hdud) as (_ & d & _ & Hd & _). eauto. }
  pose proof (dl_user_getdl_loop_spec st (du_queue du) Hres Hs) as Hspec.
  unfold dl_user_getdl. destruct (dl_user_getdl_loop st (du_queue du)) as [p|]; [|exact Hspec].
  destruct Hspec as (l1 & l2 & Hq & Hp & Hl1).
  split; [rewrite Hq; apply elem_of_app; right; now left|]. split; [exact Hp|].
  intros q Hq' Hstart. rewrite Hq in Hq'.
  apply elem_of_app in Hq' as [Hq'|Hq']; [now apply Hl1 in Hq'|].
  apply elem_of_cons in Hq' as [->|Hq'].
  - destruct Hp as (dud & d & Hdud & Hd & _). unfold dl_user_dl_sort_at.
    rewrite Hdud, Hd. rewrite dl_user_dl_sort_self. lia.
  - apply list_elem_of_lookup_1 in Hq' as (k & Hk).
    apply (Hs (length l1) (length l1 + S k)%nat); [lia | |].
    + rewrite Hq. now rewrite list_lookup_middle.
    + rewrite Hq. rewrite lookup_app_r by lia.
      replace (length l1 + S k - length l1)%nat with (S k) by lia. exact Hk.
Qed.

End GetdlFacts.

Section GetdlExamples.
Import Dl.
#[local] Existing Instance sample_env.

Lemma dl_user_getdl_highest_witness :
  match dl_user_getdl (run_ops Samples.two_files Samples.dl_init) Samples.user_7 with
  | Some p =>
      p ∈ du_queue Samples.user_7
      /\ startable (run_ops Samples.two_files Samples.dl_init) p
      /\ forall q, q ∈ du_queue Samples.user_7 ->
           startable (run_ops Samples.two_files Samples.dl_init) q ->
           dl_user_dl_sort_at (run_ops Samples.two_files Samples.dl_init) p q <= 0
  | None =>
      forall q, q ∈ du_queue Samples.user_7 ->
        ~ startable (run_ops Samples.two_files Samples.dl_init) q
  end.
Proof.
  apply (dl_user_getdl_highest (H := sample_env)
           (run_ops Samples.two_files Samples.dl_init) 7 Samples.user_7).
  - apply run_ops_heap_ok.
    split; [|split]; intros ? ?; cbn; rewrite lookup_empty; discriminate.
  - vm_compute. reflexivity.
  - intros k1 k2 a b Hk H1 H2.
    destruct k1 as [|[|k1]]; destruct k2 as [|[|k2]]; try lia; try discriminate;
      injection H1 as <-; injection H2 as <-; vm_compute; discriminate.
Defined.

End GetdlExamples.

(** * Starting downloads *)

Section SchedulerFacts.
Import Dl.
Context `{Env} `{Sched}.

(** *** The array of targets *)

Lemma remove_index_fast_target_length (i : nat) (l : list Z) :
  (i < length l)%nat -> length (remove_index_fast_target i l) = (length l - 1)%nat.
Proof.
  intros Hi. unfold remove_index_fast_target.
  destruct (lookup_lt_is_Some_2 l i Hi) as [x Hx]. rewrite Hx.
  destruct (last l) as [z|] eqn:Hz.
  - rewrite length_take, length_insert. lia.
  - apply last_None in Hz. subst l. cbn in Hi. lia.
Qed.

Lemma remove_index_fast_target_le (i : nat) (l : list Z) :
  (length (remove_index_fast_target i l) <= length l)%nat.
Proof.
  unfold remove_index_fast_target. repeat case_match; try lia.
  rewrite length_take, length_insert. lia.
Qed.

(** *** What one start does *)

Lemma act_count_eq st st' users :
  (forall v, v ∈ users -> is_act st' v = is_act st v) ->
  act_count st' users = act_count st users.
Proof.
  induction users as [|a r IH]; intros Hv; cbn [act_count]; [reflexivity|].
  rewrite IH by (intros v Hin; apply Hv; now right).
  pose proof (Hv a ltac:(now left)) as Ha. unfold is_act in Ha.
  destruct (queue_users st' !! a), (queue_users st !! a); rewrite ?Ha; try reflexivity;
    try (rewrite <- Ha; reflexivity).
Qed.

Lemma act_count_one st st' users uid :
  NoDup users ->
  (forall v, v <> uid -> is_act st' v = is_act st v) ->
  is_act st uid = false -> is_act st' uid = true ->
  act_count st users <= act_count st' users <= act_count st users + 1.
Proof.
  intros Hnd Hv Hb Ha'. induction users as [|a r IH]; cbn [act_count]; [lia|].
  apply NoDup_cons in Hnd as [Ha Hnd].
  destruct (decide (a = uid)) as [->|Hne].
  - rewrite (act_count_eq st st' r).
    2:{ intros v Hin. apply Hv. intros ->. contradiction. }
    unfold is_act in Hb, Ha'.
    destruct (queue_users st' !! uid); [|discriminate]. rewrite Ha'.
    destruct (queue_users st !! uid); [rewrite Hb|]; lia.
  - specialize (IH Hnd). pose proof (Hv a Hne) as Hq. unfold is_act in Hq.
    destruct (queue_users st' !! a), (queue_users st !! a); rewrite ?Hq; try lia;
      try (rewrite <- Hq; lia).
Qed.

Lemma dl_user_setstate_forward uid state st du :
  queue_users st !! uid = Some du ->
  du_state du = DLU_NCO \/ du_state du = DLU_IDL ->
  state = DLU_EXP \/ state = DLU_ACT ->
  dl_user_setstate uid state st = dl_queue_start (upd_du uid (set_du_state state) st).
Proof.
  intros Hdu Hs Hn. unfold dl_user_setstate, dl_user_setstate_with. rewrite Hdu.
  assert (H1 : (state >=? 0) = true) by (destruct Hn; subst; reflexivity).
  assert (H2 : (state =? DLU_WAI) = false) by (destruct Hn; subst; reflexivity).
  assert (H3 : (du_state du =? DLU_WAI) = false) by (destruct Hs as [-> | ->]; reflexivity).
  assert (H4 : (du_state du =? DLU_ACT) = false) by (destruct Hs as [-> | ->]; reflexivity).
  rewrite H1, H2, H3, H4. cbn [andb negb]. cbv zeta.
  cbn [upd_du queue_users set_queue_users]. rewrite lookup_alter_eq, Hdu. cbn [fmap option_fmap option_map].
  assert (H5 : (du_state (set_du_state state du) =? DLU_NCO) = false)
    by (destruct Hn; subst; reflexivity).
  rewrite H5. reflexivity.
Qed.

Lemma is_act_dl_queue_start st v : is_act (dl_queue_start st) v = is_act st v.
Proof. unfold is_act. now rewrite queue_users_dl_queue_start. Qed.

Lemma is_act_same st st' v :
  queue_users st' !! v = queue_users st !! v -> is_act st' v = is_act st v.
Proof. unfold is_act. now intros ->. Qed.

Lemma dl_user_getdl_loop_in st q p : dl_user_getdl_loop st q = Some p -> p ∈ q.
Proof.
  induction q as [|a r IH]; cbn; [discriminate|].
  repeat case_match; try discriminate.
  - intros [= ->]. now left.
  - intros Hp. right. auto.
Qed.

Lemma heap_ok_set_du_active uid p st du :
  queue_users st !! uid = Some du -> p ∈ du_queue du ->
  heap_ok st -> heap_ok (upd_du uid (set_du_active (Some p)) st).
Proof.
  intros Hdu Hp (W1 & W2 & W3). split; [|split].
  - intros q e Hq. cbn in Hq. destruct (W1 q e Hq) as (Hlt & d & du0 & Hd & Hin & Hdu0 & Hin0).
    split; [exact Hlt|]. cbn.
    destruct (decide (dud_u e = uid)) as [Heq|Hne].
    + exists d, (set_du_active (Some p) du0). rewrite Heq in *.
      rewrite lookup_alter_eq, Hdu0. auto.
    + exists d, du0. rewrite lookup_alter_ne by congruence. auto.
  - intros dl d Hd. exact (W2 dl d Hd).
  - intros v x Hx. cbn in Hx.
    destruct (decide (v = uid)) as [->|Hne].
    + rewrite lookup_alter_eq, Hdu in Hx. cbn in Hx. injection Hx as <-.
      destruct (W3 uid du Hdu) as (Hnd & Hall & _). cbn.
      split; [exact Hnd|]. split; [exact Hall|]. intros q [= <-]. exact Hp.
    + rewrite lookup_alter_ne in Hx by congruence. exact (W3 v x Hx).
Qed.

Lemma heap_ok_upd_dl_fields p f st :
  (forall d, u (f d) = u d) -> heap_ok st -> heap_ok (upd_dl p f st).
Proof. intros Hf. now apply heap_ok_upd_dl. Qed.

(** One call of [dl_queue_start_user]: the tables stay consistent, no
    other user changes, and the user gets into [DLU_ACT] exactly when the
    call returns TRUE, which it does for a user in [DLU_IDL] only. *)
Lemma dl_queue_start_user_effect uid st calls :
  heap_ok st ->
  let r := dl_queue_start_user uid (st, calls) in
  heap_ok (fst (snd r))
  /\ (forall v, v <> uid -> is_act (fst (snd r)) v = is_act st v)
  /\ (if fst r then is_act st uid = false /\ is_act (fst (snd r)) uid = true
      else is_act (fst (snd r)) uid = is_act st uid).
Proof.
  intros Hok. cbv zeta. unfold dl_queue_start_user.
  destruct (dl_queue_start_istarget st uid) eqn:Ht; cbn [negb].
  2:{ cbn. split; [now apply heap_ok_emit|]. split; reflexivity. }
  unfold dl_queue_start_istarget in Ht.
  destruct (queue_users st !! uid) as [du|] eqn:Hdu; [|discriminate].
  destruct (negb (du_state du =? DLU_NCO) && negb (du_state du =? DLU_IDL)) eqn:Hst;
    [discriminate|]. cbn [orb] in Ht.
  assert (Hstate : du_state du = DLU_NCO \/ du_state du = DLU_IDL).
  { destruct (Z.eqb_spec (du_state du) DLU_NCO); [now left|].
    destruct (Z.eqb_spec (du_state du) DLU_IDL); [now right | discriminate]. }
  destruct (du_state du =? DLU_NCO) eqn:Hnco.
  - (* just connect *)
    cbn [fst snd].
    rewrite (dl_user_setstate_forward uid DLU_EXP st du Hdu Hstate (or_introl eq_refl)).
    split; [|split].
    + rewrite <- (dl_user_setstate_forward uid DLU_EXP st du Hdu Hstate (or_introl eq_refl)).
      now apply heap_ok_dl_user_setstate.
    + intros v Hv. rewrite is_act_dl_queue_start. apply is_act_same. cbn.
      now rewrite lookup_alter_ne.
    + rewrite is_act_dl_queue_start. unfold is_act. cbn. rewrite lookup_alter_eq, Hdu. cbn.
      apply Z.eqb_eq in Hnco. rewrite Hnco. reflexivity.
  - assert (Hidl : du_state du = DLU_IDL).
    { destruct Hstate as [Hs|Hs]; [|exact Hs]. rewrite Hs in Hnco. discriminate. }
    destruct (dl_user_getdl st du) as [dud|] eqn:Hget.
    2:{ cbn. split; [now apply heap_ok_emit|]. split; reflexivity. }
    pose proof (dl_user_getdl_loop_in _ _ _ Hget) as Hin.
    destruct (duds st !! dud ≫= _) as [[dl d]|] eqn:Hrec.
    2:{ cbn. split; [exact Hok|]. split; reflexivity. }
    assert (Hstart : forall st1 calls1,
              heap_ok st1 -> queue_users st1 = queue_users st ->
              let r := (let st2 := upd_dl dl (set_active true) st1 in
                        let st3 := upd_du uid (set_du_active (Some dud)) st2 in
                        let st4 := dl_user_setstate uid DLU_ACT st3 in
                        let cc := queue_users st4 !! uid ≫= du_cc in
                        (true, (st4, calls1 ++ [Call_cc_download cc dl]))) in
              heap_ok (fst (snd r))
              /\ (forall v, v <> uid -> is_act (fst (snd r)) v = is_act st v)
              /\ is_act st uid = false /\ is_act (fst (snd r)) uid = true).
    { intros st1 calls1 Hok1 Hq1. cbv zeta. cbn [fst snd].
      set (st2 := upd_dl dl (set_active true) st1).
      set (st3 := upd_du uid (set_du_active (Some dud)) st2).
      assert (Hdu2 : queue_users st2 !! uid = Some du) by (unfold st2; cbn; now rewrite Hq1).
      assert (Hok3 : heap_ok st3).
      { unfold st3. apply (heap_ok_set_du_active uid dud st2 du Hdu2 Hin).
        unfold st2. now apply heap_ok_upd_dl_fields. }
      assert (Hdu3 : queue_users st3 !! uid = Some (set_du_active (Some dud) du)).
      { unfold st3. cbn [upd_du queue_users set_queue_users].
        rewrite lookup_alter_eq, Hdu2. reflexivity. }
      rewrite (dl_user_setstate_forward uid DLU_ACT st3 _ Hdu3 (or_intror Hidl) (or_intror eq_refl)).
      split; [|split; [|split]].
      - rewrite <- (dl_user_setstate_forward uid DLU_ACT st3 _ Hdu3 (or_intror Hidl)
                      (or_intror eq_refl)).
        now apply heap_ok_dl_user_setstate.
      - intros v Hv. rewrite is_act_dl_queue_start. apply is_act_same. cbn.
        rewrite !lookup_alter_ne by congruence. now rewrite Hq1.
      - unfold is_act. rewrite Hdu, Hidl. reflexivity.
      - rewrite is_act_dl_queue_start. unfold is_act. cbn [upd_du queue_users set_queue_users].
        rewrite lookup_alter_eq, Hdu3. reflexivity. }
    destruct (islist d && (have d >? 0)).
    + destruct (sys_close (incfd d) =? 0); cbn [negb].
      2:{ cbn [fst snd]. split; [|split; reflexivity].
          apply heap_ok_emit, heap_ok_emit. now apply heap_ok_upd_dl_fields. }
      destruct (sys_open (inc d) >=? 0); cbn [negb].
      2:{ cbn [fst snd]. split; [|split; reflexivity].
          apply heap_ok_emit. apply heap_ok_upd_dl_fields; [reflexivity|].
          apply heap_ok_emit. now apply heap_ok_upd_dl_fields. }
      apply Hstart; [|reflexivity].
      apply heap_ok_upd_dl_fields; [reflexivity|].
      apply heap_ok_emit. now apply heap_ok_upd_dl_fields.
    + apply Hstart; [exact Hok | reflexivity].
Qed.

(** *** The loops *)

Lemma start_scan_freeslots st users : forall freeslots targets target target_i,
  (start_scan st users freeslots targets target target_i).1.1.1
  = freeslots - act_count st users.
Proof.
  induction users as [|a r IH]; intros fs targets target ti; cbn [start_scan act_count];
    [cbn; lia|].
  destruct (dl_queue_start_istarget st a); [destruct (pick_target _ _ _ _ _)|];
    rewrite IH; repeat case_match; lia.
Qed.

Lemma pick_target_index st target target_i du i t ti :
  pick_target st target target_i du i = (Some t, ti) ->
  ti = i \/ (target = Some t /\ ti = target_i).
Proof.
  unfold pick_target. repeat case_match; intros [= <- <-]; auto.
Qed.

Lemma start_scan_index st users : forall freeslots targets target target_i,
  (forall t, target = Some t -> (target_i < length targets)%nat) ->
  forall t, (start_scan st users freeslots targets target target_i).1.2 = Some t ->
    ((start_scan st users freeslots targets target target_i).2
     < length (start_scan st users freeslots targets target target_i).1.1.2)%nat.
Proof.
  induction users as [|a r IH]; intros fs targets target ti Hinv; cbn [start_scan].
  - cbn. exact Hinv.
  - destruct (dl_queue_start_istarget st a).
    + destruct (pick_target st target ti a (length targets)) as [target' ti'] eqn:Hp.
      apply IH. intros t Ht. subst target'. rewrite length_app. cbn.
      apply pick_target_index in Hp as [->|[Htg ->]]; [lia|].
      specialize (Hinv _ Htg). lia.
    + apply IH. exact Hinv.
Qed.

Lemma start_rescan_index fuel st : forall targets i target target_i,
  (i <= length targets)%nat ->
  (forall t, target = Some t -> (target_i < i)%nat) ->
  let r := start_rescan fuel st targets i target target_i in
  (length r.1.1 <= length targets)%nat
  /\ forall t, r.1.2 = Some t -> (r.2 < length r.1.1)%nat.
Proof.
  induction fuel as [|fuel IH]; intros targets i target ti Hi Hinv; cbn [start_rescan].
  - cbn. split; [lia|]. intros t Ht. specialize (Hinv t Ht). lia.
  - destruct (targets !! i) as [du|] eqn:Hdu.
    2:{ cbn. split; [lia|]. intros t Ht. specialize (Hinv t Ht). lia. }
    pose proof (lookup_lt_Some _ _ _ Hdu) as Hlt.
    destruct (dl_queue_start_istarget st du); cbn [negb].
    + destruct (pick_target st target ti du i) as [target' ti'] eqn:Hp.
      apply IH; [lia|]. intros t Ht. subst target'.
      apply pick_target_index in Hp as [->|[Htg ->]]; [lia|].
      specialize (Hinv _ Htg). lia.
    + pose proof (remove_index_fast_target_length i targets Hlt) as Hlen.
      destruct (IH (remove_index_fast_target i targets) i target ti ltac:(lia) Hinv)
        as (Hle & Hidx).
      split; [lia | exact Hidx].
Qed.

(** The inner loop ends by its own test within [length targets - i]
    turns. *)
Lemma start_rescan_fuel st (n : nat) : forall targets i target target_i more,
  (length targets - i <= n)%nat ->
  start_rescan (more + n) st targets i target target_i
  = start_rescan n st targets i target target_i.
Proof.
  induction n as [|n IH]; intros targets i target ti more Hn.
  - replace (more + 0)%nat with more by lia.
    destruct more as [|more]; [reflexivity|]. cbn [start_rescan].
    rewrite lookup_ge_None_2 by lia. reflexivity.
  - replace (more + S n)%nat with (S (more + n)) by lia. cbn [start_rescan].
    destruct (targets !! i) as [du|] eqn:Hdu; [|reflexivity].
    pose proof (lookup_lt_Some _ _ _ Hdu) as Hlt.
    destruct (dl_queue_start_istarget st du); cbn [negb].
    + destruct (pick_target st target ti du i). apply IH. lia.
    + apply IH. rewrite remove_index_fast_target_length by exact Hlt. lia.
Qed.

(** The second loop ends by its own test within [length targets] turns. *)
Lemma start_loop_fuel (n : nat) : forall freeslots targets target target_i s more,
  (length targets <= n)%nat ->
  (forall t, target = Some t -> (target_i < length targets)%nat) ->
  start_loop (more + n) freeslots targets target target_i s
  = start_loop n freeslots targets target target_i s.
Proof.
  induction n as [|n IH]; intros fs targets target ti s more Hn Hinv.
  - replace (more + 0)%nat with more by lia.
    destruct target as [t|].
    + specialize (Hinv t eq_refl). lia.
    + destruct more; reflexivity.
  - replace (more + S n)%nat with (S (more + n)) by lia. cbn [start_loop].
    destruct target as [t|]; [|reflexivity].
    destruct (fs >? 0); [|reflexivity].
    destruct (dl_queue_start_user t s) as [started s'].
    destruct (started && _); [reflexivity|].
    pose proof (remove_index_fast_target_length ti targets (Hinv t eq_refl)) as Hlen.
    pose proof (start_rescan_index (length (remove_index_fast_target ti targets)) s'.1
                  (remove_index_fast_target ti targets) 0 None ti ltac:(lia)
                  ltac:(discriminate)) as Hre.
    cbv zeta in Hre.
    destruct (start_rescan _ _ _ _ _ _) as [[targets' target'] ti'].
    cbn [fst snd] in Hre. destruct Hre as (Hle & Hidx).
    apply IH; [lia | exact Hidx].
Qed.

Lemma start_loop_slots users (fuel : nat) : forall freeslots targets target target_i st calls,
  NoDup users -> heap_ok st ->
  let st' := (start_loop fuel freeslots targets target target_i (st, calls)).1 in
  heap_ok st'
  /\ act_count st users <= act_count st' users
  /\ act_count st' users <= act_count st users + Z.max 0 freeslots.
Proof.
  induction fuel as [|fuel IH]; intros fs targets target ti st calls Hnd Hok; cbn [start_loop].
  - cbn. split; [exact Hok|]. lia.
  - destruct target as [t|]; [|cbn; split; [exact Hok | lia]].
    destruct (Z.gtb_spec fs 0) as [Hfs|Hfs]; [|cbn; split; [exact Hok | lia]].
    pose proof (dl_queue_start_user_effect t st calls Hok) as Heff. cbv zeta in Heff.
    destruct (dl_queue_start_user t (st, calls)) as [started [st1 calls1]].
    cbn [fst snd] in Heff. destruct Heff as (Hok1 & Hoth & Hown).
    assert (Hcnt : act_count st users <= act_count st1 users
                   /\ act_count st1 users <= act_count st users + (if started then 1 else 0)).
    { destruct started.
      - destruct Hown as [Hb Ha'].
        pose proof (act_count_one st st1 users t Hnd Hoth Hb Ha'). lia.
      - rewrite (act_count_eq st st1 users); [lia|].
        intros v _. destruct (decide (v = t)) as [->|Hne]; auto. }
    destruct (started && _) eqn:Hbr.
    + cbn [fst]. split; [exact Hok1|]. destruct started; [lia | discriminate].
    + destruct (start_rescan _ _ _ _ _ _) as [[targets' target'] ti'].
      destruct (IH (if started then fs - 1 else fs) targets' target' ti' st1 calls1 Hnd Hok1)
        as (Hok2 & Hlo & Hhi).
      split; [exact Hok2|]. destruct started; lia.
Qed.

(** X27.  [dl_queue_start_do] respects the download slots.  On
    consistent tables, with [users] the users in the order in which the
    iterator of [queue_users] yields them, each once: the number of users
    in the state [DLU_ACT] does not go down and does not go beyond
    [download_slots], unless it was beyond before, in which case it stays
    as it is.  The tables are consistent afterwards, [dl_queue_needstart]
    is reset, and the second loop ends by its own test: more turns than
    there are targets change nothing. *)
Theorem dl_queue_start_do_slots (users : list Z) (st : dl_state) (calls : list call) :
  heap_ok st -> NoDup users ->
  let st' := (dl_queue_start_do users (st, calls)).1 in
  heap_ok st'
  /\ act_count st users <= act_count st' users
  /\ act_count st' users <= Z.max var_download_slots (act_count st users)
  /\ dl_queue_needstart st' = false
  /\ forall more, dl_queue_start_do_fuel more users (st, calls)
                  = dl_queue_start_do users (st, calls).
Proof.
  intros Hok Hnd. cbv zeta.
  assert (Hfuel : forall more, dl_queue_start_do_fuel more users (st, calls)
                               = dl_queue_start_do users (st, calls)).
  { intros more. unfold dl_queue_start_do, dl_queue_start_do_fuel. cbn [fst].
    pose proof (start_scan_index st users var_download_slots [] None 0
                  ltac:(discriminate)) as Hidx.
    destruct (start_scan st users var_download_slots [] None 0)
      as [[[fs targets] target] ti].
    cbn [fst snd] in Hidx.
    rewrite (start_loop_fuel (length targets) fs targets target ti (st, calls) more
               ltac:(lia) Hidx).
    reflexivity. }
  assert (Hmain : let st' := (dl_queue_start_do users (st, calls)).1 in
                  heap_ok st'
                  /\ act_count st users <= act_count st' users
                  /\ act_count st' users <= Z.max var_download_slots (act_count st users)
                  /\ dl_queue_needstart st' = false).
  { cbv zeta. unfold dl_queue_start_do, dl_queue_start_do_fuel. cbn [fst].
    pose proof (start_scan_freeslots st users var_download_slots [] None 0) as Hfs.
    destruct (start_scan st users var_download_slots [] None 0) as [[[fs targets] target] ti].
    cbn [fst snd] in Hfs.
    pose proof (start_loop_slots users (0 + length targets) fs targets target ti st calls
                  Hnd Hok) as Hloop.
    cbv zeta in Hloop.
    destruct (start_loop (0 + length targets) fs targets target ti (st, calls)) as [st1 calls1].
    cbn [fst] in Hloop |- *. destruct Hloop as (Hok1 & Hlo & Hhi).
    split; [|split; [|split]].
    - revert Hok1. apply heap_ok_view; [cbn; lia | reflexivity | reflexivity |].
      intros uid. apply user_like_refl.
    - rewrite (act_count_eq st1 (set_dl_queue_needstart false st1) users); [exact Hlo|].
      intros v _. reflexivity.
    - rewrite (act_count_eq st1 (set_dl_queue_needstart false st1) users); [lia|].
      intros v _. reflexivity.
    - reflexivity. }
  cbv zeta in Hmain. destruct Hmain as (Hm1 & Hm2 & Hm3 & Hm4).
  split; [exact Hm1|]. split; [exact Hm2|]. split; [exact Hm3|]. split; [exact Hm4 | exact Hfuel].
Qed.

End SchedulerFacts.

Section SchedulerExamples.
Import Dl.
#[local] Existing Instance sample_env.
#[local] Existing Instance Samples.sample_sched.

Lemma dl_queue_start_do_slots_witness :
  let st := run_ops Samples.connected_ops Samples.dl_init in
  let st' := (dl_queue_start_do [7] (st, [])).1 in
  heap_ok st'
  /\ act_count st [7] <= act_count st' [7]
  /\ act_count st' [7] <= Z.max var_download_slots (act_count st [7])
  /\ dl_queue_needstart st' = false
  /\ forall more, dl_queue_start_do_fuel more [7] (st, []) = dl_queue_start_do [7] (st, []).
Proof.
  apply (dl_queue_start_do_slots (H := sample_env) (H0 := Samples.sample_sched) [7]
           (run_ops Samples.connected_ops Samples.dl_init) []).
  - apply run_ops_heap_ok.
    split; [|split]; intros ? ?; cbn; rewrite lookup_empty; discriminate.
  - apply NoDup_singleton.
Defined.

End SchedulerExamples.

(** * One user per file *)

Section ActiveFacts.
Import Dl.
Context `{Env} `{Sched}.

(** *** Steps that take nothing *)

Lemma active_ok_view st st' :
  (forall uid du' p, queue_users st' !! uid = Some du' -> du_active du' = Some p ->
     exists du, queue_users st !! uid = Some du /\ du_active du = Some p) ->
  (forall uid du' p e', queue_users st' !! uid = Some du' -> du_active du' = Some p ->
     duds st' !! p = Some e' -> exists e, duds st !! p = Some e /\ dud_dl e = dud_dl e') ->
  (forall uid du' p e' d', queue_users st' !! uid = Some du' -> du_active du' = Some p ->
     duds st' !! p = Some e' -> dls st' !! dud_dl e' = Some d' ->
     exists d, dls st !! dud_dl e' = Some d /\ (active d = true -> active d' = true)) ->
  active_ok st -> active_ok st'.
Proof.
  intros HA HB HC (P1 & P2). split.
  - intros uid du' p e' d' Hu Ha He Hd.
    destruct (HA _ _ _ Hu Ha) as (du & Hu0 & Ha0).
    destruct (HB _ _ _ _ Hu Ha He) as (e & He0 & Hdl).
    destruct (HC _ _ _ _ _ Hu Ha He Hd) as (d & Hd0 & Hact).
    apply Hact. rewrite <- Hdl in Hd0. exact (P1 _ _ _ _ _ Hu0 Ha0 He0 Hd0).
  - intros uid1 uid2 du1 du2 p1 p2 e1 e2 Hu1 Hu2 Ha1 Ha2 He1 He2 Hdl.
    destruct (HA _ _ _ Hu1 Ha1) as (x1 & Hx1 & Hax1).
    destruct (HA _ _ _ Hu2 Ha2) as (x2 & Hx2 & Hax2).
    destruct (HB _ _ _ _ Hu1 Ha1 He1) as (y1 & Hy1 & Hdl1).
    destruct (HB _ _ _ _ Hu2 Ha2 He2) as (y2 & Hy2 & Hdl2).
    apply (P2 _ _ _ _ _ _ _ _ Hx1 Hx2 Hax1 Hax2 Hy1 Hy2). congruence.
Qed.

Lemma active_ok_same st st' :
  queue_users st' = queue_users st -> duds st' = duds st -> dls st' = dls st ->
  active_ok st -> active_ok st'.
Proof. unfold active_ok. intros -> -> ->. auto. Qed.

Lemma active_ok_emit e st : active_ok st -> active_ok (emit e st).
Proof. now apply active_ok_same. Qed.

Lemma active_ok_set_dl_queue m st : active_ok st -> active_ok (set_dl_queue m st).
Proof. now apply active_ok_same. Qed.

Lemma active_ok_set_next_ptr n st : active_ok st -> active_ok (set_next_ptr n st).
Proof. now apply active_ok_same. Qed.

Lemma active_ok_set_dl_queue_needstart b st :
  active_ok st -> active_ok (set_dl_queue_needstart b st).
Proof. now apply active_ok_same. Qed.

Lemma active_ok_dl_queue_start st : active_ok st -> active_ok (dl_queue_start st).
Proof.
  apply active_ok_same;
    [apply queue_users_dl_queue_start | apply duds_dl_queue_start | apply dls_dl_queue_start].
Qed.

Lemma active_ok_upd_dl p f st :
  (forall d, active d = true -> active (f d) = true) ->
  active_ok st -> active_ok (upd_dl p f st).
Proof.
  intros Hf. apply active_ok_view.
  - intros uid du' q Hu Ha. eauto.
  - intros uid du' q e' _ _ He. eauto.
  - intros uid du' q e' d' _ _ _ Hd. cbn in Hd. rewrite lookup_alter in Hd.
    case_decide as Hp.
    + rewrite <- Hp. destruct (dls st !! p) as [d|] eqn:Hd0; [|discriminate].
      cbn in Hd. injection Hd as <-. exists d. auto.
    + exists d'. auto.
Qed.

Lemma active_ok_upd_du uid f st :
  (forall x, du_active (f x) = du_active x \/ du_active (f x) = None) ->
  active_ok st -> active_ok (upd_du uid f st).
Proof.
  intros Hf. apply active_ok_view.
  - intros v du' q Hu Ha. cbn in Hu. rewrite lookup_alter in Hu. case_decide as Hv.
    + subst v. destruct (queue_users st !! uid) as [x|]; [|discriminate].
      cbn in Hu. injection Hu as <-. exists x. split; [reflexivity|].
      destruct (Hf x) as [Hx|Hx]; congruence.
    + eauto.
  - intros v du' q e' _ _ He. eauto.
  - intros v du' q e' d' _ _ _ Hd. eauto.
Qed.

Lemma active_ok_upd_dud p f st :
  keeps_owner f -> active_ok st -> active_ok (upd_dud p f st).
Proof.
  intros Hf. apply active_ok_view.
  - intros uid du' q Hu Ha. eauto.
  - intros uid du' q e' _ _ He. cbn in He. rewrite lookup_alter in He. case_decide as Hq.
    + subst q. destruct (duds st !! p) as [x|]; [|discriminate].
      cbn in He. injection He as <-. exists x. split; [reflexivity|].
      now destruct (Hf x) as [-> _].
    + eauto.
  - intros uid du' q e' d' _ _ _ Hd. eauto.
Qed.

Lemma active_ok_resort iter st : active_ok st -> active_ok (resort iter st).
Proof.
  intros Hok. unfold resort. case_match; [|exact Hok].
  apply active_ok_upd_du; [|exact Hok]. intros x. now left.
Qed.

Lemma active_ok_delete_user uid st :
  active_ok st -> active_ok (set_queue_users (base.delete uid (queue_users st)) st).
Proof.
  apply active_ok_view.
  - intros v du' q Hu Ha. cbn in Hu. rewrite lookup_delete in Hu.
    case_decide; [discriminate|]. eauto.
  - intros v du' q e' _ _ He. eauto.
  - intros v du' q e' d' _ _ _ Hd. eauto.
Qed.

Lemma active_ok_free dl st :
  active_ok st -> active_ok (set_dls (base.delete dl (dls st)) st).
Proof.
  apply active_ok_view.
  - intros v du' q Hu Ha. eauto.
  - intros v du' q e' _ _ He. eauto.
  - intros v du' q e' d' _ _ _ Hd. cbn in Hd. rewrite lookup_delete in Hd.
    case_decide; [discriminate|]. eauto.
Qed.

Lemma active_ok_delete_entry p st :
  active_ok st -> active_ok (set_duds (base.delete p (duds st)) st).
Proof.
  apply active_ok_view.
  - intros v du' q Hu Ha. eauto.
  - intros v du' q e' _ _ He. cbn in He. rewrite lookup_delete in He.
    case_decide; [discriminate|]. eauto.
  - intros v du' q e' d' _ _ _ Hd. eauto.
Qed.

(** A user gives up the entry it is active on. *)
Lemma active_ok_release uid p e st du :
  queue_users st !! uid = Some du -> du_active du = Some p -> duds st !! p = Some e ->
  active_ok st ->
  active_ok (upd_dl (dud_dl e) (set_active false) (upd_du uid (set_du_active None) st)).
Proof.
  intros Hu Ha He (P1 & P2). split.
  - intros v x q y d Hv Hq Hy Hd. cbn in Hv, Hy, Hd.
    rewrite lookup_alter in Hv. case_decide as Hvu.
    { subst v. rewrite Hu in Hv. cbn in Hv. injection Hv as <-. discriminate. }
    rewrite lookup_alter in Hd. case_decide as Hdl.
    + exfalso. apply Hvu.
      apply (P2 _ _ _ _ _ _ _ _ Hu Hv Ha Hq He Hy). congruence.
    + exact (P1 _ _ _ _ _ Hv Hq Hy Hd).
  - intros v1 v2 x1 x2 q1 q2 y1 y2 Hv1 Hv2 Hq1 Hq2 Hy1 Hy2 Hdl. cbn in Hv1, Hv2, Hy1, Hy2.
    rewrite lookup_alter in Hv1, Hv2.
    destruct (decide (uid = v1)) as [E1|N1].
    { subst v1. rewrite Hu in Hv1. cbn in Hv1. injection Hv1 as <-. discriminate. }
    destruct (decide (uid = v2)) as [E2|N2].
    { subst v2. rewrite Hu in Hv2. cbn in Hv2. injection Hv2 as <-. discriminate. }
    exact (P2 _ _ _ _ _ _ _ _ Hv1 Hv2 Hq1 Hq2 Hy1 Hy2 Hdl).
Qed.

(** A user takes up an entry whose record nobody is active on. *)
Lemma active_ok_acquire uid p e d st du :
  queue_users st !! uid = Some du -> duds st !! p = Some e ->
  dls st !! dud_dl e = Some d -> active d = false ->
  active_ok st ->
  active_ok (upd_du uid (set_du_active (Some p)) (upd_dl (dud_dl e) (set_active true) st)).
Proof.
  intros Hu He Hd Hact (P1 & P2). split.
  - intros v x q y d' Hv Hq Hy Hd'. cbn in Hv, Hy, Hd'.
    rewrite lookup_alter in Hd'. case_decide as Hdl.
    + rewrite Hd in Hd'. cbn in Hd'. injection Hd' as <-. reflexivity.
    + rewrite lookup_alter in Hv. case_decide as Hvu.
      * subst v. rewrite Hu in Hv. cbn in Hv. injection Hv as <-. cbn in Hq.
        injection Hq as <-. rewrite He in Hy. injection Hy as <-. contradiction.
      * exact (P1 _ _ _ _ _ Hv Hq Hy Hd').
  - assert (Hfree : forall v x q y, v <> uid -> queue_users st !! v = Some x ->
              du_active x = Some q -> duds st !! q = Some y -> dud_dl y <> dud_dl e).
    { intros v x q y Hne Hv Hq Hy Hdl. rewrite <- Hdl in Hd.
      pose proof (P1 _ _ _ _ _ Hv Hq Hy Hd). congruence. }
    intros v1 v2 x1 x2 q1 q2 y1 y2 Hv1 Hv2 Hq1 Hq2 Hy1 Hy2 Hdl. cbn in Hv1, Hv2, Hy1, Hy2.
    rewrite lookup_alter in Hv1, Hv2.
    destruct (decide (uid = v1)) as [E1|N1]; destruct (decide (uid = v2)) as [E2|N2];
      [congruence | | |].
    + exfalso. subst v1. rewrite Hu in Hv1. cbn in Hv1. injection Hv1 as <-. cbn in Hq1.
      injection Hq1 as <-. rewrite He in Hy1. injection Hy1 as <-.
      apply (Hfree v2 x2 q2 y2); [congruence | exact Hv2 | exact Hq2 | exact Hy2 | congruence].
    + exfalso. subst v2. rewrite Hu in Hv2. cbn in Hv2. injection Hv2 as <-. cbn in Hq2.
      injection Hq2 as <-. rewrite He in Hy2. injection Hy2 as <-.
      apply (Hfree v1 x1 q1 y1); [congruence | exact Hv1 | exact Hq1 | exact Hy1 | congruence].
    + exact (P2 _ _ _ _ _ _ _ _ Hv1 Hv2 Hq1 Hq2 Hy1 Hy2 Hdl).
Qed.

(** Under consistent tables the entry a user is active on is allocated,
    below the next address, and its record is there. *)
Lemma heap_ok_active_allocated st uid du p :
  heap_ok st -> queue_users st !! uid = Some du -> du_active du = Some p ->
  exists e d, duds st !! p = Some e /\ dls st !! dud_dl e = Some d
              /\ (p < next_ptr st)%N /\ (dud_dl e < next_ptr st)%N.
Proof.
  intros (W1 & W2 & W3) Hu Ha.
  destruct (W3 _ _ Hu) as (_ & Hall & Hact).
  destruct (Hall p (Hact p Ha)) as (e & He & _).
  destruct (W1 p e He) as (Hlt & d & _ & Hd & _).
  destruct (W2 _ _ Hd) as (Hlt' & _). eauto 10.
Qed.

Lemma active_ok_insert_entry x st :
  heap_ok st -> active_ok st ->
  active_ok (set_duds (<[next_ptr st := x]> (duds st)) st).
Proof.
  intros Hok. apply active_ok_view.
  - intros v du' q Hu Ha. eauto.
  - intros v du' q e' Hu Ha He. cbn in Hu, He.
    destruct (heap_ok_active_allocated st v du' q Hok Hu Ha) as (e & d & He0 & _ & Hlt & _).
    rewrite lookup_insert_ne in He by lia. eauto.
  - intros v du' q e' d' _ _ _ Hd. eauto.
Qed.

Lemma active_ok_insert_user uid x st :
  du_active x = None -> queue_users st !! uid = None ->
  active_ok st -> active_ok (set_queue_users (<[uid := x]> (queue_users st)) st).
Proof.
  intros Hx Hnone. apply active_ok_view.
  - intros v du' q Hu Ha. cbn in Hu. rewrite lookup_insert in Hu. case_decide.
    + injection Hu as <-. congruence.
    + eauto.
  - intros v du' q e' _ _ He. eauto.
  - intros v du' q e' d' _ _ _ Hd. eauto.
Qed.

Lemma active_ok_dl_alloc d st :
  heap_ok st -> active_ok st -> active_ok (snd (dl_alloc d st)).
Proof.
  intros Hok. unfold dl_alloc. cbn [snd]. apply active_ok_view.
  - intros v du' q Hu Ha. eauto.
  - intros v du' q e' _ _ He. eauto.
  - intros v du' q e' d' Hu Ha He Hd. cbn in Hu, He, Hd.
    destruct (heap_ok_active_allocated st v du' q Hok Hu Ha) as (e & d0 & He0 & Hd0 & _ & Hlt).
    rewrite He in He0. injection He0 as <-.
    rewrite lookup_insert_ne in Hd by lia. eauto.
Qed.

Lemma active_ok_dl_queue_insert dl init st :
  active_ok st -> active_ok (dl_queue_insert dl init st).
Proof.
  intros Hok. destruct (dls st !! dl) as [d|] eqn:Hd.
  2:{ unfold dl_queue_insert. now rewrite Hd. }
  destruct (dl_queue_insert_dls dl init st d Hd) as (Hdls & _ & _). cbv zeta in Hdls.
  assert (Hduds : duds (dl_queue_insert dl init st) = duds st
                  /\ queue_users (dl_queue_insert dl init st) = queue_users st).
  { unfold dl_queue_insert. rewrite Hd. cbv zeta.
    split; repeat case_match;
      rewrite ?duds_dl_queue_start, ?queue_users_dl_queue_start; reflexivity. }
  destruct Hduds as [Hduds Hqu]. revert Hok. apply active_ok_view.
  - intros v du' q Hu Ha. rewrite Hqu in Hu. eauto.
  - intros v du' q e' _ _ He. rewrite Hduds in He. eauto.
  - intros v du' q e' d' _ _ _ Hd'. rewrite Hdls, lookup_insert in Hd'. case_decide as Hp.
    + injection Hd' as <-. exists d. rewrite <- Hp. split; [exact Hd|].
      repeat case_match; cbn; auto.
    + eauto.
Qed.

(** *** The invariant step by step *)

Lemma sound_emit e st : sound st -> sound (emit e st).
Proof. intros [Hh Ha]. split; [now apply heap_ok_emit | now apply active_ok_emit]. Qed.

Lemma sound_set_dl_queue m st : sound st -> sound (set_dl_queue m st).
Proof.
  intros [Hh Ha]. split; [now apply heap_ok_set_dl_queue | now apply active_ok_set_dl_queue].
Qed.

Lemma sound_set_next_ptr st : sound st -> sound (set_next_ptr (N.succ (next_ptr st)) st).
Proof.
  intros [Hh Ha]. split; [now apply heap_ok_set_next_ptr | now apply active_ok_set_next_ptr].
Qed.

Lemma sound_dl_queue_start st : sound st -> sound (dl_queue_start st).
Proof.
  intros [Hh Ha]. split; [now apply heap_ok_dl_queue_start | now apply active_ok_dl_queue_start].
Qed.

Lemma sound_upd_dl p f st : mild f -> sound st -> sound (upd_dl p f st).
Proof.
  intros Hf [Hh Ha]. split.
  - apply heap_ok_upd_dl; [|exact Hh]. intros d. apply Hf.
  - apply active_ok_upd_dl; [|exact Ha]. intros d. destruct (Hf d) as [_ ->]. auto.
Qed.

Lemma sound_upd_du uid f st : keeps_queue f -> sound st -> sound (upd_du uid f st).
Proof.
  intros Hf [Hh Ha]. split.
  - now apply heap_ok_upd_du.
  - apply active_ok_upd_du; [|exact Ha]. intros x. apply Hf.
Qed.

Lemma sound_upd_dud p f st : keeps_owner f -> sound st -> sound (upd_dud p f st).
Proof.
  intros Hf [Hh Ha]. split; [now apply heap_ok_upd_dud | now apply active_ok_upd_dud].
Qed.

Lemma sound_resort iter st : sound st -> sound (resort iter st).
Proof. intros [Hh Ha]. split; [now apply heap_ok_resort | now apply active_ok_resort]. Qed.

Lemma mild_set_delete b : mild (set_delete b).
Proof. intros d. split; reflexivity. Qed.
Lemma mild_set_prio b : mild (set_prio b).
Proof. intros d. split; reflexivity. Qed.
Lemma mild_set_flopen b : mild (set_flopen b).
Proof. intros d. split; reflexivity. Qed.
Lemma mild_set_flmatch b : mild (set_flmatch b).
Proof. intros d. split; reflexivity. Qed.
Lemma mild_set_error e m : mild (fun d => set_error_msg m (set_error e d)).
Proof. intros d. split; reflexivity. Qed.
Lemma mild_set_incfd fd : mild (set_incfd fd).
Proof. intros d. split; reflexivity. Qed.
Lemma mild_reset : mild (fun d => set_have 0 (set_size 0 d)).
Proof. intros d. split; reflexivity. Qed.

Create HintDb snd.
#[local] Hint Resolve sound_emit sound_set_dl_queue sound_set_next_ptr sound_dl_queue_start
  sound_upd_dl sound_upd_du sound_upd_dud sound_resort
  mild_set_delete mild_set_prio mild_set_flopen mild_set_flmatch mild_set_error
  mild_set_incfd mild_reset
  keeps_queue_set_du_timeout keeps_queue_set_du_state keeps_queue_set_du_cc
  keeps_queue_set_du_active_None keeps_owner_set_error : snd.

Ltac snd := cbv zeta; repeat case_match; eauto 40 with snd.

(** *** The functions *)

Lemma sound_dl_user_setstate_with checkrm uid state st :
  (forall dl s, sound s -> sound (checkrm dl s)) ->
  sound st -> sound (dl_user_setstate_with checkrm uid state st).
Proof.
  intros Hc Hok. unfold dl_user_setstate_with.
  destruct (queue_users st !! uid) as [du|] eqn:Hdu; [|exact Hok]. cbv zeta.
  match goal with
  | |- sound (match queue_users ?s !! uid with _ => _ end) =>
      assert (Hs : sound s); [|set (s1 := s) in *]
  end.
  { (* the timeout *)
    match goal with
    | |- sound (if ?c then upd_du uid (set_du_state state) ?s else ?s) =>
        assert (Hs : sound s); [|destruct c; auto with snd]
    end.
    match goal with
    | |- sound (if ?c then match du_active du with _ => _ end else ?s) =>
        assert (Hs : sound s /\ exists x, queue_users s !! uid = Some x
                                          /\ du_active x = du_active du);
          [|destruct c; [|exact (proj1 Hs)]; set (s0 := s) in *]
    end.
    { repeat case_match.
      - split; [snd|]. cbn. rewrite lookup_alter_eq, Hdu. cbn. eauto.
      - split; [snd|]. cbn. eauto.
      - split; [exact Hok|]. eauto. }
    destruct Hs as [Hs0 (x & Hx & Hax)].
    destruct (du_active du) as [dud|] eqn:Hact; [|exact Hs0].
    destruct (duds (upd_du uid (set_du_active None) s0) !! dud) as [d|] eqn:Hd.
    2:{ auto with snd. }
    apply Hc. split.
    - apply heap_ok_upd_dl; [intros ?; reflexivity|].
      apply heap_ok_upd_du; [apply keeps_queue_set_du_active_None | exact (proj1 Hs0)].
    - apply (active_ok_release uid dud d s0 x Hx Hax Hd (proj2 Hs0)). }
  destruct (queue_users s1 !! uid) as [du'|] eqn:Hdu'; [|exact Hs].
  destruct ((du_state du' =? DLU_NCO) && (length (du_queue du') =? 0)%nat) eqn:Hc2.
  - apply andb_prop in Hc2 as [_ Hlen]. apply Nat.eqb_eq in Hlen. split.
    + apply (heap_ok_delete_user uid du'); [exact Hdu' | | exact (proj1 Hs)].
      now destruct (du_queue du').
    + apply active_ok_delete_user, Hs.
  - now apply sound_dl_queue_start.
Qed.

Lemma active_ok_dl_user_setstate_neg checkrm uid st :
  active_ok st -> active_ok (dl_user_setstate_with checkrm uid (-1) st).
Proof.
  intros Hok. unfold dl_user_setstate_with. change (-1 >=? 0) with false. cbn [andb].
  repeat case_match; auto using active_ok_delete_user, active_ok_dl_queue_start.
Qed.

Lemma sound_dl_user_add dl uid e emsg st : sound st -> sound (dl_user_add dl uid e emsg st).
Proof.
  intros [Hh Ha]. split; [now apply heap_ok_dl_user_add|].
  unfold dl_user_add. destruct (dls st !! dl) as [d|]; [|exact Ha].
  case_match; [now apply active_ok_emit|]. cbv zeta.
  apply active_ok_emit. apply active_ok_upd_dl; [intros d0; auto|].
  apply active_ok_upd_du; [intros x; now left|].
  match goal with
  | |- active_ok (set_duds (<[next_ptr ?s0 := ?x]> _) (set_next_ptr _ ?s0)) =>
      assert (Hs0 : heap_ok (set_next_ptr (N.succ (next_ptr s0)) s0)
                    /\ active_ok (set_next_ptr (N.succ (next_ptr s0)) s0)
                    /\ forall v du p, queue_users s0 !! v = Some du -> du_active du = Some p ->
                         (p < next_ptr s0)%N);
        [|set (s := s0) in *]
  end.
  { destruct (queue_users st !! uid) as [du|] eqn:Hdu.
    - split; [now apply heap_ok_set_next_ptr|]. split; [now apply active_ok_set_next_ptr|].
      intros v x p Hv Hp.
      destruct (heap_ok_active_allocated st v x p Hh Hv Hp) as (_ & _ & _ & _ & Hlt & _).
      exact Hlt.
    - assert (Hh1 : heap_ok (set_queue_users
                (<[uid := Build_dl_user_t DLU_NCO 0 uid None [] None]> (queue_users st)) st)).
      { destruct Hh as (W1 & W2 & W3). split; [|split]; cbn.
        - intros p x Hp. destruct (W1 p x Hp) as (Hlt & d0 & du0 & Hd0 & Hin & Hdu0 & Hin0).
          split; [exact Hlt|]. exists d0, du0. rewrite lookup_insert_ne by congruence. auto.
        - exact W2.
        - intros v x. rewrite lookup_insert. case_decide.
          + intros [= <-]. cbn. split; [constructor|].
            split; [intros p Hp; now apply elem_of_nil in Hp | discriminate].
          + apply W3. }
      split; [now apply heap_ok_set_next_ptr|]. split.
      + apply active_ok_set_next_ptr. now apply active_ok_insert_user.
      + intros v x p Hv Hp.
        destruct (heap_ok_active_allocated _ v x p Hh1 Hv Hp) as (_ & _ & _ & _ & Hlt & _).
        exact Hlt. }
  destruct Hs0 as (Hh0 & Ha0 & Hfresh). revert Ha0. apply active_ok_view.
  - intros v du' q Hu Hq. eauto.
  - intros v du' q e' Hu Hq He. cbn in Hu, He.
    specialize (Hfresh v du' q Hu Hq). rewrite lookup_insert_ne in He by lia. eauto.
  - intros v du' q e' d' _ _ _ Hd. eauto.
Qed.

Lemma sound_dl_user_rm dl i st : sound st -> sound (dl_user_rm dl i st).
Proof.
  intros [Hh Ha]. split; [now apply heap_ok_dl_user_rm|].
  unfold dl_user_rm.
  destruct (dls st !! dl) as [d|] eqn:Hd; [|exact Ha].
  destruct (u d !! i) as [dudi|] eqn:Hi; [|exact Ha].
  destruct (duds st !! dudi) as [dud|] eqn:He; [|exact Ha].
  destruct (queue_users st !! dud_u dud) as [du|] eqn:Hdu; [|exact Ha].
  cbv zeta. apply active_ok_dl_user_setstate_neg.
  apply active_ok_upd_dl; [intros d0; auto|].
  apply active_ok_delete_entry.
  apply active_ok_upd_du; [intros x; now left|].
  apply active_ok_emit.
  case_bool_decide as Hact; [|exact Ha].
  assert (Hdl : dud_dl dud = dl).
  { destruct Hh as (_ & W2 & _). destruct (W2 dl d Hd) as (_ & _ & Hall).
    destruct (Hall dudi) as (x & Hx & Hxd); [eapply list_elem_of_lookup_2; eauto|].
    congruence. }
  rewrite <- Hdl.
  apply (active_ok_release (dud_u dud) dudi dud (emit _ st) du); auto.
Qed.

#[local] Hint Resolve sound_dl_user_rm sound_dl_user_add : snd.

Lemma sound_dl_queue_rm_users n dl st : sound st -> sound (dl_queue_rm_users n dl st).
Proof.
  revert st. induction n as [|n IH]; intros st Hs; simpl; [assumption|].
  repeat case_match; auto with snd.
Qed.

#[local] Hint Resolve sound_dl_queue_rm_users : snd.

Lemma sound_dl_queue_rm dl st : sound st -> sound (dl_queue_rm dl st).
Proof.
  intros Hs. split; [apply heap_ok_dl_queue_rm, Hs|].
  unfold dl_queue_rm. destruct (dls st !! dl) as [d0|]; [|apply Hs]. cbv zeta.
  assert (H2 : sound (dl_queue_rm_users (length (u d0)) dl (upd_dl dl (set_delete true) st)))
    by auto with snd.
  set (st2 := dl_queue_rm_users _ _ _) in *.
  repeat case_match;
    repeat first [apply active_ok_emit | apply active_ok_free | apply active_ok_set_dl_queue];
    apply H2.
Qed.

#[local] Hint Resolve sound_dl_queue_rm : snd.

Lemma sound_dl_queue_checkrm_loop fuel dl i st :
  sound st -> sound (dl_queue_checkrm_loop fuel dl i st).
Proof.
  revert i st. induction fuel as [|fuel IH]; intros i st Hs; simpl; [assumption|].
  repeat case_match; auto with snd.
Qed.

#[local] Hint Resolve sound_dl_queue_checkrm_loop : snd.

Lemma sound_dl_queue_checkrm dl justfin st :
  sound st -> sound (dl_queue_checkrm dl justfin st).
Proof. intros Hs. unfold dl_queue_checkrm. snd. Qed.

#[local] Hint Resolve sound_dl_queue_checkrm : snd.

Lemma sound_dl_user_setstate uid state st :
  sound st -> sound (dl_user_setstate uid state st).
Proof. intros Hs. apply sound_dl_user_setstate_with; auto with snd. Qed.

#[local] Hint Resolve sound_dl_user_setstate : snd.

Lemma sound_dl_user_cc uid cc st : sound st -> sound (dl_user_cc uid cc st).
Proof. intros Hs. unfold dl_user_cc. snd. Qed.

Lemma sound_dl_user_waitdone uid st : sound st -> sound (dl_user_waitdone uid st).
Proof. intros Hs. unfold dl_user_waitdone. snd. Qed.

Lemma sound_fold_resort l st :
  sound st -> sound (fold_left (fun s iter => resort iter s) l st).
Proof. revert st. induction l as [|x l IH]; intros st Hs; simpl; auto with snd. Qed.

#[local] Hint Resolve sound_fold_resort : snd.

Lemma sound_dl_queue_setprio dl p st : sound st -> sound (dl_queue_setprio dl p st).
Proof. intros Hs. unfold dl_queue_setprio. snd. Qed.

#[local] Hint Resolve sound_dl_queue_setprio : snd.

Lemma sound_dl_queue_seterr dl e sub st : sound st -> sound (dl_queue_seterr dl e sub st).
Proof. intros Hs. unfold dl_queue_seterr. snd. Qed.

Lemma sound_dl_queue_setuerr uid tth e emsg st :
  sound st -> sound (dl_queue_setuerr uid tth e emsg st).
Proof. intros Hs. unfold dl_queue_setuerr. snd. Qed.

Lemma sound_rmuser_from which dl st : sound st -> sound (rmuser_from which dl st).
Proof. intros Hs. unfold rmuser_from. snd. Qed.

#[local] Hint Resolve sound_rmuser_from : snd.

Lemma sound_fold_rmuser (l : list N) st :
  sound st -> sound (fold_left (fun s i => rmuser_turn i s) l st).
Proof.
  revert st. induction l as [|x l IH]; intros st Hs; simpl; [assumption|].
  apply IH. unfold rmuser_turn. snd.
Qed.

#[local] Hint Resolve sound_fold_rmuser : snd.

Lemma sound_dl_queue_rmuser uid tth st : sound st -> sound (dl_queue_rmuser uid tth st).
Proof. intros Hs. unfold dl_queue_rmuser. snd. Qed.

Lemma sound_alloc_insert d init st dl st1 :
  u d = [] -> dl_alloc d st = (dl, st1) ->
  sound st -> sound (dl_queue_insert dl init st1).
Proof.
  intros Hu Hal [Hh Ha]. split; [eapply heap_ok_alloc_insert; eauto|].
  apply active_ok_dl_queue_insert.
  replace st1 with (snd (dl_alloc d st)) by now rewrite Hal.
  now apply active_ok_dl_alloc.
Qed.

(** Every operation of the queue keeps the invariant. *)
Lemma run_op_sound (op : dl_op) (st : dl_state) : sound st -> sound (run_op op st).
Proof.
  intros Hok. destruct op; cbn [run_op].
  - (* dl_queue_addlist *)
    unfold dl_queue_addlist. repeat case_match; simplify_eq; auto 10 with snd.
    apply sound_dl_user_add. eapply sound_alloc_insert; [|eassumption|exact Hok].
    reflexivity.
  - (* dl_queue_addfile *)
    unfold dl_queue_addfile. repeat case_match; simplify_eq; [exact Hok|].
    cbn [snd]. apply sound_emit, sound_dl_user_add.
    eapply sound_alloc_insert; [|eassumption|exact Hok]. reflexivity.
  - (* dl_queue_matchfile *)
    unfold dl_queue_matchfile. repeat case_match; simplify_eq; try exact Hok.
    cbn [snd]. auto with snd.
  - auto with snd.
  - auto with snd.
  - auto with snd.
  - now apply sound_dl_queue_seterr.
  - now apply sound_dl_queue_setuerr.
  - now apply sound_dl_queue_rmuser.
  - auto with snd.
  - auto with snd.
  - auto with snd.
  - auto with snd.
  - now apply sound_dl_user_cc.
  - now apply sound_dl_user_waitdone.
  - (* dl_load_dl *)
    unfold dl_load_dl. repeat case_match; simplify_eq; auto with snd.
    all: eapply sound_alloc_insert; [|eassumption|exact Hok]; reflexivity.
  - (* dl_load_dlu *)
    unfold dl_load_dlu. case_match; auto with snd.
Qed.

(** *** Starting downloads *)

Lemma dl_user_getdl_loop_startable st q p :
  dl_user_getdl_loop st q = Some p -> startable st p.
Proof.
  induction q as [|a r IH]; cbn; [discriminate|].
  destruct (duds st !! a) as [dud|] eqn:Hdud; [|discriminate].
  destruct (dls st !! dud_dl dud) as [d|] eqn:Hd; [|discriminate].
  destruct (dl_user_dl_enabled dud d) eqn:Hen; cbn [negb]; [|discriminate].
  destruct (active d) eqn:Hact; cbn [negb]; [exact IH|].
  intros [= <-]. exists dud, d. auto.
Qed.

Lemma sound_dl_queue_start_user uid st calls :
  sound st -> sound (dl_queue_start_user uid (st, calls)).2.1.
Proof.
  intros Hs. unfold dl_queue_start_user.
  destruct (dl_queue_start_istarget st uid) eqn:Ht; cbn [negb]; [|cbn; auto with snd].
  unfold dl_queue_start_istarget in Ht.
  destruct (queue_users st !! uid) as [du|] eqn:Hdu; [|discriminate].
  destruct (du_state du =? DLU_NCO); [cbn; auto with snd|].
  destruct (dl_user_getdl st du) as [dud|] eqn:Hget; [|cbn; auto with snd].
  destruct (dl_user_getdl_loop_startable _ _ _ Hget) as (x & d & Hx & Hd & _ & Hact).
  pose proof (dl_user_getdl_loop_in _ _ _ Hget) as Hin.
  rewrite Hx. cbn [mbind option_bind]. rewrite Hd. cbn [mbind option_bind].
  assert (Hstart : forall st1 calls1 d1,
            sound st1 -> queue_users st1 = queue_users st -> duds st1 = duds st ->
            dls st1 !! dud_dl x = Some d1 -> active d1 = false ->
            sound (let st2 := upd_dl (dud_dl x) (set_active true) st1 in
                   let st3 := upd_du uid (set_du_active (Some dud)) st2 in
                   let st4 := dl_user_setstate uid DLU_ACT st3 in
                   let cc := queue_users st4 !! uid ≫= du_cc in
                   (true, (st4, calls1 ++ [Call_cc_download cc (dud_dl x)]))).2.1).
  { intros st1 calls1 d1 [Hh1 Ha1] Hq1 He1 Hd1 Hact1. cbv zeta. cbn [fst snd].
    apply sound_dl_user_setstate. split.
    - apply (heap_ok_set_du_active uid dud _ du); [cbn; now rewrite Hq1 | exact Hin |].
      apply heap_ok_upd_dl; [intros ?; reflexivity | exact Hh1].
    - apply (active_ok_acquire uid dud x d1 st1 du); auto; congruence. }
  destruct (islist d && (have d >? 0)).
  - destruct (sys_close (incfd d) =? 0); cbn [negb]; [|cbn; auto 10 with snd].
    destruct (sys_open (inc d) >=? 0); cbn [negb]; [|cbn; auto 10 with snd].
    apply (Hstart _ _ (set_incfd (sys_open (inc d)) (set_have 0 (set_size 0 d))));
      [auto 10 with snd | reflexivity | reflexivity | | exact Hact].
    cbn. rewrite lookup_alter_eq. cbn. rewrite lookup_alter_eq, Hd. reflexivity.
  - apply (Hstart _ _ d); auto.
Qed.

Lemma sound_start_loop (fuel : nat) : forall freeslots targets target target_i st calls,
  sound st -> sound (start_loop fuel freeslots targets target target_i (st, calls)).1.
Proof.
  induction fuel as [|fuel IH]; intros fs targets target ti st calls Hs; cbn [start_loop];
    [exact Hs|].
  destruct target as [t|]; [|exact Hs].
  destruct (fs >? 0); [|exact Hs].
  pose proof (sound_dl_queue_start_user t st calls Hs) as Hs1.
  destruct (dl_queue_start_user t (st, calls)) as [started [st1 calls1]]. cbn [fst snd] in Hs1.
  destruct (started && _); [exact Hs1|].
  destruct (start_rescan _ _ _ _ _ _) as [[targets' target'] ti'].
  now apply IH.
Qed.

Lemma sound_dl_queue_start_do users st calls :
  sound st -> sound (dl_queue_start_do users (st, calls)).1.
Proof.
  intros Hs. unfold dl_queue_start_do, dl_queue_start_do_fuel. cbn [fst].
  destruct (start_scan st users var_download_slots [] None 0) as [[[fs targets] target] ti].
  pose proof (sound_start_loop (0 + length targets) fs targets target ti st calls Hs) as Hs1.
  destruct (start_loop (0 + length targets) fs targets target ti (st, calls)) as [st1 calls1].
  cbn [fst] in Hs1 |- *. destruct Hs1 as [Hh Ha]. split.
  - revert Hh. apply heap_ok_view; [cbn; lia | reflexivity | reflexivity |].
    intros uid. apply user_like_refl.
  - now apply active_ok_set_dl_queue_needstart.
Qed.

Lemma run_sched_ops_sound (ops : list sched_op) : forall s,
  sound s.1 -> sound (run_sched_ops ops s).1.
Proof.
  induction ops as [|op ops IH]; intros s Hs; [exact Hs|].
  cbn [run_sched_ops fold_left]. apply IH. destruct op as [o|users]; cbn [run_sched_op].
  - cbn [fst]. now apply run_op_sound.
  - destruct s as [st calls]. now apply sound_dl_queue_start_do.
Qed.

End ActiveFacts.

(** * What gets started *)

Section StartedFacts.
Import Dl.
Context `{Env} `{Sched}.

Lemma steady_refl s : steady s s.
Proof. split; [reflexivity|]. split; eauto 10. Qed.

Lemma steady_trans s1 s2 s3 : steady s1 s2 -> steady s2 s3 -> steady s1 s3.
Proof.
  intros (E1 & D1 & U1) (E2 & D2 & U2). split; [congruence|]. split.
  - intros dl d3 H3. destruct (D2 dl d3 H3) as (d2 & H2 & Hp2 & Ha2).
    destruct (D1 dl d2 H2) as (d1 & H1 & Hp1 & Ha1).
    exists d1. split; [exact H1|]. split; [congruence | auto].
  - intros uid x3 H3. destruct (U2 uid x3 H3) as (x2 & H2 & Hq2 & Hc2 & Hs2).
    destruct (U1 uid x2 H2) as (x1 & H1 & Hq1 & Hc1 & Hs1).
    exists x1. split; [exact H1|]. split; [congruence|]. split; [congruence | auto].
Qed.

Lemma steady_same s s' :
  duds s' = duds s -> dls s' = dls s -> queue_users s' = queue_users s -> steady s s'.
Proof. intros E D U. unfold steady. rewrite E, D, U. apply steady_refl. Qed.

Lemma steady_emit e s : steady s (emit e s).
Proof. now apply steady_same. Qed.

Lemma steady_dl_queue_start s : steady s (dl_queue_start s).
Proof.
  apply steady_same;
    [apply duds_dl_queue_start | apply dls_dl_queue_start | apply queue_users_dl_queue_start].
Qed.

Lemma steady_upd_dl p f s :
  (forall d, prio (f d) = prio d /\ (active (f d) = false -> active d = false)) ->
  steady s (upd_dl p f s).
Proof.
  intros Hf. split; [reflexivity|]. split; [|eauto 10].
  intros dl d' Hd. cbn in Hd. rewrite lookup_alter in Hd. case_decide as Hp; [|eauto].
  subst dl. destruct (dls s !! p) as [d|]; [|discriminate]. cbn in Hd. injection Hd as <-.
  exists d. destruct (Hf d) as [Hp Ha]. auto.
Qed.

Lemma steady_upd_du uid f s :
  (forall x, du_queue (f x) = du_queue x /\ du_cc (f x) = du_cc x
             /\ (du_state (f x) = DLU_IDL -> du_state x = DLU_IDL)) ->
  steady s (upd_du uid f s).
Proof.
  intros Hf. split; [reflexivity|]. split; [eauto 10|].
  intros v x' Hx. cbn in Hx. rewrite lookup_alter in Hx. case_decide as Hv; [|eauto 10].
  subst v. destruct (queue_users s !! uid) as [x|]; [|discriminate]. cbn in Hx.
  injection Hx as <-. exists x. destruct (Hf x) as (Hq & Hc & Hs). auto.
Qed.

Lemma started_ok_steady st s c : steady st s -> started_ok s c -> started_ok st c.
Proof.
  intros (E & D & U). destruct c as [uid|path ret|cc dl]; cbn; auto.
  intros (uid & du & p & e & d & Hu & Hs & Hc & Hin & He & Hdl & Hd & Herr & Hp & Ha).
  destruct (U uid du Hu) as (du0 & Hu0 & Hq0 & Hc0 & Hs0).
  destruct (D dl d Hd) as (d0 & Hd0 & Hp0 & Ha0).
  exists uid, du0, p, e, d0. rewrite Hq0, Hc0, Hp0, <- E. repeat split; auto.
Qed.

(** One call of [dl_queue_start_user]: what it adds to the calls, and
    how the tables move. *)
Lemma dl_queue_start_user_calls uid st calls :
  let r := dl_queue_start_user uid (st, calls) in
  steady st r.2.1
  /\ exists new, r.2.2 = calls ++ new /\ Forall (started_ok st) new.
Proof.
  cbv zeta. unfold dl_queue_start_user.
  assert (Hnone : forall s, steady st s ->
            steady st s /\ exists new, calls = calls ++ new /\ Forall (started_ok st) new).
  { intros s Hs. split; [exact Hs|]. exists []. now rewrite app_nil_r. }
  destruct (dl_queue_start_istarget st uid) eqn:Ht; cbn [negb];
    [|cbn [fst snd]; apply Hnone, steady_emit].
  unfold dl_queue_start_istarget in Ht.
  destruct (queue_users st !! uid) as [du|] eqn:Hdu; [|discriminate].
  destruct (negb (du_state du =? DLU_NCO) && negb (du_state du =? DLU_IDL)) eqn:Hst;
    [discriminate|]. cbn [orb] in Ht.
  assert (Hstate : du_state du = DLU_NCO \/ du_state du = DLU_IDL).
  { destruct (Z.eqb_spec (du_state du) DLU_NCO); [now left|].
    destruct (Z.eqb_spec (du_state du) DLU_IDL); [now right | discriminate]. }
  destruct (du_state du =? DLU_NCO) eqn:Hnco.
  - cbn [fst snd].
    rewrite (dl_user_setstate_forward uid DLU_EXP st du Hdu Hstate (or_introl eq_refl)).
    split.
    + eapply steady_trans; [|apply steady_dl_queue_start].
      apply steady_upd_du. intros x. cbn. repeat split; discriminate.
    + exists [Call_hub_opencc uid]. split; [reflexivity|]. repeat constructor.
  - assert (Hidl : du_state du = DLU_IDL).
    { destruct Hstate as [Hs|Hs]; [|exact Hs]. rewrite Hs in Hnco. discriminate. }
    destruct (dl_user_getdl st du) as [dud|] eqn:Hget;
      [|cbn [fst snd]; apply Hnone, steady_emit].
    destruct (dl_user_getdl_loop_startable _ _ _ Hget) as (x & d & Hx & Hd & Hen & Hact).
    pose proof (dl_user_getdl_loop_in _ _ _ Hget) as Hin.
    rewrite Hx. cbn [mbind option_bind]. rewrite Hd. cbn [mbind option_bind].
    assert (Hok : started_ok st (Call_cc_download (du_cc du) (dud_dl x))).
    { exists uid, du, dud, x, d. unfold dl_user_dl_enabled in Hen.
      apply andb_prop in Hen as [Hen _]. apply andb_prop in Hen as [Herr Hprio].
      unfold truthy in Herr. rewrite negb_involutive in Herr.
      apply Z.eqb_eq in Herr. apply Z.gtb_lt in Hprio. repeat split; auto; lia. }
    assert (Hstart : forall st1 calls1 new1,
              steady st st1 -> queue_users st1 !! uid = Some du ->
              calls1 = calls ++ new1 -> Forall (started_ok st) new1 ->
              let r := (let st2 := upd_dl (dud_dl x) (set_active true) st1 in
                        let st3 := upd_du uid (set_du_active (Some dud)) st2 in
                        let st4 := dl_user_setstate uid DLU_ACT st3 in
                        let cc := queue_users st4 !! uid ≫= du_cc in
                        (true, (st4, calls1 ++ [Call_cc_download cc (dud_dl x)]))) in
              steady st r.2.1
              /\ exists new, r.2.2 = calls ++ new /\ Forall (started_ok st) new).
    { intros st1 calls1 new1 Hs1 Hq1 Hc1 Hn1. cbv zeta. cbn [fst snd].
      set (st3 := upd_du uid (set_du_active (Some dud))
                    (upd_dl (dud_dl x) (set_active true) st1)).
      assert (Hdu3 : queue_users st3 !! uid = Some (set_du_active (Some dud) du)).
      { unfold st3. cbn [upd_du upd_dl queue_users set_queue_users set_dls].
        rewrite lookup_alter_eq, Hq1. reflexivity. }
      rewrite (dl_user_setstate_forward uid DLU_ACT st3 _ Hdu3 (or_intror Hidl)
                 (or_intror eq_refl)).
      split.
      - eapply steady_trans; [exact Hs1|].
        eapply steady_trans; [|apply steady_dl_queue_start].
        eapply steady_trans; [|apply steady_upd_du; intros y; cbn; repeat split; discriminate].
        eapply steady_trans; [|apply steady_upd_du; intros y; cbn; repeat split; auto].
        apply steady_upd_dl. intros y. cbn. split; [reflexivity | discriminate].
      - rewrite queue_users_dl_queue_start. cbn [upd_du queue_users set_queue_users].
        rewrite lookup_alter_eq, Hdu3. cbn [fmap option_fmap option_map mbind option_bind].
        exists (new1 ++ [Call_cc_download (du_cc du) (dud_dl x)]).
        split; [rewrite Hc1, app_assoc; reflexivity|].
        apply Forall_app. split; [exact Hn1 | repeat constructor; exact Hok]. }
    assert (Hmild : forall f s, (forall y, prio (f y) = prio y /\ active (f y) = active y) ->
              steady s (upd_dl (dud_dl x) f s)).
    { intros f s Hf. apply steady_upd_dl. intros y. destruct (Hf y) as [-> ->]. auto. }
    destruct (islist d && (have d >? 0)).
    + destruct (sys_close (incfd d) =? 0); cbn [negb].
      2:{ cbn [fst snd]. apply Hnone.
          eapply steady_trans; [|apply steady_emit].
          eapply steady_trans; [|apply steady_emit]. apply Hmild. intros y. split; reflexivity. }
      destruct (sys_open (inc d) >=? 0); cbn [negb].
      2:{ cbn [fst snd]. split.
          - eapply steady_trans; [|apply steady_emit].
            eapply steady_trans; [|apply Hmild; intros y; split; reflexivity].
            eapply steady_trans; [|apply steady_emit]. apply Hmild. intros y. split; reflexivity.
          - exists [Call_open (inc d) (sys_open (inc d))]. split; [reflexivity|].
            repeat constructor. }
      apply (Hstart _ _ [Call_open (inc d) (sys_open (inc d))]).
      * eapply steady_trans; [|apply Hmild; intros y; split; reflexivity].
        eapply steady_trans; [|apply steady_emit]. apply Hmild. intros y. split; reflexivity.
      * exact Hdu.
      * reflexivity.
      * repeat constructor.
    + apply (Hstart st calls []); [apply steady_refl | exact Hdu | now rewrite app_nil_r |
                                   constructor].
Qed.

Lemma start_loop_calls st0 (fuel : nat) : forall freeslots targets target target_i st calls,
  steady st0 st ->
  let r := start_loop fuel freeslots targets target target_i (st, calls) in
  steady st0 r.1 /\ exists new, r.2 = calls ++ new /\ Forall (started_ok st0) new.
Proof.
  assert (Hnone : forall st (calls : list call), steady st0 st ->
            steady st0 st /\ exists new, calls = calls ++ new /\ Forall (started_ok st0) new).
  { intros s calls Hs. split; [exact Hs|]. exists []. now rewrite app_nil_r. }
  induction fuel as [|fuel IH]; intros fs targets target ti st calls Hs; cbn [start_loop];
    [now apply Hnone|].
  destruct target as [t|]; [|now apply Hnone].
  destruct (fs >? 0); [|now apply Hnone].
  pose proof (dl_queue_start_user_calls t st calls) as Hstep. cbv zeta in Hstep.
  destruct (dl_queue_start_user t (st, calls)) as [started [st1 calls1]].
  cbn [fst snd] in Hstep. destruct Hstep as (Hs1 & new1 & Hc1 & Hn1).
  assert (Hs01 : steady st0 st1) by (eapply steady_trans; eauto).
  assert (Hn01 : Forall (started_ok st0) new1).
  { eapply Forall_impl; [exact Hn1|]. intros c. now apply started_ok_steady. }
  destruct (started && _).
  - cbn [fst snd]. split; [exact Hs01|]. eauto.
  - destruct (start_rescan _ _ _ _ _ _) as [[targets' target'] ti'].
    destruct (IH (if started then fs - 1 else fs) targets' target' ti' st1 calls1 Hs01)
      as (Hs2 & new2 & Hc2 & Hn2).
    split; [exact Hs2|]. exists (new1 ++ new2). split.
    + rewrite Hc2, Hc1, app_assoc. reflexivity.
    + apply Forall_app. auto.
Qed.

(** X29.  [dl_queue_start_do] starts only what may be started.
    Whatever the tables are, the function only adds to the calls made,
    and every [cc_download(cc, dl)] among the calls it adds is made on
    the connection of a user that was in [DLU_IDL] when the function was
    entered and that has, in its queue, an entry for [dl] without error,
    where [dl] had a priority above [DLP_OFF], so was neither switched off
    nor in error, and was not being downloaded. *)
Theorem dl_queue_start_do_enabled (users : list Z) (st : dl_state) (calls : list call) :
  exists new,
    (dl_queue_start_do users (st, calls)).2 = calls ++ new
    /\ Forall (started_ok st) new.
Proof.
  unfold dl_queue_start_do, dl_queue_start_do_fuel. cbn [fst].
  destruct (start_scan st users var_download_slots [] None 0) as [[[fs targets] target] ti].
  destruct (start_loop_calls st (0 + length targets) fs targets target ti st calls
              (steady_refl st)) as (_ & new & Hc & Hn).
  destruct (start_loop (0 + length targets) fs targets target ti (st, calls)) as [st1 calls1].
  cbn [fst snd] in Hc |- *. eauto.
Qed.

End StartedFacts.

(** * Letting go of a file *)

Section ReleaseFacts.
Import Dl.
Context `{Env}.

Lemma calmer_refl s : calmer s s.
Proof. split; eauto 10. Qed.

Lemma calmer_trans s1 s2 s3 : calmer s1 s2 -> calmer s2 s3 -> calmer s1 s3.
Proof.
  intros (D1 & U1) (D2 & U2). split.
  - intros dl d3 H3. destruct (D2 dl d3 H3) as (d2 & H2 & Ha2).
    destruct (D1 dl d2 H2) as (d1 & H1 & Ha1). eauto.
  - intros uid x1 H1 Hn. destruct (U1 uid x1 H1 Hn) as (x2 & H2 & Hs2 & Hc2 & Ha2).
    destruct (U2 uid x2 H2 ltac:(congruence)) as (x3 & H3 & Hs3 & Hc3 & Ha3).
    exists x3. split; [exact H3|]. split; [congruence|]. split; [congruence | auto].
Qed.

Lemma calmer_step s0 s s' : calmer s s' -> calmer s0 s -> calmer s0 s'.
Proof. intros H1 H2. eapply calmer_trans; eauto. Qed.

Lemma calmer_same s s' :
  dls s' = dls s -> queue_users s' = queue_users s -> calmer s s'.
Proof. intros D U. unfold calmer. rewrite D, U. apply calmer_refl. Qed.

Lemma calmer_emit s0 e s : calmer s0 s -> calmer s0 (emit e s).
Proof. apply calmer_step. now apply calmer_same. Qed.

Lemma calmer_set_dl_queue s0 m s : calmer s0 s -> calmer s0 (set_dl_queue m s).
Proof. apply calmer_step. now apply calmer_same. Qed.

Lemma calmer_set_duds s0 m s : calmer s0 s -> calmer s0 (set_duds m s).
Proof. apply calmer_step. now apply calmer_same. Qed.

Lemma calmer_dl_queue_start s0 s : calmer s0 s -> calmer s0 (dl_queue_start s).
Proof.
  apply calmer_step.
  apply calmer_same; [apply dls_dl_queue_start | apply queue_users_dl_queue_start].
Qed.

Lemma calmer_upd_dl s0 p f s :
  (forall d, active d = false -> active (f d) = false) ->
  calmer s0 s -> calmer s0 (upd_dl p f s).
Proof.
  intros Hf. apply calmer_step. split; [|eauto 10].
  intros dl d' Hd. cbn in Hd. rewrite lookup_alter in Hd. case_decide as Hp; [|eauto].
  subst dl. destruct (dls s !! p) as [d|]; [|discriminate]. cbn in Hd. injection Hd as <-.
  eauto.
Qed.

Lemma calmer_upd_du s0 uid f s :
  (forall x, du_state (f x) = du_state x /\ du_cc (f x) = du_cc x
             /\ (du_active x = None -> du_active (f x) = None)) ->
  calmer s0 s -> calmer s0 (upd_du uid f s).
Proof.
  intros Hf. apply calmer_step. split; [eauto|].
  intros v x Hx Hn. cbn. rewrite lookup_alter. case_decide as Hv; [|eauto 10].
  subst v. rewrite Hx. cbn. destruct (Hf x) as (Hs & Hc & Ha). eauto 10.
Qed.

Lemma calmer_free s0 dl s : calmer s0 s -> calmer s0 (set_dls (base.delete dl (dls s)) s).
Proof.
  apply calmer_step. split; [|eauto 10].
  intros p d' Hd. cbn in Hd. rewrite lookup_delete in Hd. case_decide; [discriminate|]. eauto.
Qed.

Lemma calmer_delete_user s0 uid du s :
  queue_users s !! uid = Some du -> du_state du = DLU_NCO ->
  calmer s0 s -> calmer s0 (set_queue_users (base.delete uid (queue_users s)) s).
Proof.
  intros Hdu Hs. apply calmer_step. split; [eauto|].
  intros v x Hx Hn. cbn. rewrite lookup_delete. case_decide as Hv; [|eauto 10].
  subst v. congruence.
Qed.

Lemma calmer_dl_user_setstate_neg s0 checkrm uid s :
  calmer s0 s -> calmer s0 (dl_user_setstate_with checkrm uid (-1) s).
Proof.
  intros Hs. unfold dl_user_setstate_with. change (-1 >=? 0) with false. cbn [andb].
  destruct (queue_users s !! uid) as [du|] eqn:Hdu; [|exact Hs]. cbv zeta.
  rewrite ?Hdu.
  destruct ((du_state du =? DLU_NCO) && _) eqn:Hc; [|now apply calmer_dl_queue_start].
  apply andb_prop in Hc as [Hn _]. apply Z.eqb_eq in Hn.
  now apply (calmer_delete_user s0 uid du).
Qed.

Lemma calmer_dl_user_rm s0 dl i s : calmer s0 s -> calmer s0 (dl_user_rm dl i s).
Proof.
  intros Hs. unfold dl_user_rm.
  destruct (dls s !! dl) as [d|]; [|exact Hs].
  destruct (u d !! i) as [dudi|]; [|exact Hs].
  destruct (duds s !! dudi) as [dud|]; [|exact Hs].
  destruct (queue_users s !! dud_u dud) as [du|]; [|exact Hs].
  cbv zeta. apply calmer_dl_user_setstate_neg.
  apply calmer_upd_dl; [intros y; auto|].
  apply calmer_set_duds.
  apply calmer_upd_du; [intros y; cbn; auto|].
  apply calmer_emit.
  case_bool_decide; [|exact Hs].
  apply calmer_upd_dl; [intros y; auto|].
  apply calmer_upd_du; [intros y; cbn; auto|].
  now apply calmer_emit.
Qed.

Lemma calmer_dl_queue_rm_users s0 n dl s :
  calmer s0 s -> calmer s0 (dl_queue_rm_users n dl s).
Proof.
  revert s. induction n as [|n IH]; intros s Hs; simpl; [assumption|].
  repeat case_match; auto using calmer_dl_user_rm.
Qed.

Lemma calmer_dl_queue_rm s0 dl s : calmer s0 s -> calmer s0 (dl_queue_rm dl s).
Proof.
  intros Hs. unfold dl_queue_rm. destruct (dls s !! dl) as [d0|]; [|exact Hs]. cbv zeta.
  assert (H2 : calmer s0 (dl_queue_rm_users (length (u d0)) dl
                            (upd_dl dl (set_delete true) s))).
  { apply calmer_dl_queue_rm_users. apply calmer_upd_dl; [intros d; auto | exact Hs]. }
  set (st2 := dl_queue_rm_users _ _ _) in *.
  repeat case_match;
    repeat first [apply calmer_emit | apply calmer_free | apply calmer_set_dl_queue];
    exact H2.
Qed.

Lemma calmer_dl_queue_checkrm s0 dl s :
  calmer s0 s -> calmer s0 (dl_queue_checkrm dl false s).
Proof.
  intros Hs. unfold dl_queue_checkrm. cbn [andb].
  repeat case_match; auto using calmer_dl_queue_rm.
Qed.

(** X30.  A user that leaves [DLU_ACT] lets go of its file.  On
    consistent tables with one user per file, for a user in [DLU_ACT]
    that is active on an entry: after [dl_user_cc(uid, cc)], which
    reports that the connection failed ([cc] NULL) or is idle again, the
    user is still in the table, in [DLU_WAI] or [DLU_IDL] respectively,
    with [cc] stored and active on nothing, and the record of the entry
    is either gone from the queue, if it was complete, or not marked
    [active] any more, so that it can be given out again.  The invariants
    hold afterwards. *)
Theorem dl_user_cc_releases (uid : Z) (cc : option N) (st : dl_state)
    (du : dl_user_t) (p : N) (e : dl_user_dl_t) :
  heap_ok st -> active_ok st ->
  queue_users st !! uid = Some du -> du_state du = DLU_ACT ->
  du_active du = Some p -> duds st !! p = Some e ->
  let st' := dl_user_cc uid cc st in
  heap_ok st' /\ active_ok st'
  /\ (exists du', queue_users st' !! uid = Some du'
                  /\ du_state du' = (if bool_decide (cc = None) then DLU_WAI else DLU_IDL)
                  /\ du_cc du' = cc /\ du_active du' = None)
  /\ (forall d, dls st' !! dud_dl e = Some d -> active d = false).
Proof.
  intros Hh Ha Hdu Hact Hp He st'.
  assert (Hsound : sound st') by (apply sound_dl_user_cc; split; assumption).
  split; [apply Hsound|]. split; [apply Hsound|].
  unfold st', dl_user_cc. rewrite Hdu, Hact.
  replace (negb _) with false
    by (now rewrite !orb_true_r).
  set (state := if bool_decide (cc = None) then DLU_WAI else DLU_IDL).
  assert (Hstate : state = DLU_WAI \/ state = DLU_IDL)
    by (unfold state; case_bool_decide; auto).
  set (st1 := upd_du uid (set_du_cc cc) st).
  assert (Hdu1 : queue_users st1 !! uid = Some (set_du_cc cc du))
    by (unfold st1; cbn; now rewrite lookup_alter_eq, Hdu).
  unfold dl_user_setstate, dl_user_setstate_with. rewrite Hdu1.
  cbn [du_state set_du_cc du_active]. rewrite Hact, Hp.
  assert (E1 : (state >=? 0) = true) by (destruct Hstate as [-> | ->]; reflexivity).
  assert (E2 : negb (state =? DLU_ACT) = true) by (destruct Hstate as [-> | ->]; reflexivity).
  rewrite E1, E2. change (DLU_ACT =? DLU_WAI) with false. change (DLU_ACT =? DLU_ACT) with true.
  cbn [andb negb]. cbv zeta.
  (* the state before the record is checked *)
  match goal with
  | |- context [match duds (upd_du uid (set_du_active None) ?s) !! p with _ => _ end] =>
      set (s0 := s)
  end.
  assert (Hs0 : duds s0 = duds st /\ dls s0 = dls st
                /\ exists x, queue_users s0 !! uid = Some x /\ du_state x = DLU_ACT
                             /\ du_cc x = cc).
  { unfold s0. destruct (state =? DLU_WAI).
    - split; [reflexivity|]. split; [reflexivity|].
      exists (set_du_timeout (Z.of_N (next_ptr st1)) (set_du_cc cc du)).
      split; [|split; [exact Hact | reflexivity]].
      cbn [emit upd_du set_next_ptr queue_users set_queue_users].
      rewrite lookup_alter_eq. change (queue_users st1 !! uid) with
        (queue_users (upd_du uid (set_du_cc cc) st) !! uid).
      cbn [upd_du queue_users set_queue_users]. rewrite lookup_alter_eq, Hdu. reflexivity.
    - split; [reflexivity|]. split; [reflexivity|].
      exists (set_du_cc cc du). split; [exact Hdu1|]. split; [exact Hact | reflexivity]. }
  destruct Hs0 as (Hd0 & Hl0 & x0 & Hx0 & Hxs & Hxc).
  assert (He0 : duds (upd_du uid (set_du_active None) s0) !! p = Some e)
    by (cbn; now rewrite Hd0).
  rewrite He0.
  set (sa := upd_dl (dud_dl e) (set_active false) (upd_du uid (set_du_active None) s0)).
  assert (Hxa : queue_users sa !! uid = Some (set_du_active None x0))
    by (unfold sa; cbn; now rewrite lookup_alter_eq, Hx0).
  assert (Hda : forall d, dls sa !! dud_dl e = Some d -> active d = false).
  { intros d Hd. unfold sa in Hd. cbn in Hd. rewrite lookup_alter_eq in Hd.
    destruct (dls s0 !! dud_dl e); [|discriminate]. cbn in Hd. now injection Hd as <-. }
  destruct (calmer_dl_queue_checkrm sa (dud_dl e) sa (calmer_refl sa)) as (Drec & Dusr).
  set (sb := dl_queue_checkrm (dud_dl e) false sa) in *.
  destruct (Dusr uid _ Hxa ltac:(cbn; rewrite Hxs; discriminate)) as (xb & Hxb & Hbs & Hbc & Hba).
  cbn in Hbs, Hbc. specialize (Hba eq_refl).
  cbn [upd_du queue_users set_queue_users]. rewrite lookup_alter_eq, Hxb.
  cbn [fmap option_fmap option_map du_state set_du_state].
  assert (E3 : (state =? DLU_NCO) = false) by (destruct Hstate as [-> | ->]; reflexivity).
  rewrite E3. cbn [andb]. split.
  - rewrite queue_users_dl_queue_start. cbn. rewrite lookup_alter_eq, Hxb. cbn.
    exists (set_du_state state xb). cbn. repeat split; congruence.
  - intros d Hd. rewrite dls_dl_queue_start in Hd. cbn in Hd.
    destruct (Drec _ _ Hd) as (da & Hda' & Hact'). apply Hact'. now apply Hda.
Qed.

End ReleaseFacts.

Section ReleaseExamples.
Import Dl.
#[local] Existing Instance sample_env.
#[local] Existing Instance Samples.sample_sched.

Lemma dl_user_cc_releases_witness :
  let st' := dl_user_cc 7 None Samples.downloading in
  heap_ok st' /\ active_ok st'
  /\ (exists du', queue_users st' !! 7 = Some du'
                  /\ du_state du' = DLU_WAI /\ du_cc du' = None /\ du_active du' = None)
  /\ (forall d, dls st' !! 1%N = Some d -> active d = false).
Proof.
  refine (dl_user_cc_releases (H := sample_env) 7 None Samples.downloading
            Samples.user_7_active 2 (Samples.entry_of 1) _ _ _ _ _ _).
  - apply (run_sched_ops_sound (H := sample_env) (H0 := Samples.sample_sched)
             Samples.shared_file_ops (Samples.dl_init, [])).
    split; [split; [|split]; intros ? ?; cbn; rewrite lookup_empty; discriminate|].
    split; intros ? ? ?; cbn; rewrite lookup_empty; discriminate.
  - apply (run_sched_ops_sound (H := sample_env) (H0 := Samples.sample_sched)
             Samples.shared_file_ops (Samples.dl_init, [])).
    split; [split; [|split]; intros ? ?; cbn; rewrite lookup_empty; discriminate|].
    split; intros ? ? ?; cbn; rewrite lookup_empty; discriminate.
  - vm_compute. reflexivity.
  - reflexivity.
  - reflexivity.
  - vm_compute. reflexivity.
Defined.

End ReleaseExamples.

(** * Runs in which nobody is disconnected *)

Section HushFacts.
Import Dl.
Context `{Env} `{Sched}.

Lemma hushed_refl st : hushed st st.
Proof. reflexivity. Qed.

Lemma hushed_same st0 st st' : trace st' = trace st -> hushed st0 st -> hushed st0 st'.
Proof. intros Ht Hd. unfold hushed, disconnects in *. now rewrite Ht. Qed.

Lemma hushed_emit st0 e st : is_disconnect e = false -> hushed st0 st -> hushed st0 (emit e st).
Proof.
  intros He Hd. unfold hushed in *. rewrite disconnects_emit, He, app_nil_r. exact Hd.
Qed.

Lemma hushed_upd_dl st0 p f st : hushed st0 st -> hushed st0 (upd_dl p f st).
Proof. now apply hushed_same. Qed.
Lemma hushed_upd_dud st0 p f st : hushed st0 st -> hushed st0 (upd_dud p f st).
Proof. now apply hushed_same. Qed.
Lemma hushed_upd_du st0 uid f st : hushed st0 st -> hushed st0 (upd_du uid f st).
Proof. now apply hushed_same. Qed.
Lemma hushed_set_dls st0 m st : hushed st0 st -> hushed st0 (set_dls m st).
Proof. now apply hushed_same. Qed.
Lemma hushed_set_duds st0 m st : hushed st0 st -> hushed st0 (set_duds m st).
Proof. now apply hushed_same. Qed.
Lemma hushed_set_dl_queue st0 m st : hushed st0 st -> hushed st0 (set_dl_queue m st).
Proof. now apply hushed_same. Qed.
Lemma hushed_set_queue_users st0 m st : hushed st0 st -> hushed st0 (set_queue_users m st).
Proof. now apply hushed_same. Qed.
Lemma hushed_set_next_ptr st0 n st : hushed st0 st -> hushed st0 (set_next_ptr n st).
Proof. now apply hushed_same. Qed.
Lemma hushed_set_dl_queue_needstart st0 b st :
  hushed st0 st -> hushed st0 (set_dl_queue_needstart b st).
Proof. now apply hushed_same. Qed.

Lemma hushed_dl_queue_start st0 st : hushed st0 st -> hushed st0 (dl_queue_start st).
Proof.
  intros Hs. unfold dl_queue_start. case_match; [exact Hs|].
  apply hushed_emit; [reflexivity|]. now apply hushed_set_dl_queue_needstart.
Qed.

Create HintDb hush.
#[local] Hint Resolve hushed_emit hushed_upd_dl hushed_upd_dud hushed_upd_du
  hushed_set_dls hushed_set_duds hushed_set_dl_queue hushed_set_queue_users
  hushed_set_next_ptr hushed_set_dl_queue_needstart hushed_dl_queue_start : hush.
#[local] Hint Extern 0 (is_disconnect _ = false) => reflexivity : hush.

Ltac hush := cbv zeta; repeat case_match; eauto 40 with hush.

Lemma hushed_dl_user_setstate_with checkrm st0 uid state st :
  (forall dl s0 s, hushed s0 s -> hushed s0 (checkrm dl s)) ->
  hushed st0 st -> hushed st0 (dl_user_setstate_with checkrm uid state st).
Proof. intros Hc Hs. unfold dl_user_setstate_with. hush. Qed.

(** [dl_user_rm] disconnects nobody when the user is not active on the
    entry. *)
Lemma hushed_dl_user_rm st0 dl i st :
  (forall d dudi dud du,
     dls st !! dl = Some d -> u d !! i = Some dudi -> duds st !! dudi = Some dud ->
     queue_users st !! dud_u dud = Some du -> du_active du <> Some dudi) ->
  hushed st0 st -> hushed st0 (dl_user_rm dl i st).
Proof.
  intros Hna Hs. unfold dl_user_rm.
  destruct (dls st !! dl) as [d|] eqn:Hd; [|exact Hs].
  destruct (u d !! i) as [dudi|] eqn:Hi; [|exact Hs].
  destruct (duds st !! dudi) as [dud|] eqn:He; [|exact Hs].
  destruct (queue_users st !! dud_u dud) as [du|] eqn:Hdu; [|exact Hs].
  rewrite bool_decide_eq_false_2 by eauto. cbv zeta.
  apply hushed_dl_user_setstate_with; eauto 10 with hush.
Qed.

Lemma hushed_dl_user_add st0 dl uid e emsg st :
  hushed st0 st -> hushed st0 (dl_user_add dl uid e emsg st).
Proof. intros Hs. unfold dl_user_add. hush. Qed.

Lemma hushed_dl_queue_insert st0 dl init st :
  hushed st0 st -> hushed st0 (dl_queue_insert dl init st).
Proof. intros Hs. unfold dl_queue_insert. hush. Qed.

Lemma hushed_resort st0 iter st : hushed st0 st -> hushed st0 (resort iter st).
Proof. intros Hs. unfold resort. hush. Qed.

#[local] Hint Resolve hushed_dl_user_add hushed_dl_queue_insert hushed_resort : hush.

Lemma hushed_fold_resort st0 l st :
  hushed st0 st -> hushed st0 (fold_left (fun s iter => resort iter s) l st).
Proof. revert st. induction l as [|x l IH]; intros st Hs; simpl; auto with hush. Qed.

#[local] Hint Resolve hushed_fold_resort : hush.

Lemma hushed_dl_queue_setprio st0 dl p st :
  hushed st0 st -> hushed st0 (dl_queue_setprio dl p st).
Proof. intros Hs. unfold dl_queue_setprio. hush. Qed.

#[local] Hint Resolve hushed_dl_queue_setprio : hush.

Lemma hushed_dl_queue_seterr st0 dl e sub st :
  hushed st0 st -> hushed st0 (dl_queue_seterr dl e sub st).
Proof. intros Hs. unfold dl_queue_seterr. hush. Qed.

Lemma hushed_dl_queue_setuerr st0 uid tth e emsg st :
  hushed st0 st -> hushed st0 (dl_queue_setuerr uid tth e emsg st).
Proof. intros Hs. unfold dl_queue_setuerr. hush. Qed.

(** *** Removing a record on which nobody is active *)

Lemma hushed_dl_queue_rm_users st0 n dl : forall st,
  sound st -> (forall d, dls st !! dl = Some d -> active d = false) ->
  hushed st0 st -> hushed st0 (dl_queue_rm_users n dl st).
Proof.
  induction n as [|n IH]; intros st Hsound Hin Hs; cbn [dl_queue_rm_users]; [exact Hs|].
  destruct (dls st !! dl) as [d|] eqn:Hd; [|exact Hs].
  destruct (0 <? length (u d))%nat; [|exact Hs].
  apply IH.
  - now apply sound_dl_user_rm.
  - intros d' Hd'.
    destruct (calmer_dl_user_rm st dl 0%nat st (calmer_refl st)) as [Hrec _].
    destruct (Hrec dl d' Hd') as (d0 & Hd0 & Hkeep). apply Hkeep.
    rewrite Hd in Hd0. injection Hd0 as <-. exact (Hin d eq_refl).
  - apply hushed_dl_user_rm; [|exact Hs].
    intros d1 dudi dud du Hd1 Hi He Hdu Hact.
    rewrite Hd in Hd1. injection Hd1 as <-.
    destruct Hsound as [(_ & W2 & _) (P1 & _)].
    destruct (W2 dl d Hd) as (_ & _ & Hall).
    destruct (Hall dudi) as (x & Hx & Hxd); [eapply list_elem_of_lookup_2; eauto|].
    rewrite He in Hx. injection Hx as <-.
    assert (Ht : active d = true).
    { apply (P1 (dud_u dud) du dudi dud d Hdu Hact He). now rewrite Hxd. }
    rewrite (Hin d eq_refl) in Ht. discriminate.
Qed.

Lemma hushed_dl_queue_rm st0 dl st :
  sound st -> (forall d, dls st !! dl = Some d -> active d = false) ->
  hushed st0 st -> hushed st0 (dl_queue_rm dl st).
Proof.
  intros Hsound Hin Hs. unfold dl_queue_rm.
  destruct (dls st !! dl) as [d0|] eqn:Hd0; [|exact Hs]. cbv zeta.
  assert (H2 : hushed st0 (dl_queue_rm_users (length (u d0)) dl (upd_dl dl (set_delete true) st))).
  { apply hushed_dl_queue_rm_users.
    - apply sound_upd_dl; [apply mild_set_delete | exact Hsound].
    - intros d. cbn. rewrite lookup_alter_eq, Hd0. cbn. intros [= <-]. cbn. now apply Hin.
    - now apply hushed_upd_dl. }
  set (st2 := dl_queue_rm_users _ _ _) in *.
  hush.
Qed.

Lemma hushed_dl_queue_checkrm_loop st0 fuel dl : forall i st,
  hushed st0 st -> hushed st0 (dl_queue_checkrm_loop fuel dl i st).
Proof.
  induction fuel as [|fuel IH]; intros i st Hs; cbn [dl_queue_checkrm_loop]; [exact Hs|].
  destruct (dls st !! dl) as [d|] eqn:Hd; [|exact Hs].
  destruct (u d !! i) as [iter|] eqn:Hi; [|exact Hs].
  cbv zeta.
  match goal with |- context [negb ?c] => destruct c eqn:Hact end; cbn [negb].
  - apply IH. now apply hushed_resort.
  - apply IH. apply hushed_dl_user_rm; [|exact Hs].
    intros d1 dudi dud du Hd1 Hi1 He Hdu Ha.
    rewrite Hd in Hd1. injection Hd1 as <-. rewrite Hi in Hi1. injection Hi1 as <-.
    rewrite He, Hdu in Hact. now rewrite bool_decide_eq_true_2 in Hact.
Qed.

Lemma hushed_dl_queue_checkrm st0 dl justfin st :
  sound st -> hushed st0 st -> hushed st0 (dl_queue_checkrm dl justfin st).
Proof.
  intros Hsound Hs. unfold dl_queue_checkrm.
  destruct (dls st !! dl) as [d|] eqn:Hd; [|exact Hs].
  destruct (delete d); [exact Hs|].
  destruct (justfin && dlthread d); [auto with hush|].
  match goal with
  | |- hushed st0 (match dls ?s !! dl with _ => _ end) =>
      assert (Hs1 : sound s /\ hushed st0 s); [|set (s1 := s) in *]
  end.
  { destruct justfin; [|split; assumption]. split.
    - apply sound_dl_queue_checkrm_loop. destruct (negb (islist d)); [now apply sound_emit | exact Hsound].
    - apply hushed_dl_queue_checkrm_loop. destruct (negb (islist d)); auto with hush. }
  destruct Hs1 as [Hsound1 Hs1].
  destruct (dls s1 !! dl) as [d1|] eqn:Hd1; [|exact Hs1].
  destruct (negb (active d1) && negb (dlthread d1)
            && (truthy (size d1) || negb (islist d1)) && (have d1 =? size d1)) eqn:Hc;
    [|exact Hs1].
  apply hushed_dl_queue_rm; [exact Hsound1 | | exact Hs1].
  intros d2 Hd2. rewrite Hd1 in Hd2. injection Hd2 as <-.
  apply andb_prop in Hc as [Hc _]. apply andb_prop in Hc as [Hc _].
  apply andb_prop in Hc as [Hc _]. now apply negb_true_iff in Hc.
Qed.

Lemma hushed_dl_user_setstate st0 uid state st :
  sound st -> hushed st0 st -> hushed st0 (dl_user_setstate uid state st).
Proof.
  intros Hok Hs. unfold dl_user_setstate, dl_user_setstate_with.
  destruct (queue_users st !! uid) as [du|] eqn:Hdu; [|exact Hs]. cbv zeta.
  match goal with
  | |- hushed st0 (match queue_users ?s !! uid with _ => _ end) =>
      assert (Hs1 : hushed st0 s); [|set (s1 := s) in *]
  end.
  { match goal with
    | |- hushed st0 (if ?c then upd_du uid (set_du_state state) ?s else ?s) =>
        assert (Hs1 : hushed st0 s); [|destruct c; auto with hush]
    end.
    match goal with
    | |- hushed st0 (if ?c then match du_active du with _ => _ end else ?s) =>
        assert (Hs0 : (sound s /\ exists x, queue_users s !! uid = Some x
                                           /\ du_active x = du_active du)
                      /\ hushed st0 s);
          [|destruct c; [|exact (proj2 Hs0)]; set (s0 := s) in *]
    end.
    { repeat case_match.
      - split; [split; [auto 10 using sound_emit, sound_upd_du, sound_set_next_ptr|]|auto 10 with hush].
        + apply sound_emit. apply sound_upd_du; [intros x; split; [reflexivity | now left]|].
          now apply sound_set_next_ptr.
        + cbn. rewrite lookup_alter_eq, Hdu. cbn. eauto.
      - split; [split; [now apply sound_emit|]|auto with hush]. cbn. eauto.
      - split; [split; [exact Hok|]|exact Hs]. eauto. }
    destruct Hs0 as [[Hsound0 (x & Hx & Hax)] Hh0].
    destruct (du_active du) as [dud|] eqn:Hact; [|exact Hh0].
    destruct (duds (upd_du uid (set_du_active None) s0) !! dud) as [d|] eqn:Hd.
    2:{ auto with hush. }
    apply hushed_dl_queue_checkrm; [|auto with hush]. split.
    - apply heap_ok_upd_dl; [intros ?; reflexivity|].
      apply heap_ok_upd_du; [apply keeps_queue_set_du_active_None | exact (proj1 Hsound0)].
    - apply (active_ok_release uid dud d s0 x Hx Hax Hd (proj2 Hsound0)). }
  hush.
Qed.

Lemma hushed_dl_user_cc st0 uid cc st :
  sound st -> hushed st0 st -> hushed st0 (dl_user_cc uid cc st).
Proof.
  intros Hok Hs. unfold dl_user_cc.
  destruct (queue_users st !! uid) as [du|]; [|exact Hs].
  case_match; [auto with hush|].
  apply hushed_dl_user_setstate; [|auto with hush].
  apply sound_upd_du; [intros x; split; [reflexivity | now left] | exact Hok].
Qed.

Lemma hushed_dl_user_waitdone st0 uid st :
  sound st -> hushed st0 st -> hushed st0 (dl_user_waitdone uid st).
Proof.
  intros Hok Hs. unfold dl_user_waitdone.
  destruct (queue_users st !! uid) as [du|]; [|exact Hs].
  case_match; [auto with hush|]. now apply hushed_dl_user_setstate.
Qed.

(** An operation that is not a removal on request disconnects nobody. *)
Lemma run_op_hushed (op : dl_op) st0 (st : dl_state) :
  removes op = false -> sound st -> hushed st0 st -> hushed st0 (run_op op st).
Proof.
  intros Hop Hok Hs. destruct op; try discriminate; cbn [run_op].
  - unfold dl_queue_addlist, dl_alloc. hush.
  - unfold dl_queue_addfile, dl_alloc. repeat case_match; simplify_eq; cbn [snd]; hush.
  - unfold dl_queue_matchfile. repeat case_match; simplify_eq; cbn [snd]; hush.
  - now apply hushed_dl_queue_checkrm.
  - auto with hush.
  - now apply hushed_dl_queue_seterr.
  - now apply hushed_dl_queue_setuerr.
  - auto with hush.
  - auto with hush.
  - now apply hushed_dl_user_setstate.
  - now apply hushed_dl_user_cc.
  - now apply hushed_dl_user_waitdone.
  - unfold dl_load_dl, dl_alloc. hush.
  - unfold dl_load_dlu. hush.
Qed.

(** *** Starting downloads *)

Lemma hushed_dl_user_setstate_act st0 uid st :
  hushed st0 st -> hushed st0 (dl_user_setstate uid DLU_ACT st).
Proof.
  intros Hs. unfold dl_user_setstate, dl_user_setstate_with.
  destruct (queue_users st !! uid) as [du|]; [|exact Hs].
  change (negb (DLU_ACT =? DLU_ACT)) with false. rewrite andb_false_r. hush.
Qed.

Lemma hushed_dl_queue_start_user st0 uid st calls :
  sound st -> hushed st0 st -> hushed st0 (dl_queue_start_user uid (st, calls)).2.1.
Proof.
  intros Hok Hs. unfold dl_queue_start_user.
  destruct (dl_queue_start_istarget st uid); cbn [negb]; [|cbn; auto with hush].
  destruct (queue_users st !! uid) as [du|]; [|exact Hs].
  destruct (du_state du =? DLU_NCO); [cbn; now apply hushed_dl_user_setstate|].
  destruct (dl_user_getdl st du) as [dud|]; [|cbn; auto with hush].
  destruct (duds st !! dud ≫= _) as [[dl d]|]; [|exact Hs].
  repeat case_match; cbn [fst snd];
    repeat first [apply hushed_dl_user_setstate_act | apply hushed_emit; [reflexivity|]
                 | apply hushed_upd_du | apply hushed_upd_dl];
    exact Hs.
Qed.

Lemma hushed_start_loop st0 (fuel : nat) : forall freeslots targets target target_i st calls,
  sound st -> hushed st0 st ->
  hushed st0 (start_loop fuel freeslots targets target target_i (st, calls)).1.
Proof.
  induction fuel as [|fuel IH]; intros fs targets target ti st calls Hok Hs; cbn [start_loop];
    [exact Hs|].
  destruct target as [t|]; [|exact Hs].
  destruct (fs >? 0); [|exact Hs].
  pose proof (sound_dl_queue_start_user t st calls Hok) as Hok1.
  pose proof (hushed_dl_queue_start_user st0 t st calls Hok Hs) as Hs1.
  destruct (dl_queue_start_user t (st, calls)) as [started [st1 calls1]].
  cbn [fst snd] in Hok1, Hs1.
  destruct (started && _); [exact Hs1|].
  destruct (start_rescan _ _ _ _ _ _) as [[targets' target'] ti'].
  now apply IH.
Qed.

Lemma hushed_dl_queue_start_do st0 users st calls :
  sound st -> hushed st0 st -> hushed st0 (dl_queue_start_do users (st, calls)).1.
Proof.
  intros Hok Hs. unfold dl_queue_start_do, dl_queue_start_do_fuel. cbn [fst].
  destruct (start_scan st users var_download_slots [] None 0) as [[[fs targets] target] ti].
  pose proof (hushed_start_loop st0 (0 + length targets) fs targets target ti st calls Hok Hs)
    as Hs1.
  destruct (start_loop (0 + length targets) fs targets target ti (st, calls)) as [st1 calls1].
  cbn [fst] in Hs1 |- *. now apply hushed_set_dl_queue_needstart.
Qed.

(** A run without removals on request disconnects nobody. *)
Lemma run_sched_ops_hushed (ops : list sched_op) : forall s0 s,
  forallb (fun op => negb (sched_removes op)) ops = true ->
  sound s.1 -> hushed s0 s.1 ->
  sound (run_sched_ops ops s).1 /\ hushed s0 (run_sched_ops ops s).1.
Proof.
  induction ops as [|op ops IH]; intros s0 s Hops Hok Hs; [split; assumption|].
  cbn [forallb] in Hops. apply andb_prop in Hops as [Hop Hops].
  apply negb_true_iff in Hop.
  cbn [run_sched_ops fold_left]. apply IH; [exact Hops | |];
    destruct op as [o|users]; cbn [run_sched_op sched_removes] in *.
  - cbn [fst]. now apply run_op_sound.
  - destruct s as [st calls]. now apply sound_dl_queue_start_do.
  - cbn [fst]. now apply run_op_hushed.
  - destruct s as [st calls]. now apply hushed_dl_queue_start_do.
Qed.

(** X28.  A file is downloaded from one user at a time.  From
    consistent tables on which this holds, such as the empty queue, and
    under any sequence of runs of [dl_queue_start_do] and of queue
    operations other than the removals on request ([dl_queue_rm],
    [dl_queue_rmuser] and [dl_user_rm] called from outside): the entry
    that a user is active on is allocated and its record is marked
    [active], and no two users are active on entries of the same record.
    [dl_queue_start_user] takes an entry only if its record is not
    active, and [dl_user_setstate] resets [dl->active] together with
    [du->active].  The tables stay consistent.  A record is removed in
    such a run only when nobody is active on it, so [dl_user_rm] never
    gets to [cc_disconnect]: the log gains no such call. *)
Theorem dl_one_user_per_file (ops : list sched_op) (st : dl_state) (calls : list call) :
  heap_ok st -> active_ok st ->
  forallb (fun op => negb (sched_removes op)) ops = true ->
  let st' := (run_sched_ops ops (st, calls)).1 in
  heap_ok st'
  /\ (forall uid du p, queue_users st' !! uid = Some du -> du_active du = Some p ->
        exists e d, duds st' !! p = Some e /\ dls st' !! dud_dl e = Some d
                    /\ active d = true)
  /\ (forall uid1 uid2 du1 du2 p1 p2 e1 e2,
        queue_users st' !! uid1 = Some du1 -> queue_users st' !! uid2 = Some du2 ->
        du_active du1 = Some p1 -> du_active du2 = Some p2 ->
        duds st' !! p1 = Some e1 -> duds st' !! p2 = Some e2 ->
        dud_dl e1 = dud_dl e2 -> uid1 = uid2)
  /\ disconnects st' = disconnects st.
Proof.
  intros Hh Ha Hops. cbv zeta.
  destruct (run_sched_ops_hushed ops st (st, calls) Hops (conj Hh Ha) (hushed_refl st))
    as [[Hh' [P1 P2]] Hq].
  split; [exact Hh'|]. split; [|split; [exact P2 | exact Hq]].
  intros uid du p Hu Hp.
  destruct (heap_ok_active_allocated _ uid du p Hh' Hu Hp) as (e & d & He & Hd & _).
  exists e, d. split; [exact He|]. split; [exact Hd|].
  exact (P1 _ _ _ _ _ Hu Hp He Hd).
Qed.

End HushFacts.

Section HushExamples.
Import Dl.
#[local] Existing Instance sample_env.
#[local] Existing Instance Samples.sample_sched.

Lemma dl_one_user_per_file_witness :
  let st' := (run_sched_ops Samples.shared_file_ops (Samples.dl_init, [])).1 in
  heap_ok st'
  /\ (forall uid du p, queue_users st' !! uid = Some du -> du_active du = Some p ->
        exists e d, duds st' !! p = Some e /\ dls st' !! dud_dl e = Some d
                    /\ active d = true)
  /\ (forall uid1 uid2 du1 du2 p1 p2 e1 e2,
        queue_users st' !! uid1 = Some du1 -> queue_users st' !! uid2 = Some du2 ->
        du_active du1 = Some p1 -> du_active du2 = Some p2 ->
        duds st' !! p1 = Some e1 -> duds st' !! p2 = Some e2 ->
        dud_dl e1 = dud_dl e2 -> uid1 = uid2)
  /\ disconnects st' = [].
Proof.
  apply (dl_one_user_per_file (H := sample_env) (H0 := Samples.sample_sched)
           Samples.shared_file_ops Samples.dl_init []).
  - split; [|split]; intros ? ?; cbn; rewrite lookup_empty; discriminate.
  - split; intros ? ? ?; cbn; rewrite lookup_empty; discriminate.
  - reflexivity.
Defined.

End HushExamples.

(** * More on file lists ([fl_util.c]) *)

Section SearchTreeFacts.
Import Fl.
Context `{Regex}.

Lemma fl_list_tree_ind (P : fl_list -> Prop) :
  (forall fl, (forall l, sub fl = Some l -> Forall P l) -> P fl) ->
  forall fl, P fl.
Proof.
  intros IH. fix rec 1. intros [n s sz t f h lo]. apply IH. cbn.
  intros l Hl. destruct s as [l0|]; [|discriminate].
  injection Hl as <-. induction l0 as [|x l0 IHl]; constructor; [apply rec | exact IHl].
Qed.

Lemma take_app_take {A} (n : nat) (a b c : list A) :
  (length a <= n)%nat ->
  take n ((a ++ take (n - length a) b) ++ c) = take n (a ++ b ++ c).
Proof.
  intros Ha. rewrite <- app_assoc.
  rewrite !take_app, !(take_ge a) by lia.
  f_equal.
  rewrite take_take, Nat.min_id.
  destruct (Nat.le_gt_cases (length b) (n - length a)) as [Hb|Hb].
  - rewrite (take_ge b) by lia. reflexivity.
  - rewrite length_take, Nat.min_l by lia.
    replace (n - length a - (n - length a))%nat with 0%nat by lia.
    replace (n - length a - length b)%nat with 0%nat by lia.
    reflexivity.
Qed.

Lemma filter_filter {A} (p q : A -> bool) (l : list A) :
  List.filter p (List.filter q l) = List.filter (fun x => q x && p x) l.
Proof.
  induction l as [|x l IH]; cbn; [reflexivity|].
  destruct (q x); cbn; [destruct (p x)|]; now rewrite IH.
Qed.

Lemma filter_ext_bool {A} (p q : A -> bool) (l : list A) :
  (forall x, p x = q x) -> List.filter p l = List.filter q l.
Proof. intros E. induction l as [|x l IH]; cbn; [reflexivity|]. now rewrite E, IH. Qed.

Lemma filter_all {A} (p : A -> bool) (l : list A) :
  (forall x, p x = true) -> List.filter p l = l.
Proof. intros E. induction l as [|x l IH]; cbn; [reflexivity|]. now rewrite E, IH. Qed.

Lemma weed_keep hp nm anc l :
  weed hp nm (keep anc l) = keep (if hp then nm :: anc else anc) l.
Proof.
  unfold weed, keep. rewrite filter_filter. apply filter_ext_bool. intros o.
  destruct hp; cbn.
  - rewrite negb_orb. apply andb_comm.
  - apply andb_true_r.
Qed.

Lemma keep_nil l : keep [] l = l.
Proof. apply filter_all. reflexivity. Qed.

Lemma set_and_set_and v w (s : fl_search) : set_and v (set_and w s) = set_and v s.
Proof. reflexivity. Qed.

Lemma fl_search_match_default f (s : fl_search) :
  fl_search_match f (set_and (Some (default [] (s_and s))) s) = fl_search_match f s.
Proof. unfold fl_search_match, fl_search_match_name. cbn. reflexivity. Qed.

Lemma fl_search_rec_loop_nonpos rec s max l :
  max <= 0 -> fl_search_rec_loop rec s max l [] = [].
Proof.
  intros Hm. destruct l as [|f r]; cbn; [reflexivity|].
  change (Z.of_nat 0) with 0.
  replace (0 <? max) with false by (symmetry; apply Z.ltb_ge; lia). reflexivity.
Qed.

Lemma fl_search_rec_loop_spec rec s max recs l :
  Forall (fun f => forall m, rec f m = take (Z.to_nat m) (recs f)) l ->
  forall res, Z.of_nat (length res) <= max ->
  fl_search_rec_loop rec s max l res
  = take (Z.to_nat max)
      (res ++ flat_map (fun f => (if fl_search_match f s then [f] else [])
                                 ++ (if isfile f then [] else recs f)) l).
Proof.
  induction 1 as [|f r Hf Hr IH]; intros res Hres.
  - cbn. rewrite app_nil_r, take_ge by lia. reflexivity.
  - cbn [fl_search_rec_loop flat_map].
    destruct (Z.ltb_spec (Z.of_nat (length res)) max) as [Hlt|Hge].
    + set (hit := if fl_search_match f s then [f] else []).
      assert (Hhit : (if fl_search_match f s then res ++ [f] else res) = res ++ hit).
      { unfold hit. destruct (fl_search_match f s); [reflexivity | now rewrite app_nil_r]. }
      rewrite Hhit.
      assert (Hlen : Z.of_nat (length (res ++ hit)) <= max).
      { rewrite length_app. unfold hit. destruct (fl_search_match f s); cbn; lia. }
      destruct (isfile f) eqn:Hfile; cbn [negb andb].
      * rewrite IH by exact Hlen. now rewrite <- !app_assoc.
      * destruct (Z.ltb_spec (Z.of_nat (length (res ++ hit))) max) as [Hlt2|Hge2].
        -- rewrite IH.
           ++ rewrite Hf.
              replace (Z.to_nat (max - Z.of_nat (length (res ++ hit))))
                with (Z.to_nat max - length (res ++ hit))%nat by lia.
              rewrite take_app_take by lia. now rewrite <- !app_assoc.
           ++ rewrite length_app, Hf, length_take. lia.
        -- rewrite IH by exact Hlen.
           rewrite <- !app_assoc, !(app_assoc res hit).
           rewrite !(take_app_le (res ++ hit)) by lia. reflexivity.
    + rewrite take_app_le, take_ge by lia. reflexivity.
Qed.

Lemma fl_search_rec_spec (parent : fl_list) :
  forall hp s max anc0 ands0,
  default [] (s_and s) = keep anc0 ands0 ->
  fl_search_rec hp parent s max
  = take (Z.to_nat max)
      (map snd
         (List.filter
            (fun x => fl_search_match (snd x) (set_and (Some (keep (fst x) ands0)) s))
            (visited (if hp then name parent :: anc0 else anc0) parent))).
Proof.
  induction parent as [parent IH] using fl_list_tree_ind.
  intros hp s max anc0 ands0 Hs.
  destruct parent as [nm sb sz t isf ht lo]. cbn [fl_search_rec visited sub name] in *.
  destruct sb as [l|]; [|cbn; now rewrite take_nil].
  specialize (IH l eq_refl).
  set (a1 := if hp then nm :: anc0 else anc0).
  rewrite Hs, weed_keep. fold a1.
  set (s' := set_and (Some (keep a1 ands0)) s).
  set (hitf := fun x : list string * fl_list =>
                 fl_search_match (snd x) (set_and (Some (keep (fst x) ands0)) s)).
  set (recs := fun f => map snd (List.filter hitf (visited (name f :: a1) f))).
  assert (Hrec : Forall (fun f => forall m,
                    fl_search_rec true f s' m = take (Z.to_nat m) (recs f)) l).
  { eapply Forall_impl; [exact IH|]. cbn beta. intros f Hf m.
    rewrite (Hf true s' m a1 ands0) by reflexivity. reflexivity. }
  assert (Hflat : map snd (List.filter hitf
                    (flat_map (fun f => (a1, f) ::
                       (if isfile f then [] else visited (name f :: a1) f)) l))
                  = flat_map (fun f => (if fl_search_match f s' then [f] else [])
                                       ++ (if isfile f then [] else recs f)) l).
  { clear. induction l as [|f r IHl]; [reflexivity|].
    cbn [flat_map]. rewrite <- IHl. cbn [List.filter app].
    change (hitf (a1, f)) with (fl_search_match f s').
    destruct (fl_search_match f s'); cbn [map snd app];
      rewrite List.filter_app, List.map_app; destruct (isfile f); reflexivity. }
  rewrite Hflat.
  destruct (Z.le_gt_cases 0 max) as [Hm|Hm].
  - rewrite (fl_search_rec_loop_spec _ s' max recs l Hrec []) by (cbn; lia). reflexivity.
  - rewrite fl_search_rec_loop_nonpos by lia.
    replace (Z.to_nat max) with 0%nat by lia. reflexivity.
Qed.

(** X12.  [fl_search_rec] returns, in the order of a depth-first
    walk that lists a directory before its contents, the first [max] of
    the nodes below [parent] that match the search on their path: that
    pass [fl_search_match] for the AND keywords that no directory between
    [parent] and them matches ([parent] itself counts if it has a parent).
    The change that the function makes to [s->and] does not leak from one
    subtree into the next. *)
Theorem fl_search_rec_walk (hp : bool) (parent : fl_list) (s : fl_search) (max : Z) :
  fl_search_rec hp parent s max
  = take (Z.to_nat max)
      (map snd (List.filter (match_on_path s) (visited (path_of hp parent) parent))).
Proof.
  rewrite (fl_search_rec_spec parent hp s max [] (default [] (s_and s)))
    by (now rewrite keep_nil).
  unfold path_of. reflexivity.
Qed.

Lemma fl_search_match_no_and f (s : fl_search) l :
  fl_search_match f (set_and (Some l) s) = true ->
  fl_search_match f (set_and None s) = true.
Proof.
  unfold fl_search_match, fl_search_match_name. cbn.
  destruct (and_all_match l (name f)); cbn; [auto|].
  rewrite andb_false_r. discriminate.
Qed.

Lemma fl_search_match_needs_tth_file f (s : fl_search) :
  isfile f = true -> hastth f = false -> fl_search_match f s = false.
Proof.
  intros Hfile Htth. unfold fl_search_match. rewrite Hfile, Htth. cbn.
  now rewrite !andb_false_r.
Qed.

(** X13.  [fl_search_rec] never stores more than [max] results
    (none at all for a [max] of zero or less).  Each result is a node
    below [parent] that passes the type, size, NOT and extension tests of
    the search; in particular a file without a TTH is never returned. *)
Theorem fl_search_rec_results (hp : bool) (parent : fl_list) (s : fl_search) (max : Z) :
  Z.of_nat (length (fl_search_rec hp parent s max)) <= Z.max 0 max
  /\ (forall f, f ∈ fl_search_rec hp parent s max ->
        fl_search_match f (set_and None s) = true
        /\ (isfile f = true -> hastth f = true)
        /\ exists anc, (anc, f) ∈ visited (path_of hp parent) parent).
Proof.
  rewrite (fl_search_rec_spec parent hp s max [] (default [] (s_and s)))
    by (now rewrite keep_nil).
  split; [rewrite length_take; lia|].
  intros f Hf. eapply elem_of_sublist in Hf; [|apply sublist_take].
  apply list_elem_of_In, in_map_iff in Hf as ([anc f'] & Hsnd & Hin).
  cbn in Hsnd. subst f'. apply filter_In in Hin as [Hin Hhit]. cbn [fst snd] in Hhit.
  apply fl_search_match_no_and in Hhit.
  split; [exact Hhit|]. split.
  - intros Hfile. destruct (hastth f) eqn:Ht; [reflexivity|].
    rewrite (fl_search_match_needs_tth_file f _ Hfile Ht) in Hhit. discriminate.
  - exists anc. apply list_elem_of_In. exact Hin.
Qed.

Lemma omap_id_weed_step p (nand : list (option GRegex)) :
  omap id (map (fun o => match o with
                         | Some r => if g_regex_match r p then None else Some r
                         | None => None
                         end) nand)
  = List.filter (fun o => negb (g_regex_match o p)) (omap id nand).
Proof.
  induction nand as [|[r|] nand IH]; cbn; [reflexivity| |exact IH].
  destruct (g_regex_match r p); cbn; now rewrite IH.
Qed.

Lemma omap_id_weed anc : forall nand : list (option GRegex),
  omap id (fold_left (fun nand p =>
                        map (fun o => match o with
                                      | Some r => if g_regex_match r p then None else Some r
                                      | None => None
                                      end) nand) anc nand)
  = keep anc (omap id nand).
Proof.
  induction anc as [|p anc IH]; intros nand; cbn [fold_left].
  - now rewrite keep_nil.
  - rewrite IH, omap_id_weed_step. unfold keep. rewrite filter_filter.
    apply filter_ext_bool. intros o. cbn. now rewrite negb_orb.
Qed.

Lemma omap_id_Some {A} (l : list A) : omap id (map Some l) = l.
Proof. induction l as [|x l IH]; cbn; [reflexivity|]. now rewrite IH. Qed.

Lemma filter_length_all {A} (p : A -> bool) (l : list A) :
  (length (List.filter p l) <= length l)%nat
  /\ (length (List.filter p l) = length l <-> Forall (fun x => p x = true) l).
Proof.
  induction l as [|x l [IH1 IH2]]; cbn.
  - split; [lia|]. split; [constructor | reflexivity].
  - destruct (p x) eqn:Hp; cbn.
    + split; [lia|]. rewrite Forall_cons. split.
      * intros Hl. split; [exact Hp | apply IH2; lia].
      * intros [_ Hl]. apply IH2 in Hl. lia.
    + split; [lia|]. rewrite Forall_cons. split; [lia | intros [Hx _]; congruence].
Qed.

(** X14.  [fl_search_match_full] stores the terminating NULL
    inside its array [and] only if the name of some ancestor below the
    root matches one of the AND keywords; otherwise, and so for every
    search without keywords and every node right below the root, it
    stores it at index [len], one past the end.  When the store is inside
    the array, the result is the test that [fl_search_rec] applies to the
    node: [fl_search_match] for the keywords that no ancestor matches. *)
Theorem fl_search_match_full_bounds (anc : list string) (fl : fl_list) (s : fl_search) :
  (fl_search_match_full anc fl s = None
   <-> Forall (fun o => existsb (g_regex_match o) anc = false) (default [] (s_and s)))
  /\ (forall b, fl_search_match_full anc fl s = Some b -> b = match_on_path s (anc, fl)).
Proof.
  unfold fl_search_match_full, fl_search_and_len.
  rewrite omap_id_weed, omap_id_Some.
  destruct (filter_length_all (fun o => negb (existsb (g_regex_match o) anc))
              (default [] (s_and s))) as [Hle Hall].
  fold (keep anc (default [] (s_and s))) in Hle, Hall.
  destruct (Z.ltb_spec (Z.of_nat (length (keep anc (default [] (s_and s)))))
              (Z.of_nat (length (default [] (s_and s))))) as [Hlt|Hge].
  - split.
    + split; [discriminate|]. intros Hf. exfalso.
      assert (length (keep anc (default [] (s_and s))) = length (default [] (s_and s))); [|lia].
      apply Hall. eapply Forall_impl; [exact Hf|]. cbn. now intros o ->.
    + intros b [= <-]. reflexivity.
  - split; [|discriminate].
    split; [|reflexivity]. intros _.
    assert (Hl : length (keep anc (default [] (s_and s))) = length (default [] (s_and s)))
      by lia.
    apply Hall in Hl. eapply Forall_impl; [exact Hl|]. cbn. intros o Ho.
    now apply negb_true_iff.
Qed.
End SearchTreeFacts.

Section SearchTreeExamples.
Import Fl.

(** A search for "mus" and "mp" in a small tree: "music" takes care of the
    first keyword for everything below it. *)
Example fl_search_rec_run :
  map name (fl_search_rec (H := literal_regex) false Samples.music_tree
              (Samples.keywords ["mus"; "mp"]) 10) = ["a.mp3"; "c.mp3"]
  /\ map name (fl_search_rec (H := literal_regex) false Samples.music_tree
                 (Samples.keywords ["mus"; "mp"]) 1) = ["a.mp3"]
  /\ map name (fl_search_rec (H := literal_regex) false Samples.music_tree
                 (Samples.keywords []) 3) = ["music"; "a.mp3"; "b.txt"]
  /\ fl_search_match_full (H := literal_regex) ["music"] (Samples.file "a.mp3" 5 true)
       (Samples.keywords ["mus"; "mp"]) = Some true
  /\ fl_search_match_full (H := literal_regex) [] (Samples.file "music.txt" 3 true)
       (Samples.keywords ["mus"]) = None.
Proof. vm_compute. repeat split. Qed.

End SearchTreeExamples.

(** * More on the database service ([db.c]) *)

Section DbChainFacts.
Import Db.
Context `{Sqlite} `{Darray}.

Lemma database_app a b : database (a ++ b) = database a ++ database b.
Proof. apply List.filter_app. Qed.

Lemma database_cons e l : is_db_event e = true -> database (e :: l) = e :: database l.
Proof. intros He. unfold database. cbn. now rewrite He. Qed.

Lemma database_final res0 r lastid : database (db_queue_item_final res0 r lastid) = [].
Proof. now destruct res0. Qed.

Lemma database_error q : database (db_queue_item_error q) = [].
Proof. unfold db_queue_item_error. now destruct (skip_to_res _). Qed.

Lemma database_errors l : database (flat_map db_queue_item_error l) = [].
Proof.
  induction l as [|q l IH]; [reflexivity|]. cbn. now rewrite database_app, database_error, IH.
Qed.

Lemma database_warn st : database (warn_donext st) = [].
Proof. unfold warn_donext. now destruct (donext st). Qed.

Lemma run_one_trace q nc t st res0 lastid r st' :
  run_one q nc t st = (res0, lastid, r, st') ->
  in_trans st' = in_trans st /\ donext st' = donext st /\ errtrans st' = errtrans st
  /\ (scannable q = true -> res0 = fst <$> res q)
  /\ exists rows, trace st' = trace st ++ Ev_exec q nc t r :: rows /\ database rows = [].
Proof.
  unfold run_one, db_queue_process_one.
  destruct (sql_prepare (db st) (query q) nc) as [rp d0].
  destruct (truthy rp).
  { intros [= <- <- <- <-]. cbn. repeat split.
    - intros Hq. now apply skip_to_res_scannable.
    - now exists []. }
  destruct (sql_run d0 (query q) (args q) nc t) as [[[rows r'] rowid] d'].
  intros [= <- <- <- <-]. cbn. repeat split.
  eexists. split; [reflexivity|].
  destruct (res q) as [[queue cols]|]; [|reflexivity].
  case_match; [reflexivity|]. clear. induction rows as [|x rows IH]; [reflexivity | exact IH].
Qed.

Lemma is_chain_closing qs ql :
  Forall (fun q => chained q = true) qs -> closes ql = true -> is_chain (qs ++ [ql]) = true.
Proof.
  intros Hqs Hl. induction Hqs as [|q qs Hq Hqs IH].
  - cbn. unfold closes in Hl. apply andb_prop in Hl as [Hl Hn]. apply andb_prop in Hl as [Ht _].
    now rewrite Ht, Hn.
  - unfold chained in Hq. apply andb_prop in Hq as [Hq _]. apply andb_prop in Hq as [Ht Hn].
    change ((q :: qs) ++ [ql]) with (q :: (qs ++ [ql])).
    destruct (qs ++ [ql]) as [|q' r] eqn:E; [now destruct qs|].
    change (is_chain (q :: q' :: r)) with (transactional q && chains_next q && is_chain (q' :: r)).
    now rewrite Ht, Hn, IH.
Qed.

Lemma flat_map_error_last qs ql a cols :
  scannable ql = true ->
  res ql = Some (a, cols) ->
  flat_map db_queue_item_error (qs ++ [ql])
  = flat_map db_queue_item_error qs ++ [Ev_push a (Final SQLITE_ERROR None)].
Proof.
  intros Hsc Hres. rewrite flat_map_app. cbn.
  rewrite (db_queue_item_error_scannable ql Hsc). now rewrite Hres.
Qed.

(** The chain after its transaction was aborted. *)
Lemma last_chain_aborted qs ql a cols rest s :
  Forall (fun q => chained q = true) qs -> closes ql = true -> res ql = Some (a, cols) ->
  scannable ql = true ->
  errtrans s = true ->
  exists evs s',
    db_queue_process (map Some (qs ++ [ql]) ++ rest) s = db_queue_process rest s'
    /\ s' = idle s'
    /\ trace s' = trace s ++ evs ++ [Ev_push a (Final SQLITE_ERROR None)]
    /\ database evs = [].
Proof.
  intros Hqs Hl Hres Hsc He.
  rewrite (db_queue_process_chain (qs ++ [ql]) rest s He (is_chain_closing qs ql Hqs Hl)).
  eexists (warn_donext s ++ flat_map db_queue_item_error qs), _.
  split; [reflexivity|]. split; [reflexivity|]. split.
  - cbn. rewrite (flat_map_error_last qs ql a cols Hsc Hres). now rewrite <- !app_assoc.
  - now rewrite database_app, database_warn, database_errors.
Qed.

Lemma begin_for_summary s rb sb :
  begin_for s = (rb, sb) ->
  in_trans sb = true /\ donext sb = donext s /\ errtrans sb = errtrans s
  /\ trace sb = trace s ++ (if in_trans s then [] else [Ev_begin rb])
  /\ (in_trans s = true -> rb = SQLITE_DONE).
Proof.
  unfold begin_for. destruct (in_trans s) eqn:Hin.
  - intros [= <- <-]. rewrite app_nil_r. auto.
  - intros Hb. apply begin_summary in Hb as (Ht & Hi & Hn & He). cbn in *.
    repeat split; auto. discriminate.
Qed.

(** The turn of a normal or NEXT request that succeeds. *)
Lemma db_queue_process_iter_done (q : queue_item) (st st_b st_r : state)
    (res0 : option N) (lastid : Z) :
  errtrans st = false ->
  transactional q = true ->
  has_flag (flags q) DBF_LAST = false ->
  begin_for st = (SQLITE_DONE, st_b) ->
  run_one q (has_flag (flags q) DBF_NOCACHE) true st_b = (res0, lastid, SQLITE_DONE, st_r) ->
  db_queue_process_iter (Some q) st
  = (emit (db_queue_item_final res0 SQLITE_DONE lastid) st_r, true).
Proof.
  intros He Hq Hl Hb Hr. apply transactional_flags in Hq as [Hs Hend].
  unfold db_queue_process_iter.
  rewrite Hs, Hend. rewrite bool_decide_eq_false_2 by discriminate.
  cbn [orb]. unfold begin_for in Hb. rewrite He in Hb |- *. rewrite Hl.
  destruct (in_trans st) eqn:Ht.
  - injection Hb as <-. cbn [negb]. rewrite Hr. reflexivity.
  - rewrite Hb. change (SQLITE_DONE =? SQLITE_DONE) with true. cbn [negb].
    rewrite Hr. reflexivity.
Qed.

(** The turn of a NEXT request for which no transaction can be begun. *)
Lemma db_queue_process_iter_nobegin (q : queue_item) (st st_b : state) (rb : Z) :
  errtrans st = false ->
  transactional q = true ->
  has_flag (flags q) DBF_LAST = false ->
  chains_next q = true ->
  begin_for st = (rb, st_b) ->
  rb <> SQLITE_DONE ->
  db_queue_process_iter (Some q) st
  = (emit (db_queue_item_error q) (set_ctl (in_trans st_b) true true st_b), true).
Proof.
  intros He Hq Hl Hn Hb Hrb. apply transactional_flags in Hq as [Hs Hend].
  unfold db_queue_process_iter. unfold chains_next in Hn.
  rewrite Hs, Hend. rewrite bool_decide_eq_false_2 by discriminate.
  cbn [orb]. unfold begin_for in Hb. rewrite He in Hb |- *. rewrite Hl.
  apply Z.eqb_neq in Hrb.
  destruct (in_trans st) eqn:Ht.
  - injection Hb as <- <-. discriminate.
  - rewrite Hb, Hrb, Hn. reflexivity.
Qed.

Lemma last_app_some {A} (l k : list A) x : last k = Some x -> last (l ++ k) = Some x.
Proof. intros Hk. rewrite last_app, Hk. reflexivity. Qed.

Ltac norm_app :=
  repeat (rewrite <- app_assoc || rewrite <- app_comm_cons); reflexivity.

Ltac idle_goal :=
  unfold idle, emit, set_ctl; cbn; f_equal; congruence.

Lemma last_chain_run qs ql a cols rest :
  closes ql = true -> res ql = Some (a, cols) -> scannable ql = true ->
  Forall (fun q => chained q = true) qs ->
  forall s, errtrans s = false -> donext s = false ->
  in_trans s = true \/ qs <> [] ->
  exists evs code lastid s',
    db_queue_process (map Some (qs ++ [ql]) ++ rest) s = db_queue_process rest s'
    /\ s' = idle s'
    /\ trace s' = trace s ++ evs ++ [Ev_push a (Final code lastid)]
    /\ (code = SQLITE_DONE ->
        database evs = (if in_trans s then [] else [Ev_begin SQLITE_DONE])
                       ++ map (ran true) (qs ++ [ql]) ++ [Ev_commit SQLITE_DONE])
    /\ (code <> SQLITE_DONE ->
        (Ev_commit SQLITE_DONE ∉ database evs)
        /\ (in_trans s = true \/ head (database evs) = Some (Ev_begin SQLITE_DONE) ->
            last (database evs) = Some Ev_rollback)).
Proof.
  intros Hl Hres Hsc Hqs. induction Hqs as [|q qs Hq Hqs IH]; intros s He Hn Hin.
  - destruct Hin as [Hin|Hin]; [|congruence].
    pose proof Hl as Hl'. unfold closes in Hl'.
    apply andb_prop in Hl' as [Hl' Hnn]. apply andb_prop in Hl' as [Ht Hlast].
    apply transactional_flags in Ht as [Hs Hend].
    cbn [app map db_queue_process]. unfold db_queue_process_iter.
    rewrite Hs, Hend, (bool_decide_eq_false_2 (Some ql = None)) by discriminate.
    cbn [orb]. rewrite He, Hlast.
    destruct (run_one ql _ (in_trans s) s) as [[[res0 lastid] r] s2] eqn:Hrun.
    apply run_one_trace in Hrun as (Hin2 & Hn2 & He2 & Hres0 & rows & Ht2 & Hrows).
    specialize (Hres0 Hsc). rewrite Hres in Hres0. cbn in Hres0. subst res0.
    rewrite Hin2, Hin.
    destruct (Z.eqb_spec r SQLITE_DONE) as [->|Hr].
    + destruct (db_queue_process_commit s2) as [r' s3] eqn:Hc.
      apply commit_summary in Hc as (Ht3 & Hin3 & Hn3 & He3).
      destruct (Z.eqb_spec r' SQLITE_DONE) as [->|Hr'].
      * eexists (Ev_exec ql _ true SQLITE_DONE :: rows ++ [Ev_commit SQLITE_DONE]),
          SQLITE_DONE, _, _.
        split; [reflexivity|]. split; [idle_goal|]. split; [|split].
        -- cbn. rewrite Ht3, Ht2, Hin. cbn. now rewrite <- !app_assoc.
        -- intros _. cbn. rewrite database_app, Hrows. reflexivity.
        -- congruence.
      * pose proof (proj2 (Z.eqb_neq _ _) Hr') as Hrb. rewrite ?Hrb.
        eexists (Ev_exec ql _ true SQLITE_DONE :: rows ++ [Ev_commit r'; Ev_rollback]),
          r', _, _.
        split; [reflexivity|]. split; [idle_goal|]. split; [|split].
        -- cbn. rewrite Ht3, Ht2, Hin. cbn.
           rewrite ?Hrb. now rewrite <- !app_assoc.
        -- congruence.
        -- intros _. cbn. rewrite database_app, Hrows. cbn. split; [|reflexivity].
           intros Hm. apply elem_of_cons in Hm as [Hm|Hm]; [discriminate|].
           apply elem_of_cons in Hm as [Hm|Hm]; [congruence|].
           apply elem_of_cons in Hm as [Hm|Hm]; [discriminate|].
           now apply elem_of_nil in Hm.
    + pose proof (proj2 (Z.eqb_neq _ _) Hr) as Hrb. rewrite ?Hrb.
      eexists (Ev_exec ql _ true r :: rows ++ [Ev_rollback]), r, _, _.
      split; [reflexivity|]. split; [idle_goal|]. split; [|split].
      * cbn. rewrite Ht2, Hin. cbn. rewrite ?Hrb. now rewrite <- !app_assoc.
      * congruence.
      * intros _. cbn. rewrite database_app, Hrows. cbn. split; [|reflexivity].
        intros Hm. apply elem_of_cons in Hm as [Hm|Hm]; [discriminate|].
        apply elem_of_cons in Hm as [Hm|Hm]; [discriminate|].
        now apply elem_of_nil in Hm.
  - clear Hin. pose proof Hq as Hq'. unfold chained in Hq'.
    apply andb_prop in Hq' as [Hq' Hnl]. apply andb_prop in Hq' as [Ht Hnx].
    apply negb_true_iff in Hnl.
    change (map Some ((q :: qs) ++ [ql]) ++ rest)
      with (Some q :: (map Some (qs ++ [ql]) ++ rest)).
    cbn [db_queue_process].
    destruct (begin_for s) as [rb sb] eqn:Hb.
    pose proof (begin_for_summary s rb sb Hb) as (Hinb & Hnb & Heb & Htb & Hdone).
    destruct (Z.eq_dec rb SQLITE_DONE) as [->|Hrb].
    + destruct (run_one q (has_flag (flags q) DBF_NOCACHE) true sb)
        as [[[res0 lastid0] r] sr] eqn:Hrun.
      pose proof (run_one_trace _ _ _ _ _ _ _ _ Hrun)
        as (Hinr & Hnr & Her & _ & rows & Htr & Hrows).
      destruct (Z.eq_dec r SQLITE_DONE) as [->|Hr].
      * rewrite (db_queue_process_iter_done q s sb sr res0 lastid0) by assumption.
        destruct (IH (emit (db_queue_item_final res0 SQLITE_DONE lastid0) sr))
          as (evs1 & code & lastid & s' & Hrun1 & Hidle & Ht1 & Hok & Hbad).
        { cbn. congruence. }
        { cbn. congruence. }
        { left. cbn. congruence. }
        assert (Hin1 : in_trans (emit (db_queue_item_final res0 SQLITE_DONE lastid0) sr) = true)
          by (cbn; congruence).
        rewrite Hin1 in Hok, Hbad.
        exists ((if in_trans s then [] else [Ev_begin SQLITE_DONE])
                ++ Ev_exec q (has_flag (flags q) DBF_NOCACHE) true SQLITE_DONE :: rows
                ++ db_queue_item_final res0 SQLITE_DONE lastid0 ++ evs1), code, lastid, s'.
        assert (Hdb : database ((if in_trans s then [] else [Ev_begin SQLITE_DONE])
                ++ Ev_exec q (has_flag (flags q) DBF_NOCACHE) true SQLITE_DONE :: rows
                ++ db_queue_item_final res0 SQLITE_DONE lastid0 ++ evs1)
                = (if in_trans s then [] else [Ev_begin SQLITE_DONE])
                  ++ ran true q :: database evs1).
        { rewrite database_app, database_cons by reflexivity.
          rewrite !database_app, Hrows, database_final.
          now destruct (in_trans s). }
        split; [exact Hrun1|]. split; [exact Hidle|]. split; [|split].
        -- rewrite Ht1. cbn. rewrite Htr, Htb. norm_app.
        -- intros Hc. rewrite Hdb, (Hok Hc). reflexivity.
        -- intros Hc. destruct (Hbad Hc) as [Hnc Hlast]. rewrite Hdb. split.
           ++ intros Hm. apply elem_of_app in Hm as [Hm|Hm].
              ** destruct (in_trans s); [now apply elem_of_nil in Hm|].
                 apply list_elem_of_singleton in Hm. discriminate.
              ** apply elem_of_cons in Hm as [Hm|Hm]; [discriminate | auto].
           ++ intros _. apply last_app_some.
              change (ran true q :: database evs1) with ([ran true q] ++ database evs1).
              apply last_app_some. auto.
      * rewrite (db_queue_process_iter_fail q s sb sr res0 lastid0 r) by assumption.
        cbv zeta. rewrite Hnx.
        set (st_f := db_queue_process_rollback (emit (db_queue_item_final res0 r lastid0) sr)).
        destruct (last_chain_aborted qs ql a cols rest
                    (set_ctl (in_trans st_f) (donext st_f) true st_f) Hqs Hl Hres Hsc eq_refl)
          as (evs2 & s' & Hrun2 & Hidle & Ht2 & Hdb2).
        exists ((if in_trans s then [] else [Ev_begin SQLITE_DONE])
                ++ Ev_exec q (has_flag (flags q) DBF_NOCACHE) true r :: rows
                ++ db_queue_item_final res0 r lastid0 ++ [Ev_rollback] ++ evs2),
          SQLITE_ERROR, None, s'.
        assert (Hdb : database ((if in_trans s then [] else [Ev_begin SQLITE_DONE])
                ++ Ev_exec q (has_flag (flags q) DBF_NOCACHE) true r :: rows
                ++ db_queue_item_final res0 r lastid0 ++ [Ev_rollback] ++ evs2)
                = (if in_trans s then [] else [Ev_begin SQLITE_DONE])
                  ++ [Ev_exec q (has_flag (flags q) DBF_NOCACHE) true r; Ev_rollback]).
        { rewrite database_app, database_cons by reflexivity.
          rewrite !database_app, Hrows, database_final, Hdb2.
          now destruct (in_trans s). }
        split; [exact Hrun2|]. split; [exact Hidle|]. split; [|split].
        -- rewrite Ht2. cbn. rewrite Htr, Htb. norm_app.
        -- discriminate.
        -- intros _. rewrite Hdb. split.
           ++ intros Hm. apply elem_of_app in Hm as [Hm|Hm].
              ** destruct (in_trans s); [now apply elem_of_nil in Hm|].
                 apply list_elem_of_singleton in Hm. discriminate.
              ** apply elem_of_cons in Hm as [Hm|Hm]; [discriminate |].
                 apply list_elem_of_singleton in Hm. discriminate.
           ++ intros _. now apply last_app_some.
    + rewrite (db_queue_process_iter_nobegin q s sb rb) by assumption.
      assert (Hins : in_trans s = false).
      { destruct (in_trans s); [|reflexivity]. now specialize (Hdone eq_refl). }
      rewrite Hins in Htb.
      destruct (last_chain_aborted qs ql a cols rest
                  (emit (db_queue_item_error q) (set_ctl (in_trans sb) true true sb))
                  Hqs Hl Hres Hsc eq_refl)
        as (evs2 & s' & Hrun2 & Hidle & Ht2 & Hdb2).
      exists ([Ev_begin rb] ++ db_queue_item_error q ++ evs2), SQLITE_ERROR, None, s'.
      assert (Hdb : database ([Ev_begin rb] ++ db_queue_item_error q ++ evs2) = [Ev_begin rb]).
      { rewrite !database_app, database_error, Hdb2. reflexivity. }
      split; [exact Hrun2|]. split; [exact Hidle|]. split; [|split].
      * rewrite Ht2. cbn. rewrite Htb. norm_app.
      * discriminate.
      * intros _. rewrite Hdb. split.
        -- intros Hm. apply list_elem_of_singleton in Hm. discriminate.
        -- intros [Hc|Hc]; [congruence|]. cbn in Hc. congruence.
Qed.

(** X15.  A chain of [DBF_NEXT] requests closed by a
    [DBF_LAST] request with a reply queue, all of which bind nothing but
    NULLs and ints other than 0 and 6, processed by a service that has
    no transaction open, gets one final result for the last request.  That
    result is [SQLITE_DONE] only if SQLite saw exactly this: a BEGIN that
    succeeded, every request of the chain run in the transaction with
    [SQLITE_DONE], in order, and a COMMIT that succeeded.  With any other
    result nothing was committed, and a transaction that was begun was
    rolled back.  Either way the service is left without transaction. *)
Theorem db_queue_process_last_chain (qs : list queue_item) (ql : queue_item) (a : N)
    (cols : list Z) (rest : list (option queue_item)) (st : state) :
  qs <> [] ->
  Forall (fun q => chained q = true) qs ->
  closes ql = true ->
  res ql = Some (a, cols) ->
  forallb scannable (qs ++ [ql]) = true ->
  exists evs code lastid st',
    db_queue_process (map Some (qs ++ [ql]) ++ rest) (idle st) = db_queue_process rest st'
    /\ st' = idle st'
    /\ trace st' = trace st ++ evs ++ [Ev_push a (Final code lastid)]
    /\ (code = SQLITE_DONE ->
        database evs
        = Ev_begin SQLITE_DONE :: map (ran true) (qs ++ [ql]) ++ [Ev_commit SQLITE_DONE])
    /\ (code <> SQLITE_DONE ->
        (Ev_commit SQLITE_DONE ∉ database evs)
        /\ (head (database evs) = Some (Ev_begin SQLITE_DONE) ->
            last (database evs) = Some Ev_rollback)).
Proof.
  intros Hne Hqs Hl Hres Hsc.
  assert (Hscl : scannable ql = true).
  { rewrite forallb_app in Hsc. apply andb_prop in Hsc as [_ Hsc]. cbn in Hsc.
    now rewrite andb_true_r in Hsc. }
  destruct (last_chain_run qs ql a cols rest Hl Hres Hscl Hqs (idle st) eq_refl eq_refl
              (or_intror Hne))
    as (evs & code & lastid & s' & Hrun & Hidle & Ht & Hok & Hbad).
  exists evs, code, lastid, s'. cbn in Hok, Hbad, Ht.
  split; [exact Hrun|]. split; [exact Hidle|]. split; [exact Ht|]. split; [exact Hok|].
  intros Hc. destruct (Hbad Hc) as [Hnc Hlast]. split; [exact Hnc | auto].
Qed.

Lemma no_failure_app a b : no_failure (a ++ b) = no_failure a && no_failure b.
Proof. apply forallb_app. Qed.

(** The turn of a normal or NEXT request for which no transaction can be
    begun. *)
Lemma db_queue_process_iter_nobegin_any (q : queue_item) (st st_b : state) (rb : Z) :
  errtrans st = false ->
  transactional q = true ->
  has_flag (flags q) DBF_LAST = false ->
  begin_for st = (rb, st_b) ->
  rb <> SQLITE_DONE ->
  exists st', db_queue_process_iter (Some q) st = (st', true)
    /\ trace st' = trace st ++ [Ev_begin rb] ++ db_queue_item_error q.
Proof.
  intros He Hq Hl Hb Hrb. apply transactional_flags in Hq as [Hs Hend].
  unfold db_queue_process_iter.
  rewrite Hs, Hend. rewrite bool_decide_eq_false_2 by discriminate.
  cbn [orb]. unfold begin_for in Hb. rewrite He in Hb |- *. rewrite Hl.
  apply Z.eqb_neq in Hrb.
  destruct (in_trans st) eqn:Ht.
  - injection Hb as <- <-. discriminate.
  - rewrite Hb, Hrb. apply begin_summary in Hb as (Htb & _). cbn in Htb.
    eexists. split; [reflexivity|].
    destruct (has_flag (flags q) DBF_NEXT); cbn; rewrite Htb; now rewrite <- !app_assoc.
Qed.

Lemma batch_run qs :
  Forall (fun q => plain q = true) qs ->
  forall s, errtrans s = false -> donext s = false ->
  in_trans s = true \/ qs <> [] ->
  exists evs,
    trace (db_queue_process (map Some qs ++ [None]) s) = trace s ++ evs
    /\ (no_failure evs = true ->
        exists r, database evs
                  = (if in_trans s then [] else [Ev_begin SQLITE_DONE])
                    ++ map (ran true) qs ++ [Ev_commit r]).
Proof.
  induction 1 as [|q qs Hq Hqs IH]; intros s He Hn Hin.
  - destruct Hin as [Hin|Hin]; [|congruence].
    cbn [map app db_queue_process]. unfold db_queue_process_iter.
    cbn [bool_decide orb]. rewrite bool_decide_eq_true_2 by reflexivity. cbn [orb].
    rewrite Hn, Hin.
    destruct (db_queue_process_commit s) as [r s1] eqn:Hc.
    apply commit_summary in Hc as (Ht & _). cbn [snd].
    exists [Ev_commit r]. split; [exact Ht|]. intros _. now exists r.
  - clear Hin. pose proof Hq as Hq'. unfold plain in Hq'.
    apply andb_prop in Hq' as [Ht Hnl]. apply negb_true_iff in Hnl.
    change (map Some (q :: qs) ++ [None]) with (Some q :: (map Some qs ++ [None])).
    cbn [db_queue_process].
    destruct (begin_for s) as [rb sb] eqn:Hb.
    pose proof (begin_for_summary s rb sb Hb) as (Hinb & Hnb & Heb & Htb & Hdone).
    destruct (Z.eq_dec rb SQLITE_DONE) as [->|Hrb].
    + destruct (run_one q (has_flag (flags q) DBF_NOCACHE) true sb)
        as [[[res0 lastid0] r] sr] eqn:Hrun.
      pose proof (run_one_trace _ _ _ _ _ _ _ _ Hrun)
        as (Hinr & Hnr & Her & _ & rows & Htr & Hrows).
      destruct (Z.eq_dec r SQLITE_DONE) as [->|Hr].
      * rewrite (db_queue_process_iter_done q s sb sr res0 lastid0) by assumption.
        destruct (IH (emit (db_queue_item_final res0 SQLITE_DONE lastid0) sr))
          as (evs1 & Ht1 & Hok).
        { cbn. congruence. }
        { cbn. congruence. }
        { left. cbn. congruence. }
        assert (Hin1 : in_trans (emit (db_queue_item_final res0 SQLITE_DONE lastid0) sr) = true)
          by (cbn; congruence).
        rewrite Hin1 in Hok.
        exists ((if in_trans s then [] else [Ev_begin SQLITE_DONE])
                ++ Ev_exec q (has_flag (flags q) DBF_NOCACHE) true SQLITE_DONE :: rows
                ++ db_queue_item_final res0 SQLITE_DONE lastid0 ++ evs1).
        split.
        -- rewrite Ht1. cbn. rewrite Htr, Htb. norm_app.
        -- intros Hnf. rewrite !no_failure_app in Hnf. cbn in Hnf.
           rewrite !no_failure_app in Hnf.
           apply andb_prop in Hnf as [_ Hnf]. apply andb_prop in Hnf as [_ Hnf].
           apply andb_prop in Hnf as [_ Hnf].
           destruct (Hok Hnf) as [rc Hdb]. exists rc.
           rewrite database_app, database_cons by reflexivity.
           rewrite !database_app, Hrows, database_final, Hdb.
           now destruct (in_trans s).
      * pose proof (db_queue_process_iter_fail q s sb sr res0 lastid0 r He Ht Hnl Hb Hrun Hr)
          as Hit.
        cbv zeta in Hit. rewrite Hit.
        match goal with |- context [db_queue_process _ ?x] => set (sx := x) end.
        destruct (run_summary (map Some qs ++ [None]) sx) as (evs2 & Ht2 & _).
        exists ((if in_trans s then [] else [Ev_begin SQLITE_DONE])
                ++ Ev_exec q (has_flag (flags q) DBF_NOCACHE) true r :: rows
                ++ db_queue_item_final res0 r lastid0 ++ [Ev_rollback] ++ evs2).
        split.
        -- rewrite Ht2. unfold sx. destruct (chains_next q); cbn; rewrite Htr, Htb; norm_app.
        -- intros Hnf. exfalso. rewrite no_failure_app in Hnf.
           apply andb_prop in Hnf as [_ Hnf]. cbn in Hnf.
           apply Z.eqb_neq in Hr. rewrite Hr in Hnf. discriminate.
    + destruct (db_queue_process_iter_nobegin_any q s sb rb He Ht Hnl Hb Hrb)
        as (s1 & Hit & Ht1).
      rewrite Hit.
      destruct (run_summary (map Some qs ++ [None]) s1) as (evs2 & Ht2 & _).
      exists (([Ev_begin rb] ++ db_queue_item_error q) ++ evs2).
      split.
      * rewrite Ht2, Ht1. norm_app.
      * intros Hnf. exfalso. cbn in Hnf.
        apply Z.eqb_neq in Hrb. rewrite Hrb in Hnf. discriminate.
Qed.

(** X21.  Normal and [DBF_NEXT] requests that are popped one after
    the other by a service without open transaction, and then a timeout:
    if the BEGIN and every query succeed, SQLite sees one BEGIN, the
    queries in the order of the queue, each run in the transaction, and
    one COMMIT at the timeout.  The requests of a short interval are
    grouped in a single transaction. *)
Theorem db_queue_process_batch (qs : list queue_item) (st : state) :
  qs <> [] ->
  Forall (fun q => plain q = true) qs ->
  exists evs,
    trace (db_queue_process (map Some qs ++ [None]) (idle st)) = trace st ++ evs
    /\ (no_failure evs = true ->
        exists r, database evs
                  = Ev_begin SQLITE_DONE :: map (ran true) qs ++ [Ev_commit r]).
Proof.
  intros Hne Hqs.
  destruct (batch_run qs Hqs (idle st) eq_refl eq_refl (or_intror Hne)) as (evs & Ht & Hok).
  exists evs. split; [exact Ht | exact Hok].
Qed.

End DbChainFacts.

Section DbChainExamples.
Import Db.
#[local] Existing Instance Samples.sample_sqlite.
#[local] Existing Instance Samples.sample_darray.

Lemma db_queue_process_last_chain_witness :
  exists evs code lastid st',
    db_queue_process (map Some (db_init_schema_tables ++ [db_init_schema_vars 9]) ++ [])
      (idle Samples.db_init) = db_queue_process [] st'
    /\ st' = idle st'
    /\ trace st' = trace Samples.db_init ++ evs ++ [Ev_push 9 (Final code lastid)]
    /\ (code = SQLITE_DONE ->
        database evs
        = Ev_begin SQLITE_DONE
          :: map (ran true) (db_init_schema_tables ++ [db_init_schema_vars 9])
          ++ [Ev_commit SQLITE_DONE])
    /\ (code <> SQLITE_DONE ->
        (Ev_commit SQLITE_DONE ∉ database evs)
        /\ (head (database evs) = Some (Ev_begin SQLITE_DONE) ->
            last (database evs) = Some Ev_rollback)).
Proof.
  apply (db_queue_process_last_chain (H := Samples.sample_sqlite)
           db_init_schema_tables (db_init_schema_vars 9) 9 [] [] Samples.db_init).
  - discriminate.
  - repeat constructor.
  - reflexivity.
  - reflexivity.
  - reflexivity.
Defined.

Lemma db_queue_process_batch_witness :
  exists evs,
    trace (db_queue_process (map Some [Samples.q_second; Samples.q_after] ++ [None])
             (idle Samples.db_init)) = trace Samples.db_init ++ evs
    /\ (no_failure evs = true ->
        exists r, database evs
                  = Ev_begin SQLITE_DONE
                    :: map (ran true) [Samples.q_second; Samples.q_after] ++ [Ev_commit r]).
Proof.
  apply (db_queue_process_batch (H := Samples.sample_sqlite)
           [Samples.q_second; Samples.q_after] Samples.db_init).
  - discriminate.
  - repeat constructor.
Defined.

(** The schema of a new database on a database that accepts every
    statement: the caller is sent [SQLITE_DONE]. *)
Example db_init_schema_run :
  replies (trace (db_queue_process (map Some (db_init_schema_requests 9))
                    (idle Samples.db_init)))
  = [(9%N, Final SQLITE_DONE (Some 0))].
Proof. vm_compute. reflexivity. Qed.

End DbChainExamples.

Section ShareFacts.
Import Db.
Variable share_rows : list db_share_item.

Lemma strcmp_zero_iff a b :
  c_string a = true -> c_string b = true -> (strcmp a b =? 0) = bool_decide (a = b).
Proof.
  intros Ha Hb. destruct (Z.eqb_spec (strcmp a b) 0) as [E|E].
  - apply strcmp_eq in E; [|assumption..]. now rewrite bool_decide_eq_true_2.
  - rewrite bool_decide_eq_false_2; [reflexivity|]. intros ->. now rewrite strcmp_refl in E.
Qed.

Lemma share_find_some name l p :
  share_find name l = Some p ->
  exists i, i ∈ l /\ strcmp name (si_name i) = 0 /\ si_path i = p.
Proof.
  induction l as [|i r IH]; cbn; [discriminate|].
  destruct (Z.eqb_spec (strcmp name (si_name i)) 0) as [E|E].
  - intros [= <-]. exists i. split; [left | auto].
  - intros Hf. destruct (IH Hf) as (j & Hj & Hs & Hp). exists j. split; [now right | auto].
Qed.

Lemma share_insert_perm new l : share_insert new l ≡ₚ new :: l.
Proof.
  induction l as [|i r IH]; cbn; [reflexivity|].
  destruct (strcmp (si_name i) (si_name new) >? 0); [reflexivity|].
  rewrite IH. apply Permutation_swap.
Qed.

Lemma share_insert_sorted new l :
  c_string (si_name new) = true -> names_ok l ->
  share_sorted l -> share_sorted (share_insert new l).
Proof.
  intros Hn. induction l as [|i r IH]; intros Hok Hs; cbn.
  - split; [constructor | exact I].
  - apply Forall_cons in Hok as [Hi Hok]. destruct Hs as [Hir Hs].
    destruct (Z.gtb_spec (strcmp (si_name i) (si_name new)) 0) as [Hgt|Hle].
    + split; [|split; assumption].
      assert (Hni : strcmp (si_name new) (si_name i) <= 0)
        by (rewrite strcmp_antisym; lia).
      constructor; [exact Hni|].
      rewrite Forall_forall in Hir, Hok |- *. intros j Hj.
      apply (strcmp_trans _ (si_name i)); auto.
    + split; [|now apply IH].
      rewrite share_insert_perm. constructor; assumption.
Qed.

Lemma share_find_insert_fresh name path l :
  share_find name l = None ->
  share_find name (share_insert (Build_db_share_item name path) l) = Some path.
Proof.
  induction l as [|i r IH]; cbn.
  - now rewrite strcmp_refl.
  - destruct (Z.eqb_spec (strcmp name (si_name i)) 0) as [E|E]; [discriminate|].
    intros Hf. destruct (strcmp (si_name i) name >? 0); cbn.
    + now rewrite strcmp_refl.
    + apply Z.eqb_neq in E. rewrite E. auto.
Qed.

Lemma share_find_insert_other n name path l :
  strcmp n name <> 0 ->
  share_find n (share_insert (Build_db_share_item name path) l) = share_find n l.
Proof.
  intros Hn. apply Z.eqb_neq in Hn.
  induction l as [|i r IH]; cbn.
  - now rewrite Hn.
  - destruct (strcmp (si_name i) name >? 0); cbn.
    + now rewrite Hn.
    + now rewrite IH.
Qed.

Lemma share_find_insert_shadow name path l p :
  c_string name = true -> names_ok l -> share_sorted l ->
  share_find name l = Some p ->
  share_find name (share_insert (Build_db_share_item name path) l) = Some p.
Proof.
  intros Hn. induction l as [|i r IH]; intros Hok Hs; cbn; [discriminate|].
  apply Forall_cons in Hok as [Hi Hok]. destruct Hs as [Hir Hs].
  destruct (Z.eqb_spec (strcmp name (si_name i)) 0) as [E|E].
  - intros [= <-].
    destruct (Z.gtb_spec (strcmp (si_name i) name) 0) as [Hgt|Hle];
      [rewrite strcmp_antisym in Hgt; lia|].
    cbn. apply Z.eqb_eq in E. now rewrite E.
  - intros Hf.
    destruct (Z.gtb_spec (strcmp (si_name i) name) 0) as [Hgt|Hle].
    + exfalso. destruct (share_find_some _ _ _ Hf) as (j & Hj & Hz & _).
      rewrite Forall_forall in Hir, Hok.
      apply strcmp_eq in Hz; [|auto..]. specialize (Hir j Hj). rewrite <- Hz in Hir. lia.
    + cbn. apply Z.eqb_neq in E. rewrite E. auto.
Qed.

Lemma share_remove_sublist name l : share_remove name l `sublist_of` l.
Proof.
  induction l as [|i r IH]; cbn; [constructor|].
  destruct (strcmp name (si_name i) =? 0); [now apply sublist_cons | now apply sublist_skip].
Qed.

Lemma share_sorted_sublist l k : k `sublist_of` l -> share_sorted l -> share_sorted k.
Proof.
  induction 1 as [|i k l Hs IH|i k l Hs IH]; cbn; [auto| |].
  - intros [Hf Hl]. split; [|auto].
    rewrite Forall_forall in Hf |- *. intros j Hj. apply Hf.
    eapply elem_of_sublist; eauto.
  - intros [_ Hl]. auto.
Qed.

Lemma share_find_remove_other n name l :
  c_string n = true -> c_string name = true -> names_ok l -> n <> name ->
  share_find n (share_remove name l) = share_find n l.
Proof.
  intros Hcn Hc Hok Hn. induction Hok as [|i r Hi Hok IH]; cbn; [reflexivity|].
  destruct (Z.eqb_spec (strcmp name (si_name i)) 0) as [E|E]; cbn.
  - apply strcmp_eq in E; [|assumption..]. rewrite <- E.
    rewrite strcmp_zero_iff, bool_decide_eq_false_2 by assumption. reflexivity.
  - now rewrite IH.
Qed.

Lemma share_find_none name l :
  c_string name = true -> names_ok l ->
  name ∉ map si_name l -> share_find name l = None.
Proof.
  intros Hc Hok. induction Hok as [|i r Hi Hok IH]; cbn; [reflexivity|].
  intros Hn. apply not_elem_of_cons in Hn as [Hn Hr].
  rewrite strcmp_zero_iff, bool_decide_eq_false_2 by assumption. auto.
Qed.

Lemma share_find_remove name l :
  c_string name = true -> names_ok l -> NoDup (map si_name l) ->
  share_find name (share_remove name l) = None.
Proof.
  intros Hc Hok. induction Hok as [|i r Hi Hok IH]; cbn; [reflexivity|].
  intros Hnd. apply NoDup_cons in Hnd as [Hni Hnd].
  rewrite strcmp_zero_iff by assumption. case_bool_decide as E.
  - subst name. now apply share_find_none.
  - cbn. rewrite strcmp_zero_iff, bool_decide_eq_false_2 by assumption. auto.
Qed.

(** X16.  [db_share_add] on a share list that is sorted by name
    keeps it sorted and adds exactly the new item; the INSERT request is
    queued.  [db_share_path] then returns the new path for the name,
    unless the name was shared already: the new item is put behind the old
    one, and the old path keeps being returned.  The paths of the other
    names do not change. *)
Theorem db_share_add_path (c c1 : client) (l : list db_share_item) (name path : string) :
  db_share_list share_rows c = (l, c1) ->
  c_string name = true -> names_ok l -> share_sorted l ->
  let c' := db_share_add share_rows name path c in
  share_sorted (fst (db_share_list share_rows c'))
  /\ fst (db_share_list share_rows c') ≡ₚ Build_db_share_item name path :: l
  /\ fst (db_share_path share_rows name c') = Some (default path (share_find name l))
  /\ (forall n, c_string n = true -> n <> name ->
        fst (db_share_path share_rows n c') = share_find n l)
  /\ db_queue c'
     = db_queue c1
       ++ [Build_queue_item 0 "INSERT INTO share (name, path) VALUES (?, ?)"
             [DBQ_TEXT name; DBQ_TEXT path] None].
Proof.
  intros Hl Hn Hok Hs c'. unfold c'. clear c'.
  unfold db_share_add, db_share_path. rewrite Hl.
  unfold db_share_list at 1 2 3. cbn.
  split; [now apply share_insert_sorted|].
  split; [apply share_insert_perm|].
  split; [|split; [|reflexivity]].
  - destruct (share_find name l) as [p|] eqn:Hf; cbn.
    + now apply share_find_insert_shadow.
    + now apply share_find_insert_fresh.
  - intros n Hcn Hne. apply share_find_insert_other.
    intros E. apply strcmp_eq in E; auto.
Qed.

(** X17.  [db_share_rm] for a name only removes items from
    the share list, so that a sorted list stays sorted, and queues the
    DELETE request.  If no name is shared twice, [db_share_path] returns
    NULL for the name afterwards; the paths of the other names do not
    change.  With NULL for the name the list is emptied. *)
Theorem db_share_rm_path (c c1 : client) (l : list db_share_item) (name : string) :
  db_share_list share_rows c = (l, c1) ->
  c_string name = true -> names_ok l ->
  let c' := db_share_rm share_rows (Some name) c in
  fst (db_share_list share_rows c') `sublist_of` l
  /\ (share_sorted l -> share_sorted (fst (db_share_list share_rows c')))
  /\ (NoDup (map si_name l) -> fst (db_share_path share_rows name c') = None)
  /\ (forall n, c_string n = true -> n <> name ->
        fst (db_share_path share_rows n c') = share_find n l)
  /\ db_queue c'
     = db_queue c1
       ++ [Build_queue_item 0 "DELETE FROM share WHERE name = ?" [DBQ_TEXT name] None]
  /\ fst (db_share_list share_rows (db_share_rm share_rows None c)) = [].
Proof.
  intros Hl Hn Hok c'. unfold c'. clear c'.
  unfold db_share_rm, db_share_path. rewrite Hl.
  unfold db_share_list at 1 2 3 4 5. cbn.
  split; [apply share_remove_sublist|].
  split; [apply share_sorted_sublist, share_remove_sublist|].
  split; [now apply share_find_remove|].
  split; [|split; reflexivity].
  intros n Hcn Hne. now apply share_find_remove_other.
Qed.
End ShareFacts.

Section VarsFacts.
Import Db.
Variable vars_rows : list db_var_item.

Lemma vars_of_lookup_None rows k :
  k ∉ map var_key rows -> vars_of rows !! k = None.
Proof.
  intros Hk. apply not_elem_of_list_to_map_1.
  rewrite <- list_fmap_compose. exact Hk.
Qed.

Lemma vars_load_spec rows : forall m,
  NoDup (map var_key rows) ->
  (forall i, i ∈ rows -> m !! var_key i = None) ->
  vars_load rows m = Some (vars_of rows ∪ m).
Proof.
  induction rows as [|i r IH]; intros m Hnd Hm; cbn.
  - unfold vars_of. cbn. now rewrite (left_id_L ∅ (∪)).
  - apply NoDup_cons in Hnd as [Hni Hnd].
    rewrite (Hm i) by left. rewrite IH; [| exact Hnd |].
    + f_equal. change (vars_of (i :: r)) with (<[var_key i := vi_val i]> (vars_of r)).
      rewrite <- insert_union_l, <- insert_union_r; [reflexivity|].
      now apply vars_of_lookup_None.
    + intros j Hj. rewrite lookup_insert_ne; [apply Hm; now right|].
      intros E. apply Hni. rewrite E. apply list_elem_of_fmap. now exists j.
Qed.

Lemma db_vars_cacheget_loads c :
  NoDup (map var_key vars_rows) ->
  exists m c1,
    db_vars_cacheget vars_rows c = Some (m, c1)
    /\ db_vars_cache c1 = Some m
    /\ (db_vars_cache c = None -> m = vars_of vars_rows)
    /\ (forall m0, db_vars_cache c = Some m0 -> m = m0 /\ c1 = c).
Proof.
  intros Hnd. unfold db_vars_cacheget. destruct (db_vars_cache c) as [m0|] eqn:Hc.
  - exists m0, c. split; [reflexivity|]. split; [exact Hc|]. split; [discriminate|].
    intros m1 [= <-]. split; reflexivity.
  - cbn. rewrite (vars_load_spec vars_rows ∅ Hnd) by (intros; apply lookup_empty).
    rewrite (right_id_L ∅ (∪)). cbn.
    eexists _, _. split; [reflexivity|]. split; [reflexivity|]. split; [reflexivity|].
    discriminate.
Qed.

Lemma db_vars_set_then_get (c : client) (hub : Z) (name : string) (val : option string) :
  NoDup (map var_key vars_rows) ->
  exists c',
    db_vars_set vars_rows hub name val c = Some c'
    /\ db_vars_get vars_rows hub name c' = Some (val, c')
    /\ (forall hub' name', (name', hub') <> (name, hub) ->
          fst <$> db_vars_get vars_rows hub' name' c'
          = fst <$> db_vars_get vars_rows hub' name' c)
    /\ exists c1 m,
        db_vars_cacheget vars_rows c = Some (m, c1)
        /\ db_queue c'
           = db_queue c1
             ++ [match val with
                 | Some v =>
                     Build_queue_item 0
                       "INSERT OR REPLACE INTO vars (name, hub, value) VALUES (?, ?, ?)"
                       [DBQ_TEXT name; DBQ_INT64 (to_gint64 hub); DBQ_TEXT v] None
                 | None =>
                     Build_queue_item 0 "DELETE FROM vars WHERE name = ? AND hub = ?"
                       [DBQ_TEXT name; DBQ_INT64 (to_gint64 hub)] None
                 end].
Proof.
  intros Hnd.
  destruct (db_vars_cacheget_loads c Hnd) as (m & c1 & Hget & Hc1 & _ & _).
  destruct val as [v|]; cbn [db_vars_set]; unfold db_vars_rm, db_vars_get;
    rewrite Hget; cbn; eexists; (split; [reflexivity|]);
    unfold db_vars_cacheget; cbn.
  - rewrite lookup_insert_eq. split; [reflexivity|]. split.
    + intros hub' name' Hne. rewrite lookup_insert_ne by congruence. reflexivity.
    + eexists _, _. split; reflexivity.
  - rewrite lookup_delete_eq. split; [reflexivity|]. split.
    + intros hub' name' Hne. rewrite lookup_delete_ne by congruence. reflexivity.
    + eexists _, _. split; reflexivity.
Qed.

(** X18.  After [db_vars_set] for a hub and a name,
    [db_vars_get] returns the value that was set (NULL if the value was
    NULL, which removes the variable), and it does so from the cache:
    nothing is queued and nothing changes.  The variables with another
    name or hub keep their values.  The call queues one request, the
    INSERT OR REPLACE or the DELETE with the name, hub and value, after
    the SELECT that the first use of the cache queues.  The hub is queued
    as a signed 64-bit number: itself below 2^63, and less 2^64 from
    there on. *)
Theorem db_vars_set_get (c : client) (hub : Z) (name : string) (val : option string) :
  NoDup (map var_key vars_rows) ->
  exists c',
    db_vars_set vars_rows hub name val c = Some c'
    /\ db_vars_get vars_rows hub name c' = Some (val, c')
    /\ (forall hub' name', (name', hub') <> (name, hub) ->
          fst <$> db_vars_get vars_rows hub' name' c'
          = fst <$> db_vars_get vars_rows hub' name' c)
    /\ exists c1 m,
        db_vars_cacheget vars_rows c = Some (m, c1)
        /\ db_queue c'
           = db_queue c1
             ++ [match val with
                 | Some v =>
                     Build_queue_item 0
                       "INSERT OR REPLACE INTO vars (name, hub, value) VALUES (?, ?, ?)"
                       [DBQ_TEXT name; DBQ_INT64 (to_gint64 hub); DBQ_TEXT v] None
                 | None =>
                     Build_queue_item 0 "DELETE FROM vars WHERE name = ? AND hub = ?"
                       [DBQ_TEXT name; DBQ_INT64 (to_gint64 hub)] None
                 end]
        /\ (0 <= hub < 2 ^ 63 -> to_gint64 hub = hub)
        /\ (2 ^ 63 <= hub < 2 ^ 64 -> to_gint64 hub = hub - 2 ^ 64).
Proof.
  intros Hnd.
  destruct (db_vars_set_then_get c hub name val Hnd) as (c' & H1 & H2 & H3 & c1 & m & H4 & H5).
  exists c'. do 3 (split; [assumption|]). exists c1, m. do 2 (split; [assumption|]).
  unfold to_gint64, wrap_signed, wrap_unsigned. split; intros Hh.
  - rewrite Z.mod_small by lia.
    destruct (Z.ltb_spec hub (2 ^ (64 - 1))); [reflexivity | lia].
  - rewrite Z.mod_small by lia.
    destruct (Z.ltb_spec hub (2 ^ (64 - 1))); [lia | reflexivity].
Qed.



(** X20.  [conf_get_bool] returns what [conf_set_bool] has set.  It
    returns FALSE for a variable that has been removed, and for every
    value other than the string "true". *)
Theorem conf_get_bool_set (c : client) (hub : Z) (name : string) (b : bool) :
  NoDup (map var_key vars_rows) ->
  (exists c', conf_set_bool vars_rows hub name b c = Some c'
     /\ conf_get_bool vars_rows hub name c' = Some (b, c'))
  /\ (exists c', db_vars_set vars_rows hub name None c = Some c'
       /\ conf_get_bool vars_rows hub name c' = Some (false, c'))
  /\ (forall v, v <> "true"%string -> c_string v = true ->
       exists c', db_vars_set vars_rows hub name (Some v) c = Some c'
         /\ conf_get_bool vars_rows hub name c' = Some (false, c')).
Proof.
  intros Hnd. split; [|split].
  - destruct (db_vars_set_then_get c hub name (Some (if b then "true" else "false")%string) Hnd)
      as (c' & Hset & Hget & _).
    exists c'. split; [exact Hset|]. unfold conf_get_bool. rewrite Hget. cbn.
    now destruct b.
  - destruct (db_vars_set_then_get c hub name None Hnd) as (c' & Hset & Hget & _).
    exists c'. split; [exact Hset|]. unfold conf_get_bool. now rewrite Hget.
  - intros v Hv Hcv.
    destruct (db_vars_set_then_get c hub name (Some v) Hnd) as (c' & Hset & Hget & _).
    exists c'. split; [exact Hset|]. unfold conf_get_bool. rewrite Hget. cbn.
    rewrite strcmp_zero_iff, bool_decide_eq_false_2 by (auto || reflexivity). reflexivity.
Qed.
End VarsFacts.

Section DbCacheExamples.
Import Db.

Lemma db_share_add_path_witness :
  let c' := db_share_add Samples.share_rows "b" "/srv/b" Samples.client_init in
  share_sorted (fst (db_share_list Samples.share_rows c'))
  /\ fst (db_share_path Samples.share_rows "b" c') = Some "/srv/b"%string
  /\ fst (db_share_path Samples.share_rows "a"
            (db_share_add Samples.share_rows "a" "/srv/a2" Samples.client_init))
     = Some "/srv/a"%string.
Proof.
  destruct (db_share_add_path Samples.share_rows Samples.client_init
              (snd (db_share_list Samples.share_rows Samples.client_init))
              Samples.share_rows "b" "/srv/b")
    as (Hs & _ & Hp & _).
  { reflexivity. }
  { reflexivity. }
  { repeat constructor. }
  { cbn. repeat split; repeat constructor; vm_compute; discriminate. }
  destruct (db_share_add_path Samples.share_rows Samples.client_init
              (snd (db_share_list Samples.share_rows Samples.client_init))
              Samples.share_rows "a" "/srv/a2")
    as (_ & _ & Hp2 & _).
  { reflexivity. }
  { reflexivity. }
  { repeat constructor. }
  { cbn. repeat split; repeat constructor; vm_compute; discriminate. }
  split; [exact Hs|]. split; [exact Hp | exact Hp2].
Defined.

Lemma db_share_rm_path_witness :
  let c' := db_share_rm Samples.share_rows (Some "a"%string) Samples.client_init in
  fst (db_share_path Samples.share_rows "a" c') = None
  /\ fst (db_share_path Samples.share_rows "c" c') = Some "/srv/c"%string.
Proof.
  destruct (db_share_rm_path Samples.share_rows Samples.client_init
              (snd (db_share_list Samples.share_rows Samples.client_init))
              Samples.share_rows "a")
    as (_ & _ & Hp & Ho & _).
  { reflexivity. }
  { reflexivity. }
  { repeat constructor. }
  split.
  - apply Hp. refine (bool_decide_unpack _ _); vm_compute; exact I.
  - apply (Ho "c"%string); [reflexivity | discriminate].
Defined.

Lemma db_vars_set_get_witness :
  exists c',
    db_vars_set Samples.vars_rows 7 "nick" (Some "me"%string) Samples.client_init = Some c'
    /\ db_vars_get Samples.vars_rows 7 "nick" c' = Some (Some "me"%string, c')
    /\ fst <$> db_vars_get Samples.vars_rows 0 "nick" c' = Some (Some "ncdc"%string).
Proof.
  destruct (db_vars_set_get Samples.vars_rows Samples.client_init 7 "nick" (Some "me"%string))
    as (c' & Hset & Hget & Hother & _).
  { refine (bool_decide_unpack _ _); vm_compute; exact I. }
  exists c'. split; [exact Hset|]. split; [exact Hget|].
  rewrite (Hother 0 "nick"%string) by discriminate. reflexivity.
Defined.


Lemma conf_get_bool_set_witness :
  exists c',
    conf_set_bool Samples.vars_rows 0 "active" true Samples.client_init = Some c'
    /\ conf_get_bool Samples.vars_rows 0 "active" c' = Some (true, c').
Proof.
  destruct (conf_get_bool_set Samples.vars_rows Samples.client_init 0 "active" true)
    as [H _].
  { refine (bool_decide_unpack _ _); vm_compute; exact I. }
  exact H.
Defined.

End DbCacheExamples.
